(** * A two-level cache simulator (main.c): shallow embedding and properties

    The development follows main.c.  Integers of the C program are [Z] with
    the 32-bit wrap-around of [unsigned int] written out; buffers are lists
    of bytes.  The functions live in the error monad [option]: every buffer
    and array access of the C code is bounds-checked in the model, and a
    function returns [None] where the C program would read or write outside
    a buffer, index an array out of range, or overflow an [int] statistic
    (undefined behaviour).  Shifts are the mathematical ones; the theorems
    that depend on the address decoding ask for a geometry with
    [s + b < 32], on which the shifts of the C code are defined.  RAM.dat is
    a [FILE]: its bytes, its position indicator, and the number of [fwrite]
    calls issued on it. *)

From Stdlib Require Import ZArith Lia String Ascii.
From stdpp Require Import base option list.

Local Open Scope Z_scope.

(** ** Machine integers and bytes *)

(** [unsigned char] *)
Abbreviation uchar := Z.

Definition wrap32 (x : Z) : Z := x mod 2 ^ 32.

Definition INT_MAX : Z := 2 ^ 31 - 1.

(** [++*p] on an [int]: signed overflow is undefined. *)
Definition incr (p : Z) : option Z :=
  if decide (p < INT_MAX) then Some (p + 1) else None.

(** ** Buffers *)

(** [memcpy(dst + off, src, n)]: [None] when it leaves [dst] or [src]. *)
Definition memcpy (dst : list uchar) (off : nat) (src : list uchar) (n : nat)
  : option (list uchar) :=
  if decide (off + n ≤ length dst ∧ n ≤ length src)%nat
  then Some (list_inserts off (take n src) dst)
  else None.

(** ** The RAM file *)

Record FILE := mkFILE {
  fbytes : list uchar;   (* content of the file *)
  fpos : nat;            (* file position indicator *)
  fwrites : nat          (* fwrite calls issued so far *)
}.

Definition fseek (fp : FILE) (offset : Z) : FILE :=
  mkFILE (fbytes fp) (Z.to_nat offset) (fwrites fp).

(** Writing [data] at position [pos]: a position past the end leaves a hole
    of zero bytes, and the file grows as needed. *)
Definition pwrite (pos : nat) (data content : list uchar) : list uchar :=
  take pos content ++ replicate (pos - length content) 0
    ++ data ++ drop (pos + length data) content.

(** [fread(buf, 1, n, fp)]: reads the bytes that are there, at most [n],
    into the front of [buf]. *)
Definition fread (buf : list uchar) (n : nat) (fp : FILE)
  : option (list uchar * FILE) :=
  let got := take n (drop (fpos fp) (fbytes fp)) in
  if decide (length got ≤ length buf)%nat
  then Some (got ++ drop (length got) buf,
             mkFILE (fbytes fp) (fpos fp + length got) (fwrites fp))
  else None.

(** [fwrite(buf, 1, n, fp)]. *)
Definition fwrite (buf : list uchar) (n : nat) (fp : FILE) : option FILE :=
  if decide (n ≤ length buf)%nat
  then Some (mkFILE (pwrite (fpos fp) (take n buf) (fbytes fp))
                    (fpos fp + n) (S (fwrites fp)))
  else None.

(** ** Trace operations and per-access results *)

Inductive OpType := LOAD | STORE | MODIFY | INST.

Record TraceOp := mkOp {
  op : OpType;
  address : Z;
  size : Z;
  data : string
}.

Record AccessResult := mkRes {
  l1_hit : Z; l1_miss : Z; l1_evict : Z;
  l2_hit : Z; l2_miss : Z; l2_evict : Z;
  placed_in_l1 : Z; placed_in_l2 : Z;
  set_l1 : Z; set_l2 : Z;
  wrote_to_ram : Z
}.

(** [memset(&res, 0, sizeof(AccessResult))] *)
Definition res0 : AccessResult := mkRes 0 0 0 0 0 0 0 0 0 0 0.

Definition with_l1_hit (r : AccessResult) (v : Z) : AccessResult :=
  mkRes v (l1_miss r) (l1_evict r) (l2_hit r) (l2_miss r) (l2_evict r)
        (placed_in_l1 r) (placed_in_l2 r) (set_l1 r) (set_l2 r) (wrote_to_ram r).
Definition with_l1_miss (r : AccessResult) (v : Z) : AccessResult :=
  mkRes (l1_hit r) v (l1_evict r) (l2_hit r) (l2_miss r) (l2_evict r)
        (placed_in_l1 r) (placed_in_l2 r) (set_l1 r) (set_l2 r) (wrote_to_ram r).
Definition with_l1_evict (r : AccessResult) (v : Z) : AccessResult :=
  mkRes (l1_hit r) (l1_miss r) v (l2_hit r) (l2_miss r) (l2_evict r)
        (placed_in_l1 r) (placed_in_l2 r) (set_l1 r) (set_l2 r) (wrote_to_ram r).
Definition with_l2_hit (r : AccessResult) (v : Z) : AccessResult :=
  mkRes (l1_hit r) (l1_miss r) (l1_evict r) v (l2_miss r) (l2_evict r)
        (placed_in_l1 r) (placed_in_l2 r) (set_l1 r) (set_l2 r) (wrote_to_ram r).
Definition with_l2_miss (r : AccessResult) (v : Z) : AccessResult :=
  mkRes (l1_hit r) (l1_miss r) (l1_evict r) (l2_hit r) v (l2_evict r)
        (placed_in_l1 r) (placed_in_l2 r) (set_l1 r) (set_l2 r) (wrote_to_ram r).
Definition with_l2_evict (r : AccessResult) (v : Z) : AccessResult :=
  mkRes (l1_hit r) (l1_miss r) (l1_evict r) (l2_hit r) (l2_miss r) v
        (placed_in_l1 r) (placed_in_l2 r) (set_l1 r) (set_l2 r) (wrote_to_ram r).
Definition with_placed_in_l1 (r : AccessResult) (v : Z) : AccessResult :=
  mkRes (l1_hit r) (l1_miss r) (l1_evict r) (l2_hit r) (l2_miss r) (l2_evict r)
        v (placed_in_l2 r) (set_l1 r) (set_l2 r) (wrote_to_ram r).
Definition with_placed_in_l2 (r : AccessResult) (v : Z) : AccessResult :=
  mkRes (l1_hit r) (l1_miss r) (l1_evict r) (l2_hit r) (l2_miss r) (l2_evict r)
        (placed_in_l1 r) v (set_l1 r) (set_l2 r) (wrote_to_ram r).
Definition with_set_l1 (r : AccessResult) (v : Z) : AccessResult :=
  mkRes (l1_hit r) (l1_miss r) (l1_evict r) (l2_hit r) (l2_miss r) (l2_evict r)
        (placed_in_l1 r) (placed_in_l2 r) v (set_l2 r) (wrote_to_ram r).
Definition with_set_l2 (r : AccessResult) (v : Z) : AccessResult :=
  mkRes (l1_hit r) (l1_miss r) (l1_evict r) (l2_hit r) (l2_miss r) (l2_evict r)
        (placed_in_l1 r) (placed_in_l2 r) (set_l1 r) v (wrote_to_ram r).
Definition with_wrote_to_ram (r : AccessResult) (v : Z) : AccessResult :=
  mkRes (l1_hit r) (l1_miss r) (l1_evict r) (l2_hit r) (l2_miss r) (l2_evict r)
        (placed_in_l1 r) (placed_in_l2 r) (set_l1 r) (set_l2 r) v.

(** The three [int] statistics of one cache ([*L1_hit], [*L1_miss],
    [*L1_evict], or the L2 ones), passed by pointer in the C code. *)
Record Counters := mkCnt { hit : Z; miss : Z; evict : Z }.

Definition incr_hit (c : Counters) : option Counters :=
  h ← incr (hit c); Some (mkCnt h (miss c) (evict c)).
Definition incr_miss (c : Counters) : option Counters :=
  m ← incr (miss c); Some (mkCnt (hit c) m (evict c)).
Definition incr_evict (c : Counters) : option Counters :=
  e ← incr (evict c); Some (mkCnt (hit c) (miss c) e).

(** ** Caches *)

(** [valid] is an [int] in C that is only ever assigned 0 or 1 and only
    tested for truth. *)
Record CacheLine := mkLine {
  valid : bool;
  tag : Z;
  fifo_counter : Z;
  block : list uchar
}.

Record CacheSet := mkSet { lines : list CacheLine }.

Module Cache.
Record t := mk {
  sets : list CacheSet;
  s : Z;
  E : Z;
  b : Z;
  S : Z;
  B : Z;
  fifo_time : Z
}.
End Cache.

(** What [malloc] left in the block buffers of a new cache: the byte at
    offset [k] of the block of line [j] of set [i].  Every block is
    allocated on its own and none is initialised. *)
Definition Junk : Type := nat → nat → nat → uchar.

(** The same byte everywhere. *)
Definition uniform (v : uchar) : Junk := λ _ _ _, v.

(** [create_cache]: every line invalid, tag and fifo_counter 0.  The block
    of a new line is [malloc]ed and not initialised; [junk] stands for what
    it holds. *)
Definition create_cache_with (junk : Junk) (s E b : Z) : Cache.t :=
  let S := wrap32 (Z.shiftl 1 s) in
  let B := wrap32 (Z.shiftl 1 b) in
  Cache.mk
    ((λ i, mkSet ((λ j, mkLine false 0 0 (junk i j <$> seq 0 (Z.to_nat B)))
                    <$> seq 0 (Z.to_nat E)))
       <$> seq 0 (Z.to_nat S))
    s E b S B 0.

(** [create_cache] on a heap that holds zero bytes; the concrete states of
    the examples are built with it. *)
Definition create_cache : Z → Z → Z → Cache.t := create_cache_with (uniform 0).

(** [cache->sets[set_index].lines[i]] *)
Definition get_line (c : Cache.t) (set_index : Z) (i : nat) : option CacheLine :=
  set ← Cache.sets c !! Z.to_nat set_index;
  lines set !! i.

(** [cache->sets[set_index].lines[i] = l] *)
Definition put_line (c : Cache.t) (set_index : Z) (i : nat) (l : CacheLine)
  : Cache.t :=
  Cache.mk
    (alter (λ set, mkSet (<[i := l]> (lines set))) (Z.to_nat set_index)
           (Cache.sets c))
    (Cache.s c) (Cache.E c) (Cache.b c) (Cache.S c) (Cache.B c)
    (Cache.fifo_time c).

Definition with_fifo_time (c : Cache.t) (t : Z) : Cache.t :=
  Cache.mk (Cache.sets c) (Cache.s c) (Cache.E c) (Cache.b c) (Cache.S c)
           (Cache.B c) t.

(** ** Address decoding *)

(** [extract_address_parts]: returns (tag, set, offset). *)
Definition extract_address_parts (address s b : Z) : Z * Z * Z :=
  let mask := wrap32 (Z.shiftl 1 b - 1) in
  let offset := Z.land address mask in
  let mask := wrap32 (Z.shiftl 1 s - 1) in
  let set := Z.land (Z.shiftr address b) mask in
  let tag := Z.shiftr address (b + s) in
  (tag, set, offset).

(** ** Line lookup and victim selection *)

(** The outcome of [find_line]: a return value [i] other than -1 is
    [Hit i]; the return value -1 with [*victim = v] is [Miss v].  On a hit
    [*victim] is not written, and no caller reads it. *)
Inductive lookup := Hit (i : nat) | Miss (victim : nat).

(** The [for] loop of [find_line], with [n] iterations left. *)
Fixpoint find_line_loop (n : nat) (ls : list CacheLine) (t : Z)
    (i oldest : nat) (oldest_counter : Z) : option lookup :=
  match n with
  | O => Some (Miss oldest)
  | S n' =>
      line ← ls !! i;
      if valid line && (tag line =? t) then Some (Hit i)
      else if negb (valid line) then Some (Miss i)
      else if fifo_counter line <? oldest_counter
           then find_line_loop n' ls t (S i) i (fifo_counter line)
           else find_line_loop n' ls t (S i) oldest oldest_counter
  end.

Definition find_line (cache : Cache.t) (set_index t : Z) : option lookup :=
  set ← Cache.sets cache !! Z.to_nat set_index;
  line0 ← lines set !! 0%nat;
  find_line_loop (Z.to_nat (Cache.E cache)) (lines set) t 0 0
                 (fifo_counter line0).

(** ** Backing-store helpers *)

(** [address & ~(block_size - 1)] on [unsigned int]. *)
Definition block_start_of (address block_size : Z) : Z :=
  Z.land address (wrap32 (Z.lnot (wrap32 (block_size - 1)))).

(** [read_block_from_ram]: returns the new content of [block] and the
    stream. *)
Definition read_block_from_ram (ram_fp : FILE) (address : Z)
    (block : list uchar) (block_size : Z) : option (list uchar * FILE) :=
  let ram_fp := fseek ram_fp (block_start_of address block_size) in
  fread block (Z.to_nat block_size) ram_fp.

(** [address - block_start], the [offset] of [write_block_to_ram]. *)
Definition offset_in_block (address block_size : Z) : Z :=
  wrap32 (address - block_start_of address block_size).

(** [write_block_to_ram], with its 64-byte [temp_block]. *)
Definition write_block_to_ram (ram_fp : FILE) (address : Z)
    (data : list uchar) (num_bytes : nat) (block_size : Z) : option FILE :=
  let temp_block := replicate 64 0 in
  let block_start := block_start_of address block_size in
  let offset := offset_in_block address block_size in
  let ram_fp := fseek ram_fp block_start in
  '(temp_block, ram_fp) ← fread temp_block (Z.to_nat block_size) ram_fp;
  temp_block ← memcpy temp_block (Z.to_nat offset) data num_bytes;
  let ram_fp := fseek ram_fp block_start in
  fwrite temp_block (Z.to_nat block_size) ram_fp.

(** ** Decoding the data of a STORE *)

Definition hex_digit (c : ascii) : option Z :=
  let n := Z.of_N (N_of_ascii c) in
  if (48 <=? n) && (n <=? 57) then Some (n - 48)
  else if (97 <=? n) && (n <=? 102) then Some (n - 87)
  else if (65 <=? n) && (n <=? 70) then Some (n - 55)
  else None.

(** [sscanf(p, "%2hhx", &byte)] on the two characters [c1 c2] at [p], the
    byte being 0 before the call: at most two characters are converted; a
    sign counts as one of them; when nothing converts the byte stays 0.
    ([op->data] is filled by [%31s], so it holds no white space.) *)
Definition scan_hhx2 (c1 c2 : ascii) : uchar :=
  match hex_digit c1, hex_digit c2 with
  | Some d1, Some d2 => 16 * d1 + d2
  | Some d1, None => d1
  | None, Some d2 =>
      if Ascii.eqb c1 "-" then (256 - d2) mod 256
      else if Ascii.eqb c1 "+" then d2
      else 0
  | None, None => 0
  end.

(** The loop filling [data_bytes[0 .. strlen(data)/2)]. *)
Fixpoint decode_pairs (str : string) : list uchar :=
  match str with
  | String c1 (String c2 rest) => scan_hhx2 c1 c2 :: decode_pairs rest
  | _ => []
  end.

(** [strlen(op->data) / 2] *)
Definition num_bytes_of (str : string) : nat := (String.length str / 2)%nat.
Global Arguments num_bytes_of : simpl never.

(** ** The access protocol *)

(** The four statements that fill a line:
    [valid = 1; tag = t; fifo_counter = cache->fifo_time++;
     read_block_from_ram(ram_fp, address, block, cache->B)]. *)
Definition fill_line (cache : Cache.t) (set_index : Z) (victim : nat) (t : Z)
    (ram_fp : FILE) (address : Z) : option (Cache.t * FILE) :=
  old ← get_line cache set_index victim;
  '(blk, ram_fp) ←
     read_block_from_ram ram_fp address (block old) (Cache.B cache);
  Some (with_fifo_time
          (put_line cache set_index victim
             (mkLine true t (Cache.fifo_time cache) blk))
          (wrap32 (Cache.fifo_time cache + 1)),
        ram_fp).

(** [memcpy(cache->sets[set_index].lines[i].block + offset, data_bytes,
    num_bytes)] *)
Definition write_line (cache : Cache.t) (set_index : Z) (i : nat)
    (offset : Z) (data_bytes : list uchar) (num_bytes : nat)
  : option Cache.t :=
  old ← get_line cache set_index i;
  blk ← memcpy (block old) (Z.to_nat offset) data_bytes num_bytes;
  Some (put_line cache set_index i
          (mkLine (valid old) (tag old) (fifo_counter old) blk)).

Definition access_load (L1 L2 : Cache.t) (address : Z)
    (L1_stats L2_stats : Counters) (ram_fp : FILE) (result : AccessResult)
  : option (Cache.t * Cache.t * Counters * Counters * FILE * AccessResult) :=
  (* Step 1: L1 lookup *)
  let '(l1_tag, l1_set, l1_off) :=
    extract_address_parts address (Cache.s L1) (Cache.b L1) in
  r1 ← find_line L1 l1_set l1_tag;
  let result := with_set_l1 result l1_set in
  match r1 with
  | Hit l1_idx =>
      L1_stats ← incr_hit L1_stats;
      let result := with_l1_hit result 1 in
      Some (L1, L2, L1_stats, L2_stats, ram_fp, result)
  | Miss l1_victim =>
      L1_stats ← incr_miss L1_stats;
      let result := with_l1_miss result 1 in
      (* Step 2: L2 lookup *)
      let '(l2_tag, l2_set, l2_off) :=
        extract_address_parts address (Cache.s L2) (Cache.b L2) in
      r2 ← find_line L2 l2_set l2_tag;
      let result := with_set_l2 result l2_set in
      '(L2, L2_stats, ram_fp, result) ←
        match r2 with
        | Hit l2_idx =>
            L2_stats ← incr_hit L2_stats;
            Some (L2, L2_stats, ram_fp, with_l2_hit result 1)
        | Miss l2_victim =>
            L2_stats ← incr_miss L2_stats;
            let result := with_l2_miss result 1 in
            vline ← get_line L2 l2_set l2_victim;
            '(L2_stats, result) ←
              (if valid vline
               then L2_stats ← incr_evict L2_stats;
                    Some (L2_stats, with_l2_evict result 1)
               else Some (L2_stats, result));
            '(L2, ram_fp) ← fill_line L2 l2_set l2_victim l2_tag ram_fp address;
            Some (L2, L2_stats, ram_fp, with_placed_in_l2 result 1)
        end;
      (* always fill L1 after a miss *)
      vline ← get_line L1 l1_set l1_victim;
      L1_stats ← (if valid vline then incr_evict L1_stats else Some L1_stats);
      let result := with_l1_evict result 1 in
      '(L1, ram_fp) ← fill_line L1 l1_set l1_victim l1_tag ram_fp address;
      let result := with_placed_in_l1 result 1 in
      Some (L1, L2, L1_stats, L2_stats, ram_fp, result)
  end.

(** The L2 part of [access_store]; the same statements stand in the L1-hit
    branch (lines 510-541) and in the L1-miss branch (lines 557-586). *)
Definition store_l2 (L2 : Cache.t) (address : Z) (L2_stats : Counters)
    (ram_fp : FILE) (data_bytes : list uchar) (num_bytes : nat)
    (result : AccessResult)
  : option (Cache.t * Counters * FILE * AccessResult) :=
  let '(l2_tag, l2_set, l2_off) :=
    extract_address_parts address (Cache.s L2) (Cache.b L2) in
  r2 ← find_line L2 l2_set l2_tag;
  let result := with_set_l2 result l2_set in
  let l2_offset := Z.land address (wrap32 (Cache.B L2 - 1)) in
  match r2 with
  | Hit l2_idx =>
      L2_stats ← incr_hit L2_stats;
      let result := with_l2_hit result 1 in
      L2 ← write_line L2 l2_set l2_idx l2_offset data_bytes num_bytes;
      Some (L2, L2_stats, ram_fp, result)
  | Miss l2_victim =>
      L2_stats ← incr_miss L2_stats;
      let result := with_l2_miss result 1 in
      vline ← get_line L2 l2_set l2_victim;
      '(L2_stats, result) ←
        (if valid vline
         then L2_stats ← incr_evict L2_stats;
              Some (L2_stats, with_l2_evict result 1)
         else Some (L2_stats, result));
      '(L2, ram_fp) ← fill_line L2 l2_set l2_victim l2_tag ram_fp address;
      let result := with_placed_in_l2 result 1 in
      L2 ← write_line L2 l2_set l2_victim l2_offset data_bytes num_bytes;
      Some (L2, L2_stats, ram_fp, result)
  end.

Definition access_store (L1 L2 : Cache.t) (address : Z)
    (L1_stats L2_stats : Counters) (ram_fp : FILE) (o : TraceOp)
    (result : AccessResult)
  : option (Cache.t * Cache.t * Counters * Counters * FILE * AccessResult) :=
  let '(l1_tag, l1_set, l1_off) :=
    extract_address_parts address (Cache.s L1) (Cache.b L1) in
  r1 ← find_line L1 l1_set l1_tag;
  let result := with_set_l1 result l1_set in
  (* unsigned char data_bytes[32] = {0}, filled from op->data *)
  let num_bytes := num_bytes_of (data o) in
  let data_bytes := decode_pairs (data o) in
  guard (num_bytes ≤ 32)%nat;;
  let l1_offset := Z.land address (wrap32 (Cache.B L1 - 1)) in
  match r1 with
  | Hit l1_idx =>
      L1_stats ← incr_hit L1_stats;
      let result := with_l1_hit result 1 in
      L1 ← write_line L1 l1_set l1_idx l1_offset data_bytes num_bytes;
      '(L2, L2_stats, ram_fp, result) ←
        store_l2 L2 address L2_stats ram_fp data_bytes num_bytes result;
      ram_fp ← write_block_to_ram ram_fp address data_bytes num_bytes
                 (Cache.B L1);
      let result := with_wrote_to_ram result 1 in
      Some (L1, L2, L1_stats, L2_stats, ram_fp, result)
  | Miss l1_victim =>
      L1_stats ← incr_miss L1_stats;
      let result := with_l1_miss result 1 in
      ram_fp ← write_block_to_ram ram_fp address data_bytes num_bytes
                 (Cache.B L1);
      let result := with_wrote_to_ram result 1 in
      '(L2, L2_stats, ram_fp, result) ←
        store_l2 L2 address L2_stats ram_fp data_bytes num_bytes result;
      Some (L1, L2, L1_stats, L2_stats, ram_fp, result)
  end.

(** [access_modify]: both records are cleared, filled by the load and by
    the store, and returned. *)
Definition access_modify (L1 L2 : Cache.t) (address : Z)
    (L1_stats L2_stats : Counters) (ram_fp : FILE) (o : TraceOp)
    (load_res store_res : AccessResult)
  : option (Cache.t * Cache.t * Counters * Counters * FILE
            * AccessResult * AccessResult) :=
  let load_res := res0 in
  '(L1, L2, L1_stats, L2_stats, ram_fp, load_res) ←
    access_load L1 L2 address L1_stats L2_stats ram_fp load_res;
  let store_res := res0 in
  '(L1, L2, L1_stats, L2_stats, ram_fp, store_res) ←
    access_store L1 L2 address L1_stats L2_stats ram_fp o store_res;
  Some (L1, L2, L1_stats, L2_stats, ram_fp, load_res, store_res).

(** ** The replay loop of [main] *)

Record CacheParams := mkParams {
  L1s : Z; L1E : Z; L1b : Z;
  L2s : Z; L2E : Z; L2b : Z;
  tracefile : string
}.

(** The test that guards the usage message of [main]. *)
Definition params_rejected (p : CacheParams) : bool :=
  (L1s p <? 0) || (L1E p <? 0) || (L1b p <? 0)
  || (L2s p <? 0) || (L2E p <? 0) || (L2b p <? 0)
  || (String.length (tracefile p) =? 0)%nat.

(** What the loop of [main] owns: the three caches, the nine statistics and
    the RAM stream. *)
Record Sim := mkSim {
  L1D : Cache.t; L1I : Cache.t; L2 : Cache.t;
  L1D_stats : Counters; L1I_stats : Counters; L2_stats : Counters;
  ram_fp : FILE
}.

(** [main] up to the loop; [ram] is the content of RAM.dat, and [junk n]
    is what the blocks of the [n]-th cache hold when it is created: L1D
    first, then L1I, then L2. *)
Definition main_init (junk : nat → Junk) (p : CacheParams) (ram : list uchar)
  : option Sim :=
  if params_rejected p then None
  else Some (mkSim (create_cache_with (junk 0%nat) (L1s p) (L1E p) (L1b p))
                   (create_cache_with (junk 1%nat) (L1s p) (L1E p) (L1b p))
                   (create_cache_with (junk 2%nat) (L2s p) (L2E p) (L2b p))
                   (mkCnt 0 0 0) (mkCnt 0 0 0) (mkCnt 0 0 0)
                   (mkFILE ram 0 0)).

(** One iteration of the loop on a parsed operation: the state after it and
    the two records [load_res], [store_res]. *)
Definition step (st : Sim) (o : TraceOp)
  : option (Sim * AccessResult * AccessResult) :=
  let load_res := res0 in
  let store_res := res0 in
  match op o with
  | LOAD =>
      '(l1, l2, c1, c2, fp, load_res) ←
        access_load (L1D st) (L2 st) (address o) (L1D_stats st) (L2_stats st)
                    (ram_fp st) load_res;
      Some (mkSim l1 (L1I st) l2 c1 (L1I_stats st) c2 fp, load_res, store_res)
  | INST =>
      '(l1, l2, c1, c2, fp, load_res) ←
        access_load (L1I st) (L2 st) (address o) (L1I_stats st) (L2_stats st)
                    (ram_fp st) load_res;
      Some (mkSim (L1D st) l1 l2 (L1D_stats st) c1 c2 fp, load_res, store_res)
  | STORE =>
      '(l1, l2, c1, c2, fp, store_res) ←
        access_store (L1D st) (L2 st) (address o) (L1D_stats st) (L2_stats st)
                     (ram_fp st) o store_res;
      Some (mkSim l1 (L1I st) l2 c1 (L1I_stats st) c2 fp, load_res, store_res)
  | MODIFY =>
      '(l1, l2, c1, c2, fp, load_res, store_res) ←
        access_modify (L1D st) (L2 st) (address o) (L1D_stats st)
                      (L2_stats st) (ram_fp st) o load_res store_res;
      Some (mkSim l1 (L1I st) l2 c1 (L1I_stats st) c2 fp, load_res, store_res)
  end.

(** The loop over the parsed operations of the trace. *)
Fixpoint run (st : Sim) (ops : list TraceOp) : option Sim :=
  match ops with
  | [] => Some st
  | o :: ops' => '(st', _, _) ← step st o; run st' ops'
  end.

(** The records of every operation, in order. *)
Fixpoint run_log (st : Sim) (ops : list TraceOp)
  : option (list (AccessResult * AccessResult)) :=
  match ops with
  | [] => Some []
  | o :: ops' =>
      '(st', lr, sr) ← step st o;
      rest ← run_log st' ops';
      Some ((lr, sr) :: rest)
  end.


(** ** Routines of main.c that [main] does not call *)

(** [extract_address_parts_old]: returns (tag, set_index, block_offset). *)
Definition extract_address_parts_old (address s b : Z) : Z * Z * Z :=
  let block_offset := Z.land address (wrap32 (Z.shiftl 1 b - 1)) in
  let set_index := Z.land (Z.shiftr address b) (wrap32 (Z.shiftl 1 s - 1)) in
  let tag := Z.shiftr address (s + b) in
  (tag, set_index, block_offset).

(** [write_block_to_ram_old]: the whole of [block] goes to the file. *)
Definition write_block_to_ram_old (ram_fp : FILE) (address : Z)
    (block : list uchar) (block_size : Z) : option FILE :=
  let ram_fp := fseek ram_fp (block_start_of address block_size) in
  fwrite block (Z.to_nat block_size) ram_fp.

(** The three statements that claim a line where no block is read:
    [valid = 1; tag = t; fifo_counter = cache->fifo_time++]. *)
Definition mark_line (cache : Cache.t) (set_index : Z) (victim : nat) (t : Z)
  : option Cache.t :=
  old ← get_line cache set_index victim;
  Some (with_fifo_time
          (put_line cache set_index victim
             (mkLine true t (Cache.fifo_time cache) (block old)))
          (wrap32 (Cache.fifo_time cache + 1))).

(** [access_load_without_ram]: the statistics and the line bookkeeping of a
    load; [ram] is not used. *)
Definition access_load_without_ram (L1 L2 : Cache.t) (address : Z)
    (L1_stats L2_stats : Counters) (ram : FILE)
  : option (Cache.t * Cache.t * Counters * Counters) :=
  (* Step 1: L1 lookup *)
  let '(l1_tag, l1_set, l1_off) :=
    extract_address_parts address (Cache.s L1) (Cache.b L1) in
  r1 ← find_line L1 l1_set l1_tag;
  match r1 with
  | Hit l1_idx =>
      L1_stats ← incr_hit L1_stats;
      Some (L1, L2, L1_stats, L2_stats)
  | Miss l1_victim =>
      L1_stats ← incr_miss L1_stats;
      (* Step 2: L2 lookup *)
      let '(l2_tag, l2_set, l2_off) :=
        extract_address_parts address (Cache.s L2) (Cache.b L2) in
      r2 ← find_line L2 l2_set l2_tag;
      '(L2, L2_stats) ←
        match r2 with
        | Hit l2_idx =>
            L2_stats ← incr_hit L2_stats;
            Some (L2, L2_stats)
        | Miss l2_victim =>
            L2_stats ← incr_miss L2_stats;
            vline ← get_line L2 l2_set l2_victim;
            L2_stats ← (if valid vline then incr_evict L2_stats
                        else Some L2_stats);
            L2 ← mark_line L2 l2_set l2_victim l2_tag;
            Some (L2, L2_stats)
        end;
      (* always fill L1 after a miss *)
      vline ← get_line L1 l1_set l1_victim;
      L1_stats ← (if valid vline then incr_evict L1_stats else Some L1_stats);
      L1 ← mark_line L1 l1_set l1_victim l1_tag;
      Some (L1, L2, L1_stats, L2_stats)
  end.

(** The [access_load] of cache_logic.c: the same statements, without the
    stream parameter. *)
Module CacheLogic.
Definition access_load (L1 L2 : Cache.t) (address : Z)
    (L1_stats L2_stats : Counters)
  : option (Cache.t * Cache.t * Counters * Counters) :=
  let '(l1_tag, l1_set, l1_off) :=
    extract_address_parts address (Cache.s L1) (Cache.b L1) in
  r1 ← find_line L1 l1_set l1_tag;
  match r1 with
  | Hit l1_idx =>
      L1_stats ← incr_hit L1_stats;
      Some (L1, L2, L1_stats, L2_stats)
  | Miss l1_victim =>
      L1_stats ← incr_miss L1_stats;
      let '(l2_tag, l2_set, l2_off) :=
        extract_address_parts address (Cache.s L2) (Cache.b L2) in
      r2 ← find_line L2 l2_set l2_tag;
      '(L2, L2_stats) ←
        match r2 with
        | Hit l2_idx =>
            L2_stats ← incr_hit L2_stats;
            Some (L2, L2_stats)
        | Miss l2_victim =>
            L2_stats ← incr_miss L2_stats;
            vline ← get_line L2 l2_set l2_victim;
            L2_stats ← (if valid vline then incr_evict L2_stats
                        else Some L2_stats);
            L2 ← mark_line L2 l2_set l2_victim l2_tag;
            Some (L2, L2_stats)
        end;
      vline ← get_line L1 l1_set l1_victim;
      L1_stats ← (if valid vline then incr_evict L1_stats else Some L1_stats);
      L1 ← mark_line L1 l1_set l1_victim l1_tag;
      Some (L1, L2, L1_stats, L2_stats)
  end.
End CacheLogic.

(** The L2 part of [access_store_without_ram]; the same statements stand in
    the L1-hit branch (lines 419-442) and in the L1-miss branch (lines
    451-474). *)
Definition store_l2_without_ram (L2 : Cache.t) (address : Z)
    (L2_stats : Counters) (res : AccessResult)
  : option (Cache.t * Counters * AccessResult) :=
  let '(l2_tag, l2_set, l2_off) :=
    extract_address_parts address (Cache.s L2) (Cache.b L2) in
  r2 ← find_line L2 l2_set l2_tag;
  let res := with_set_l2 res l2_set in
  match r2 with
  | Hit l2_idx =>
      L2_stats ← incr_hit L2_stats;
      Some (L2, L2_stats, with_l2_hit res 1)
  | Miss l2_victim =>
      L2_stats ← incr_miss L2_stats;
      let res := with_l2_miss res 1 in
      vline ← get_line L2 l2_set l2_victim;
      '(L2_stats, res) ←
        (if valid vline
         then L2_stats ← incr_evict L2_stats;
              Some (L2_stats, with_l2_evict res 1)
         else Some (L2_stats, res));
      L2 ← mark_line L2 l2_set l2_victim l2_tag;
      Some (L2, L2_stats, res)
  end.

(** [access_store_without_ram]: L1 is read by the lookup and never
    written. *)
Definition access_store_without_ram (L1 L2 : Cache.t) (address : Z)
    (L1_stats L2_stats : Counters) (res : AccessResult)
  : option (Cache.t * Cache.t * Counters * Counters * AccessResult) :=
  let '(l1_tag, l1_set, l1_off) :=
    extract_address_parts address (Cache.s L1) (Cache.b L1) in
  r1 ← find_line L1 l1_set l1_tag;
  let res := with_set_l1 res l1_set in
  match r1 with
  | Hit l1_idx =>
      L1_stats ← incr_hit L1_stats;
      let res := with_l1_hit res 1 in
      '(L2, L2_stats, res) ← store_l2_without_ram L2 address L2_stats res;
      Some (L1, L2, L1_stats, L2_stats, res)
  | Miss l1_victim =>
      L1_stats ← incr_miss L1_stats;
      let res := with_l1_miss res 1 in
      '(L2, L2_stats, res) ← store_l2_without_ram L2 address L2_stats res;
      Some (L1, L2, L1_stats, L2_stats, res)
  end.

(** ** The log of [main] *)

(** The test [if (x)] on an [int]. *)
Definition truthy (x : Z) : bool := negb (x =? 0).

(** The strings [l1_res], [l2_res] and [action] at the end of one iteration
    of the loop (lines 926-1009); each is empty unless a [strcpy] fills
    it. *)
Definition log_strings (o : TraceOp) (load_res store_res : AccessResult)
  : string * string * string :=
  match op o with
  | LOAD =>
      let l1_res :=
        if truthy (l1_hit load_res) then "L1D hit"
        else if truthy (l1_miss load_res) then "L1D miss" else "" in
      let l2_res :=
        if truthy (l2_hit load_res) then "L2 hit"
        else if truthy (l2_miss load_res) then "L2 miss" else "" in
      let action :=
        if truthy (placed_in_l1 load_res) then "Place in L1D"
        else if truthy (placed_in_l2 load_res) then "Place in L2" else "" in
      (l1_res, l2_res, action)
  | INST =>
      let l1_res :=
        if truthy (l1_hit load_res) then "L1I hit"
        else if truthy (l1_miss load_res) then "L1I miss" else "" in
      let l2_res :=
        if truthy (l2_hit load_res) then "L2 hit"
        else if truthy (l2_miss load_res) then "L2 miss" else "" in
      let action :=
        if truthy (placed_in_l1 load_res) then "Place in L1I"
        else if truthy (placed_in_l2 load_res) then "Place in L2" else "" in
      (l1_res, l2_res, action)
  | STORE =>
      let l1_res :=
        if truthy (l1_hit store_res) then "L1D hit"
        else if truthy (l1_miss store_res) then "L1D miss" else "" in
      let l2_res :=
        if truthy (l2_hit store_res) then "L2 hit"
        else if truthy (l2_miss store_res) then "L2 miss" else "" in
      let action :=
        if truthy (l1_hit store_res) && truthy (l2_hit store_res)
           && truthy (wrote_to_ram store_res)
        then "Store in L1D, L2, RAM"
        else if truthy (l2_hit store_res) && truthy (wrote_to_ram store_res)
        then "Store in L2, RAM"
        else if truthy (wrote_to_ram store_res) then "Store in RAM"
        else "" in
      (l1_res, l2_res, action)
  | MODIFY =>
      (* the LOAD part *)
      let l1_res :=
        if truthy (l1_hit load_res) then "L1D hit"
        else if truthy (l1_miss load_res) then "L1D miss" else "" in
      let l2_res :=
        if truthy (l2_hit load_res) then "L2 hit"
        else if truthy (l2_miss load_res) then "L2 miss" else "" in
      (* the STORE part *)
      let action :=
        if truthy (l1_hit store_res) && truthy (l2_hit store_res)
           && truthy (wrote_to_ram store_res)
        then "Store in L1D, L2, RAM"
        else if truthy (l2_hit store_res) && truthy (wrote_to_ram store_res)
        then "Store in L2, RAM"
        else if truthy (wrote_to_ram store_res) then "Store in RAM"
        else "" in
      (l1_res, l2_res, action)
  end%string.

(** ** The dump of a cache *)

(** One digit of [%x], [%u] or [%d]. *)
Definition digit_char (d : Z) : ascii :=
  ascii_of_N (Z.to_N (if d <? 10 then 48 + d else 87 + d)).

(** The digits of [n] in base [base], most significant first, in front of
    [acc]; [fuel] bounds their number. *)
Fixpoint digits (base : Z) (fuel : nat) (n : Z) (acc : string) : string :=
  match fuel with
  | O => acc
  | S fuel' =>
      let acc := String (digit_char (n mod base)) acc in
      if n / base =? 0 then acc else digits base fuel' (n / base) acc
  end.

(** [%x] and [%u] on an [unsigned int], [%d] on an [int]. *)
Definition fmt_x (n : Z) : string := digits 16 8 n "".
Definition fmt_u (n : Z) : string := digits 10 10 n "".
Definition fmt_d (n : Z) : string :=
  if n <? 0 then String "-" (digits 10 10 (- n) "") else digits 10 10 n "".

(** [%02x] *)
Definition fmt_02x (n : Z) : string :=
  let str := fmt_x n in
  if (String.length str <? 2)%nat then String "0" str else str.

Definition newline : string := String (ascii_of_nat 10) "".

(** The loop [for (k = 0; k < cache->B; ++k) fprintf(fp, "%02x",
    line->block[k])]. *)
Definition print_block (cache : Cache.t) (line : CacheLine) : option string :=
  bytes ← mapM (λ k, fmt_02x <$> block line !! k)
               (seq 0 (Z.to_nat (Cache.B cache)));
  Some (String.concat "" bytes).

(** What [print_cache_to_file] writes for line [j] of a set. *)
Definition print_line (cache : Cache.t) (j : nat) (line : CacheLine)
  : option string :=
  if valid line then
    hex ← print_block cache line;
    Some (String.concat ""
            ["  Line "; fmt_d (Z.of_nat j); ": Valid=1, Tag=0x";
             fmt_x (tag line); ", Time="; fmt_u (fifo_counter line);
             ", Data="; hex; newline]%string)
  else
    Some (String.concat ""
            ["  Line "; fmt_d (Z.of_nat j); ": Valid=0, Tag=-"; newline]%string).

(** What it writes for set [i]. *)
Definition print_set (cache : Cache.t) (i : nat) : option string :=
  set ← Cache.sets cache !! i;
  ls ← mapM (λ j, line ← lines set !! j; print_line cache j line)
            (seq 0 (Z.to_nat (Cache.E cache)));
  Some (String.concat ""
          (["Set "; fmt_u (Z.of_nat i); ":"; newline]%string ++ ls)).

(** [print_cache_to_file]: the content of the file it writes, once
    [fopen] has succeeded. *)
Definition print_cache_to_file (cache : Cache.t) : option string :=
  sets ← mapM (print_set cache) (seq 0 (Z.to_nat (Cache.S cache)));
  Some (String.concat "" sets).
(** ** Predicates on sets of lines *)

(** Every line before index [i] is valid and carries another tag: the scan
    of [find_line] gets to [i]. *)
Definition scanned (ls : list CacheLine) (t : Z) (i : nat) : Prop :=
  ∀ j l, (j < i)%nat → ls !! j = Some l → valid l = true ∧ tag l ≠ t.

Definition all_valid (ls : list CacheLine) : Prop :=
  ∀ j l, ls !! j = Some l → valid l = true.

(** Line [v] is invalid and every line before it is valid. *)
Definition first_invalid (ls : list CacheLine) (v : nat) : Prop :=
  (∃ l, ls !! v = Some l ∧ valid l = false)
  ∧ ∀ j l, (j < v)%nat → ls !! j = Some l → valid l = true.

(** Line [v] has the smallest fifo_counter of the set, and is the first
    such line. *)
Definition oldest_line (ls : list CacheLine) (v : nat) : Prop :=
  ∃ l, ls !! v = Some l
    ∧ (∀ j lj, ls !! j = Some lj → fifo_counter l ≤ fifo_counter lj)
    ∧ (∀ j lj, (j < v)%nat → ls !! j = Some lj →
               fifo_counter l < fifo_counter lj).

(** Some valid line carries tag [t]. *)
Definition has_tag (ls : list CacheLine) (t : Z) : Prop :=
  ∃ i l, ls !! i = Some l ∧ valid l = true ∧ tag l = t.

(** Some valid line carries tag [t] and no invalid line stands before it. *)
Definition has_tag_in_reach (ls : list CacheLine) (t : Z) : Prop :=
  ∃ i l, ls !! i = Some l ∧ valid l = true ∧ tag l = t
    ∧ ∀ j lj, (j < i)%nat → ls !! j = Some lj → valid lj = true.

(** The valid lines of a set come first. *)
Definition valid_prefix (ls : list CacheLine) : Prop :=
  ∀ i j li lj, (i < j)%nat → ls !! i = Some li → ls !! j = Some lj →
               valid lj = true → valid li = true.

(** At most one valid line carries a given tag. *)
Definition tags_unique (ls : list CacheLine) : Prop :=
  ∀ i j li lj, ls !! i = Some li → ls !! j = Some lj →
               valid li = true → valid lj = true → tag li = tag lj → i = j.

(** What [find_line] computes on the lines [ls] of a set. *)
Definition resolves (ls : list CacheLine) (t : Z) (r : lookup) : Prop :=
  match r with
  | Hit i => (∃ l, ls !! i = Some l ∧ valid l = true ∧ tag l = t)
             ∧ scanned ls t i
  | Miss v => (first_invalid ls v ∧ scanned ls t v)
              ∨ (all_valid ls ∧ scanned ls t (length ls) ∧ oldest_line ls v)
  end.

(** State of the scan before iteration [i]: [oldest] is the first line of
    smallest fifo_counter among those seen, or line 0 before the scan. *)
Definition scan_inv (ls : list CacheLine) (t : Z) (i oldest : nat)
    (oldest_counter : Z) : Prop :=
  scanned ls t i
  ∧ (∃ l, ls !! oldest = Some l ∧ fifo_counter l = oldest_counter)
  ∧ (∀ j lj, (j < i)%nat → ls !! j = Some lj → oldest_counter ≤ fifo_counter lj)
  ∧ (∀ j lj, (j < oldest)%nat → ls !! j = Some lj →
             oldest_counter < fifo_counter lj).


(** ** Bookkeeping on the L2 miss path *)

(** The record left by the L2 part of a store or of a load that misses. *)
Definition l2_miss_record (res : AccessResult) (evicted : bool) : AccessResult :=
  with_placed_in_l2
    (if evicted then with_l2_evict (with_l2_miss res 1) 1
     else with_l2_miss res 1) 1.

Definition l2_miss_stats (c c' : Counters) (evicted : bool) : Prop :=
  ∃ cm, incr_miss c = Some cm
        ∧ if evicted then incr_evict cm = Some c' else c' = cm.


(** ** Lookups by address *)

Definition addr_tag (c : Cache.t) (a : Z) : Z :=
  (extract_address_parts a (Cache.s c) (Cache.b c)).1.1.

Definition addr_set (c : Cache.t) (a : Z) : Z :=
  (extract_address_parts a (Cache.s c) (Cache.b c)).1.2.

(** The lookup every access starts with: decode, then [find_line]. *)
Definition lookup_addr (c : Cache.t) (a : Z) : option lookup :=
  find_line c (addr_set c a) (addr_tag c a).

(** Every set holds [E] lines, as [create_cache] allocates them. *)
Definition shape (c : Cache.t) : Prop :=
  ∀ si set, Cache.sets c !! si = Some set →
            length (lines set) = Z.to_nat (Cache.E c).

(** The invariant of a set-associative store: every set holds [E] lines,
    its valid lines come first, and no tag is live twice. *)
Definition sets_ok (c : Cache.t) : Prop :=
  ∀ si set, Cache.sets c !! si = Some set →
            length (lines set) = Z.to_nat (Cache.E c)
            ∧ valid_prefix (lines set) ∧ tags_unique (lines set).

(** All lines invalid. *)
Definition cold (c : Cache.t) : Prop :=
  ∀ si set i l, Cache.sets c !! si = Some set → lines set !! i = Some l →
                valid l = false.

Definition sim_ok (st : Sim) : Prop :=
  sets_ok (L1D st) ∧ sets_ok (L1I st) ∧ sets_ok (L2 st).

(** The geometry of a cache is fixed at creation. *)
Definition same_geom (c c' : Cache.t) : Prop :=
  Cache.s c' = Cache.s c ∧ Cache.E c' = Cache.E c ∧ Cache.b c' = Cache.b c
  ∧ Cache.S c' = Cache.S c ∧ Cache.B c' = Cache.B c.

(** The L1 instance that [main] hands to the access functions: L1I for an
    INST, L1D for the other operations. *)
Definition l1_of (k : OpType) (st : Sim) : Cache.t :=
  match k with INST => L1I st | _ => L1D st end.

(** ** Lines and the bytes of the backing store *)

(** A geometry on which the shifts of the C code are defined. *)
Definition geom_ok (c : Cache.t) : Prop :=
  0 ≤ Cache.s c ∧ 0 ≤ Cache.b c ∧ Cache.s c + Cache.b c < 32
  ∧ Cache.B c = 2 ^ Cache.b c.

(** Every block buffer holds [B] bytes. *)
Definition blocks_ok (c : Cache.t) : Prop :=
  ∀ si set i l, Cache.sets c !! si = Some set → lines set !! i = Some l →
                length (block l) = Z.to_nat (Cache.B c).


(** The [B] bytes of [R] from the block start of address [a]. *)
Definition ram_block (c : Cache.t) (R : list Z) (a : Z) : list Z :=
  take (Z.to_nat (Cache.B c))
       (drop (Z.to_nat (block_start_of a (Cache.B c))) R).

(** Line [l] of set [si] holds the bytes of [R] for some address with its
    tag and set, and [R] covers that block. *)
Definition line_holds (c : Cache.t) (R : list Z) (si : nat) (l : CacheLine)
  : Prop :=
  ∃ a, 0 ≤ a < 2 ^ 32
       ∧ addr_tag c a = tag l ∧ Z.to_nat (addr_set c a) = si
       ∧ (Z.to_nat (block_start_of a (Cache.B c)) + Z.to_nat (Cache.B c)
          ≤ length R)%nat
       ∧ block l = ram_block c R a.

Definition coherent (c : Cache.t) (R : list Z) : Prop :=
  ∀ si set i l, Cache.sets c !! si = Some set → lines set !! i = Some l →
                valid l = true → line_holds c R si l.

(** [R'] is [R] with the [n] bytes of [d] written at [a]. *)
Definition ram_upd (R : list Z) (a : nat) (d : list Z) (n : nat)
    (R' : list Z) : Prop :=
  length R' = length R
  ∧ (n ≤ length d)%nat
  ∧ ∀ i, R' !! i = if decide (a ≤ i < a + n)%nat then d !! (i - a)%nat
                   else R !! i.

(** What is kept of a cache and the content [R] of the file, next to
    [sets_ok]. *)
Definition coh_inv (c : Cache.t) (R : list Z) : Prop :=
  geom_ok c ∧ blocks_ok c ∧ coherent c R.

(** The file covers the block of address [a] for block size [B]. *)
Definition block_in_ram (a B : Z) (N : nat) : Prop :=
  (Z.to_nat (block_start_of a B) + Z.to_nat B ≤ N)%nat.



(** ** Operations that complete *)

(** A cache as [create_cache] builds it for a geometry on which the shifts
    are defined, with at least one line per set. *)
Definition cache_wf (c : Cache.t) : Prop :=
  geom_ok c ∧ blocks_ok c ∧ sets_ok c ∧ 1 ≤ Cache.E c
  ∧ length (Cache.sets c) = Z.to_nat (2 ^ Cache.s c).

(** The three statistics can still be incremented [k] times. *)
Definition stats_below (k : Z) (c : Counters) : Prop :=
  hit c + k ≤ INT_MAX ∧ miss c + k ≤ INT_MAX ∧ evict c + k ≤ INT_MAX.

(** An operation that fits the buffers: the data of a STORE or MODIFY has
    at most 32 bytes, and they stay inside the L1 block and inside the L2
    block of the address; the L1 block fits [temp_block]. *)
Definition op_fits (B1 B2 : Z) (o : TraceOp) : Prop :=
  0 ≤ address o < 2 ^ 32
  ∧ (op o = STORE ∨ op o = MODIFY →
     (num_bytes_of (data o) ≤ 32)%nat
     ∧ B1 ≤ 64
     ∧ offset_in_block (address o) B1 + Z.of_nat (num_bytes_of (data o)) ≤ B1
     ∧ offset_in_block (address o) B2 + Z.of_nat (num_bytes_of (data o)) ≤ B2).

Definition sim_wf (st : Sim) : Prop :=
  cache_wf (L1D st) ∧ cache_wf (L1I st) ∧ cache_wf (L2 st).

(** A state from which [k/2] more operations can be replayed. *)
Definition sim_ready (k : Z) (B1 B2 : Z) (st : Sim) : Prop :=
  sim_wf st
  ∧ stats_below k (L1D_stats st) ∧ stats_below k (L1I_stats st)
  ∧ stats_below k (L2_stats st)
  ∧ Cache.B (L1D st) = B1 ∧ Cache.B (L2 st) = B2.

(** ** Lines by position, and what a lookup reads of them *)

(** Line [j] of set [sj]. *)
Definition line_at (c : Cache.t) (sj j : nat) : option CacheLine :=
  set ← Cache.sets c !! sj; lines set !! j.

(** The fields of a line that [find_line] reads. *)
Definition meta_line (l : CacheLine) : bool * Z * Z :=
  (valid l, tag l, fifo_counter l).

(** The bookkeeping of a cache: geometry, FIFO clock, and the valid bit, tag
    and fifo_counter of every line; all of the cache but the block bytes. *)
Definition meta (c : Cache.t)
  : list (list (bool * Z * Z)) * (Z * Z * Z * Z * Z * Z) :=
  ((λ set, meta_line <$> lines set) <$> Cache.sets c,
   (Cache.s c, Cache.E c, Cache.b c, Cache.S c, Cache.B c, Cache.fifo_time c)).

(** ** Accounting *)

Global Instance OpType_eq_dec : EqDecision OpType.
Proof. solve_decision. Defined.

(** The operations of kind [k] in a trace. *)
Definition count_op (k : OpType) (ops : list TraceOp) : Z :=
  Z.of_nat (length (filter (λ o, op o = k) ops)).

(** The valid lines of a set, and of a cache. *)
Definition count_valid (ls : list CacheLine) : nat :=
  sum_list_with (λ l, if valid l then 1%nat else 0%nat) ls.

Definition valid_lines (c : Cache.t) : Z :=
  Z.of_nat (sum_list_with (λ set, count_valid (lines set)) (Cache.sets c)).

(** The fifo_counter of a valid line is a value that the FIFO clock has
    passed, and no two valid lines of a cache carry the same one. *)
Definition fifo_ok (c : Cache.t) : Prop :=
  0 ≤ Cache.fifo_time c
  ∧ (∀ sj j l, line_at c sj j = Some l → valid l = true →
               0 ≤ fifo_counter l < Cache.fifo_time c)
  ∧ (∀ sj j l sk k l',
       line_at c sj j = Some l → line_at c sk k = Some l' →
       valid l = true → valid l' = true →
       fifo_counter l = fifo_counter l' → sj = sk ∧ j = k).

(** The books of a cache [c] with statistics [cnt] after [n] accesses, [k]
    of which missed without filling a line: every access is a hit or a
    miss, the FIFO clock counts the fills, and a fill either takes an
    invalid line or evicts. *)
Definition tally (n k : Z) (c : Cache.t) (cnt : Counters) : Prop :=
  fifo_ok c
  ∧ hit cnt + miss cnt = n ∧ 0 ≤ hit cnt
  ∧ Cache.fifo_time c + k = miss cnt ∧ 0 ≤ k ∧ miss cnt ≤ INT_MAX
  ∧ valid_lines c + evict cnt = Cache.fifo_time c ∧ 0 ≤ evict cnt.

(** The books of the three caches after [nL] LOADs, [nS] STOREs, [nM]
    MODIFYs and [nI] INSTs: only a STORE that misses L1 leaves it unfilled,
    and L2 is accessed by every store and by every load that fills L1. *)
Definition sim_tally (nL nS nM nI : Z) (st : Sim) : Prop :=
  ∃ kD, 0 ≤ kD ≤ nS + nM
    ∧ tally (nL + nS + 2 * nM) kD (L1D st) (L1D_stats st)
    ∧ tally nI 0 (L1I st) (L1I_stats st)
    ∧ tally (Cache.fifo_time (L1D st) + Cache.fifo_time (L1I st) + nS + nM) 0
            (L2 st) (L2_stats st).

(** The fields of a record that the statistics-only routines fill as the
    full ones do: all but placed_in_l2 and wrote_to_ram. *)
Definition res_core (r : AccessResult) : Z * Z * Z * Z * Z * Z * Z * Z * Z :=
  (l1_hit r, l1_miss r, l1_evict r, l2_hit r, l2_miss r, l2_evict r,
   placed_in_l1 r, set_l1 r, set_l2 r).

(** ** Runs that differ in data only *)

(** Two states with the same bookkeeping and the same statistics. *)
Definition same_books (st st' : Sim) : Prop :=
  meta (L1D st) = meta (L1D st') ∧ meta (L1I st) = meta (L1I st')
  ∧ meta (L2 st) = meta (L2 st')
  ∧ L1D_stats st = L1D_stats st' ∧ L1I_stats st = L1I_stats st'
  ∧ L2_stats st = L2_stats st'.

(** Two operations of the same kind on the same address. *)
Definition same_access (o o' : TraceOp) : Prop :=
  op o = op o' ∧ address o = address o'.

(** Every line that is valid in [c] is valid in [c']. *)
Definition keeps_valid (c c' : Cache.t) : Prop :=
  ∀ sj j l, line_at c sj j = Some l → valid l = true →
            ∃ l', line_at c' sj j = Some l' ∧ valid l' = true.

(** ** What the dump shows *)

(** Two caches with the same bookkeeping whose valid lines hold the same
    bytes: they differ in the blocks of invalid lines at most. *)
Definition same_view (c c' : Cache.t) : Prop :=
  meta c = meta c'
  ∧ ∀ sj j l l', line_at c sj j = Some l → line_at c' sj j = Some l' →
                 valid l = true → block l = block l'.

(** An operation on a 32-bit address whose L1 block and L2 block lie inside
    a RAM image of [N] bytes. *)
Definition op_covered (B1 B2 : Z) (N : nat) (o : TraceOp) : Prop :=
  0 ≤ address o < 2 ^ 32
  ∧ block_in_ram (address o) B1 N ∧ block_in_ram (address o) B2 N.

(** An L1 cache, the L2 cache and the RAM stream of two runs that differ
    in the blocks of invalid lines at most; the caches are well formed and
    the RAM image has [N] bytes. *)
Definition pair_shown (B1 B2 : Z) (N : nat)
    (L1 L2 L1' L2' : Cache.t) (fp fp' : FILE) : Prop :=
  same_view L1 L1' ∧ same_view L2 L2'
  ∧ fbytes fp = fbytes fp' ∧ length (fbytes fp) = N
  ∧ cache_wf L1 ∧ cache_wf L1' ∧ cache_wf L2 ∧ cache_wf L2'
  ∧ Cache.B L1 = B1 ∧ Cache.B L2 = B2.

(** Two states of the loop that differ in the blocks of invalid lines at
    most. *)
Definition same_shown (B1 B2 : Z) (N : nat) (st st' : Sim) : Prop :=
  pair_shown B1 B2 N (L1D st) (L2 st) (L1D st') (L2 st')
             (ram_fp st) (ram_fp st')
  ∧ pair_shown B1 B2 N (L1I st) (L2 st) (L1I st') (L2 st')
               (ram_fp st) (ram_fp st')
  ∧ L1D_stats st = L1D_stats st' ∧ L1I_stats st = L1I_stats st'
  ∧ L2_stats st = L2_stats st'.

(** ** Concrete states used below *)

(** Block buffers that happen to hold zero bytes. *)
Definition zeroed : nat → Junk := λ _, uniform 0.

Definition line_of (v : bool) (t f : Z) : CacheLine :=
  mkLine v t f (replicate 16 0).

(** A two-way set whose line 0 is invalid while line 1 is valid with tag 5. *)
Definition set_gap : CacheSet :=
  mkSet [line_of false 0 0; line_of true 5 0].

Definition cache_gap : Cache.t := Cache.mk [set_gap] 0 2 4 1 16 1.

(** A full two-way set: tag 3 filled at time 4, tag 9 filled at time 2. *)
Definition set_full : CacheSet :=
  mkSet [line_of true 3 4; line_of true 9 2].

Definition cache_full : Cache.t := Cache.mk [set_full] 0 2 4 1 16 5.

(** A 64-byte RAM image holding 0, 1, ..., 63. *)
Definition ram64 : list uchar := Z.of_nat <$> seq 0 64.

Definition ram64_fp : FILE := mkFILE ram64 0 0.

(** [ram64] with bytes 18 and 19 replaced by 0xaa, 0xbb. *)
Definition ram64_aabb : list uchar := <[18%nat := 170]> (<[19%nat := 187]> ram64).

(** The geometry of the test runs: L1 (s=1, E=2, b=4), L2 (s=2, E=2, b=4). *)
Definition p_small : CacheParams := mkParams 1 2 4 2 2 4 "t".

(** The same with 32-byte L2 blocks. *)
Definition p_cross : CacheParams := mkParams 1 2 4 2 2 5 "t".

(** S c, 8, f1f2f3f4f5f6f7f8: eight bytes from address 12, across the
    16-byte boundary of the L1 block. *)
Definition o_cross : TraceOp := mkOp STORE 12 8 "f1f2f3f4f5f6f7f8".

(** S 12, 2, aabb *)
Definition o_store : TraceOp := mkOp STORE 18 2 "aabb".

(** L 10, 1 *)
Definition o_load : TraceOp := mkOp LOAD 16 1 "".

(** A geometry with 128-byte L1 blocks. *)
Definition p_big : CacheParams := mkParams 1 2 7 2 2 7 "t".

Definition stats0 : Counters := mkCnt 0 0 0.

(** The caches of [p_small] and of [p_cross] right after [create_cache]. *)
Definition L1_small : Cache.t := create_cache 1 2 4.
Definition L2_small : Cache.t := create_cache 2 2 4.
Definition L2_wide : Cache.t := create_cache 2 2 5.

(** A 256-byte RAM image holding 0, 1, ..., 255. *)
Definition ram256 : list uchar := Z.of_nat <$> seq 0 256.

(** A trace with every kind of operation; 0x10, 0x30 and 0x50 fall in the
    same L1 set, so the third of them evicts. *)
Definition trace_mixed : list TraceOp :=
  [ mkOp LOAD 16 1 ""; mkOp STORE 18 2 "aabb"; mkOp MODIFY 32 4 "01020304";
    mkOp INST 16 1 ""; mkOp LOAD 48 1 ""; mkOp LOAD 80 1 "";
    mkOp STORE 100 1 "ff"; mkOp MODIFY 16 2 "cafe" ].


(** M 20, 4, 01020304 *)
Definition o_modify : TraceOp := mkOp MODIFY 32 4 "01020304".

(** ** Further concrete states *)

(** Block buffers that hold a different byte at every place: what a heap
    that has been used before may look like. *)
Definition junk_ramp : nat → Junk :=
  λ n i j k, Z.of_nat ((7 * n + 5 * i + 3 * j + k + 1) mod 256).

(** The test geometry with an L2 of associativity 0, which [main] accepts. *)
Definition p_no_lines : CacheParams := mkParams 1 2 4 2 0 4 "t".

(** S 12, 2 with no data field: [parse_trace_line] leaves [data] empty. *)
Definition o_empty : TraceOp := mkOp STORE 18 2 "".

(** The operations of [trace_mixed] with other sizes and data. *)
Definition trace_mixed_other : list TraceOp :=
  [ mkOp LOAD 16 4 ""; mkOp STORE 18 1 "7f"; mkOp MODIFY 32 2 "beef";
    mkOp INST 16 2 ""; mkOp LOAD 48 8 ""; mkOp LOAD 80 1 "";
    mkOp STORE 100 2 "0102"; mkOp MODIFY 16 1 "00" ].

(** An L2 with 1-byte blocks. *)
Definition L2_tiny : Cache.t := create_cache 2 2 0.

(** An L2 with 64-byte blocks, and the L1 of the test geometry after
    L 10, 1. *)
Definition L2_64 : Cache.t := create_cache 2 2 6.

Definition L1_loaded : Cache.t :=
  match access_load L1_small L2_64 16 stats0 stats0 ram64_fp res0 with
  | Some (l1, _, _, _, _, _) => l1
  | None => L1_small
  end.

(** S 1c, 8, f1f2f3f4f5f6f7f8: eight bytes from offset 12 of a 16-byte
    block. *)
Definition o_cross28 : TraceOp := mkOp STORE 28 8 "f1f2f3f4f5f6f7f8".

(** The state of the test geometry after L 10, 1, L 30, 1 and I 10, 1: set
    1 of L1D is full (tags 0 and 1), L1I and L2 hold valid lines too. *)
Definition st_warm : Sim :=
  default (mkSim L1_small L1_small L2_small stats0 stats0 stats0 ram64_fp)
          (st0 ← main_init zeroed p_small ram256;
           run st0 [mkOp LOAD 16 1 ""; mkOp LOAD 48 1 ""; mkOp INST 16 1 ""]).

(** L 50, 1 falls in the full set 1 of L1D and evicts; S 12, 2, aabb then
    misses L1D. *)
Definition trace_evict : list TraceOp :=
  [ mkOp LOAD 80 1 ""; mkOp STORE 18 2 "aabb" ].

(** * Properties *)

(** Inversion of a bind of the error monad: [H : mx ≫= f = Some y] becomes
    [Hx : mx = Some x] and [H : f x = Some y]. *)
Ltac bind_inv H x Hx := apply bind_Some in H as (x & Hx & H).

(** Reduction of a bind whose first action is known. *)
Ltac step_bind := cbn [mbind option_bind].

(** ** The line resolver *)

Lemma find_line_loop_resolves n : ∀ ls t i oldest oc,
  (i + n = length ls)%nat →
  scan_inv ls t i oldest oc →
  ∃ r, find_line_loop n ls t i oldest oc = Some r ∧ resolves ls t r.
Proof.
  induction n as [|n IH]; intros ls t i oldest oc Hlen (Hsc & Hold & Hmin & Hfst).
  - exists (Miss oldest). split; [done|]. right.
    assert (i = length ls) as -> by lia.
    split; [|split; [done|]].
    + intros j l Hj. apply (Hsc j l); [|done]. by eapply lookup_lt_Some.
    + destruct Hold as (l & Hl & Hoc). exists l. split; [done|]. subst oc.
      split; [|done].
      intros j lj Hj. apply (Hmin j lj); [|done]. by eapply lookup_lt_Some.
  - destruct (lookup_lt_is_Some_2 ls i) as [line Hline]; [lia|].
    cbn [find_line_loop]. rewrite Hline. cbn [mbind option_bind].
    destruct (valid line) eqn:Hv; cbn [andb negb].
    + destruct (Z.eqb_spec (tag line) t) as [Ht|Ht].
      * exists (Hit i). split; [done|]. split; [|done]. by exists line.
      * assert (scanned ls t (S i)) as Hsc'.
        { intros j l Hj Hl. destruct (decide (j = i)) as [->|].
          - by simplify_eq.
          - apply (Hsc j l); [lia|done]. }
        destruct (Z.ltb_spec (fifo_counter line) oc) as [Hlt|Hge];
          apply IH; try lia.
        -- split; [done|]. split; [by exists line|].
           split.
           ++ intros j lj Hj Hlj. destruct (decide (j = i)) as [->|].
              ** simplify_eq. lia.
              ** specialize (Hmin j lj ltac:(lia) Hlj). lia.
           ++ intros j lj Hj Hlj. specialize (Hmin j lj ltac:(lia) Hlj). lia.
        -- split; [done|]. split; [done|].
           split; [|done].
           intros j lj Hj Hlj. destruct (decide (j = i)) as [->|].
           ++ simplify_eq. lia.
           ++ apply (Hmin j lj); [lia|done].
    + exists (Miss i). split; [done|]. left. split; [|done].
      split; [by exists line|].
      intros j l Hj Hl. by apply (Hsc j l).
Qed.

Lemma find_line_resolves cache set_index t set :
  Cache.sets cache !! Z.to_nat set_index = Some set →
  length (lines set) = Z.to_nat (Cache.E cache) →
  1 ≤ Cache.E cache →
  ∃ r, find_line cache set_index t = Some r ∧ resolves (lines set) t r.
Proof.
  intros Hset Hlen HE. unfold find_line. rewrite Hset. cbn [mbind option_bind].
  destruct (lookup_lt_is_Some_2 (lines set) 0) as [l0 Hl0]; [lia|].
  rewrite Hl0. cbn [mbind option_bind].
  apply find_line_loop_resolves; [lia|].
  split; [intros j l Hj; lia|]. split; [by exists l0|].
  split; intros j lj Hj; lia.
Qed.

Lemma resolves_hit_in_reach ls t i :
  resolves ls t (Hit i) → has_tag_in_reach ls t.
Proof.
  intros [(l & Hl & Hv & Ht) Hsc]. exists i, l. repeat split; try done.
  intros j lj Hj Hlj. by destruct (Hsc j lj Hj Hlj).
Qed.

Lemma resolves_miss_not_in_reach ls t v :
  resolves ls t (Miss v) → ¬ has_tag_in_reach ls t.
Proof.
  intros Hr (i & l & Hl & Hv & Ht & Hbefore).
  destruct Hr as [[[(lv & Hlv & Hinv) _] Hsc] | (Hall & Hsc & _)].
  - destruct (lt_eq_lt_dec i v) as [[Hlt| ->]|Hgt].
    + by destruct (Hsc i l Hlt Hl).
    + simplify_eq. congruence.
    + specialize (Hbefore v lv Hgt Hlv). congruence.
  - apply lookup_lt_Some in Hl as Hlt. by destruct (Hsc i l Hlt Hl).
Qed.

Lemma valid_prefix_in_reach ls t :
  valid_prefix ls → has_tag ls t → has_tag_in_reach ls t.
Proof.
  intros Hp (i & l & Hl & Hv & Ht). exists i, l. repeat split; try done.
  intros j lj Hj Hlj. by apply (Hp j i lj l).
Qed.

(** C1, as the code has it: a hit is reported for a valid line with the
    requested tag when one stands before the first invalid line of the set
    (the scan stops at the first invalid line); otherwise a miss is reported
    and the victim is the first invalid line, or, only when every line is
    valid, the first line of smallest fifo_counter.  When the valid lines of
    the set come first, every valid line with the tag is found. *)
Theorem find_line_correct cache set_index t set :
  Cache.sets cache !! Z.to_nat set_index = Some set →
  length (lines set) = Z.to_nat (Cache.E cache) →
  1 ≤ Cache.E cache →
  ∃ r, find_line cache set_index t = Some r
    ∧ (has_tag_in_reach (lines set) t →
         ∃ i l, r = Hit i ∧ lines set !! i = Some l
                ∧ valid l = true ∧ tag l = t)
    ∧ (¬ has_tag_in_reach (lines set) t →
         ∃ v, r = Miss v
              ∧ (first_invalid (lines set) v
                 ∨ (all_valid (lines set) ∧ oldest_line (lines set) v)))
    ∧ (valid_prefix (lines set) → has_tag (lines set) t →
         has_tag_in_reach (lines set) t).
Proof.
  intros Hset Hlen HE.
  destruct (find_line_resolves cache set_index t set Hset Hlen HE)
    as (r & Hr & Hres).
  exists r. split; [done|]. split; [|split].
  - intros Hreach. destruct r as [i|v].
    + destruct Hres as [(l & Hl & Hv & Ht) _]. by exists i, l.
    + by apply resolves_miss_not_in_reach in Hres.
  - intros Hno. destruct r as [i|v].
    + by apply resolves_hit_in_reach in Hres.
    + exists v. split; [done|].
      destruct Hres as [[Hf _]|(Ha & _ & Ho)]; [by left|by right].
  - apply valid_prefix_in_reach.
Qed.

Lemma find_line_correct_witness :
  ∃ r, find_line cache_full 0 7 = Some r
    ∧ (has_tag_in_reach (lines set_full) 7 →
         ∃ i l, r = Hit i ∧ lines set_full !! i = Some l
                ∧ valid l = true ∧ tag l = 7)
    ∧ (¬ has_tag_in_reach (lines set_full) 7 →
         ∃ v, r = Miss v
              ∧ (first_invalid (lines set_full) v
                 ∨ (all_valid (lines set_full) ∧ oldest_line (lines set_full) v)))
    ∧ (valid_prefix (lines set_full) → has_tag (lines set_full) 7 →
         has_tag_in_reach (lines set_full) 7).
Proof.
  apply (find_line_correct cache_full 0 7 set_full);
    [reflexivity | reflexivity | simpl; lia].
Defined.

(** The full set evicts its oldest line, the one filled at time 2. *)
Example find_line_full : find_line cache_full 0 7 = Some (Miss 1%nat).
Proof. reflexivity. Qed.

(** C1 as stated fails: line 1 of [set_gap] is valid and carries tag 5, yet
    the scan stops at the invalid line 0 and reports a miss. *)
Lemma find_line_stops_at_invalid :
  find_line cache_gap 0 5 = Some (Miss 0%nat)
  ∧ (∃ l, lines set_gap !! 1%nat = Some l ∧ valid l = true ∧ tag l = 5)
  ∧ ¬ (∀ cache set_index t set,
         Cache.sets cache !! Z.to_nat set_index = Some set →
         length (lines set) = Z.to_nat (Cache.E cache) →
         1 ≤ Cache.E cache →
         has_tag (lines set) t →
         ∃ i l, find_line cache set_index t = Some (Hit i)
                ∧ lines set !! i = Some l ∧ valid l = true ∧ tag l = t).
Proof.
  split; [reflexivity|]. split.
  - eexists. split; [reflexivity|]. by split.
  - intros H.
    destruct (H cache_gap 0 5 set_gap) as (i & l & Hf & _);
      [reflexivity | reflexivity | simpl; lia | | discriminate Hf].
    exists 1%nat. eexists. split; [reflexivity|]. by split.
Qed.

(** ** The RAM file *)

Lemma pwrite_lookup pos (d l : list uchar) i :
  pwrite pos d l !! i =
    if decide (i < pos)%nat
    then (if decide (i < length l)%nat then l !! i else Some 0)
    else if decide (i < pos + length d)%nat then d !! (i - pos)%nat
    else l !! i.
Proof.
  unfold pwrite.
  assert (length (take pos l ++ replicate (pos - length l) 0) = pos) as Hlen.
  { rewrite length_app, length_take, length_replicate. lia. }
  rewrite app_assoc. case_decide as Hi.
  - rewrite lookup_app_l by (rewrite Hlen; lia).
    case_decide as Hil.
    + rewrite lookup_app_l by (rewrite length_take; lia).
      by rewrite lookup_take_lt by lia.
    + rewrite lookup_app_r by (rewrite length_take; lia).
      rewrite length_take. apply lookup_replicate_2. lia.
  - rewrite lookup_app_r by (rewrite Hlen; lia). rewrite Hlen.
    case_decide as Hid.
    + by rewrite lookup_app_l by lia.
    + rewrite lookup_app_r by lia.
      rewrite lookup_drop. f_equal. lia.
Qed.

Lemma pwrite_length pos (d l : list uchar) :
  length (pwrite pos d l) = (length l `max` (pos + length d))%nat.
Proof.
  unfold pwrite.
  rewrite !length_app, length_take, length_replicate, length_drop. lia.
Qed.

(** What [write_block_to_ram] does when no buffer is overrun. *)
Lemma write_block_to_ram_inv fp a d n B fp' :
  write_block_to_ram fp a d n B = Some fp' →
  let bs := Z.to_nat (block_start_of a B) in
  let off := Z.to_nat (offset_in_block a B) in
  let nB := Z.to_nat B in
  (nB ≤ 64)%nat ∧ (off + n ≤ 64)%nat ∧ (n ≤ length d)%nat
  ∧ fwrites fp' = S (fwrites fp) ∧ fpos fp' = (bs + nB)%nat
  ∧ ∀ i, fbytes fp' !! i =
      if decide (bs + off ≤ i < bs + off + n ∧ i < bs + nB)%nat
      then d !! (i - (bs + off))%nat
      else if decide (i < length (fbytes fp))%nat then fbytes fp !! i
      else if decide (i < bs + nB)%nat then Some 0 else None.
Proof.
  unfold write_block_to_ram, fread, fwrite, memcpy, fseek. cbn [fpos fbytes fwrites].
  set (bs := Z.to_nat (block_start_of a B)).
  set (off := Z.to_nat (offset_in_block a B)).
  set (nB := Z.to_nat B).
  set (got := take nB (drop bs (fbytes fp))).
  case_decide as Hgot; cbn [mbind option_bind]; [|done].
  set (tb1 := got ++ drop (length got) (replicate 64 0)).
  assert (length tb1 = 64%nat) as Htb1.
  { unfold tb1. rewrite length_app, length_drop, length_replicate.
    rewrite length_replicate in Hgot. lia. }
  case_decide as Ho; cbn [mbind option_bind fpos fbytes fwrites]; [|done].
  destruct Ho as [Ho Hn].
  set (tb2 := list_inserts off (take n d) tb1).
  assert (length tb2 = 64%nat) as Htb2 by (unfold tb2; by rewrite length_inserts).
  case_decide as HB; [|done].
  rewrite Htb2 in HB. rewrite Htb1 in Ho. rewrite length_replicate in Hgot.
  intros H.
  injection H as <-. cbn [fpos fbytes fwrites].
  split; [lia|]. split; [lia|]. split; [done|]. split; [done|]. split; [done|].
  assert (length got = (nB `min` (length (fbytes fp) - bs))%nat) as Hlg.
  { unfold got. by rewrite length_take, length_drop. }
  assert (∀ k, (k < nB)%nat → take nB tb2 !! k =
            if decide (off ≤ k < off + n)%nat then d !! (k - off)%nat
            else if decide (bs + k < length (fbytes fp))%nat
                 then fbytes fp !! (bs + k)%nat else Some 0) as Htb.
  { intros k Hk. rewrite lookup_take_lt by lia. unfold tb2.
    case_decide as Hin.
    - rewrite list_lookup_inserts by (rewrite ?length_take; lia).
      by rewrite lookup_take_lt by lia.
    - assert (list_inserts off (take n d) tb1 !! k = tb1 !! k) as ->.
      { destruct (decide (k < off)%nat).
        - by apply list_lookup_inserts_lt.
        - apply list_lookup_inserts_ge. rewrite length_take. lia. }
      unfold tb1. case_decide as Hlen.
      + rewrite lookup_app_l by lia. unfold got.
        rewrite lookup_take_lt by lia. by rewrite lookup_drop.
      + rewrite lookup_app_r by lia. rewrite lookup_drop.
        apply lookup_replicate_2. lia. }
  intros i. rewrite pwrite_lookup, length_take, Htb2.
  rewrite (Nat.min_l nB 64) by done.
  destruct (decide (i < bs)%nat) as [Hi|Hi].
  { repeat case_decide; try done; lia. }
  destruct (decide (i < bs + nB)%nat) as [Hi2|Hi2].
  - rewrite Htb by lia.
    repeat case_decide; try done; try lia; f_equal; lia.
  - repeat case_decide; try done; try lia.
    apply lookup_ge_None. lia.
Qed.

Lemma wrap32_range x : 0 ≤ wrap32 x < 2 ^ 32.
Proof. unfold wrap32. apply Z.mod_pos_bound. lia. Qed.

Lemma wrap32_small x : 0 ≤ x < 2 ^ 32 → wrap32 x = x.
Proof. unfold wrap32. apply Z.mod_small. Qed.

Lemma block_start_bounds a B : 0 ≤ a → 0 ≤ block_start_of a B ≤ a.
Proof.
  intros Ha. unfold block_start_of.
  set (m := wrap32 (Z.lnot (wrap32 (B - 1)))).
  assert (0 ≤ Z.land a m) by (apply Z.land_nonneg; by left).
  assert (0 ≤ Z.land a (Z.lnot m)) by (apply Z.land_nonneg; by left).
  pose proof (Z.sub_land_same_l a m). lia.
Qed.

Lemma offset_in_block_eq a B :
  0 ≤ a < 2 ^ 32 → offset_in_block a B = a - block_start_of a B.
Proof.
  intros Ha. unfold offset_in_block. apply wrap32_small.
  pose proof (block_start_bounds a B). lia.
Qed.

Lemma block_start_plus_offset a B :
  0 ≤ a < 2 ^ 32 →
  (Z.to_nat (block_start_of a B) + Z.to_nat (offset_in_block a B))%nat
  = Z.to_nat a.
Proof.
  intros Ha. rewrite offset_in_block_eq by done.
  pose proof (block_start_bounds a B). lia.
Qed.

(** The bytes of the file after a write through: the data in the written
    range as far as the rewritten block reaches, the old bytes elsewhere. *)
Lemma write_block_to_ram_lookup fp a d n B fp' i :
  0 ≤ a < 2 ^ 32 →
  write_block_to_ram fp a d n B = Some fp' →
  fbytes fp' !! i =
    if decide (Z.to_nat a ≤ i < Z.to_nat a + n
               ∧ i < Z.to_nat (block_start_of a B) + Z.to_nat B)%nat
    then d !! (i - Z.to_nat a)%nat
    else if decide (i < length (fbytes fp))%nat then fbytes fp !! i
    else if decide (i < Z.to_nat (block_start_of a B) + Z.to_nat B)%nat
         then Some 0 else None.
Proof.
  intros Ha H. apply write_block_to_ram_inv in H as (_ & _ & _ & _ & _ & H).
  rewrite H, block_start_plus_offset by done. done.
Qed.

Lemma write_block_to_ram_length fp a d n B fp' :
  0 ≤ a < 2 ^ 32 →
  write_block_to_ram fp a d n B = Some fp' →
  (Z.to_nat (block_start_of a B) + Z.to_nat B ≤ length (fbytes fp))%nat →
  length (fbytes fp') = length (fbytes fp).
Proof.
  intros Ha H Hin.
  pose proof (write_block_to_ram_inv _ _ _ _ _ _ H) as (_ & _ & Hn & _).
  apply Nat.le_antisymm.
  - destruct (decide (length (fbytes fp') ≤ length (fbytes fp))%nat) as [|Hgt];
      [done|].
    destruct (lookup_lt_is_Some_2 (fbytes fp') (length (fbytes fp))) as [x Hx];
      [lia|].
    rewrite (write_block_to_ram_lookup _ _ _ _ _ _ _ Ha H) in Hx.
    repeat case_decide; try done; lia.
  - destruct (decide (length (fbytes fp) ≤ length (fbytes fp'))%nat) as [|Hgt];
      [done|].
    pose proof (write_block_to_ram_lookup _ _ _ _ _ _ (length (fbytes fp')) Ha H)
      as Hl.
    rewrite (lookup_ge_None_2 (fbytes fp')) in Hl by lia.
    repeat case_decide; try lia.
    + symmetry in Hl. apply lookup_ge_None in Hl. lia.
    + symmetry in Hl. apply lookup_ge_None in Hl. lia.
Qed.

(** C7: a write through leaves every byte of the file outside the written
    range [address, address + num_bytes) as it was, the other bytes of the
    rewritten block included, and the file does not shrink. *)
Theorem write_block_to_ram_frame ram_fp address data num_bytes block_size ram_fp' :
  0 ≤ address < 2 ^ 32 →
  write_block_to_ram ram_fp address data num_bytes block_size = Some ram_fp' →
  (length (fbytes ram_fp) ≤ length (fbytes ram_fp'))%nat
  ∧ ∀ i, (i < length (fbytes ram_fp))%nat →
         ¬ (address ≤ Z.of_nat i < address + Z.of_nat num_bytes) →
         fbytes ram_fp' !! i = fbytes ram_fp !! i.
Proof.
  intros Ha H.
  assert (∀ i, (i < length (fbytes ram_fp))%nat →
            ¬ (address ≤ Z.of_nat i < address + Z.of_nat num_bytes) →
            fbytes ram_fp' !! i = fbytes ram_fp !! i) as Hframe.
  { intros i Hi Hout.
    rewrite (write_block_to_ram_lookup _ _ _ _ _ _ _ Ha H).
    repeat case_decide; try done; lia. }
  split; [|done].
  pose proof (write_block_to_ram_inv _ _ _ _ _ _ H) as (_ & _ & Hn & _).
  destruct (decide (length (fbytes ram_fp) ≤ length (fbytes ram_fp'))%nat)
    as [|Hgt]; [done|].
  pose proof (write_block_to_ram_lookup _ _ _ _ _ _ (length (fbytes ram_fp')) Ha H)
    as Hl.
  rewrite (lookup_ge_None_2 (fbytes ram_fp')) in Hl by lia.
  repeat case_decide; try lia; symmetry in Hl; apply lookup_ge_None in Hl; lia.
Qed.

Lemma write_block_to_ram_frame_witness :
  0 ≤ 18 < 2 ^ 32
  ∧ write_block_to_ram ram64_fp 18 [170; 187] 2 16
    = Some (mkFILE ram64_aabb 32 1)
  ∧ (length (fbytes ram64_fp)
     ≤ length ram64_aabb)%nat
  ∧ ∀ i, (i < length (fbytes ram64_fp))%nat →
         ¬ (18 ≤ Z.of_nat i < 18 + Z.of_nat 2) →
         ram64_aabb !! i = fbytes ram64_fp !! i.
Proof.
  split; [lia|]. split; [reflexivity|].
  apply (write_block_to_ram_frame ram64_fp 18 [170; 187] 2 16
           (mkFILE ram64_aabb 32 1));
    [lia | reflexivity].
Defined.

(** ** Elementary steps of the protocol *)

Lemma incr_Some p q : incr p = Some q → q = p + 1.
Proof. unfold incr. case_decide; naive_solver. Qed.

Lemma incr_hit_Some c c' :
  incr_hit c = Some c' → c' = mkCnt (hit c + 1) (miss c) (evict c).
Proof.
  unfold incr_hit. intros H. bind_inv H h Hh.
  apply incr_Some in Hh. naive_solver.
Qed.

Lemma incr_miss_Some c c' :
  incr_miss c = Some c' → c' = mkCnt (hit c) (miss c + 1) (evict c).
Proof.
  unfold incr_miss. intros H. bind_inv H h Hh.
  apply incr_Some in Hh. naive_solver.
Qed.

Lemma incr_evict_Some c c' :
  incr_evict c = Some c' → c' = mkCnt (hit c) (miss c) (evict c + 1).
Proof.
  unfold incr_evict. intros H. bind_inv H h Hh.
  apply incr_Some in Hh. naive_solver.
Qed.

Lemma decode_pairs_length str : length (decode_pairs str) = num_bytes_of str.
Proof.
  unfold num_bytes_of.
  assert (∀ n str, (String.length str ≤ n)%nat →
            length (decode_pairs str) = (String.length str / 2)%nat) as H.
  { induction n as [|n IH]; intros [|c1 [|c2 rest]] Hn; try done; simpl in Hn;
      try lia.
    cbn [decode_pairs length String.length]. rewrite IH by lia.
    change (S (S (String.length rest))) with (2 + String.length rest)%nat.
    replace (2 + String.length rest)%nat with (1 * 2 + String.length rest)%nat
      by lia.
    rewrite Nat.div_add_l by lia. lia. }
  by apply (H (String.length str)).
Qed.

(** A block read changes neither the content of the file nor the number of
    writes; it fills the whole block when the file covers it. *)
Lemma read_block_from_ram_inv fp a blk B blk' fp' :
  read_block_from_ram fp a blk B = Some (blk', fp') →
  fbytes fp' = fbytes fp ∧ fwrites fp' = fwrites fp
  ∧ length blk' = length blk
  ∧ ((Z.to_nat (block_start_of a B) + Z.to_nat B ≤ length (fbytes fp))%nat →
     length blk = Z.to_nat B →
     blk' = take (Z.to_nat B) (drop (Z.to_nat (block_start_of a B)) (fbytes fp))).
Proof.
  unfold read_block_from_ram, fread, fseek. cbn [fbytes fpos fwrites].
  set (bs := Z.to_nat (block_start_of a B)).
  set (got := take (Z.to_nat B) (drop bs (fbytes fp))).
  case_decide as Hgot; [|done]. intros [= <- <-]. cbn [fbytes fpos fwrites].
  split; [done|]. split; [done|]. split.
  - rewrite length_app, length_drop. lia.
  - intros Hin Hlen.
    assert (length got = Z.to_nat B) as Hg.
    { unfold got. rewrite length_take, length_drop. lia. }
    rewrite drop_ge by lia. by rewrite app_nil_r.
Qed.

Lemma get_line_Some c si i l :
  get_line c si i = Some l ↔
  ∃ set, Cache.sets c !! Z.to_nat si = Some set ∧ lines set !! i = Some l.
Proof. unfold get_line. by rewrite bind_Some. Qed.

(** Lines of a cache after [put_line]. *)
Lemma put_line_sets c si i l sj :
  Cache.sets (put_line c si i l) !! sj =
    if decide (sj = Z.to_nat si)
    then (λ set, mkSet (<[i := l]> (lines set))) <$> Cache.sets c !! sj
    else Cache.sets c !! sj.
Proof.
  unfold put_line. cbn [Cache.sets]. case_decide as Hs.
  - subst sj. by rewrite list_lookup_alter_eq.
  - by rewrite list_lookup_alter_ne.
Qed.

Lemma with_fifo_time_sets c t : Cache.sets (with_fifo_time c t) = Cache.sets c.
Proof. done. Qed.

Lemma fill_line_inv c si v t fp a c' fp' :
  fill_line c si v t fp a = Some (c', fp') →
  ∃ old blk,
    get_line c si v = Some old
    ∧ read_block_from_ram fp a (block old) (Cache.B c) = Some (blk, fp')
    ∧ c' = with_fifo_time
             (put_line c si v (mkLine true t (Cache.fifo_time c) blk))
             (wrap32 (Cache.fifo_time c + 1)).
Proof.
  unfold fill_line. intros H. bind_inv H old Hold. bind_inv H r Hr.
  destruct r as [blk fp1]. injection H as <- <-. by exists old, blk.
Qed.

Lemma write_line_inv c si i off d n c' :
  write_line c si i off d n = Some c' →
  ∃ old blk,
    get_line c si i = Some old
    ∧ memcpy (block old) (Z.to_nat off) d n = Some blk
    ∧ c' = put_line c si i (mkLine (valid old) (tag old) (fifo_counter old) blk).
Proof.
  unfold write_line. intros H. bind_inv H old Hold. bind_inv H blk Hblk.
  injection H as <-. by exists old, blk.
Qed.

Lemma memcpy_inv dst off src n dst' :
  memcpy dst off src n = Some dst' →
  (off + n ≤ length dst)%nat ∧ (n ≤ length src)%nat
  ∧ dst' = list_inserts off (take n src) dst.
Proof.
  unfold memcpy. case_decide as Hb; [|done]. intros [= <-]. by destruct Hb.
Qed.

(** ** Inversion of the access functions *)

Lemma store_l2_inv L2 a c2 fp d n res L2' c2' fp' res' :
  store_l2 L2 a c2 fp d n res = Some (L2', c2', fp', res') →
  ∃ l2_tag l2_set l2_off r2,
    extract_address_parts a (Cache.s L2) (Cache.b L2) = (l2_tag, l2_set, l2_off)
    ∧ find_line L2 l2_set l2_tag = Some r2
    ∧ match r2 with
      | Hit i =>
          incr_hit c2 = Some c2'
          ∧ write_line L2 l2_set i (Z.land a (wrap32 (Cache.B L2 - 1))) d n
            = Some L2'
          ∧ fp' = fp
          ∧ res' = with_l2_hit (with_set_l2 res l2_set) 1
      | Miss v =>
          ∃ vline L2f,
            get_line L2 l2_set v = Some vline
            ∧ l2_miss_stats c2 c2' (valid vline)
            ∧ fill_line L2 l2_set v l2_tag fp a = Some (L2f, fp')
            ∧ write_line L2f l2_set v (Z.land a (wrap32 (Cache.B L2 - 1))) d n
              = Some L2'
            ∧ res' = l2_miss_record (with_set_l2 res l2_set) (valid vline)
      end.
Proof.
  unfold store_l2. intros H.
  destruct (extract_address_parts a (Cache.s L2) (Cache.b L2))
    as [[l2_tag l2_set] l2_off].
  bind_inv H r2 Hr2. exists l2_tag, l2_set, l2_off, r2.
  split; [done|]. split; [done|]. destruct r2 as [i|v].
  - bind_inv H c Hc. bind_inv H L Hw. by injection H as <- <- <- <-.
  - bind_inv H cm Hcm. bind_inv H vline Hvl. bind_inv H p Hp.
    destruct p as [ce re]. bind_inv H q Hq. destruct q as [L2f fpf].
    bind_inv H L Hw. injection H as <- <- <- <-.
    exists vline, L2f. split; [done|]. unfold l2_miss_stats, l2_miss_record.
    destruct (valid vline).
    + bind_inv Hp ce' Hce. injection Hp as <- <-. eauto 10.
    + injection Hp as <- <-. eauto 10.
Qed.

Lemma access_store_inv L1 L2 a c1 c2 fp o res L1' L2' c1' c2' fp' res' :
  access_store L1 L2 a c1 c2 fp o res = Some (L1', L2', c1', c2', fp', res') →
  let d := decode_pairs (data o) in
  let n := num_bytes_of (data o) in
  ∃ l1_tag l1_set l1_off r1,
    extract_address_parts a (Cache.s L1) (Cache.b L1) = (l1_tag, l1_set, l1_off)
    ∧ find_line L1 l1_set l1_tag = Some r1
    ∧ (n ≤ 32)%nat
    ∧ match r1 with
      | Hit i =>
          ∃ fp1 res1,
            incr_hit c1 = Some c1'
            ∧ write_line L1 l1_set i (Z.land a (wrap32 (Cache.B L1 - 1))) d n
              = Some L1'
            ∧ store_l2 L2 a c2 fp d n (with_l1_hit (with_set_l1 res l1_set) 1)
              = Some (L2', c2', fp1, res1)
            ∧ write_block_to_ram fp1 a d n (Cache.B L1') = Some fp'
            ∧ res' = with_wrote_to_ram res1 1
      | Miss v =>
          ∃ fp1,
            incr_miss c1 = Some c1'
            ∧ L1' = L1
            ∧ write_block_to_ram fp a d n (Cache.B L1) = Some fp1
            ∧ store_l2 L2 a c2 fp1 d n
                (with_wrote_to_ram (with_l1_miss (with_set_l1 res l1_set) 1) 1)
              = Some (L2', c2', fp', res')
      end.
Proof.
  intros H d n. unfold access_store in H. fold d n in H.
  destruct (extract_address_parts a (Cache.s L1) (Cache.b L1))
    as [[l1_tag l1_set] l1_off].
  bind_inv H r1 Hr1. bind_inv H g Hg. exists l1_tag, l1_set, l1_off, r1.
  split; [done|]. split; [done|]. split; [done|]. destruct r1 as [i|v].
  - bind_inv H c Hc. bind_inv H L Hw. bind_inv H p Hp.
    destruct p as [[[L2f c2f] fp1] res1]. bind_inv H fpw Hfw.
    injection H as <- <- <- <- <- <-. by exists fp1, res1.
  - bind_inv H c Hc. bind_inv H fp1 Hfw. bind_inv H p Hp.
    destruct p as [[[L2f c2f] fpf] resf].
    injection H as <- <- <- <- <- <-. by exists fp1.
Qed.

Lemma access_load_inv L1 L2 a c1 c2 fp res L1' L2' c1' c2' fp' res' :
  access_load L1 L2 a c1 c2 fp res = Some (L1', L2', c1', c2', fp', res') →
  ∃ l1_tag l1_set l1_off r1,
    extract_address_parts a (Cache.s L1) (Cache.b L1) = (l1_tag, l1_set, l1_off)
    ∧ find_line L1 l1_set l1_tag = Some r1
    ∧ match r1 with
      | Hit i =>
          incr_hit c1 = Some c1' ∧ L1' = L1 ∧ L2' = L2 ∧ c2' = c2 ∧ fp' = fp
          ∧ res' = with_l1_hit (with_set_l1 res l1_set) 1
      | Miss v =>
          ∃ l2_tag l2_set l2_off r2 c1m fp2 res2 vline,
            incr_miss c1 = Some c1m
            ∧ extract_address_parts a (Cache.s L2) (Cache.b L2)
              = (l2_tag, l2_set, l2_off)
            ∧ find_line L2 l2_set l2_tag = Some r2
            ∧ match r2 with
              | Hit _ =>
                  incr_hit c2 = Some c2' ∧ L2' = L2 ∧ fp2 = fp
                  ∧ res2 = with_l2_hit
                             (with_set_l2
                                (with_l1_miss (with_set_l1 res l1_set) 1)
                                l2_set) 1
              | Miss w =>
                  ∃ wline,
                    get_line L2 l2_set w = Some wline
                    ∧ l2_miss_stats c2 c2' (valid wline)
                    ∧ fill_line L2 l2_set w l2_tag fp a = Some (L2', fp2)
                    ∧ res2 = l2_miss_record
                               (with_set_l2
                                  (with_l1_miss (with_set_l1 res l1_set) 1)
                                  l2_set) (valid wline)
              end
            ∧ get_line L1 l1_set v = Some vline
            ∧ (if valid vline then incr_evict c1m = Some c1' else c1' = c1m)
            ∧ fill_line L1 l1_set v l1_tag fp2 a = Some (L1', fp')
            ∧ res' = with_placed_in_l1 (with_l1_evict res2 1) 1
      end.
Proof.
  unfold access_load. intros H.
  destruct (extract_address_parts a (Cache.s L1) (Cache.b L1))
    as [[l1_tag l1_set] l1_off].
  bind_inv H r1 Hr1. exists l1_tag, l1_set, l1_off, r1.
  split; [done|]. split; [done|]. destruct r1 as [i|v].
  - bind_inv H c Hc. by injection H as <- <- <- <- <- <-.
  - bind_inv H c1m Hc1m.
    destruct (extract_address_parts a (Cache.s L2) (Cache.b L2))
      as [[l2_tag l2_set] l2_off].
    bind_inv H r2 Hr2. bind_inv H p Hp. destruct p as [[[L2f c2f] fp2] res2].
    bind_inv H vline Hvl. bind_inv H c1e Hc1e. bind_inv H q Hq.
    destruct q as [L1f fpf]. injection H as <- <- <- <- <- <-.
    exists l2_tag, l2_set, l2_off, r2, c1m, fp2, res2, vline.
    split; [done|]. split; [done|]. split; [done|]. split.
    { destruct r2 as [j|w].
      - bind_inv Hp c Hc. by injection Hp as <- <- <- <-.
      - bind_inv Hp cm Hcm. bind_inv Hp wline Hwl. bind_inv Hp p Hp'.
        destruct p as [ce re]. bind_inv Hp q Hq'. destruct q as [L2g fpg].
        injection Hp as <- <- <- <-. exists wline. split; [done|].
        unfold l2_miss_stats, l2_miss_record. destruct (valid wline).
        + bind_inv Hp' ce' Hce. injection Hp' as <- <-. eauto 10.
        + injection Hp' as <- <-. eauto 10. }
    split; [done|]. split; [|done].
    destruct (valid vline); [done|]. by injection Hc1e as <-.
Qed.

(** ** STORE *)

Lemma extract_address_parts_eq c a t si off :
  extract_address_parts a (Cache.s c) (Cache.b c) = (t, si, off) →
  t = addr_tag c a ∧ si = addr_set c a.
Proof. unfold addr_tag, addr_set. by intros ->. Qed.


Lemma write_line_B c si i off d n c' :
  write_line c si i off d n = Some c' → Cache.B c' = Cache.B c.
Proof. intros (old & blk & _ & _ & ->)%write_line_inv. done. Qed.

Lemma fill_line_ram c si v t fp a c' fp' :
  fill_line c si v t fp a = Some (c', fp') →
  fbytes fp' = fbytes fp ∧ fwrites fp' = fwrites fp.
Proof.
  intros (old & blk & _ & Hr & _)%fill_line_inv.
  by apply read_block_from_ram_inv in Hr as (? & ? & _).
Qed.

(** The L2 part of a store leaves the file content, the number of writes
    and the L1 fields of the record alone. *)
Lemma store_l2_frame L2 a c2 fp d n res L2' c2' fp' res' :
  store_l2 L2 a c2 fp d n res = Some (L2', c2', fp', res') →
  fbytes fp' = fbytes fp ∧ fwrites fp' = fwrites fp
  ∧ wrote_to_ram res' = wrote_to_ram res
  ∧ l1_hit res' = l1_hit res ∧ l1_miss res' = l1_miss res
  ∧ l1_evict res' = l1_evict res ∧ placed_in_l1 res' = placed_in_l1 res
  ∧ set_l1 res' = set_l1 res.
Proof.
  intros (t & si & off & r2 & _ & _ & H)%store_l2_inv. destruct r2 as [i|v].
  - destruct H as (_ & _ & -> & ->). done.
  - destruct H as (vline & L2f & _ & _ & Hf & _ & ->).
    apply fill_line_ram in Hf as [-> ->].
    unfold l2_miss_record. by destruct (valid vline).
Qed.

(** C2, as the code has it: a STORE (alone or as the second half of a
    MODIFY) that completes calls the backing-store write exactly once and
    sets wrote_to_ram, whatever the lookups in L1 and L2 give and wherever
    the written range ends.  Every written byte that lies inside the L1
    block of the address, which is the block that the write rewrites, is in
    the file right after the operation; so when the written range stays
    inside that block, the bytes of the file at
    [address, address + num_bytes) are the written data. *)
Theorem access_store_writes_through
    L1 L2 address L1_stats L2_stats ram_fp o result
    L1' L2' L1_stats' L2_stats' ram_fp' result' :
  0 ≤ address < 2 ^ 32 →
  access_store L1 L2 address L1_stats L2_stats ram_fp o result
    = Some (L1', L2', L1_stats', L2_stats', ram_fp', result') →
  fwrites ram_fp' = S (fwrites ram_fp)
  ∧ wrote_to_ram result' = 1
  ∧ (∀ k, (k < num_bytes_of (data o))%nat →
          offset_in_block address (Cache.B L1) + Z.of_nat k < Cache.B L1 →
          fbytes ram_fp' !! (Z.to_nat address + k)%nat
          = decode_pairs (data o) !! k)
  ∧ (offset_in_block address (Cache.B L1) + Z.of_nat (num_bytes_of (data o))
       ≤ Cache.B L1 →
     ∀ k, (k < num_bytes_of (data o))%nat →
          fbytes ram_fp' !! (Z.to_nat address + k)%nat
          = decode_pairs (data o) !! k).
Proof.
  intros Ha H.
  pose proof (block_start_bounds address (Cache.B L1) ltac:(lia)) as Hbs.
  pose proof (offset_in_block_eq address (Cache.B L1) Ha) as Hoff.
  apply access_store_inv in H as (t & si & off & r1 & _ & _ & _ & H).
  assert (∀ fp1 fp2,
            write_block_to_ram fp1 address (decode_pairs (data o))
              (num_bytes_of (data o)) (Cache.B L1) = Some fp2 →
            fwrites fp2 = S (fwrites fp1)
            ∧ ∀ k, (k < num_bytes_of (data o))%nat →
                   offset_in_block address (Cache.B L1) + Z.of_nat k
                     < Cache.B L1 →
                   fbytes fp2 !! (Z.to_nat address + k)%nat
                   = decode_pairs (data o) !! k) as Hw.
  { intros fp1 fp2 Hw.
    pose proof (write_block_to_ram_inv _ _ _ _ _ _ Hw) as (_ & _ & _ & Hcnt & _).
    split; [done|]. intros k Hk Hin.
    rewrite (write_block_to_ram_lookup _ _ _ _ _ _ _ Ha Hw).
    rewrite decide_True by lia. f_equal. lia. }
  assert (fwrites ram_fp' = S (fwrites ram_fp)
          ∧ wrote_to_ram result' = 1
          ∧ ∀ k, (k < num_bytes_of (data o))%nat →
                 offset_in_block address (Cache.B L1) + Z.of_nat k
                   < Cache.B L1 →
                 fbytes ram_fp' !! (Z.to_nat address + k)%nat
                 = decode_pairs (data o) !! k) as (Hcnt & Hflag & Hbytes).
  { destruct r1 as [i|v].
    - destruct H as (fp1 & res1 & _ & Hwl & Hs & Hwb & ->).
      rewrite (write_line_B _ _ _ _ _ _ _ Hwl) in Hwb.
      apply store_l2_frame in Hs as (Hb & Hc & _).
      apply Hw in Hwb as [Hcnt Hbytes]. rewrite Hcnt, Hc. done.
    - destruct H as (fp1 & _ & _ & Hwb & Hs).
      apply store_l2_frame in Hs as (Hb & Hc & Hwr & _).
      apply Hw in Hwb as [Hcnt Hbytes]. rewrite Hb, Hc, Hwr. done. }
  split; [done|]. split; [done|]. split; [done|].
  intros Hin k Hk. apply Hbytes; lia.
Qed.

Lemma access_store_writes_through_witness :
  ∃ L1' L2' L1_stats' L2_stats' ram_fp' result',
    access_store L1_small L2_small 18 stats0 stats0 ram64_fp o_store res0
      = Some (L1', L2', L1_stats', L2_stats', ram_fp', result')
    ∧ fwrites ram_fp' = 1%nat
    ∧ wrote_to_ram result' = 1
    ∧ ∀ k, (k < 2)%nat →
           fbytes ram_fp' !! (18 + k)%nat = [170; 187] !! k.
Proof.
  do 6 eexists. split; [vm_compute; reflexivity|].
  destruct (access_store_writes_through L1_small L2_small 18 stats0 stats0
              ram64_fp o_store res0 _ _ _ _ _ _ ltac:(lia) eq_refl)
    as (Hcnt & Hflag & _ & Hbytes).
  split; [exact Hcnt|]. split; [exact Hflag|].
  apply Hbytes. vm_compute. discriminate.
Defined.

(** C2 as stated fails on a store that crosses the L1 block boundary: the
    eight bytes f1..f8 go to address 12 with 16-byte L1 blocks and 32-byte
    L2 blocks; L1 misses, the operation completes, wrote_to_ram is set, and
    the file holds f1..f4 at 12..15 but still its old bytes at 16..19. *)
Lemma access_store_truncates_at_block_end :
  ∃ L1' L2' L1_stats' L2_stats' ram_fp' result',
    access_store L1_small L2_wide 12 stats0 stats0 ram64_fp o_cross res0
      = Some (L1', L2', L1_stats', L2_stats', ram_fp', result')
    ∧ wrote_to_ram result' = 1
    ∧ decode_pairs (data o_cross) = [241; 242; 243; 244; 245; 246; 247; 248]
    ∧ fbytes ram_fp' !! 15%nat = Some 244
    ∧ fbytes ram_fp' !! 16%nat = Some 16
    ∧ fbytes ram_fp' !! 16%nat ≠ decode_pairs (data o_cross) !! 4%nat.
Proof.
  do 6 eexists. split; [vm_compute; reflexivity|].
  repeat split; try reflexivity. vm_compute. discriminate.
Qed.

(** ** Filling a victim *)

Lemma find_line_Some_resolves c si t r :
  shape c → find_line c si t = Some r →
  ∃ set, Cache.sets c !! Z.to_nat si = Some set
         ∧ resolves (lines set) t r ∧ 1 ≤ Cache.E c.
Proof.
  intros Hsh H. pose proof H as H'. unfold find_line in H'.
  bind_inv H' set Hset. bind_inv H' l0 Hl0.
  apply lookup_lt_Some in Hl0. pose proof (Hsh _ _ Hset) as Hlen.
  assert (1 ≤ Cache.E c) as HE by lia.
  destruct (find_line_resolves c si t set Hset Hlen HE) as (r' & Hr' & Hres).
  exists set. by simplify_eq.
Qed.

Lemma resolves_miss_lookup ls t v :
  resolves ls t (Miss v) → ∃ l, ls !! v = Some l.
Proof.
  intros [[[(l & Hl & _) _] _] | (_ & _ & l & Hl & _)]; by exists l.
Qed.

(** Replacing the victim of a miss by a valid line with the requested tag
    keeps the valid lines first and the tags unique. *)
Lemma fill_keeps_valid_prefix ls t v new :
  valid_prefix ls → resolves ls t (Miss v) → valid new = true →
  valid_prefix (<[v := new]> ls).
Proof.
  intros Hp Hr Hv i j li lj Hij Hi Hj Hvj.
  apply list_lookup_insert_Some in Hi as [(<- & <- & _)|[Hiv Hi]]; [done|].
  apply list_lookup_insert_Some in Hj as [(<- & <- & _)|[Hjv Hj]].
  - destruct Hr as [[[_ Hbefore] _] | (Hall & _)].
    + by apply (Hbefore i li).
    + by apply (Hall i li).
  - by apply (Hp i j li lj).
Qed.

Lemma miss_other_lines ls t v j lj :
  valid_prefix ls → resolves ls t (Miss v) →
  ls !! j = Some lj → valid lj = true → j ≠ v → tag lj ≠ t.
Proof.
  intros Hp Hr Hj Hvj Hne.
  destruct Hr as [[[(lv & Hlv & Hinv) _] Hsc] | (_ & Hsc & _)].
  - destruct (decide (j < v)%nat) as [Hlt|Hge].
    + by destruct (Hsc j lj Hlt Hj).
    + assert (valid lv = true) by (apply (Hp v j lv lj); [lia|done..]).
      congruence.
  - apply lookup_lt_Some in Hj as Hlt. by destruct (Hsc j lj Hlt Hj).
Qed.

Lemma fill_keeps_tags_unique ls t v new :
  valid_prefix ls → tags_unique ls → resolves ls t (Miss v) →
  tag new = t → tags_unique (<[v := new]> ls).
Proof.
  intros Hp Hu Hr Ht i j li lj Hi Hj Hvi Hvj Htag.
  apply list_lookup_insert_Some in Hi as [(<- & <- & _)|[Hiv Hi]];
    apply list_lookup_insert_Some in Hj as [(Hjv & <- & _)|[Hjv Hj]].
  - done.
  - exfalso. apply (miss_other_lines ls t v j lj); try done. congruence.
  - subst j. exfalso. apply (miss_other_lines ls t v i li); try done.
    congruence.
  - by apply (Hu i j li lj).
Qed.

(** After the fill the requested tag is found. *)
Lemma fill_then_hit ls t v new r :
  resolves ls t (Miss v) → valid new = true → tag new = t →
  resolves (<[v := new]> ls) t r → ∃ k, r = Hit k.
Proof.
  intros Hr Hv Ht Hr'. destruct r as [k|v']; [by exists k|exfalso].
  destruct (resolves_miss_lookup _ _ _ Hr) as [lv Hlv].
  apply lookup_lt_Some in Hlv as Hlt.
  assert (<[v := new]> ls !! v = Some new) as Hnew
    by by apply list_lookup_insert_eq.
  assert (∀ k, scanned (<[v := new]> ls) t k → (k ≤ v)%nat) as Hscan.
  { intros k Hsc. destruct (decide (k ≤ v)%nat); [done|].
    destruct (Hsc v new ltac:(lia) Hnew). congruence. }
  destruct Hr' as [[[(l' & Hl' & Hinv') Hbefore'] Hsc'] | (_ & Hsc' & _)].
  - apply Hscan in Hsc'.
    destruct (decide (v' = v)) as [->|Hne]; [congruence|].
    rewrite list_lookup_insert_ne in Hl' by done.
    destruct Hr as [[[_ Hbefore] _] | (Hall & _)].
    + specialize (Hbefore v' l' ltac:(lia) Hl'). congruence.
    + specialize (Hall v' l' Hl'). congruence.
  - apply Hscan in Hsc'. rewrite length_insert in Hsc'. lia.
Qed.

Lemma put_line_shape c si i l : shape c → shape (put_line c si i l).
Proof.
  intros Hsh sj set' Hs. rewrite put_line_sets in Hs. case_decide.
  - apply fmap_Some in Hs as (set & Hset & ->). cbn [lines].
    rewrite length_insert. by apply (Hsh sj).
  - by apply (Hsh sj).
Qed.

Lemma find_line_with_fifo_time c ft si t :
  find_line (with_fifo_time c ft) si t = find_line c si t.
Proof. done. Qed.

Lemma find_line_after_fill c si t v new :
  shape c → find_line c si t = Some (Miss v) →
  valid new = true → tag new = t →
  ∃ k, find_line (put_line c si v new) si t = Some (Hit k).
Proof.
  intros Hsh Hf Hv Ht.
  destruct (find_line_Some_resolves c si t _ Hsh Hf) as (set & Hset & Hr & HE).
  assert (Cache.sets (put_line c si v new) !! Z.to_nat si
          = Some (mkSet (<[v := new]> (lines set)))) as Hset'.
  { rewrite put_line_sets, decide_True by done. by rewrite Hset. }
  destruct (find_line_resolves (put_line c si v new) si t _ Hset')
    as (r & Hfr & Hres).
  { cbn [lines]. rewrite length_insert. by apply (Hsh (Z.to_nat si)). }
  { done. }
  destruct (fill_then_hit _ _ _ _ _ Hr Hv Ht Hres) as [k ->]. by exists k.
Qed.

Lemma sets_ok_shape c : sets_ok c → shape c.
Proof. intros H si set Hs. by destruct (H si set Hs). Qed.

Lemma sets_ok_put_fill c si t v new :
  sets_ok c → find_line c si t = Some (Miss v) →
  valid new = true → tag new = t →
  sets_ok (put_line c si v new).
Proof.
  intros Hok Hf Hv Ht.
  destruct (find_line_Some_resolves c si t _ (sets_ok_shape _ Hok) Hf)
    as (set & Hset & Hr & _).
  intros sj set' Hs. rewrite put_line_sets in Hs. case_decide as Hsj.
  - subst sj. rewrite Hset in Hs. injection Hs as <-. cbn [lines].
    destruct (Hok _ _ Hset) as (Hlen & Hp & Hu).
    split; [by rewrite length_insert|]. split.
    + by apply (fill_keeps_valid_prefix _ t).
    + by apply (fill_keeps_tags_unique _ t).
  - by apply (Hok sj).
Qed.

Lemma sets_ok_put_same c si i old new :
  sets_ok c → get_line c si i = Some old →
  valid new = valid old → tag new = tag old →
  sets_ok (put_line c si i new).
Proof.
  intros Hok (set & Hset & Hold)%get_line_Some Hv Ht sj set' Hs.
  rewrite put_line_sets in Hs. case_decide as Hsj; [|by apply (Hok sj)].
  subst sj. rewrite Hset in Hs. injection Hs as <-. cbn [lines].
  destruct (Hok _ _ Hset) as (Hlen & Hp & Hu).
  split; [by rewrite length_insert|].
  assert (∀ k lk, <[i := new]> (lines set) !! k = Some lk →
            ∃ lk', lines set !! k = Some lk'
                   ∧ valid lk = valid lk' ∧ tag lk = tag lk') as Hsame.
  { intros k lk Hk.
    apply list_lookup_insert_Some in Hk as [(<- & <- & _)|[_ Hk]]; eauto. }
  split.
  - intros k j lk lj Hkj Hk Hj Hvj.
    apply Hsame in Hk as (lk' & Hk & -> & _).
    apply Hsame in Hj as (lj' & Hj & Hvj' & _). rewrite Hvj' in Hvj.
    by apply (Hp k j lk' lj').
  - intros k j lk lj Hk Hj Hvk Hvj Htag.
    apply Hsame in Hk as (lk' & Hk & Hvk' & Htk).
    apply Hsame in Hj as (lj' & Hj & Hvj' & Htj).
    apply (Hu k j lk' lj'); congruence.
Qed.

Lemma sets_ok_with_fifo_time c ft : sets_ok c → sets_ok (with_fifo_time c ft).
Proof. done. Qed.

Lemma fill_line_sets_ok c si v t fp a c' fp' :
  sets_ok c → find_line c si t = Some (Miss v) →
  fill_line c si v t fp a = Some (c', fp') → sets_ok c'.
Proof.
  intros Hok Hf (old & blk & _ & _ & ->)%fill_line_inv.
  apply sets_ok_with_fifo_time. by apply (sets_ok_put_fill _ _ t).
Qed.

Lemma write_line_sets_ok c si i off d n c' :
  sets_ok c → write_line c si i off d n = Some c' → sets_ok c'.
Proof.
  intros Hok (old & blk & Hold & _ & ->)%write_line_inv.
  by apply (sets_ok_put_same _ _ _ old).
Qed.

(** ** The set invariant along a run *)

Lemma store_l2_sets_ok L2 a c2 fp d n res L2' c2' fp' res' :
  sets_ok L2 → store_l2 L2 a c2 fp d n res = Some (L2', c2', fp', res') →
  sets_ok L2'.
Proof.
  intros Hok (t & si & off & r2 & _ & Hf & H)%store_l2_inv.
  destruct r2 as [i|v].
  - destruct H as (_ & Hw & _). exact (write_line_sets_ok _ _ _ _ _ _ _ Hok Hw).
  - destruct H as (vline & L2f & _ & _ & Hfill & Hw & _).
    apply (write_line_sets_ok _ _ _ _ _ _ _
             (fill_line_sets_ok _ _ _ _ _ _ _ _ Hok Hf Hfill) Hw).
Qed.

Lemma access_load_sets_ok L1 L2 a c1 c2 fp res L1' L2' c1' c2' fp' res' :
  sets_ok L1 → sets_ok L2 →
  access_load L1 L2 a c1 c2 fp res = Some (L1', L2', c1', c2', fp', res') →
  sets_ok L1' ∧ sets_ok L2'.
Proof.
  intros Hok1 Hok2 (t & si & off & r1 & _ & Hf1 & H)%access_load_inv.
  destruct r1 as [i|v].
  - by destruct H as (_ & -> & -> & _).
  - destruct H as (t2 & si2 & off2 & r2 & c1m & fp2 & res2 & vline
                   & _ & _ & Hf2 & H2 & _ & _ & Hfill1 & _).
    split; [exact (fill_line_sets_ok _ _ _ _ _ _ _ _ Hok1 Hf1 Hfill1)|].
    destruct r2 as [j|w].
    + by destruct H2 as (_ & -> & _).
    + destruct H2 as (wline & _ & _ & Hfill2 & _).
      exact (fill_line_sets_ok _ _ _ _ _ _ _ _ Hok2 Hf2 Hfill2).
Qed.

Lemma access_store_sets_ok L1 L2 a c1 c2 fp o res L1' L2' c1' c2' fp' res' :
  sets_ok L1 → sets_ok L2 →
  access_store L1 L2 a c1 c2 fp o res = Some (L1', L2', c1', c2', fp', res') →
  sets_ok L1' ∧ sets_ok L2'.
Proof.
  intros Hok1 Hok2 (t & si & off & r1 & _ & Hf1 & _ & H)%access_store_inv.
  destruct r1 as [i|v].
  - destruct H as (fp1 & res1 & _ & Hw & Hs & _).
    split; [exact (write_line_sets_ok _ _ _ _ _ _ _ Hok1 Hw)|].
    exact (store_l2_sets_ok _ _ _ _ _ _ _ _ _ _ _ Hok2 Hs).
  - destruct H as (fp1 & _ & -> & _ & Hs).
    split; [done|]. exact (store_l2_sets_ok _ _ _ _ _ _ _ _ _ _ _ Hok2 Hs).
Qed.

Lemma access_modify_inv L1 L2 a c1 c2 fp o lr0 sr0
    L1'' L2'' c1'' c2'' fp'' lres sres :
  access_modify L1 L2 a c1 c2 fp o lr0 sr0
    = Some (L1'', L2'', c1'', c2'', fp'', lres, sres) →
  ∃ L1' L2' c1' c2' fp',
    access_load L1 L2 a c1 c2 fp res0 = Some (L1', L2', c1', c2', fp', lres)
    ∧ access_store L1' L2' a c1' c2' fp' o res0
      = Some (L1'', L2'', c1'', c2'', fp'', sres).
Proof.
  unfold access_modify. intros H. bind_inv H p Hp.
  destruct p as [[[[[L1' L2'] c1'] c2'] fp'] lr]. bind_inv H q Hq.
  destruct q as [[[[[L1f L2f] c1f] c2f] fpf] sr].
  injection H as <- <- <- <- <- <- <-. by exists L1', L2', c1', c2', fp'.
Qed.

Lemma access_modify_sets_ok L1 L2 a c1 c2 fp o lr0 sr0
    L1' L2' c1' c2' fp' lres sres :
  sets_ok L1 → sets_ok L2 →
  access_modify L1 L2 a c1 c2 fp o lr0 sr0
    = Some (L1', L2', c1', c2', fp', lres, sres) →
  sets_ok L1' ∧ sets_ok L2'.
Proof.
  intros Hok1 Hok2 (L1m & L2m & c1m & c2m & fpm & Hl & Hs)%access_modify_inv.
  destruct (access_load_sets_ok _ _ _ _ _ _ _ _ _ _ _ _ _ Hok1 Hok2 Hl)
    as [Hm1 Hm2].
  exact (access_store_sets_ok _ _ _ _ _ _ _ _ _ _ _ _ _ _ Hm1 Hm2 Hs).
Qed.

(** What one iteration of the loop runs, by kind of operation. *)
Lemma step_inv st o st' lr sr :
  step st o = Some (st', lr, sr) →
  match op o with
  | LOAD =>
      ∃ l1 l2 c1 c2 fp,
        access_load (L1D st) (L2 st) (address o) (L1D_stats st) (L2_stats st)
          (ram_fp st) res0 = Some (l1, l2, c1, c2, fp, lr)
        ∧ st' = mkSim l1 (L1I st) l2 c1 (L1I_stats st) c2 fp ∧ sr = res0
  | INST =>
      ∃ l1 l2 c1 c2 fp,
        access_load (L1I st) (L2 st) (address o) (L1I_stats st) (L2_stats st)
          (ram_fp st) res0 = Some (l1, l2, c1, c2, fp, lr)
        ∧ st' = mkSim (L1D st) l1 l2 (L1D_stats st) c1 c2 fp ∧ sr = res0
  | STORE =>
      ∃ l1 l2 c1 c2 fp,
        access_store (L1D st) (L2 st) (address o) (L1D_stats st) (L2_stats st)
          (ram_fp st) o res0 = Some (l1, l2, c1, c2, fp, sr)
        ∧ st' = mkSim l1 (L1I st) l2 c1 (L1I_stats st) c2 fp ∧ lr = res0
  | MODIFY =>
      ∃ l1 l2 c1 c2 fp,
        access_modify (L1D st) (L2 st) (address o) (L1D_stats st) (L2_stats st)
          (ram_fp st) o res0 res0 = Some (l1, l2, c1, c2, fp, lr, sr)
        ∧ st' = mkSim l1 (L1I st) l2 c1 (L1I_stats st) c2 fp
  end.
Proof.
  unfold step. intros H. destruct (op o); bind_inv H p Hp.
  - destruct p as [[[[[l1 l2] c1] c2] fp] r]. injection H as <- <- <-.
    by exists l1, l2, c1, c2, fp.
  - destruct p as [[[[[l1 l2] c1] c2] fp] r]. injection H as <- <- <-.
    by exists l1, l2, c1, c2, fp.
  - destruct p as [[[[[[l1 l2] c1] c2] fp] r] r']. injection H as <- <- <-.
    by exists l1, l2, c1, c2, fp.
  - destruct p as [[[[[l1 l2] c1] c2] fp] r]. injection H as <- <- <-.
    by exists l1, l2, c1, c2, fp.
Qed.

Lemma step_sim_ok st o st' lr sr :
  sim_ok st → step st o = Some (st', lr, sr) → sim_ok st'.
Proof.
  intros (Hd & Hi & H2) H. apply step_inv in H. unfold sim_ok.
  destruct (op o); destruct H as (l1 & l2 & c1 & c2 & fp & H & Hst);
    [destruct Hst as [-> _] | destruct Hst as [-> _] | subst st'
     | destruct Hst as [-> _]]; cbn [L1D L1I L2].
  - destruct (access_load_sets_ok _ _ _ _ _ _ _ _ _ _ _ _ _ Hd H2 H). done.
  - destruct (access_store_sets_ok _ _ _ _ _ _ _ _ _ _ _ _ _ _ Hd H2 H). done.
  - destruct (access_modify_sets_ok _ _ _ _ _ _ _ _ _ _ _ _ _ _ _ _ Hd H2 H).
    done.
  - destruct (access_load_sets_ok _ _ _ _ _ _ _ _ _ _ _ _ _ Hi H2 H). done.
Qed.

Lemma run_sim_ok ops : ∀ st st',
  sim_ok st → run st ops = Some st' → sim_ok st'.
Proof.
  induction ops as [|o ops IH]; intros st st' Hok H; cbn [run] in H.
  - by injection H as <-.
  - bind_inv H p Hp. destruct p as [[st1 lr] sr].
    apply (IH st1); [|done]. by eapply step_sim_ok.
Qed.

(** The sets and lines that [create_cache] builds. *)
Lemma create_cache_set junk s E b si set :
  Cache.sets (create_cache_with junk s E b) !! si = Some set →
  (si < Z.to_nat (wrap32 (Z.shiftl 1 s)))%nat
  ∧ lines set
    = (λ j, mkLine false 0 0
              (junk si j <$> seq 0 (Z.to_nat (wrap32 (Z.shiftl 1 b)))))
      <$> seq 0 (Z.to_nat E).
Proof.
  cbn [create_cache_with Cache.sets]. intros Hs.
  apply list_lookup_fmap_Some in Hs as (i & -> & Hi).
  apply lookup_seq in Hi as [-> Hlt]. done.
Qed.

Lemma create_cache_line junk s E b si set i l :
  Cache.sets (create_cache_with junk s E b) !! si = Some set →
  lines set !! i = Some l →
  (i < Z.to_nat E)%nat
  ∧ l = mkLine false 0 0
          (junk si i <$> seq 0 (Z.to_nat (wrap32 (Z.shiftl 1 b)))).
Proof.
  intros Hs Hl. apply create_cache_set in Hs as [_ Hls]. rewrite Hls in Hl.
  apply list_lookup_fmap_Some in Hl as (j & -> & Hj).
  apply lookup_seq in Hj as [-> Hlt]. done.
Qed.

Lemma create_cache_set_length junk s E b si set :
  Cache.sets (create_cache_with junk s E b) !! si = Some set →
  length (lines set) = Z.to_nat E.
Proof.
  intros Hs. apply create_cache_set in Hs as [_ ->].
  by rewrite length_fmap, length_seq.
Qed.

Lemma create_cache_sets_length junk s E b :
  length (Cache.sets (create_cache_with junk s E b))
  = Z.to_nat (wrap32 (Z.shiftl 1 s)).
Proof.
  cbn [create_cache_with Cache.sets]. by rewrite length_fmap, length_seq.
Qed.

Lemma create_cache_cold junk s E b : cold (create_cache_with junk s E b).
Proof.
  intros si set i l Hs Hl.
  by destruct (create_cache_line _ _ _ _ _ _ _ _ Hs Hl) as [_ ->].
Qed.

Lemma create_cache_sets_ok junk s E b : sets_ok (create_cache_with junk s E b).
Proof.
  intros si set Hs. pose proof (create_cache_cold junk s E b) as Hcold.
  split; [|split].
  - cbn [create_cache_with Cache.E]. by eapply create_cache_set_length.
  - intros i j li lj _ _ Hj Hv. rewrite (Hcold si set j lj) in Hv; done.
  - intros i j li lj Hi _ Hv. rewrite (Hcold si set i li) in Hv; done.
Qed.

Lemma main_init_sim_ok junk p ram st :
  main_init junk p ram = Some st → sim_ok st.
Proof.
  unfold main_init. destruct (params_rejected p); [done|]. intros [= <-].
  split; [|split]; apply create_cache_sets_ok.
Qed.

(** C4: from the caches that [main] creates, after any sequence of LOAD,
    STORE, MODIFY and INST operations that the loop completes, no set of
    L1D, L1I or L2 holds two valid lines with the same tag. *)
Theorem tag_uniqueness junk p ram ops st0 st :
  main_init junk p ram = Some st0 →
  run st0 ops = Some st →
  ∀ c, c = L1D st ∨ c = L1I st ∨ c = L2 st →
  ∀ si set i j li lj,
    Cache.sets c !! si = Some set →
    lines set !! i = Some li → lines set !! j = Some lj →
    valid li = true → valid lj = true → tag li = tag lj → i = j.
Proof.
  intros Hinit Hrun c Hc si set i j li lj Hset Hi Hj Hvi Hvj Htag.
  pose proof (run_sim_ok ops st0 st (main_init_sim_ok _ _ _ _ Hinit) Hrun)
    as (Hd & Hi' & H2).
  assert (sets_ok c) as Hok by (by destruct Hc as [->|[->| ->]]).
  destruct (Hok si set Hset) as (_ & _ & Hu). by apply (Hu i j li lj).
Qed.

Lemma tag_uniqueness_witness :
  ∃ st0 st,
    main_init zeroed p_small ram256 = Some st0
    ∧ run st0 trace_mixed = Some st
    ∧ ∀ c, c = L1D st ∨ c = L1I st ∨ c = L2 st →
      ∀ si set i j li lj,
        Cache.sets c !! si = Some set →
        lines set !! i = Some li → lines set !! j = Some lj →
        valid li = true → valid lj = true → tag li = tag lj → i = j.
Proof.
  do 2 eexists. split; [reflexivity|]. split; [vm_compute; reflexivity|].
  eapply (tag_uniqueness zeroed p_small ram256 trace_mixed);
    [reflexivity | vm_compute; reflexivity].
Defined.

(** ** The geometry never changes *)

Lemma same_geom_refl c : same_geom c c.
Proof. by repeat split. Qed.

Lemma same_geom_trans c1 c2 c3 :
  same_geom c1 c2 → same_geom c2 c3 → same_geom c1 c3.
Proof. unfold same_geom. intros (?&?&?&?&?) (?&?&?&?&?). repeat split; congruence. Qed.

Lemma same_geom_addr c c' a :
  same_geom c c' → addr_tag c' a = addr_tag c a ∧ addr_set c' a = addr_set c a.
Proof. unfold addr_tag, addr_set. by intros (-> & _ & -> & _). Qed.

Lemma fill_line_geom c si v t fp a c' fp' :
  fill_line c si v t fp a = Some (c', fp') → same_geom c c'.
Proof. intros (old & blk & _ & _ & ->)%fill_line_inv. by repeat split. Qed.

Lemma write_line_geom c si i off d n c' :
  write_line c si i off d n = Some c' → same_geom c c'.
Proof. intros (old & blk & _ & _ & ->)%write_line_inv. by repeat split. Qed.

Lemma store_l2_geom L2 a c2 fp d n res L2' c2' fp' res' :
  store_l2 L2 a c2 fp d n res = Some (L2', c2', fp', res') → same_geom L2 L2'.
Proof.
  intros (t & si & off & r2 & _ & _ & H)%store_l2_inv. destruct r2 as [i|v].
  - destruct H as (_ & Hw & _). by eapply write_line_geom.
  - destruct H as (vline & L2f & _ & _ & Hf & Hw & _).
    eapply same_geom_trans; [by eapply fill_line_geom | by eapply write_line_geom].
Qed.

Lemma access_load_geom L1 L2 a c1 c2 fp res L1' L2' c1' c2' fp' res' :
  access_load L1 L2 a c1 c2 fp res = Some (L1', L2', c1', c2', fp', res') →
  same_geom L1 L1' ∧ same_geom L2 L2'.
Proof.
  intros (t & si & off & r1 & _ & _ & H)%access_load_inv. destruct r1 as [i|v].
  - destruct H as (_ & -> & -> & _). split; apply same_geom_refl.
  - destruct H as (t2 & si2 & off2 & r2 & c1m & fp2 & res2 & vline
                   & _ & _ & _ & H2 & _ & _ & Hfill1 & _).
    split; [by eapply fill_line_geom|]. destruct r2 as [j|w].
    + destruct H2 as (_ & -> & _). apply same_geom_refl.
    + destruct H2 as (wline & _ & _ & Hfill2 & _). by eapply fill_line_geom.
Qed.

Lemma access_store_geom L1 L2 a c1 c2 fp o res L1' L2' c1' c2' fp' res' :
  access_store L1 L2 a c1 c2 fp o res = Some (L1', L2', c1', c2', fp', res') →
  same_geom L1 L1' ∧ same_geom L2 L2'.
Proof.
  intros (t & si & off & r1 & _ & _ & _ & H)%access_store_inv.
  destruct r1 as [i|v].
  - destruct H as (fp1 & res1 & _ & Hw & Hs & _).
    split; [by eapply write_line_geom | by eapply store_l2_geom].
  - destruct H as (fp1 & _ & -> & _ & Hs).
    split; [apply same_geom_refl | by eapply store_l2_geom].
Qed.

Lemma fill_line_shape c si v t fp a c' fp' :
  shape c → fill_line c si v t fp a = Some (c', fp') → shape c'.
Proof.
  intros Hsh (old & blk & _ & _ & ->)%fill_line_inv.
  by apply (put_line_shape c si v).
Qed.

Lemma fill_line_then_hit c si v t fp a c' fp' :
  shape c → find_line c si t = Some (Miss v) →
  fill_line c si v t fp a = Some (c', fp') →
  ∃ k, find_line c' si t = Some (Hit k).
Proof.
  intros Hsh Hf (old & blk & _ & _ & ->)%fill_line_inv.
  rewrite find_line_with_fifo_time. by apply find_line_after_fill.
Qed.

(** ** LOAD: the eviction flag of the record *)

(** Every load that misses L1 and completes leaves l1_evict = 1 in its
    record, whether the victim was valid or not; the statistic is counted
    only for a valid victim. *)
Lemma access_load_miss_l1_evict L1 L2 a c1 c2 fp res L1' L2' c1' c2' fp' res' v :
  lookup_addr L1 a = Some (Miss v) →
  access_load L1 L2 a c1 c2 fp res = Some (L1', L2', c1', c2', fp', res') →
  l1_evict res' = 1
  ∧ ∃ vline, get_line L1 (addr_set L1 a) v = Some vline
             ∧ evict c1' = evict c1 + (if valid vline then 1 else 0).
Proof.
  intros Hm (t & si & off & r1 & He & Hf & H)%access_load_inv.
  apply extract_address_parts_eq in He as [-> ->].
  unfold lookup_addr in Hm. rewrite Hm in Hf. injection Hf as <-.
  destruct H as (t2 & si2 & off2 & r2 & c1m & fp2 & res2 & vline
                 & Hc & _ & _ & _ & Hv & Hev & _ & ->).
  split; [done|]. exists vline. split; [done|].
  apply incr_miss_Some in Hc as ->. destruct (valid vline).
  - apply incr_evict_Some in Hev as ->. cbn. lia.
  - subst c1'. cbn. lia.
Qed.

(** C3 fails on the code: the first LOAD of a run (L 10, 1 on the caches of
    the test geometry) misses L1 with an invalid victim, the eviction
    statistic stays 0, and the record still has l1_evict = 1.  The L2 flag
    of the same record is 0, as it should be. *)
Theorem access_load_cold_reports_eviction :
  ∃ L1' L2' c1' c2' fp' res' vline,
    lookup_addr L1_small 16 = Some (Miss 0%nat)
    ∧ get_line L1_small (addr_set L1_small 16) 0 = Some vline
    ∧ valid vline = false
    ∧ access_load L1_small L2_small 16 stats0 stats0 ram64_fp res0
      = Some (L1', L2', c1', c2', fp', res')
    ∧ l1_miss res' = 1 ∧ l1_evict res' = 1 ∧ evict c1' = 0
    ∧ l2_miss res' = 1 ∧ l2_evict res' = 0.
Proof.
  do 7 eexists. split; [reflexivity|]. split; [reflexivity|].
  split; [reflexivity|]. split; [vm_compute; reflexivity|]. done.
Qed.

(** ** STORE: no write allocate *)

(** C5: a STORE that misses in L1 returns the L1 cache it was given: no
    line of L1 changes its valid bit, tag, fifo_counter or block, and the
    fill counter of L1 stays. *)
Theorem access_store_miss_keeps_L1
    L1 L2 address L1_stats L2_stats ram_fp o result
    L1' L2' L1_stats' L2_stats' ram_fp' result' victim :
  lookup_addr L1 address = Some (Miss victim) →
  access_store L1 L2 address L1_stats L2_stats ram_fp o result
    = Some (L1', L2', L1_stats', L2_stats', ram_fp', result') →
  L1' = L1
  ∧ l1_miss result' = 1
  ∧ placed_in_l1 result' = placed_in_l1 result.
Proof.
  intros Hm (t & si & off & r1 & He & Hf & _ & H)%access_store_inv.
  apply extract_address_parts_eq in He as [-> ->].
  unfold lookup_addr in Hm. rewrite Hm in Hf. injection Hf as <-.
  destruct H as (fp1 & _ & -> & _ & Hs).
  apply store_l2_frame in Hs as (_ & _ & _ & _ & -> & _ & -> & _). done.
Qed.

Lemma access_store_miss_keeps_L1_witness :
  ∃ L1' L2' L1_stats' L2_stats' ram_fp' result',
    lookup_addr L1_small 18 = Some (Miss 0%nat)
    ∧ access_store L1_small L2_small 18 stats0 stats0 ram64_fp o_store res0
      = Some (L1', L2', L1_stats', L2_stats', ram_fp', result')
    ∧ L1' = L1_small
    ∧ l1_miss result' = 1
    ∧ placed_in_l1 result' = placed_in_l1 res0.
Proof.
  do 6 eexists. split; [reflexivity|]. split; [vm_compute; reflexivity|].
  eapply (access_store_miss_keeps_L1 L1_small L2_small 18 stats0 stats0
            ram64_fp o_store res0);
    [reflexivity | vm_compute; reflexivity].
Defined.

(** ** MODIFY *)

(** C8: a MODIFY gives a result exactly when the LOAD of the address on a
    cleared record gives one and the STORE to the same address on another
    cleared record gives one on the caches, statistics and file that the
    load left; the result of the MODIFY is that of the STORE with the two
    records.  For an
    address that neither cache holds, the load record shows l1_miss,
    l2_miss, placed_in_l1 and placed_in_l2, the store record shows l1_hit
    and l2_hit, and the statistics of both levels count one miss and one
    hit more. *)
Theorem access_modify_load_then_store
    L1 L2 address L1_stats L2_stats ram_fp o load_res0 store_res0
    L1'' L2'' L1_stats'' L2_stats'' ram_fp'' load_res store_res :
  shape L1 → shape L2 →
  (access_modify L1 L2 address L1_stats L2_stats ram_fp o load_res0 store_res0
     = Some (L1'', L2'', L1_stats'', L2_stats'', ram_fp'', load_res, store_res)
   ↔ ∃ L1' L2' L1_stats' L2_stats' ram_fp',
       access_load L1 L2 address L1_stats L2_stats ram_fp res0
         = Some (L1', L2', L1_stats', L2_stats', ram_fp', load_res)
       ∧ access_store L1' L2' address L1_stats' L2_stats' ram_fp' o res0
         = Some (L1'', L2'', L1_stats'', L2_stats'', ram_fp'', store_res))
  ∧ (access_modify L1 L2 address L1_stats L2_stats ram_fp o load_res0 store_res0
       = Some (L1'', L2'', L1_stats'', L2_stats'', ram_fp'', load_res, store_res) →
     ∀ v w,
       lookup_addr L1 address = Some (Miss v) →
       lookup_addr L2 address = Some (Miss w) →
       l1_miss load_res = 1 ∧ l2_miss load_res = 1
       ∧ placed_in_l1 load_res = 1 ∧ placed_in_l2 load_res = 1
       ∧ l1_hit load_res = 0 ∧ l2_hit load_res = 0
       ∧ l1_hit store_res = 1 ∧ l2_hit store_res = 1
       ∧ l1_miss store_res = 0 ∧ l2_miss store_res = 0
       ∧ hit L1_stats'' = hit L1_stats + 1
       ∧ miss L1_stats'' = miss L1_stats + 1
       ∧ hit L2_stats'' = hit L2_stats + 1
       ∧ miss L2_stats'' = miss L2_stats + 1).
Proof.
  intros Hsh1 Hsh2. split.
  { split; [apply access_modify_inv|].
    intros (L1' & L2' & c1' & c2' & fp' & Hl & Hs).
    unfold access_modify. rewrite Hl. cbn [mbind option_bind].
    rewrite Hs. done. }
  intros H.
  apply access_modify_inv in H as (L1' & L2' & c1' & c2' & fp' & Hl & Hs).
  intros v w Hm1 Hm2.
  pose proof (access_load_geom _ _ _ _ _ _ _ _ _ _ _ _ _ Hl) as [Hg1 Hg2].
  apply access_load_inv in Hl as (t & si & off & r1 & He & Hf & Hl).
  apply extract_address_parts_eq in He as [-> ->].
  unfold lookup_addr in Hm1. rewrite Hm1 in Hf. injection Hf as <-.
  destruct Hl as (t2 & si2 & off2 & r2 & c1m & fp2 & res2 & vline
                  & Hc1m & He2 & Hf2 & H2 & Hv & Hev & Hfill1 & ->).
  apply extract_address_parts_eq in He2 as [-> ->].
  unfold lookup_addr in Hm2. rewrite Hm2 in Hf2. injection Hf2 as <-.
  destruct H2 as (wline & Hw & (c2m & Hc2m & Hev2) & Hfill2 & ->).
  destruct (fill_line_then_hit _ _ _ _ _ _ _ _ Hsh1 Hm1 Hfill1) as [k1 Hk1].
  destruct (fill_line_then_hit _ _ _ _ _ _ _ _ Hsh2 Hm2 Hfill2) as [k2 Hk2].
  apply access_store_inv in Hs as (t' & si' & off' & r1' & He' & Hf' & _ & Hs).
  apply extract_address_parts_eq in He' as [-> ->].
  destruct (same_geom_addr _ _ address Hg1) as [Ht1 Hs1].
  rewrite Ht1, Hs1, Hk1 in Hf'. injection Hf' as <-.
  destruct Hs as (fp1 & res1 & Hc1h & _ & Hs2 & _ & ->).
  apply store_l2_inv in Hs2 as (t2' & si2' & off2' & r2' & He2' & Hf2' & Hs2).
  apply extract_address_parts_eq in He2' as [-> ->].
  destruct (same_geom_addr _ _ address Hg2) as [Ht2 Hs2'].
  rewrite Ht2, Hs2', Hk2 in Hf2'. injection Hf2' as <-.
  destruct Hs2 as (Hc2h & _ & _ & ->).
  apply incr_miss_Some in Hc1m as ->. apply incr_miss_Some in Hc2m as ->.
  apply incr_hit_Some in Hc1h as ->. apply incr_hit_Some in Hc2h as ->.
  assert (hit c1' = hit L1_stats ∧ miss c1' = miss L1_stats + 1) as [-> ->].
  { destruct (valid vline); [apply incr_evict_Some in Hev as ->|subst c1'];
      done. }
  assert (hit c2' = hit L2_stats ∧ miss c2' = miss L2_stats + 1) as [-> ->].
  { destruct (valid wline); [apply incr_evict_Some in Hev2 as ->|subst c2'];
      done. }
  unfold l2_miss_record. by destruct (valid wline).
Qed.

Lemma access_modify_load_then_store_witness :
  ∃ L1'' L2'' L1_stats'' L2_stats'' ram_fp'' load_res store_res,
    access_modify L1_small L2_small 32 stats0 stats0 ram64_fp o_modify res0 res0
      = Some (L1'', L2'', L1_stats'', L2_stats'', ram_fp'', load_res, store_res)
    ∧ (access_modify L1_small L2_small 32 stats0 stats0 ram64_fp o_modify
         res0 res0
         = Some (L1'', L2'', L1_stats'', L2_stats'', ram_fp'', load_res,
                 store_res)
       ↔ ∃ L1' L2' L1_stats' L2_stats' ram_fp',
           access_load L1_small L2_small 32 stats0 stats0 ram64_fp res0
             = Some (L1', L2', L1_stats', L2_stats', ram_fp', load_res)
           ∧ access_store L1' L2' 32 L1_stats' L2_stats' ram_fp' o_modify res0
             = Some (L1'', L2'', L1_stats'', L2_stats'', ram_fp'', store_res))
    ∧ (access_modify L1_small L2_small 32 stats0 stats0 ram64_fp o_modify
         res0 res0
         = Some (L1'', L2'', L1_stats'', L2_stats'', ram_fp'', load_res,
                 store_res) →
       ∀ v w,
         lookup_addr L1_small 32 = Some (Miss v) →
         lookup_addr L2_small 32 = Some (Miss w) →
         l1_miss load_res = 1 ∧ l2_miss load_res = 1
         ∧ placed_in_l1 load_res = 1 ∧ placed_in_l2 load_res = 1
         ∧ l1_hit load_res = 0 ∧ l2_hit load_res = 0
         ∧ l1_hit store_res = 1 ∧ l2_hit store_res = 1
         ∧ l1_miss store_res = 0 ∧ l2_miss store_res = 0
         ∧ hit L1_stats'' = hit stats0 + 1
         ∧ miss L1_stats'' = miss stats0 + 1
         ∧ hit L2_stats'' = hit stats0 + 1
         ∧ miss L2_stats'' = miss stats0 + 1).
Proof.
  do 7 eexists. split; [vm_compute; reflexivity|].
  apply (access_modify_load_then_store L1_small L2_small 32 stats0 stats0
           ram64_fp o_modify res0 res0).
  - intros si set Hs.
    apply (sets_ok_shape _ (create_cache_sets_ok (uniform 0) 1 2 4) si set Hs).
  - intros si set Hs.
    apply (sets_ok_shape _ (create_cache_sets_ok (uniform 0) 2 2 4) si set Hs).
Defined.

(** The cold MODIFY of the scenario, evaluated. *)
Example access_modify_cold :
  lookup_addr L1_small 32 = Some (Miss 0%nat)
  ∧ lookup_addr L2_small 32 = Some (Miss 0%nat)
  ∧ ∃ L1'' L2'' ram_fp'',
      access_modify L1_small L2_small 32 stats0 stats0 ram64_fp o_modify res0 res0
      = Some (L1'', L2'', mkCnt 1 1 0, mkCnt 1 1 0, ram_fp'',
              mkRes 0 1 1 0 1 0 1 1 0 2 0, mkRes 1 0 0 1 0 0 0 0 0 2 1).
Proof.
  split; [reflexivity|]. split; [reflexivity|].
  do 3 eexists. vm_compute. reflexivity.
Qed.

(** ** LOAD and INST: the fill after an L1 miss *)

Lemma access_load_miss_fills L1 L2 a c1 c2 fp res L1' L2' c1' c2' fp' res' v :
  sets_ok L1 →
  lookup_addr L1 a = Some (Miss v) →
  access_load L1 L2 a c1 c2 fp res = Some (L1', L2', c1', c2', fp', res') →
  l1_miss res' = 1 ∧ placed_in_l1 res' = 1
  ∧ ∃ set l,
      Cache.sets L1' !! Z.to_nat (addr_set L1 a) = Some set
      ∧ lines set !! v = Some l
      ∧ valid l = true ∧ tag l = addr_tag L1 a
      ∧ ∀ j lj, lines set !! j = Some lj → valid lj = true →
                tag lj = addr_tag L1 a → j = v.
Proof.
  intros Hok Hm (t & si & off & r1 & He & Hf & H)%access_load_inv.
  apply extract_address_parts_eq in He as [-> ->].
  unfold lookup_addr in Hm. rewrite Hm in Hf. injection Hf as <-.
  destruct H as (t2 & si2 & off2 & r2 & c1m & fp2 & res2 & vline
                 & _ & _ & _ & H2 & Hv & _ & Hfill & ->).
  assert (l1_miss res2 = 1) as Hmiss.
  { destruct r2 as [j|w].
    - by destruct H2 as (_ & _ & _ & ->).
    - destruct H2 as (wline & _ & _ & _ & ->).
      unfold l2_miss_record. by destruct (valid wline). }
  split; [done|]. split; [done|].
  pose proof (fill_line_sets_ok _ _ _ _ _ _ _ _ Hok Hm Hfill) as Hok'.
  apply fill_line_inv in Hfill as (old & blk & Hold & _ & ->).
  apply get_line_Some in Hold as (set & Hset & Hl).
  set (new := mkLine true (addr_tag L1 a) (Cache.fifo_time L1) blk) in *.
  assert (Cache.sets (with_fifo_time (put_line L1 (addr_set L1 a) v new)
                        (wrap32 (Cache.fifo_time L1 + 1)))
            !! Z.to_nat (addr_set L1 a)
          = Some (mkSet (<[v := new]> (lines set)))) as Hset'.
  { rewrite with_fifo_time_sets, put_line_sets, decide_True by done.
    by rewrite Hset. }
  exists (mkSet (<[v := new]> (lines set))), new. cbn [lines].
  assert (<[v := new]> (lines set) !! v = Some new) as Hnew.
  { apply list_lookup_insert_eq. by eapply lookup_lt_Some. }
  split; [done|]. split; [done|]. split; [done|]. split; [done|].
  intros j lj Hj Hvj Htj. destruct (Hok' _ _ Hset') as (_ & _ & Hu).
  by apply (Hu j v lj new).
Qed.

(** C6: in every state that a run reaches, a LOAD or INST that misses in
    its L1 leaves exactly one valid line with the tag of the address in the
    set of the address, the victim that the lookup chose.  Nothing is asked
    of the L2 lookup. *)
Theorem load_miss_fills_one_line junk p ram ops st0 st o st' load_res store_res v :
  main_init junk p ram = Some st0 →
  run st0 ops = Some st →
  op o = LOAD ∨ op o = INST →
  lookup_addr (l1_of (op o) st) (address o) = Some (Miss v) →
  step st o = Some (st', load_res, store_res) →
  l1_miss load_res = 1 ∧ placed_in_l1 load_res = 1
  ∧ ∃ set l,
      Cache.sets (l1_of (op o) st')
        !! Z.to_nat (addr_set (l1_of (op o) st) (address o)) = Some set
      ∧ lines set !! v = Some l
      ∧ valid l = true ∧ tag l = addr_tag (l1_of (op o) st) (address o)
      ∧ ∀ j lj, lines set !! j = Some lj → valid lj = true →
                tag lj = addr_tag (l1_of (op o) st) (address o) → j = v.
Proof.
  intros Hinit Hrun Hop Hm Hstep.
  pose proof (run_sim_ok ops st0 st (main_init_sim_ok _ _ _ _ Hinit) Hrun)
    as (Hd & Hi & H2).
  apply step_inv in Hstep.
  destruct Hop as [Hop|Hop]; rewrite Hop in Hstep, Hm |- *; cbn [l1_of] in *;
    destruct Hstep as (l1 & l2 & c1 & c2 & fp & Hl & -> & _); cbn [L1D L1I].
  - exact (access_load_miss_fills _ _ _ _ _ _ _ _ _ _ _ _ _ _ Hd Hm Hl).
  - exact (access_load_miss_fills _ _ _ _ _ _ _ _ _ _ _ _ _ _ Hi Hm Hl).
Qed.

Lemma load_miss_fills_one_line_witness :
  ∃ st0 st st' load_res store_res,
    main_init zeroed p_small ram256 = Some st0
    ∧ run st0 trace_mixed = Some st
    ∧ lookup_addr (l1_of INST st) 48 = Some (Miss 1%nat)
    ∧ step st (mkOp INST 48 1 "") = Some (st', load_res, store_res)
    ∧ l1_miss load_res = 1 ∧ placed_in_l1 load_res = 1
    ∧ ∃ set l,
        Cache.sets (l1_of INST st') !! Z.to_nat (addr_set (l1_of INST st) 48)
          = Some set
        ∧ lines set !! 1%nat = Some l
        ∧ valid l = true ∧ tag l = addr_tag (l1_of INST st) 48
        ∧ ∀ j lj, lines set !! j = Some lj → valid lj = true →
                  tag lj = addr_tag (l1_of INST st) 48 → j = 1%nat.
Proof.
  do 5 eexists. split; [reflexivity|]. split; [vm_compute; reflexivity|].
  split; [vm_compute; reflexivity|]. split; [vm_compute; reflexivity|].
  eapply (load_miss_fills_one_line zeroed p_small ram256 trace_mixed _ _
            (mkOp INST 48 1 ""));
    [reflexivity | vm_compute; reflexivity | by right
     | vm_compute; reflexivity | vm_compute; reflexivity].
Defined.

(** ** The 64-byte buffer of [write_block_to_ram] *)

Lemma write_block_to_ram_big_block fp a d n B :
  64 < B → write_block_to_ram fp a d n B = None.
Proof.
  intros HB. destruct (write_block_to_ram fp a d n B) as [fp'|] eqn:H; [|done].
  apply write_block_to_ram_inv in H as (Hle & _). lia.
Qed.

Lemma access_store_big_block L1 L2 a c1 c2 fp o res :
  64 < Cache.B L1 → access_store L1 L2 a c1 c2 fp o res = None.
Proof.
  intros HB.
  destruct (access_store L1 L2 a c1 c2 fp o res)
    as [[[[[[L1' L2'] c1'] c2'] fp'] res']|] eqn:H; [|done].
  apply access_store_inv in H as (t & si & off & r1 & _ & _ & _ & H).
  destruct r1 as [i|v].
  - destruct H as (fp1 & res1 & _ & Hw & _ & Hwb & _).
    rewrite (write_line_B _ _ _ _ _ _ _ Hw) in Hwb.
    by rewrite write_block_to_ram_big_block in Hwb.
  - destruct H as (fp1 & _ & _ & Hwb & _).
    by rewrite write_block_to_ram_big_block in Hwb.
Qed.

Lemma step_store_big_block st o :
  64 < Cache.B (L1D st) → op o = STORE ∨ op o = MODIFY → step st o = None.
Proof.
  intros HB Hop.
  destruct (step st o) as [[[st' lr] sr]|] eqn:H; [|done].
  apply step_inv in H. destruct Hop as [Hop|Hop]; rewrite Hop in H;
    destruct H as (l1 & l2 & c1 & c2 & fp & H & _).
  - by rewrite access_store_big_block in H.
  - apply access_modify_inv in H as (L1' & L2' & c1' & c2' & fp' & Hl & Hs).
    apply access_load_geom in Hl as [(_ & _ & _ & _ & HB') _].
    rewrite access_store_big_block in Hs; [done|]. by rewrite HB'.
Qed.

Lemma step_L1D_B st o st' lr sr :
  step st o = Some (st', lr, sr) → Cache.B (L1D st') = Cache.B (L1D st).
Proof.
  intros H. apply step_inv in H.
  destruct (op o); destruct H as (l1 & l2 & c1 & c2 & fp & H & Hst);
    [destruct Hst as [-> _] | destruct Hst as [-> _] | subst st'
     | destruct Hst as [-> _]]; cbn [L1D]; try done.
  - by apply access_load_geom in H as [(_ & _ & _ & _ & ?) _].
  - by apply access_store_geom in H as [(_ & _ & _ & _ & ?) _].
  - apply access_modify_inv in H as (L1' & L2' & c1' & c2' & fp' & Hl & Hs).
    apply access_load_geom in Hl as [(_ & _ & _ & _ & Hl) _].
    apply access_store_geom in Hs as [(_ & _ & _ & _ & Hs) _]. congruence.
Qed.

Lemma run_big_block ops : ∀ st st',
  64 < Cache.B (L1D st) → run st ops = Some st' →
  Forall (λ o, op o = LOAD ∨ op o = INST) ops.
Proof.
  induction ops as [|o ops IH]; intros st st' HB H; [by constructor|].
  cbn [run] in H. bind_inv H q Hq. destruct q as [[st1 lr] sr].
  constructor.
  - destruct (op o) eqn:Hop; [by left | | | by right].
    + rewrite step_store_big_block in Hq; [done | done | by left].
    + rewrite step_store_big_block in Hq; [done | done | by right].
  - apply (IH st1 st'); [|done]. by rewrite (step_L1D_B _ _ _ _ _ Hq).
Qed.

Lemma shiftl_1_wrap b : 0 ≤ b < 32 → wrap32 (Z.shiftl 1 b) = 2 ^ b.
Proof.
  intros Hb. rewrite Z.shiftl_1_l. apply wrap32_small. split; [lia|].
  apply Z.pow_lt_mono_r; lia.
Qed.

(** C10: [main] accepts every geometry without a negative parameter, so
    also block-offset widths above 6; with such a width the L1 block size
    exceeds the 64 bytes of [temp_block], every call of
    [write_block_to_ram] with that block size leaves the buffer, and no run
    that holds a STORE or MODIFY completes without doing so. *)
Theorem temp_block_overrun junk p ram st :
  main_init junk p ram = Some st →
  6 < L1b p < 32 →
  64 < Cache.B (L1D st)
  ∧ (∀ ram_fp address data num_bytes,
       write_block_to_ram ram_fp address data num_bytes (Cache.B (L1D st))
       = None)
  ∧ (∀ o, op o = STORE ∨ op o = MODIFY → step st o = None)
  ∧ (∀ ops st', run st ops = Some st' →
                Forall (λ o, op o = LOAD ∨ op o = INST) ops).
Proof.
  unfold main_init. destruct (params_rejected p); [done|]. intros [= <-] Hb.
  cbn [L1D].
  assert (64 < Cache.B (create_cache_with (junk 0%nat) (L1s p) (L1E p) (L1b p)))
    as HB.
  { cbn [create_cache_with Cache.B]. rewrite shiftl_1_wrap by lia.
    change 64 with (2 ^ 6). apply Z.pow_lt_mono_r; lia. }
  split; [done|]. split; [|split].
  - intros. by apply write_block_to_ram_big_block.
  - intros o Hop. by apply step_store_big_block.
  - intros ops st' Hrun. eapply run_big_block; [|exact Hrun]. exact HB.
Qed.

Lemma temp_block_overrun_witness :
  ∃ st,
    main_init zeroed p_big ram256 = Some st
    ∧ 6 < L1b p_big < 32
    ∧ 64 < Cache.B (L1D st)
    ∧ (∀ ram_fp address data num_bytes,
         write_block_to_ram ram_fp address data num_bytes (Cache.B (L1D st))
         = None)
    ∧ (∀ o, op o = STORE ∨ op o = MODIFY → step st o = None)
    ∧ (∀ ops st', run st ops = Some st' →
                  Forall (λ o, op o = LOAD ∨ op o = INST) ops).
Proof.
  eexists. split; [reflexivity|]. split; [simpl; lia|].
  apply (temp_block_overrun zeroed p_big ram256); [reflexivity | simpl; lia].
Defined.

(** The accepted geometry [p_big] at work: a one-byte store overruns. *)
Example store_overruns_with_big_blocks :
  params_rejected p_big = false
  ∧ ∃ st, main_init zeroed p_big ram256 = Some st
          ∧ step st (mkOp STORE 0 1 "ff") = None.
Proof. split; [reflexivity|]. eexists. split; [reflexivity|]. reflexivity. Qed.

(** ** Address arithmetic *)

Lemma land_wrap32 a x : 0 ≤ a < 2 ^ 32 → Z.land a (wrap32 x) = Z.land a x.
Proof.
  intros Ha. unfold wrap32. rewrite <- (Z.land_ones x 32) by lia.
  rewrite (Z.land_comm x), Z.land_assoc, (Z.land_ones a 32) by lia.
  by rewrite Z.mod_small.
Qed.

Lemma pow2_m1_range b : 0 ≤ b < 32 → 0 ≤ 2 ^ b - 1 < 2 ^ 32.
Proof.
  intros Hb. assert (0 < 2 ^ b) by (apply Z.pow_pos_nonneg; lia).
  assert (2 ^ b < 2 ^ 32) by (apply Z.pow_lt_mono_r; lia). lia.
Qed.

Lemma block_start_pow2 a b :
  0 ≤ a < 2 ^ 32 → 0 ≤ b < 32 →
  block_start_of a (2 ^ b) = 2 ^ b * (a / 2 ^ b).
Proof.
  intros Ha Hb. unfold block_start_of.
  rewrite (wrap32_small (2 ^ b - 1)) by by apply pow2_m1_range.
  rewrite land_wrap32 by done.
  replace (2 ^ b - 1) with (Z.ones b) by (rewrite Z.ones_equiv; lia).
  rewrite <- Z.ldiff_land, Z.ldiff_ones_r by lia.
  rewrite Z.shiftl_mul_pow2, Z.shiftr_div_pow2 by lia. lia.
Qed.

Lemma offset_pow2 a b :
  0 ≤ a < 2 ^ 32 → 0 ≤ b < 32 →
  Z.land a (wrap32 (2 ^ b - 1)) = a - block_start_of a (2 ^ b).
Proof.
  intros Ha Hb. rewrite block_start_pow2 by done.
  rewrite (wrap32_small (2 ^ b - 1)) by by apply pow2_m1_range.
  replace (2 ^ b - 1) with (Z.ones b) by (rewrite Z.ones_equiv; lia).
  rewrite Z.land_ones by lia.
  assert (0 < 2 ^ b) by (apply Z.pow_pos_nonneg; lia).
  pose proof (Z.div_mod a (2 ^ b)). lia.
Qed.

(** Tag and set index are the quotient and the remainder of the block
    number by the number of sets. *)
Lemma addr_tag_set_pow2 c a :
  geom_ok c → 0 ≤ a →
  addr_tag c a = a / 2 ^ Cache.b c / 2 ^ Cache.s c
  ∧ addr_set c a = (a / 2 ^ Cache.b c) mod 2 ^ Cache.s c.
Proof.
  intros (Hs & Hb & Hsb & _) Ha.
  unfold addr_tag, addr_set, extract_address_parts. cbn [fst snd]. split.
  - rewrite <- Z.shiftr_shiftr by lia. by rewrite !Z.shiftr_div_pow2 by lia.
  - rewrite Z.shiftl_1_l.
    rewrite (wrap32_small (2 ^ Cache.s c - 1)) by (apply pow2_m1_range; lia).
    replace (2 ^ Cache.s c - 1) with (Z.ones (Cache.s c))
      by (rewrite Z.ones_equiv; lia).
    rewrite Z.land_ones by lia. by rewrite Z.shiftr_div_pow2 by lia.
Qed.




(** ** Blocks of the file before and after a write through *)

Lemma write_block_to_ram_upd fp a d n B fp' :
  0 ≤ a < 2 ^ 32 →
  write_block_to_ram fp a d n B = Some fp' →
  offset_in_block a B + Z.of_nat n ≤ B →
  (Z.to_nat (block_start_of a B) + Z.to_nat B ≤ length (fbytes fp))%nat →
  ram_upd (fbytes fp) (Z.to_nat a) d n (fbytes fp').
Proof.
  intros Ha H Hoff Hin.
  pose proof (write_block_to_ram_inv _ _ _ _ _ _ H) as (_ & _ & Hn & _).
  pose proof (block_start_bounds a B ltac:(lia)) as Hbs.
  pose proof (offset_in_block_eq a B Ha) as Ho.
  split; [by apply (write_block_to_ram_length _ _ _ _ _ _ Ha H)|].
  split; [done|]. intros i.
  rewrite (write_block_to_ram_lookup _ _ _ _ _ _ _ Ha H).
  repeat case_decide; try done; try lia.
  symmetry. apply lookup_ge_None. lia.
Qed.


(** A block that holds the written range: the write shows in it as the
    [memcpy] at the offset of the range. *)
Lemma ram_block_upd_inside R a d n R' bs B :
  ram_upd R a d n R' →
  (bs ≤ a)%nat → (a + n ≤ bs + B)%nat → (bs + B ≤ length R)%nat →
  take B (drop bs R') = list_inserts (a - bs) (take n d) (take B (drop bs R)).
Proof.
  intros (Hlen & Hn & Hl) Hbs Hend Hin. apply list_eq. intros i.
  rewrite lookup_take, lookup_drop, Hl.
  assert (length (take B (drop bs R)) = B) as HlenB.
  { rewrite length_take, length_drop. lia. }
  assert (length (take n d) = n) as Hlend by (rewrite length_take; lia).
  destruct (decide (i < B)%nat) as [Hi|Hi].
  - destruct (decide (a ≤ bs + i < a + n)%nat) as [Hr|Hr].
    + rewrite list_lookup_inserts by lia.
      rewrite lookup_take_lt by lia. f_equal. lia.
    + assert (list_inserts (a - bs) (take n d) (take B (drop bs R)) !! i
              = take B (drop bs R) !! i) as ->.
      { destruct (decide (i < a - bs)%nat).
        - by apply list_lookup_inserts_lt.
        - apply list_lookup_inserts_ge. lia. }
      by rewrite lookup_take_lt, lookup_drop by lia.
  - symmetry. apply lookup_ge_None. rewrite length_inserts. lia.
Qed.


(** Copying into a block what the file already holds there changes
    nothing. *)
Lemma ram_block_upd_same R a d n bs B :
  ram_upd R a d n R →
  (bs ≤ a)%nat → (a + n ≤ bs + B)%nat → (bs + B ≤ length R)%nat →
  list_inserts (a - bs) (take n d) (take B (drop bs R)) = take B (drop bs R).
Proof. intros H ???. symmetry. by apply (ram_block_upd_inside R a d n R). Qed.

(** ** Lines that hold the bytes of the file *)

Lemma put_line_lines c si v new sj set' j l :
  Cache.sets (put_line c si v new) !! sj = Some set' →
  lines set' !! j = Some l →
  (sj = Z.to_nat si ∧ j = v ∧ l = new)
  ∨ (¬ (sj = Z.to_nat si ∧ j = v)
     ∧ ∃ set, Cache.sets c !! sj = Some set ∧ lines set !! j = Some l).
Proof.
  intros Hs Hl. rewrite put_line_sets in Hs. case_decide as Hsj.
  - apply fmap_Some in Hs as (set & Hset & ->). cbn [lines] in Hl.
    apply list_lookup_insert_Some in Hl as [(<- & <- & _)|[Hne Hl]].
    + by left.
    + right. split; [by intros [_ ?]|]. by exists set.
  - right. split; [by intros [? _]|]. by exists set'.
Qed.

Lemma same_block_same_tag_set c a a' :
  geom_ok c → 0 ≤ a < 2 ^ 32 → 0 ≤ a' < 2 ^ 32 →
  block_start_of a' (Cache.B c) = block_start_of a (Cache.B c) →
  addr_tag c a' = addr_tag c a ∧ addr_set c a' = addr_set c a.
Proof.
  intros Hg Ha Ha' Hbs.
  destruct (addr_tag_set_pow2 c a Hg ltac:(lia)) as [-> ->].
  destruct (addr_tag_set_pow2 c a' Hg ltac:(lia)) as [-> ->].
  destruct Hg as (Hs0 & Hb0 & Hsb & HB). rewrite HB in Hbs.
  rewrite !block_start_pow2 in Hbs by lia.
  assert (0 < 2 ^ Cache.b c) by (apply Z.pow_pos_nonneg; lia).
  assert (a' / 2 ^ Cache.b c = a / 2 ^ Cache.b c) as -> by nia. done.
Qed.





(** ** The lines of L1D and L2 along the accesses *)

Lemma geom_ok_same c c' : geom_ok c → same_geom c c' → geom_ok c'.
Proof. intros (?&?&?&?) (Hs & _ & Hb & _ & HB). unfold geom_ok. by rewrite Hs, Hb, HB. Qed.


Lemma hit_line c si t i :
  shape c → find_line c si t = Some (Hit i) →
  ∃ old, get_line c si i = Some old ∧ valid old = true ∧ tag old = t.
Proof.
  intros Hsh Hf.
  destruct (find_line_Some_resolves c si t _ Hsh Hf)
    as (set & Hset & [(l & Hl & Hv & Ht) _] & _).
  exists l. split; [|done]. apply get_line_Some. by exists set.
Qed.



(** The memcpy of a store succeeded: the written range ends inside the
    block of the address. *)
Lemma write_line_range c si i a d n c' :
  geom_ok c → blocks_ok c → 0 ≤ a < 2 ^ 32 →
  write_line c si i (Z.land a (wrap32 (Cache.B c - 1))) d n = Some c' →
  a + Z.of_nat n ≤ block_start_of a (Cache.B c) + Cache.B c.
Proof.
  intros (Hs0 & Hb0 & Hsb & HB) Hb Ha (old & blk & Hold & Hm & _)%write_line_inv.
  apply get_line_Some in Hold as (set & Hset & Hold).
  pose proof (Hb _ _ _ _ Hset Hold) as Hlen.
  apply memcpy_inv in Hm as (Hoff & _).
  pose proof (block_start_bounds a (Cache.B c) ltac:(lia)).
  assert (0 < Cache.B c) by (rewrite HB; apply Z.pow_pos_nonneg; lia).
  rewrite HB, offset_pow2 in Hoff by lia. rewrite <- HB in Hoff. lia.
Qed.

Lemma fill_line_blocks_ok c si v t fp a c' fp' :
  blocks_ok c → fill_line c si v t fp a = Some (c', fp') → blocks_ok c'.
Proof.
  intros Hb (old & blk & Hold & Hr & ->)%fill_line_inv.
  apply get_line_Some in Hold as (set & Hset & Hold).
  apply read_block_from_ram_inv in Hr as (_ & _ & Hlb & _).
  intros sj set' j l Hs Hl. rewrite with_fifo_time_sets in Hs.
  destruct (put_line_lines _ _ _ _ _ _ _ _ Hs Hl)
    as [(_ & _ & ->)|(_ & set0 & Hs0 & Hl0)].
  - cbn. rewrite Hlb. by apply (Hb _ _ _ _ Hset Hold).
  - by apply (Hb sj set0 j l).
Qed.

Lemma fill_line_new_line c si v t fp a c' fp' :
  fill_line c si v t fp a = Some (c', fp') →
  ∃ new, get_line c' si v = Some new ∧ valid new = true ∧ tag new = t.
Proof.
  intros (old & blk & Hold & _ & ->)%fill_line_inv.
  apply get_line_Some in Hold as (set & Hset & Hold).
  exists (mkLine true t (Cache.fifo_time c) blk).
  split; [|done]. apply get_line_Some.
  exists (mkSet (<[v := mkLine true t (Cache.fifo_time c) blk]> (lines set))).
  split.
  - rewrite with_fifo_time_sets, put_line_sets, decide_True by done.
    by rewrite Hset.
  - apply list_lookup_insert_eq. by eapply lookup_lt_Some.
Qed.





(** ** The lines of L1D and L2 along a run *)



Lemma create_cache_coh junk s E b R :
  0 ≤ s → 0 ≤ b → s + b < 32 → coh_inv (create_cache_with junk s E b) R.
Proof.
  intros Hs Hb Hsb. split; [|split].
  - split; [done|]. split; [done|]. split; [done|].
    cbn [create_cache_with Cache.B Cache.b]. apply shiftl_1_wrap. lia.
  - intros si set i l Hset Hl.
    destruct (create_cache_line _ _ _ _ _ _ _ _ Hset Hl) as [_ ->].
    cbn [block create_cache_with Cache.B].
    by rewrite length_fmap, length_seq.
  - intros si set i l Hset Hl Hv.
    by rewrite (create_cache_cold junk s E b si set i l Hset Hl) in Hv.
Qed.

Lemma params_accepted_nonneg p :
  params_rejected p = false →
  0 ≤ L1s p ∧ 0 ≤ L1b p ∧ 0 ≤ L2s p ∧ 0 ≤ L2b p.
Proof.
  unfold params_rejected. rewrite !orb_false_iff.
  intros ((((((H1 & _) & H2) & H3) & _) & H4) & _).
  apply Z.ltb_ge in H1, H2, H3, H4. done.
Qed.





(** ** Every operation that fits the buffers completes *)

Lemma incr_defined p : p + 1 ≤ INT_MAX → incr p = Some (p + 1).
Proof. intros H. unfold incr. by rewrite decide_True by lia. Qed.

Lemma incr_hit_defined c :
  hit c + 1 ≤ INT_MAX →
  incr_hit c = Some (mkCnt (hit c + 1) (miss c) (evict c)).
Proof. intros H. unfold incr_hit. by rewrite incr_defined. Qed.

Lemma incr_miss_defined c :
  miss c + 1 ≤ INT_MAX →
  incr_miss c = Some (mkCnt (hit c) (miss c + 1) (evict c)).
Proof. intros H. unfold incr_miss. by rewrite incr_defined. Qed.

Lemma incr_evict_defined c :
  evict c + 1 ≤ INT_MAX →
  incr_evict c = Some (mkCnt (hit c) (miss c) (evict c + 1)).
Proof. intros H. unfold incr_evict. by rewrite incr_defined. Qed.

Lemma addr_set_in_range c a :
  cache_wf c → 0 ≤ a →
  ∃ set, Cache.sets c !! Z.to_nat (addr_set c a) = Some set.
Proof.
  intros (Hg & _ & _ & _ & Hlen) Ha. apply lookup_lt_is_Some_2.
  destruct (addr_tag_set_pow2 c a Hg Ha) as [_ ->].
  destruct Hg as (Hs & _). rewrite Hlen.
  assert (0 < 2 ^ Cache.s c) by (apply Z.pow_pos_nonneg; lia).
  pose proof (Z.mod_pos_bound (a / 2 ^ Cache.b c) (2 ^ Cache.s c)). lia.
Qed.

(** The lookup of a well-formed cache gives a line of the set. *)
Lemma lookup_addr_defined c a :
  cache_wf c → 0 ≤ a →
  ∃ r l, lookup_addr c a = Some r
         ∧ get_line c (addr_set c a) (match r with Hit i => i | Miss v => v end)
           = Some l.
Proof.
  intros Hwf Ha. destruct (addr_set_in_range c a Hwf Ha) as [set Hset].
  destruct Hwf as (_ & _ & Hok & HE & _).
  destruct (Hok _ _ Hset) as (Hlen & _).
  destruct (find_line_resolves c (addr_set c a) (addr_tag c a) set Hset Hlen HE)
    as (r & Hr & Hres).
  exists r. destruct r as [i|v].
  - destruct Hres as [(l & Hl & _) _]. exists l. split; [done|].
    apply get_line_Some. by exists set.
  - destruct (resolves_miss_lookup _ _ _ Hres) as [l Hl]. exists l.
    split; [done|]. apply get_line_Some. by exists set.
Qed.

Lemma read_block_from_ram_defined fp a blk B :
  length blk = Z.to_nat B →
  ∃ blk' fp', read_block_from_ram fp a blk B = Some (blk', fp').
Proof.
  intros Hlen. unfold read_block_from_ram, fread.
  rewrite decide_True; [by eexists _, _|].
  rewrite length_take. lia.
Qed.

Lemma fill_line_defined c si v t fp a old :
  blocks_ok c → get_line c si v = Some old →
  ∃ c' fp', fill_line c si v t fp a = Some (c', fp').
Proof.
  intros Hb Hold. unfold fill_line. rewrite Hold. cbn [mbind option_bind].
  pose proof Hold as (set & Hset & Hl)%get_line_Some.
  destruct (read_block_from_ram_defined fp a (block old) (Cache.B c))
    as (blk & fp' & ->); [by apply (Hb _ _ _ _ Hset Hl)|].
  cbn [mbind option_bind]. by eexists _, _.
Qed.

Lemma write_line_defined c si i off d n old :
  blocks_ok c → get_line c si i = Some old →
  0 ≤ off → off + Z.of_nat n ≤ Cache.B c → (n ≤ length d)%nat →
  ∃ c', write_line c si i off d n = Some c'.
Proof.
  intros Hb Hold Hoff Hend Hn. unfold write_line, memcpy.
  rewrite Hold. cbn [mbind option_bind].
  pose proof Hold as (set & Hset & Hl)%get_line_Some.
  rewrite decide_True; [by eexists|].
  rewrite (Hb _ _ _ _ Hset Hl). lia.
Qed.

Lemma write_block_to_ram_defined fp a d n B :
  0 ≤ a < 2 ^ 32 → B ≤ 64 →
  offset_in_block a B + Z.of_nat n ≤ B → (n ≤ length d)%nat →
  ∃ fp', write_block_to_ram fp a d n B = Some fp'.
Proof.
  intros Ha HB Hoff Hn. unfold write_block_to_ram, fread, fwrite, memcpy, fseek.
  cbn [fbytes fpos fwrites].
  pose proof (wrap32_range (a - block_start_of a B)) as Ho.
  fold (offset_in_block a B) in Ho.
  rewrite decide_True by (rewrite length_take, length_replicate; lia).
  cbn [mbind option_bind].
  rewrite decide_True.
  2:{ rewrite length_app, length_drop, length_take, length_replicate,
        length_drop. lia. }
  cbn [mbind option_bind fbytes fpos fwrites].
  rewrite decide_True; [by eexists|].
  rewrite length_inserts, length_app, length_drop, length_take,
    length_replicate, length_drop. lia.
Qed.

Lemma put_line_length_sets c si i l :
  length (Cache.sets (put_line c si i l)) = length (Cache.sets c).
Proof. unfold put_line. cbn [Cache.sets]. apply length_alter. Qed.

Lemma write_line_blocks_ok c si i off d n c' :
  blocks_ok c → write_line c si i off d n = Some c' → blocks_ok c'.
Proof.
  intros Hb (old & blk & Hold & Hm & ->)%write_line_inv.
  apply get_line_Some in Hold as (set & Hset & Hold).
  apply memcpy_inv in Hm as (_ & _ & ->).
  intros sj set' j l Hs Hl.
  destruct (put_line_lines _ _ _ _ _ _ _ _ Hs Hl)
    as [(_ & _ & ->)|(_ & set0 & Hs0 & Hl0)].
  - cbn. rewrite length_inserts. by apply (Hb _ _ _ _ Hset Hold).
  - by apply (Hb sj set0 j l).
Qed.

Lemma fill_line_wf c si v t fp a c' fp' :
  cache_wf c → find_line c si t = Some (Miss v) →
  fill_line c si v t fp a = Some (c', fp') → cache_wf c'.
Proof.
  intros (Hg & Hb & Hok & HE & Hlen) Hf H.
  pose proof (fill_line_geom _ _ _ _ _ _ _ _ H) as Hsame.
  split; [by apply (geom_ok_same c)|].
  split; [by apply (fill_line_blocks_ok _ _ _ _ _ _ _ _ Hb H)|].
  split; [by apply (fill_line_sets_ok _ _ _ _ _ _ _ _ Hok Hf H)|].
  destruct Hsame as (Hs & HE' & _). rewrite HE', Hs. split; [done|].
  apply fill_line_inv in H as (old & blk & _ & _ & ->).
  by rewrite with_fifo_time_sets, put_line_length_sets.
Qed.

Lemma write_line_wf c si i off d n c' :
  cache_wf c → write_line c si i off d n = Some c' → cache_wf c'.
Proof.
  intros (Hg & Hb & Hok & HE & Hlen) H.
  pose proof (write_line_geom _ _ _ _ _ _ _ H) as Hsame.
  split; [by apply (geom_ok_same c)|].
  split; [by apply (write_line_blocks_ok _ _ _ _ _ _ _ Hb H)|].
  split; [by apply (write_line_sets_ok _ _ _ _ _ _ _ Hok H)|].
  destruct Hsame as (Hs & HE' & _). rewrite HE', Hs. split; [done|].
  apply write_line_inv in H as (old & blk & _ & _ & ->).
  by rewrite put_line_length_sets.
Qed.

Lemma store_l2_wf L2 a c2 fp d n res L2' c2' fp' res' :
  cache_wf L2 → store_l2 L2 a c2 fp d n res = Some (L2', c2', fp', res') →
  cache_wf L2'.
Proof.
  intros Hwf (t & si & off & r2 & _ & Hf & H)%store_l2_inv.
  destruct r2 as [i|v].
  - destruct H as (_ & Hw & _). exact (write_line_wf _ _ _ _ _ _ _ Hwf Hw).
  - destruct H as (vline & L2f & _ & _ & Hfill & Hw & _).
    exact (write_line_wf _ _ _ _ _ _ _
             (fill_line_wf _ _ _ _ _ _ _ _ Hwf Hf Hfill) Hw).
Qed.

Lemma access_load_wf L1 L2 a c1 c2 fp res L1' L2' c1' c2' fp' res' :
  cache_wf L1 → cache_wf L2 →
  access_load L1 L2 a c1 c2 fp res = Some (L1', L2', c1', c2', fp', res') →
  cache_wf L1' ∧ cache_wf L2'.
Proof.
  intros Hwf1 Hwf2 (t & si & off & r1 & _ & Hf1 & H)%access_load_inv.
  destruct r1 as [i|v].
  - by destruct H as (_ & -> & -> & _).
  - destruct H as (t2 & si2 & off2 & r2 & c1m & fp2 & res2 & vline
                   & _ & _ & Hf2 & H2 & _ & _ & Hfill1 & _).
    split; [exact (fill_line_wf _ _ _ _ _ _ _ _ Hwf1 Hf1 Hfill1)|].
    destruct r2 as [j|w].
    + by destruct H2 as (_ & -> & _).
    + destruct H2 as (wline & _ & _ & Hfill2 & _).
      exact (fill_line_wf _ _ _ _ _ _ _ _ Hwf2 Hf2 Hfill2).
Qed.

Lemma access_store_wf L1 L2 a c1 c2 fp o res L1' L2' c1' c2' fp' res' :
  cache_wf L1 → cache_wf L2 →
  access_store L1 L2 a c1 c2 fp o res = Some (L1', L2', c1', c2', fp', res') →
  cache_wf L1' ∧ cache_wf L2'.
Proof.
  intros Hwf1 Hwf2 (t & si & off & r1 & _ & Hf1 & _ & H)%access_store_inv.
  destruct r1 as [i|v].
  - destruct H as (fp1 & res1 & _ & Hw & Hs & _).
    split; [exact (write_line_wf _ _ _ _ _ _ _ Hwf1 Hw)|].
    exact (store_l2_wf _ _ _ _ _ _ _ _ _ _ _ Hwf2 Hs).
  - destruct H as (fp1 & _ & -> & _ & Hs).
    split; [done|]. exact (store_l2_wf _ _ _ _ _ _ _ _ _ _ _ Hwf2 Hs).
Qed.

(** Each access increments each statistic at most once. *)
Lemma l2_miss_stats_below k c c' e :
  1 ≤ k → stats_below k c → l2_miss_stats c c' e → stats_below (k - 1) c'.
Proof.
  intros Hk (Hh & Hm & He) (cm & Hcm & Hev). apply incr_miss_Some in Hcm as ->.
  destruct e; [apply incr_evict_Some in Hev as ->|subst c'];
    repeat split; cbn; lia.
Qed.

Lemma store_l2_stats k L2 a c2 fp d n res L2' c2' fp' res' :
  1 ≤ k → stats_below k c2 →
  store_l2 L2 a c2 fp d n res = Some (L2', c2', fp', res') →
  stats_below (k - 1) c2'.
Proof.
  intros Hk Hc (t & si & off & r2 & _ & _ & H)%store_l2_inv.
  destruct r2 as [i|v].
  - destruct H as (Hh & _). apply incr_hit_Some in Hh as ->.
    destruct Hc as (? & ? & ?). repeat split; cbn; lia.
  - destruct H as (vline & L2f & _ & Hst & _).
    by apply (l2_miss_stats_below k c2 c2' (valid vline)).
Qed.

Lemma access_load_stats k L1 L2 a c1 c2 fp res L1' L2' c1' c2' fp' res' :
  1 ≤ k → stats_below k c1 → stats_below k c2 →
  access_load L1 L2 a c1 c2 fp res = Some (L1', L2', c1', c2', fp', res') →
  stats_below (k - 1) c1' ∧ stats_below (k - 1) c2'.
Proof.
  intros Hk Hc1 Hc2 (t & si & off & r1 & _ & _ & H)%access_load_inv.
  pose proof Hc1 as (? & ? & ?). pose proof Hc2 as (? & ? & ?).
  destruct r1 as [i|v].
  - destruct H as (Hh & _ & _ & -> & _). apply incr_hit_Some in Hh as ->.
    repeat split; cbn; lia.
  - destruct H as (t2 & si2 & off2 & r2 & c1m & fp2 & res2 & vline
                   & Hm & _ & _ & Hl2 & _ & Hev & _).
    apply incr_miss_Some in Hm as ->. split.
    + destruct (valid vline); [apply incr_evict_Some in Hev as ->|subst c1'];
        repeat split; cbn; lia.
    + destruct r2 as [j|w].
      * destruct Hl2 as (Hh & _). apply incr_hit_Some in Hh as ->.
        repeat split; cbn; lia.
      * destruct Hl2 as (wline & _ & Hst & _).
        by apply (l2_miss_stats_below k c2 c2' (valid wline)).
Qed.

Lemma access_store_stats k L1 L2 a c1 c2 fp o res L1' L2' c1' c2' fp' res' :
  1 ≤ k → stats_below k c1 → stats_below k c2 →
  access_store L1 L2 a c1 c2 fp o res = Some (L1', L2', c1', c2', fp', res') →
  stats_below (k - 1) c1' ∧ stats_below (k - 1) c2'.
Proof.
  intros Hk Hc1 Hc2 (t & si & off & r1 & _ & _ & _ & H)%access_store_inv.
  pose proof Hc1 as (? & ? & ?).
  destruct r1 as [i|v].
  - destruct H as (fp1 & res1 & Hh & _ & Hs & _).
    apply incr_hit_Some in Hh as ->.
    split; [repeat split; cbn; lia|].
    exact (store_l2_stats k _ _ _ _ _ _ _ _ _ _ _ Hk Hc2 Hs).
  - destruct H as (fp1 & Hm & _ & _ & Hs).
    apply incr_miss_Some in Hm as ->.
    split; [repeat split; cbn; lia|].
    exact (store_l2_stats k _ _ _ _ _ _ _ _ _ _ _ Hk Hc2 Hs).
Qed.

Lemma access_load_defined L1 L2 a c1 c2 fp res :
  cache_wf L1 → cache_wf L2 → 0 ≤ a →
  stats_below 1 c1 → stats_below 1 c2 →
  ∃ out, access_load L1 L2 a c1 c2 fp res = Some out.
Proof.
  intros Hwf1 Hwf2 Ha (Hh1 & Hm1 & He1) (Hh2 & Hm2 & He2). unfold access_load.
  destruct (extract_address_parts a (Cache.s L1) (Cache.b L1))
    as [[t1 s1] o1] eqn:E1.
  apply extract_address_parts_eq in E1 as [-> ->].
  destruct (lookup_addr_defined L1 a Hwf1 Ha) as (r1 & l1 & Hr1 & Hl1).
  unfold lookup_addr in Hr1. rewrite Hr1. step_bind.
  destruct r1 as [i|v].
  { rewrite (incr_hit_defined c1) by done. step_bind. by eexists. }
  rewrite (incr_miss_defined c1) by done. step_bind.
  set (c1m := mkCnt (hit c1) (miss c1 + 1) (evict c1)).
  destruct (extract_address_parts a (Cache.s L2) (Cache.b L2))
    as [[t2 s2] o2] eqn:E2.
  apply extract_address_parts_eq in E2 as [-> ->].
  destruct (lookup_addr_defined L2 a Hwf2 Ha) as (r2 & l2 & Hr2 & Hl2).
  unfold lookup_addr in Hr2. rewrite Hr2. step_bind.
  destruct Hwf1 as (_ & Hb1 & _). destruct Hwf2 as (_ & Hb2 & _).
  (* the fill of L1, whatever the L2 part left *)
  assert (∀ (L2x : Cache.t) (c2x : Counters) (fpx : FILE)
            (resx : AccessResult),
            ∃ out,
              (get_line L1 (addr_set L1 a) v
               ≫= λ vline,
                    (if valid vline then incr_evict c1m else Some c1m)
                    ≫= λ L1_stats,
                         fill_line L1 (addr_set L1 a) v (addr_tag L1 a) fpx a
                         ≫= λ '(L1', ram_fp),
                              Some (L1', L2x, L1_stats, c2x, ram_fp, resx))
              = Some out) as Hl1fill.
  { intros L2x c2x fpx resx. rewrite Hl1. step_bind.
    destruct (fill_line_defined L1 (addr_set L1 a) v (addr_tag L1 a) fpx a l1
                Hb1 Hl1) as (c' & fp' & Hfill).
    destruct (valid l1); step_bind.
    - rewrite (incr_evict_defined c1m) by (cbn; lia). step_bind.
      rewrite Hfill. step_bind. by eexists.
    - rewrite Hfill. step_bind. by eexists. }
  destruct r2 as [j|w].
  - rewrite (incr_hit_defined c2) by done. step_bind. apply Hl1fill.
  - rewrite (incr_miss_defined c2) by done. step_bind. rewrite Hl2. step_bind.
    destruct (fill_line_defined L2 (addr_set L2 a) w (addr_tag L2 a) fp a l2
                Hb2 Hl2) as (c2' & fp2 & Hfill2).
    destruct (valid l2); step_bind.
    + rewrite (incr_evict_defined (mkCnt (hit c2) (miss c2 + 1) (evict c2)))
        by (cbn; lia).
      step_bind. rewrite Hfill2. step_bind. apply Hl1fill.
    + rewrite Hfill2. step_bind. apply Hl1fill.
Qed.

Lemma l2_offset_eq c a :
  geom_ok c → 0 ≤ a < 2 ^ 32 →
  Z.land a (wrap32 (Cache.B c - 1)) = offset_in_block a (Cache.B c).
Proof.
  intros (Hs & Hb & Hsb & HB) Ha. rewrite offset_in_block_eq by done.
  rewrite HB. apply offset_pow2; lia.
Qed.

Lemma offset_in_block_nonneg a B : 0 ≤ offset_in_block a B.
Proof. unfold offset_in_block. apply wrap32_range. Qed.

Lemma store_l2_defined L2 a c2 fp d n res :
  cache_wf L2 → 0 ≤ a < 2 ^ 32 → stats_below 1 c2 →
  offset_in_block a (Cache.B L2) + Z.of_nat n ≤ Cache.B L2 →
  (n ≤ length d)%nat →
  ∃ out, store_l2 L2 a c2 fp d n res = Some out.
Proof.
  intros Hwf Ha (Hh & Hm & He) Hoff Hn. unfold store_l2.
  destruct (extract_address_parts a (Cache.s L2) (Cache.b L2))
    as [[t2 s2] o2] eqn:E2.
  apply extract_address_parts_eq in E2 as [-> ->].
  destruct (lookup_addr_defined L2 a Hwf ltac:(lia)) as (r2 & l2 & Hr2 & Hl2).
  unfold lookup_addr in Hr2. rewrite Hr2. step_bind.
  destruct Hwf as (Hg & Hb & _).
  rewrite (l2_offset_eq L2 a Hg Ha).
  pose proof (offset_in_block_nonneg a (Cache.B L2)) as Hnn.
  destruct r2 as [i|v].
  - rewrite (incr_hit_defined c2) by done. step_bind.
    destruct (write_line_defined L2 (addr_set L2 a) i
                (offset_in_block a (Cache.B L2)) d n l2 Hb Hl2 Hnn Hoff Hn)
      as [L2' ->].
    step_bind. by eexists.
  - rewrite (incr_miss_defined c2) by done. step_bind. rewrite Hl2. step_bind.
    destruct (fill_line_defined L2 (addr_set L2 a) v (addr_tag L2 a) fp a l2
                Hb Hl2) as (L2f & fp2 & Hfill).
    destruct (fill_line_new_line _ _ _ _ _ _ _ _ Hfill) as (new & Hnew & _).
    pose proof (fill_line_blocks_ok _ _ _ _ _ _ _ _ Hb Hfill) as Hbf.
    pose proof (fill_line_geom _ _ _ _ _ _ _ _ Hfill) as (_ & _ & _ & _ & HBf).
    assert (offset_in_block a (Cache.B L2) + Z.of_nat n ≤ Cache.B L2f)
      as Hoff' by by rewrite HBf.
    destruct (write_line_defined L2f (addr_set L2 a) v
                (offset_in_block a (Cache.B L2)) d n new Hbf Hnew Hnn Hoff' Hn)
      as [L2' Hw].
    destruct (valid l2); step_bind.
    + rewrite (incr_evict_defined (mkCnt (hit c2) (miss c2 + 1) (evict c2)))
        by (cbn; lia).
      step_bind. rewrite Hfill. step_bind. rewrite Hw. step_bind. by eexists.
    + rewrite Hfill. step_bind. rewrite Hw. step_bind. by eexists.
Qed.

Lemma access_store_defined L1 L2 a c1 c2 fp o res :
  cache_wf L1 → cache_wf L2 → 0 ≤ a < 2 ^ 32 →
  stats_below 1 c1 → stats_below 1 c2 →
  (num_bytes_of (data o) ≤ 32)%nat →
  Cache.B L1 ≤ 64 →
  offset_in_block a (Cache.B L1) + Z.of_nat (num_bytes_of (data o))
    ≤ Cache.B L1 →
  offset_in_block a (Cache.B L2) + Z.of_nat (num_bytes_of (data o))
    ≤ Cache.B L2 →
  ∃ out, access_store L1 L2 a c1 c2 fp o res = Some out.
Proof.
  intros Hwf1 Hwf2 Ha (Hh1 & Hm1 & He1) Hc2 Hn HB Hoff1 Hoff2.
  unfold access_store.
  destruct (extract_address_parts a (Cache.s L1) (Cache.b L1))
    as [[t1 s1] o1] eqn:E1.
  apply extract_address_parts_eq in E1 as [-> ->].
  destruct (lookup_addr_defined L1 a Hwf1 ltac:(lia)) as (r1 & l1 & Hr1 & Hl1).
  unfold lookup_addr in Hr1. rewrite Hr1. step_bind.
  rewrite option_guard_True by done.
  pose proof (decode_pairs_length (data o)) as Hlen.
  assert (num_bytes_of (data o) ≤ length (decode_pairs (data o)))%nat as Hnd
    by lia.
  pose proof (offset_in_block_nonneg a (Cache.B L1)) as Hnn.
  destruct Hwf1 as (Hg1 & Hb1 & _).
  rewrite (l2_offset_eq L1 a Hg1 Ha).
  destruct r1 as [i|v].
  - rewrite (incr_hit_defined c1) by done. step_bind.
    destruct (write_line_defined L1 (addr_set L1 a) i
                (offset_in_block a (Cache.B L1)) (decode_pairs (data o))
                (num_bytes_of (data o)) l1 Hb1 Hl1 Hnn Hoff1 Hnd) as [L1' Hw].
    rewrite Hw. step_bind. rewrite (write_line_B _ _ _ _ _ _ _ Hw).
    destruct (store_l2_defined L2 a c2 fp (decode_pairs (data o))
                (num_bytes_of (data o))
                (with_l1_hit (with_set_l1 res (addr_set L1 a)) 1)
                Hwf2 Ha Hc2 Hoff2 Hnd) as ([[[L2' c2'] fp1] res1] & ->).
    step_bind.
    destruct (write_block_to_ram_defined fp1 a (decode_pairs (data o))
                (num_bytes_of (data o)) (Cache.B L1) Ha HB Hoff1 Hnd)
      as [fp' ->].
    step_bind. by eexists.
  - rewrite (incr_miss_defined c1) by done. step_bind.
    destruct (write_block_to_ram_defined fp a (decode_pairs (data o))
                (num_bytes_of (data o)) (Cache.B L1) Ha HB Hoff1 Hnd)
      as [fp1 ->].
    step_bind.
    destruct (store_l2_defined L2 a c2 fp1 (decode_pairs (data o))
                (num_bytes_of (data o))
                (with_wrote_to_ram
                   (with_l1_miss (with_set_l1 res (addr_set L1 a)) 1) 1)
                Hwf2 Ha Hc2 Hoff2 Hnd) as ([[[L2' c2'] fp'] res1] & ->).
    step_bind. by eexists.
Qed.

Lemma stats_below_le k k' c : k' ≤ k → stats_below k c → stats_below k' c.
Proof. intros Hk (? & ? & ?). repeat split; lia. Qed.

Lemma sim_ready_intro k B1 B2 l1 li l2 c1 ci c2 fp :
  cache_wf l1 → cache_wf li → cache_wf l2 →
  stats_below k c1 → stats_below k ci → stats_below k c2 →
  Cache.B l1 = B1 → Cache.B l2 = B2 →
  sim_ready k B1 B2 (mkSim l1 li l2 c1 ci c2 fp).
Proof.
  intros Hd Hi H2 Sd Si S2 HB1 HB2. split; [by split; [|split]|].
  split; [done|]. split; [done|]. split; [done|]. by split.
Qed.

Lemma step_defined k B1 B2 st o :
  sim_ready k B1 B2 st → 2 ≤ k → op_fits B1 B2 o →
  ∃ st' lr sr, step st o = Some (st', lr, sr) ∧ sim_ready (k - 2) B1 B2 st'.
Proof.
  intros ((Hd & Hi & H2) & Sd & Si & S2 & HB1 & HB2) Hk (Ha & Hst).
  pose proof (stats_below_le k 1 _ ltac:(lia) Sd) as Sd1.
  pose proof (stats_below_le k 1 _ ltac:(lia) Si) as Si1.
  pose proof (stats_below_le k 1 _ ltac:(lia) S2) as S21.
  unfold step. destruct (op o) eqn:Hop.
  - destruct (access_load_defined (L1D st) (L2 st) (address o) (L1D_stats st)
                (L2_stats st) (ram_fp st) res0 Hd H2 ltac:(lia) Sd1 S21)
      as ([[[[[l1 l2] c1] c2] fp] r] & H).
    rewrite H. step_bind. eexists _, _, _. split; [done|].
    destruct (access_load_wf _ _ _ _ _ _ _ _ _ _ _ _ _ Hd H2 H).
    destruct (access_load_stats k _ _ _ _ _ _ _ _ _ _ _ _ _ ltac:(lia) Sd S2 H).
    destruct (access_load_geom _ _ _ _ _ _ _ _ _ _ _ _ _ H)
      as [(_ & _ & _ & _ & Hg1) (_ & _ & _ & _ & Hg2)].
    clear Sd1 Si1 S21.
    apply sim_ready_intro; try done; try congruence;
      (eapply stats_below_le; [|eassumption]; lia).
  - destruct (Hst (or_introl eq_refl)) as (Hn & HB & Hoff1 & Hoff2).
    rewrite <- HB1 in HB, Hoff1. rewrite <- HB2 in Hoff2.
    destruct (access_store_defined (L1D st) (L2 st) (address o) (L1D_stats st)
                (L2_stats st) (ram_fp st) o res0 Hd H2 Ha Sd1 S21 Hn HB
                Hoff1 Hoff2) as ([[[[[l1 l2] c1] c2] fp] r] & H).
    rewrite H. step_bind. eexists _, _, _. split; [done|].
    destruct (access_store_wf _ _ _ _ _ _ _ _ _ _ _ _ _ _ Hd H2 H).
    destruct (access_store_stats k _ _ _ _ _ _ _ _ _ _ _ _ _ _ ltac:(lia) Sd S2 H).
    destruct (access_store_geom _ _ _ _ _ _ _ _ _ _ _ _ _ _ H)
      as [(_ & _ & _ & _ & Hg1) (_ & _ & _ & _ & Hg2)].
    clear Sd1 Si1 S21.
    apply sim_ready_intro; try done; try congruence;
      (eapply stats_below_le; [|eassumption]; lia).
  - destruct (Hst (or_intror eq_refl)) as (Hn & HB & Hoff1 & Hoff2).
    unfold access_modify.
    destruct (access_load_defined (L1D st) (L2 st) (address o) (L1D_stats st)
                (L2_stats st) (ram_fp st) res0 Hd H2 ltac:(lia) Sd1 S21)
      as ([[[[[l1 l2] c1] c2] fp] r] & H).
    rewrite H. step_bind.
    destruct (access_load_wf _ _ _ _ _ _ _ _ _ _ _ _ _ Hd H2 H) as [Hd' H2'].
    destruct (access_load_stats k _ _ _ _ _ _ _ _ _ _ _ _ _ ltac:(lia) Sd S2 H)
      as [Sd' S2'].
    destruct (access_load_geom _ _ _ _ _ _ _ _ _ _ _ _ _ H)
      as [(_ & _ & _ & _ & Hg1) (_ & _ & _ & _ & Hg2)].
    assert (Cache.B l1 = B1) as HB1' by congruence.
    assert (Cache.B l2 = B2) as HB2' by congruence.
    rewrite <- HB1' in HB, Hoff1. rewrite <- HB2' in Hoff2.
    destruct (access_store_defined l1 l2 (address o) c1 c2 fp o res0 Hd' H2' Ha
                (stats_below_le (k - 1) 1 _ ltac:(lia) Sd')
                (stats_below_le (k - 1) 1 _ ltac:(lia) S2') Hn HB Hoff1 Hoff2)
      as ([[[[[l1' l2'] c1'] c2'] fp'] r'] & Hs).
    rewrite Hs. step_bind. eexists _, _, _. split; [done|].
    destruct (access_store_wf _ _ _ _ _ _ _ _ _ _ _ _ _ _ Hd' H2' Hs).
    destruct (access_store_stats (k - 1) _ _ _ _ _ _ _ _ _ _ _ _ _ _
                ltac:(lia) Sd' S2' Hs).
    destruct (access_store_geom _ _ _ _ _ _ _ _ _ _ _ _ _ _ Hs)
      as [(_ & _ & _ & _ & Hg1') (_ & _ & _ & _ & Hg2')].
    clear Sd1 Si1 S21.
    apply sim_ready_intro; try done; try congruence;
      (eapply stats_below_le; [|eassumption]; lia).
  - destruct (access_load_defined (L1I st) (L2 st) (address o) (L1I_stats st)
                (L2_stats st) (ram_fp st) res0 Hi H2 ltac:(lia) Si1 S21)
      as ([[[[[l1 l2] c1] c2] fp] r] & H).
    rewrite H. step_bind. eexists _, _, _. split; [done|].
    destruct (access_load_wf _ _ _ _ _ _ _ _ _ _ _ _ _ Hi H2 H).
    destruct (access_load_stats k _ _ _ _ _ _ _ _ _ _ _ _ _ ltac:(lia) Si S2 H).
    destruct (access_load_geom _ _ _ _ _ _ _ _ _ _ _ _ _ H)
      as [_ (_ & _ & _ & _ & Hg2)].
    clear Sd1 Si1 S21.
    apply sim_ready_intro; try done; try congruence;
      (eapply stats_below_le; [|eassumption]; lia).
Qed.

Lemma run_defined ops : ∀ k B1 B2 st,
  sim_ready k B1 B2 st → 2 * Z.of_nat (length ops) ≤ k →
  Forall (op_fits B1 B2) ops →
  ∃ st', run st ops = Some st'.
Proof.
  induction ops as [|o ops IH]; intros k B1 B2 st Hr Hk Hops; cbn [run].
  - by eexists.
  - apply Forall_cons in Hops as [Ho Hops]. cbn [length] in Hk.
    destruct (step_defined k B1 B2 st o Hr ltac:(lia) Ho)
      as (st1 & lr & sr & -> & Hr1).
    step_bind. apply (IH (k - 2) B1 B2 st1 Hr1); [lia|done].
Qed.

Lemma create_cache_wf junk s E b :
  0 ≤ s → 0 ≤ b → s + b < 32 → 1 ≤ E →
  cache_wf (create_cache_with junk s E b).
Proof.
  intros Hs Hb Hsb HE.
  destruct (create_cache_coh junk s E b [] Hs Hb Hsb) as (Hg & Hbl & _).
  split; [done|]. split; [done|]. split; [apply create_cache_sets_ok|].
  split; [done|]. rewrite create_cache_sets_length.
  cbn [create_cache_with Cache.s]. by rewrite shiftl_1_wrap by lia.
Qed.

(** From the caches of [main], every trace whose operations fit the buffers
    is replayed to its end. *)
Theorem run_completes junk p ram ops st0 :
  main_init junk p ram = Some st0 →
  L1s p + L1b p < 32 → L2s p + L2b p < 32 → 1 ≤ L1E p → 1 ≤ L2E p →
  Forall (op_fits (2 ^ L1b p) (2 ^ L2b p)) ops →
  2 * Z.of_nat (length ops) ≤ INT_MAX →
  ∃ st, run st0 ops = Some st.
Proof.
  intros Hinit H1 H2 HE1 HE2 Hops Hlen. unfold main_init in Hinit.
  destruct (params_rejected p) eqn:Hp; [done|]. injection Hinit as <-.
  apply params_accepted_nonneg in Hp as (? & ? & ? & ?).
  apply (run_defined ops INT_MAX (2 ^ L1b p) (2 ^ L2b p)); [|done|done].
  apply sim_ready_intro; try (by apply create_cache_wf);
    try (repeat split; cbn; lia);
    cbn [create_cache_with Cache.B]; apply shiftl_1_wrap; lia.
Qed.

Example run_completes_mixed :
  ∃ st0 st, main_init zeroed p_small ram256 = Some st0
            ∧ run st0 trace_mixed = Some st.
Proof.
  eexists. 
  destruct (run_completes zeroed p_small ram256 trace_mixed
              (mkSim L1_small L1_small L2_small stats0 stats0 stats0
                     (mkFILE ram256 0 0)))
    as [st Hst]; try reflexivity; try (simpl; lia).
  - repeat constructor; vm_compute; try discriminate;
      intros _; repeat split; discriminate.
  - vm_compute. discriminate.
  - exists st. by split.
Qed.

(** * Further properties of the code *)

(** ** Address decoding *)

Lemma extract_address_parts_div a s b :
  0 ≤ a → 0 ≤ s → 0 ≤ b → s + b < 32 →
  extract_address_parts a s b
  = (a / 2 ^ b / 2 ^ s, (a / 2 ^ b) mod 2 ^ s, a mod 2 ^ b).
Proof.
  intros Ha Hs Hb Hsb. unfold extract_address_parts.
  rewrite !Z.shiftl_1_l.
  rewrite (wrap32_small (2 ^ b - 1)) by (apply pow2_m1_range; lia).
  rewrite (wrap32_small (2 ^ s - 1)) by (apply pow2_m1_range; lia).
  replace (2 ^ b - 1) with (Z.ones b) by (rewrite Z.ones_equiv; lia).
  replace (2 ^ s - 1) with (Z.ones s) by (rewrite Z.ones_equiv; lia).
  rewrite !Z.land_ones by lia.
  rewrite <- Z.shiftr_shiftr by lia. by rewrite !Z.shiftr_div_pow2 by lia.
Qed.

Lemma extract_address_parts_old_eq a s b :
  extract_address_parts_old a s b = extract_address_parts a s b.
Proof.
  unfold extract_address_parts_old, extract_address_parts.
  by rewrite (Z.add_comm s b).
Qed.

(** X1.  The three fields that [extract_address_parts] returns for a 32-bit
    address are in range (set below 2^s, offset below 2^b, tag below
    2^(32-s-b)) and put the address together again:
    address = (tag * 2^s + set) * 2^b + offset.  [extract_address_parts_old]
    returns the same fields. *)
Theorem extract_address_parts_decompose address s b tag set offset :
  0 ≤ address < 2 ^ 32 → 0 ≤ s → 0 ≤ b → s + b < 32 →
  extract_address_parts address s b = (tag, set, offset) →
  0 ≤ tag < 2 ^ (32 - s - b) ∧ 0 ≤ set < 2 ^ s ∧ 0 ≤ offset < 2 ^ b
  ∧ address = (tag * 2 ^ s + set) * 2 ^ b + offset
  ∧ extract_address_parts_old address s b = (tag, set, offset).
Proof.
  intros Ha Hs Hb Hsb He. rewrite extract_address_parts_old_eq, He.
  rewrite extract_address_parts_div in He by lia.
  injection He as <- <- <-.
  assert (0 < 2 ^ b) by (apply Z.pow_pos_nonneg; lia).
  assert (0 < 2 ^ s) by (apply Z.pow_pos_nonneg; lia).
  assert (0 < 2 ^ (32 - s - b)) by (apply Z.pow_pos_nonneg; lia).
  assert (2 ^ 32 = 2 ^ b * (2 ^ s * 2 ^ (32 - s - b))) as H32.
  { rewrite <- !Z.pow_add_r by lia. f_equal. lia. }
  pose proof (Z.mod_pos_bound address (2 ^ b)).
  pose proof (Z.mod_pos_bound (address / 2 ^ b) (2 ^ s)).
  pose proof (Z.div_mod address (2 ^ b)).
  pose proof (Z.div_mod (address / 2 ^ b) (2 ^ s)).
  assert (0 ≤ address / 2 ^ b) by (apply Z.div_pos; lia).
  assert (0 ≤ address / 2 ^ b / 2 ^ s) by (apply Z.div_pos; lia).
  assert (address / 2 ^ b / 2 ^ s < 2 ^ (32 - s - b)).
  { apply Z.div_lt_upper_bound; [lia|].
    apply Z.div_lt_upper_bound; [lia|]. lia. }
  repeat split; lia.
Qed.

Lemma extract_address_parts_decompose_witness :
  extract_address_parts 18 1 4 = (0, 1, 2)
  ∧ 0 ≤ 0 < 2 ^ (32 - 1 - 4) ∧ 0 ≤ 1 < 2 ^ 1 ∧ 0 ≤ 2 < 2 ^ 4
  ∧ 18 = (0 * 2 ^ 1 + 1) * 2 ^ 4 + 2
  ∧ extract_address_parts_old 18 1 4 = (0, 1, 2).
Proof.
  split; [reflexivity|].
  apply (extract_address_parts_decompose 18 1 4 0 1 2);
    [lia | lia | lia | lia | reflexivity].
Defined.

(** X2.  Decoding inverts composition: for fields in range, the address
    (tag * 2^s + set) * 2^b + offset decodes to tag, set and offset, so that
    the lines of a cache and the blocks of the address space correspond one
    to one. *)
Theorem extract_address_parts_compose tag set offset s b :
  0 ≤ s → 0 ≤ b → s + b < 32 →
  0 ≤ tag → 0 ≤ set < 2 ^ s → 0 ≤ offset < 2 ^ b →
  extract_address_parts ((tag * 2 ^ s + set) * 2 ^ b + offset) s b
  = (tag, set, offset).
Proof.
  intros Hs Hb Hsb Ht Hset Hoff.
  assert (0 < 2 ^ b) by (apply Z.pow_pos_nonneg; lia).
  assert (0 < 2 ^ s) by (apply Z.pow_pos_nonneg; lia).
  rewrite extract_address_parts_div by nia.
  assert (((tag * 2 ^ s + set) * 2 ^ b + offset) / 2 ^ b
          = tag * 2 ^ s + set) as ->.
  { symmetry. apply (Z.div_unique_pos _ _ _ offset); lia. }
  assert (((tag * 2 ^ s + set) * 2 ^ b + offset) mod 2 ^ b = offset) as ->.
  { symmetry. apply (Z.mod_unique_pos _ _ (tag * 2 ^ s + set)); lia. }
  assert ((tag * 2 ^ s + set) / 2 ^ s = tag) as ->.
  { symmetry. apply (Z.div_unique_pos _ _ _ set); lia. }
  assert ((tag * 2 ^ s + set) mod 2 ^ s = set) as ->.
  { symmetry. apply (Z.mod_unique_pos _ _ tag); lia. }
  done.
Qed.

Lemma extract_address_parts_compose_witness :
  extract_address_parts ((5 * 2 ^ 1 + 1) * 2 ^ 4 + 2) 1 4 = (5, 1, 2).
Proof.
  apply (extract_address_parts_compose 5 1 2 1 4); lia.
Defined.

(** ** Fresh caches *)

(** On a cache without a valid line every lookup misses, and the victim is
    line 0. *)
Lemma cold_lookup_miss c a :
  cache_wf c → cold c → 0 ≤ a → lookup_addr c a = Some (Miss 0%nat).
Proof.
  intros Hwf Hcold Ha.
  destruct (lookup_addr_defined c a Hwf Ha) as (r & l & Hr & _).
  rewrite Hr. f_equal.
  destruct Hwf as (_ & _ & Hok & HE & _).
  destruct (find_line_Some_resolves c _ _ r (sets_ok_shape c Hok) Hr)
    as (set & Hset & Hres & _).
  destruct (Hok _ _ Hset) as (Hlen & _).
  assert (∃ l0, lines set !! 0%nat = Some l0) as [l0 Hl0].
  { apply lookup_lt_is_Some_2. lia. }
  destruct r as [i|v].
  - destruct Hres as [(li & Hli & Hv & _) _].
    by rewrite (Hcold _ _ _ _ Hset Hli) in Hv.
  - destruct Hres as [[[_ Hbefore] _]|(Hall & _)].
    + destruct v as [|v]; [done|].
      specialize (Hbefore 0%nat l0 ltac:(lia) Hl0).
      by rewrite (Hcold _ _ _ _ Hset Hl0) in Hbefore.
    + specialize (Hall 0%nat l0 Hl0).
      by rewrite (Hcold _ _ _ _ Hset Hl0) in Hall.
Qed.

(** X3.  [create_cache s E b] builds 2^s sets of E lines with blocks of 2^b
    bytes; every line is invalid with tag 0 and fifo_counter 0, the FIFO
    clock is 0, and the first lookup of any address misses with line 0 as
    the victim. *)
Theorem create_cache_fresh junk s E b :
  0 ≤ s → 0 ≤ b → s + b < 32 → 0 ≤ E →
  let c := create_cache_with junk s E b in
  Cache.S c = 2 ^ s ∧ Cache.B c = 2 ^ b ∧ Cache.fifo_time c = 0
  ∧ length (Cache.sets c) = Z.to_nat (2 ^ s)
  ∧ (∀ si set, Cache.sets c !! si = Some set →
               length (lines set) = Z.to_nat E)
  ∧ (∀ si set i l, Cache.sets c !! si = Some set → lines set !! i = Some l →
                   l = mkLine false 0 0
                         (junk si i <$> seq 0 (Z.to_nat (2 ^ b))))
  ∧ (1 ≤ E → ∀ a, 0 ≤ a → lookup_addr c a = Some (Miss 0%nat)).
Proof.
  intros Hs Hb Hsb HE c. subst c.
  split; [cbn; apply shiftl_1_wrap; lia|].
  split; [cbn; apply shiftl_1_wrap; lia|].
  split; [done|].
  split.
  { by rewrite create_cache_sets_length, shiftl_1_wrap by lia. }
  split; [intros si set Hset; by eapply create_cache_set_length|].
  split.
  { intros si set i l Hset Hl.
    destruct (create_cache_line _ _ _ _ _ _ _ _ Hset Hl) as [_ ->].
    by rewrite shiftl_1_wrap by lia. }
  intros HE1 a Ha. apply cold_lookup_miss; [|apply create_cache_cold|done].
  by apply create_cache_wf.
Qed.

Lemma create_cache_fresh_witness :
  let c := create_cache_with (junk_ramp 0%nat) 1 2 4 in
  Cache.S c = 2 ^ 1 ∧ Cache.B c = 2 ^ 4 ∧ Cache.fifo_time c = 0
  ∧ length (Cache.sets c) = Z.to_nat (2 ^ 1)
  ∧ (∀ si set, Cache.sets c !! si = Some set →
               length (lines set) = Z.to_nat 2)
  ∧ (∀ si set i l, Cache.sets c !! si = Some set → lines set !! i = Some l →
                   l = mkLine false 0 0
                         (junk_ramp 0%nat si i <$> seq 0 (Z.to_nat (2 ^ 4))))
  ∧ (1 ≤ 2 → ∀ a, 0 ≤ a → lookup_addr c a = Some (Miss 0%nat)).
Proof.
  apply (create_cache_fresh (junk_ramp 0%nat) 1 2 4); lia.
Defined.

(** ** Associativity 0 *)

Lemma find_line_no_lines c si t :
  (∀ sj set, Cache.sets c !! sj = Some set → lines set = []) →
  find_line c si t = None.
Proof.
  intros Hno. unfold find_line.
  destruct (Cache.sets c !! Z.to_nat si) as [set|] eqn:Hset; [|done].
  cbn. by rewrite (Hno _ _ Hset).
Qed.

Lemma create_cache_no_lines junk s b sj set :
  Cache.sets (create_cache_with junk s 0 b) !! sj = Some set → lines set = [].
Proof.
  intros Hset. by apply create_cache_set in Hset as [_ ->].
Qed.

Lemma access_load_cold_L2_no_lines L1 L2 a c1 c2 fp res :
  shape L1 → cold L1 →
  (∀ sj set, Cache.sets L2 !! sj = Some set → lines set = []) →
  access_load L1 L2 a c1 c2 fp res = None.
Proof.
  intros Hsh Hcold Hno.
  destruct (access_load L1 L2 a c1 c2 fp res)
    as [[[[[[L1' L2'] c1'] c2'] fp'] res']|] eqn:Hacc; [|done].
  apply access_load_inv in Hacc as (t1 & s1 & o1 & r1 & _ & Hf1 & Hrest).
  destruct r1 as [i|v].
  - destruct (hit_line _ _ _ _ Hsh Hf1) as (old & Hold & Hv & _).
    apply get_line_Some in Hold as (set & Hset & Hl).
    by rewrite (Hcold _ _ _ _ Hset Hl) in Hv.
  - destruct Hrest as (t2 & s2 & o2 & r2 & c1m & fp2 & res2 & vline
                       & _ & _ & Hf2 & _).
    by rewrite (find_line_no_lines L2 s2 t2 Hno) in Hf2.
Qed.

Lemma access_store_L2_no_lines L1 L2 a c1 c2 fp o res :
  (∀ sj set, Cache.sets L2 !! sj = Some set → lines set = []) →
  access_store L1 L2 a c1 c2 fp o res = None.
Proof.
  intros Hno.
  destruct (access_store L1 L2 a c1 c2 fp o res)
    as [[[[[[L1' L2'] c1'] c2'] fp'] res']|] eqn:Hacc; [|done].
  apply access_store_inv in Hacc. cbv zeta in Hacc.
  destruct Hacc as (t1 & s1 & o1 & r1 & _ & _ & _ & Hrest).
  destruct r1 as [i|v].
  - destruct Hrest as (fp1 & res1 & _ & _ & Hl2 & _).
    apply store_l2_inv in Hl2 as (t2 & s2 & o2 & r2 & _ & Hf2 & _).
    by rewrite (find_line_no_lines L2 s2 t2 Hno) in Hf2.
  - destruct Hrest as (fp1 & _ & _ & _ & Hl2).
    apply store_l2_inv in Hl2 as (t2 & s2 & o2 & r2 & _ & Hf2 & _).
    by rewrite (find_line_no_lines L2 s2 t2 Hno) in Hf2.
Qed.

(** X4.  [main] accepts an associativity of 0 (its check only refuses
    negative values).  The caches then have no line, [find_line] reads
    [lines[0]] of an empty array, and no operation of any trace is
    replayed. *)
Theorem zero_associativity_faults junk p ram st :
  main_init junk p ram = Some st →
  L1E p = 0 ∨ L2E p = 0 →
  (∀ o, step st o = None) ∧ (∀ o ops, run st (o :: ops) = None).
Proof.
  intros Hinit HE.
  assert (∀ o, step st o = None) as Hstep.
  { intros o. unfold main_init in Hinit.
    destruct (params_rejected p); [done|]. injection Hinit as <-.
    destruct (step _ o) as [[[st' lr] sr]|] eqn:Hst; [|done]. exfalso.
    apply step_inv in Hst. cbn [L1D L1I L2 L1D_stats L1I_stats L2_stats ram_fp]
      in Hst.
    pose proof (λ j, sets_ok_shape _
                       (create_cache_sets_ok j (L1s p) (L1E p) (L1b p)))
      as Hsh.
    pose proof (λ j, create_cache_cold j (L1s p) (L1E p) (L1b p)) as Hcold.
    destruct HE as [HE|HE].
    - rewrite HE in *.
      pose proof (λ j si t,
                    find_line_no_lines (create_cache_with j (L1s p) 0 (L1b p))
                      si t (create_cache_no_lines j (L1s p) (L1b p)))
        as Hnone.
      destruct (op o).
      + destruct Hst as (l1 & l2 & c1 & c2 & fp & Hacc & _).
        apply access_load_inv in Hacc as (t1 & s1 & o1 & r1 & He & Hf1 & _).
        by rewrite Hnone in Hf1.
      + destruct Hst as (l1 & l2 & c1 & c2 & fp & Hacc & _).
        apply access_store_inv in Hacc. cbv zeta in Hacc.
        destruct Hacc as (t1 & s1 & o1 & r1 & He & Hf1 & _).
        by rewrite Hnone in Hf1.
      + destruct Hst as (l1 & l2 & c1 & c2 & fp & Hacc & _).
        apply access_modify_inv in Hacc
          as (l1' & l2' & c1' & c2' & fp' & Hacc & _).
        apply access_load_inv in Hacc as (t1 & s1 & o1 & r1 & He & Hf1 & _).
        by rewrite Hnone in Hf1.
      + destruct Hst as (l1 & l2 & c1 & c2 & fp & Hacc & _).
        apply access_load_inv in Hacc as (t1 & s1 & o1 & r1 & He & Hf1 & _).
        by rewrite Hnone in Hf1.
    - rewrite HE in *.
      pose proof (create_cache_no_lines (junk 2%nat) (L2s p) (L2b p)) as Hno.
      destruct (op o).
      + destruct Hst as (l1 & l2 & c1 & c2 & fp & Hacc & _).
        by rewrite access_load_cold_L2_no_lines in Hacc.
      + destruct Hst as (l1 & l2 & c1 & c2 & fp & Hacc & _).
        by rewrite access_store_L2_no_lines in Hacc.
      + destruct Hst as (l1 & l2 & c1 & c2 & fp & Hacc & _).
        apply access_modify_inv in Hacc
          as (l1' & l2' & c1' & c2' & fp' & Hacc & _).
        by rewrite access_load_cold_L2_no_lines in Hacc.
      + destruct Hst as (l1 & l2 & c1 & c2 & fp & Hacc & _).
        by rewrite access_load_cold_L2_no_lines in Hacc. }
  split; [done|]. intros o ops. cbn [run]. by rewrite Hstep.
Qed.

Lemma zero_associativity_faults_witness :
  ∃ st,
    main_init zeroed p_no_lines ram64 = Some st
    ∧ (∀ o, step st o = None) ∧ (∀ o ops, run st (o :: ops) = None).
Proof.
  eexists. split; [reflexivity|].
  apply (zero_associativity_faults zeroed p_no_lines ram64);
    [reflexivity | by right].
Defined.

(** ** The helpers of the backing store *)

Lemma fread_lookup buf n fp :
  (n ≤ length buf)%nat →
  ∃ buf' fp',
    fread buf n fp = Some (buf', fp')
    ∧ fbytes fp' = fbytes fp ∧ fwrites fp' = fwrites fp
    ∧ length buf' = length buf
    ∧ ∀ k, buf' !! k =
        if decide (k < n ∧ fpos fp + k < length (fbytes fp))%nat
        then fbytes fp !! (fpos fp + k)%nat else buf !! k.
Proof.
  intros Hn. unfold fread.
  set (got := take n (drop (fpos fp) (fbytes fp))).
  assert (length got = n `min` (length (fbytes fp) - fpos fp))%nat as Hgot.
  { unfold got. by rewrite length_take, length_drop. }
  rewrite decide_True by lia. eexists _, _. split; [done|].
  cbn [fbytes fwrites]. split; [done|]. split; [done|]. split.
  { rewrite length_app, length_drop. lia. }
  intros k. case_decide as Hk.
  - rewrite lookup_app_l by lia. unfold got.
    rewrite lookup_take_lt by lia. by rewrite lookup_drop.
  - destruct (decide (k < length got)%nat) as [Hlt|Hge]; [lia|].
    rewrite lookup_app_r by lia. rewrite lookup_drop. f_equal. lia.
Qed.

(** X5.  [read_block_from_ram] reads the aligned block that holds the
    address: for a block size 2^b it starts at 2^b * (address / 2^b), which
    is at most the address and less than one block below it.  It never
    changes the file.  Byte k of the buffer becomes byte (start + k) of the
    file where the file has one; where the file ends inside or before the
    block, the rest of the buffer is left as it was. *)
Theorem read_block_from_ram_bytes ram_fp address b block :
  0 ≤ address < 2 ^ 32 → 0 ≤ b < 32 →
  length block = Z.to_nat (2 ^ b) →
  let start := 2 ^ b * (address / 2 ^ b) in
  ∃ block' ram_fp',
    read_block_from_ram ram_fp address block (2 ^ b) = Some (block', ram_fp')
    ∧ fbytes ram_fp' = fbytes ram_fp ∧ fwrites ram_fp' = fwrites ram_fp
    ∧ length block' = length block
    ∧ start ≤ address < start + 2 ^ b
    ∧ ∀ k, (k < Z.to_nat (2 ^ b))%nat →
           block' !! k =
             if decide (Z.to_nat start + k < length (fbytes ram_fp))%nat
             then fbytes ram_fp !! (Z.to_nat start + k)%nat
             else block !! k.
Proof.
  intros Ha Hb Hlen start. unfold read_block_from_ram.
  rewrite block_start_pow2 by done. fold start.
  destruct (fread_lookup block (Z.to_nat (2 ^ b)) (fseek ram_fp start)
              ltac:(lia)) as (blk' & fp' & Hr & Hbytes & Hw & Hl & Hk).
  exists blk', fp'. split; [done|]. split; [done|]. split; [done|].
  split; [done|]. split.
  { subst start. assert (0 < 2 ^ b) by (apply Z.pow_pos_nonneg; lia).
    pose proof (Z.div_mod address (2 ^ b)).
    pose proof (Z.mod_pos_bound address (2 ^ b)). lia. }
  intros k Hlt. rewrite Hk. cbn [fseek fpos fbytes].
  repeat case_decide; try done; lia.
Qed.

Lemma read_block_from_ram_bytes_witness :
  let start := 2 ^ 4 * (18 / 2 ^ 4) in
  ∃ block' ram_fp',
    read_block_from_ram ram64_fp 18 (replicate 16 0) (2 ^ 4)
      = Some (block', ram_fp')
    ∧ fbytes ram_fp' = fbytes ram64_fp ∧ fwrites ram_fp' = fwrites ram64_fp
    ∧ length block' = length (replicate 16 0)
    ∧ start ≤ 18 < start + 2 ^ 4
    ∧ ∀ k, (k < Z.to_nat (2 ^ 4))%nat →
           block' !! k =
             if decide (Z.to_nat start + k < length (fbytes ram64_fp))%nat
             then fbytes ram64_fp !! (Z.to_nat start + k)%nat
             else replicate 16 0 !! k.
Proof.
  apply (read_block_from_ram_bytes ram64_fp 18 4 (replicate 16 0));
    [lia | lia | reflexivity].
Defined.

(** X6.  [write_block_to_ram_old] replaces the whole aligned block by the
    buffer it is given: reading the block back returns the first
    [block_size] bytes of that buffer, one write is issued, and no byte of
    the file outside the block changes. *)
Theorem write_block_to_ram_old_read_back
    ram_fp address block block_size ram_fp' buf :
  write_block_to_ram_old ram_fp address block block_size = Some ram_fp' →
  length buf = Z.to_nat block_size →
  fwrites ram_fp' = S (fwrites ram_fp)
  ∧ (∃ ram_fp'',
       read_block_from_ram ram_fp' address buf block_size
       = Some (take (Z.to_nat block_size) block, ram_fp''))
  ∧ ∀ i, (i < length (fbytes ram_fp))%nat →
         ¬ (Z.to_nat (block_start_of address block_size) ≤ i
            < Z.to_nat (block_start_of address block_size)
              + Z.to_nat block_size)%nat →
         fbytes ram_fp' !! i = fbytes ram_fp !! i.
Proof.
  intros Hw Hbuf. unfold write_block_to_ram_old, fwrite in Hw.
  set (bs := Z.to_nat (block_start_of address block_size)) in *.
  set (nB := Z.to_nat block_size) in *.
  case_decide as Hle; [|done]. injection Hw as <-.
  cbn [fseek fpos fbytes fwrites]. fold bs.
  assert (length (take nB block) = nB) as Hd by (rewrite length_take; lia).
  split; [done|]. split.
  - unfold read_block_from_ram, fread. cbn [fseek fpos fbytes fwrites].
    fold bs nB.
    assert (take nB (drop bs (pwrite bs (take nB block) (fbytes ram_fp)))
            = take nB block) as ->.
    { apply list_eq. intros k.
      destruct (decide (k < nB)%nat) as [Hk|Hk].
      - rewrite lookup_take_lt by done. rewrite lookup_drop, pwrite_lookup.
        rewrite Hd. repeat case_decide; try lia. f_equal. lia.
      - rewrite lookup_take_ge by lia.
        symmetry. apply lookup_ge_None. lia. }
    rewrite Hd. rewrite decide_True by lia.
    rewrite drop_ge by lia. rewrite app_nil_r. by eexists.
  - intros i Hi Hout. rewrite pwrite_lookup, Hd.
    repeat case_decide; try done; lia.
Qed.

Lemma write_block_to_ram_old_read_back_witness :
  ∃ ram_fp',
    write_block_to_ram_old ram64_fp 18 (replicate 16 9) 16 = Some ram_fp'
    ∧ fwrites ram_fp' = S (fwrites ram64_fp)
    ∧ (∃ ram_fp'',
         read_block_from_ram ram_fp' 18 (replicate 16 0) 16
         = Some (take (Z.to_nat 16) (replicate 16 9), ram_fp''))
    ∧ ∀ i, (i < length (fbytes ram64_fp))%nat →
           ¬ (Z.to_nat (block_start_of 18 16) ≤ i
              < Z.to_nat (block_start_of 18 16) + Z.to_nat 16)%nat →
           fbytes ram_fp' !! i = fbytes ram64_fp !! i.
Proof.
  eexists. split; [reflexivity|].
  eapply (write_block_to_ram_old_read_back ram64_fp 18 (replicate 16 9) 16);
    reflexivity.
Defined.

(** X7.  What [write_block_to_ram] writes is read back: when the file covers
    the block and the data stay inside it, [read_block_from_ram] at the same
    address returns, after the write, the block it returned before the write
    with the data bytes put at the offset of the address. *)
Theorem write_block_to_ram_read_back
    ram_fp address data num_bytes block_size ram_fp' buf block0 ram_fp0 :
  0 ≤ address < 2 ^ 32 →
  write_block_to_ram ram_fp address data num_bytes block_size = Some ram_fp' →
  offset_in_block address block_size + Z.of_nat num_bytes ≤ block_size →
  block_in_ram address block_size (length (fbytes ram_fp)) →
  length buf = Z.to_nat block_size →
  read_block_from_ram ram_fp address buf block_size = Some (block0, ram_fp0) →
  ∃ ram_fp'',
    read_block_from_ram ram_fp' address buf block_size
    = Some (list_inserts (Z.to_nat (offset_in_block address block_size))
                         (take num_bytes data) block0,
            ram_fp'').
Proof.
  intros Ha Hw Hin Hram Hbuf Hr0. unfold block_in_ram in Hram.
  pose proof (write_block_to_ram_upd _ _ _ _ _ _ Ha Hw Hin Hram) as Hupd.
  pose proof (write_block_to_ram_length _ _ _ _ _ _ Ha Hw Hram) as Hlen.
  apply read_block_from_ram_inv in Hr0 as (_ & _ & _ & Hb0).
  specialize (Hb0 Hram Hbuf). subst block0.
  destruct (read_block_from_ram_defined ram_fp' address buf block_size Hbuf)
    as (blk1 & fp1 & Hr1).
  exists fp1. rewrite Hr1. do 2 f_equal.
  apply read_block_from_ram_inv in Hr1 as (_ & _ & _ & Hb1).
  rewrite Hb1 by (rewrite ?Hlen; done).
  pose proof (block_start_plus_offset address block_size Ha) as Hso.
  pose proof (offset_in_block_nonneg address block_size).
  replace (Z.to_nat (offset_in_block address block_size))
    with (Z.to_nat address - Z.to_nat (block_start_of address block_size))%nat
    by lia.
  apply (ram_block_upd_inside _ _ _ _ _ _ _ Hupd); lia.
Qed.

Lemma write_block_to_ram_read_back_witness :
  ∃ ram_fp' block0 ram_fp0 ram_fp'',
    write_block_to_ram ram64_fp 18 [170; 187] 2 16 = Some ram_fp'
    ∧ read_block_from_ram ram64_fp 18 (replicate 16 0) 16
      = Some (block0, ram_fp0)
    ∧ read_block_from_ram ram_fp' 18 (replicate 16 0) 16
      = Some (list_inserts (Z.to_nat (offset_in_block 18 16))
                           (take 2 [170; 187]) block0,
              ram_fp'').
Proof.
  do 3 eexists.
  destruct (write_block_to_ram_read_back ram64_fp 18 [170; 187] 2 16
              (mkFILE ram64_aabb 32 1) (replicate 16 0)
              (take 16 (drop 16 ram64)) (mkFILE ram64 32 0))
    as [fp'' Hfp''];
    [lia | reflexivity | vm_compute; discriminate | vm_compute; lia
    | reflexivity | reflexivity |].
  exists fp''. split; [reflexivity|]. split; [reflexivity|]. exact Hfp''.
Defined.

(** ** What an access leaves alone *)

Lemma line_at_put_line c si i l sj j :
  line_at (put_line c si i l) sj j =
    if decide (sj = Z.to_nat si ∧ j = i)
    then (λ _, l) <$> line_at c sj j
    else line_at c sj j.
Proof.
  unfold line_at. rewrite put_line_sets.
  destruct (decide (sj = Z.to_nat si)) as [->|Hs].
  - destruct (Cache.sets c !! Z.to_nat si) as [set|]; cbn;
      [|by case_decide].
    destruct (decide (j = i)) as [->|Hj].
    + rewrite decide_True by done.
      destruct (lines set !! i) as [old|] eqn:Hold; cbn.
      * apply list_lookup_insert_eq. by apply lookup_lt_Some in Hold.
      * apply lookup_ge_None. rewrite length_insert.
        by apply lookup_ge_None in Hold.
    + rewrite decide_False by (by intros [_ ?]).
      by rewrite list_lookup_insert_ne.
  - by rewrite decide_False by (by intros [? _]).
Qed.

Lemma line_at_with_fifo_time c t sj j :
  line_at (with_fifo_time c t) sj j = line_at c sj j.
Proof. done. Qed.

Lemma fill_line_at c si v t fp a c' fp' :
  fill_line c si v t fp a = Some (c', fp') →
  ∃ old blk,
    line_at c (Z.to_nat si) v = Some old
    ∧ read_block_from_ram fp a (block old) (Cache.B c) = Some (blk, fp')
    ∧ line_at c' (Z.to_nat si) v = Some (mkLine true t (Cache.fifo_time c) blk)
    ∧ ∀ sj j, (sj, j) ≠ (Z.to_nat si, v) → line_at c' sj j = line_at c sj j.
Proof.
  intros Hf. apply fill_line_inv in Hf as (old & blk & Hold & Hr & ->).
  exists old, blk. split; [done|]. split; [done|]. split.
  - rewrite line_at_with_fifo_time, line_at_put_line.
    rewrite decide_True by done. change (get_line c si v) with
      (line_at c (Z.to_nat si) v) in Hold. by rewrite Hold.
  - intros sj j Hne. rewrite line_at_with_fifo_time, line_at_put_line.
    rewrite decide_False; [done|]. intros [-> ->]. by apply Hne.
Qed.

Lemma write_line_at c si i off d n c' :
  write_line c si i off d n = Some c' →
  ∃ old,
    line_at c (Z.to_nat si) i = Some old
    ∧ (Z.to_nat off + n ≤ length (block old))%nat ∧ (n ≤ length d)%nat
    ∧ line_at c' (Z.to_nat si) i
      = Some (mkLine (valid old) (tag old) (fifo_counter old)
                (list_inserts (Z.to_nat off) (take n d) (block old)))
    ∧ ∀ sj j, (sj, j) ≠ (Z.to_nat si, i) → line_at c' sj j = line_at c sj j.
Proof.
  intros Hw. apply write_line_inv in Hw as (old & blk & Hold & Hm & ->).
  apply memcpy_inv in Hm as (Hlen & Hd & ->).
  exists old. split; [done|]. split; [done|]. split; [done|]. split.
  - rewrite line_at_put_line. rewrite decide_True by done.
    change (get_line c si i) with (line_at c (Z.to_nat si) i) in Hold.
    by rewrite Hold.
  - intros sj j Hne. rewrite line_at_put_line.
    rewrite decide_False; [done|]. intros [-> ->]. by apply Hne.
Qed.

Lemma lookup_addr_of_parts c a t si off r :
  extract_address_parts a (Cache.s c) (Cache.b c) = (t, si, off) →
  find_line c si t = Some r →
  lookup_addr c a = Some r ∧ si = addr_set c a ∧ t = addr_tag c a.
Proof.
  intros He Hf. apply extract_address_parts_eq in He as [-> ->].
  by unfold lookup_addr.
Qed.

(** X8.  A LOAD never writes the file.  When it hits L1 it changes neither
    cache, nor the stream, nor the L2 statistics (the fifo_counter of the
    hit line is not refreshed: the policy is FIFO, not LRU).  When it misses
    L1, one line of L1 changes, the victim, and every other line keeps all
    its fields; L2 is unchanged on an L2 hit and changes in one line, its
    victim, on an L2 miss. *)
Theorem access_load_frame
    L1 L2 address L1_stats L2_stats ram_fp result
    L1' L2' L1_stats' L2_stats' ram_fp' result' :
  access_load L1 L2 address L1_stats L2_stats ram_fp result
    = Some (L1', L2', L1_stats', L2_stats', ram_fp', result') →
  fbytes ram_fp' = fbytes ram_fp ∧ fwrites ram_fp' = fwrites ram_fp
  ∧ match lookup_addr L1 address with
    | Some (Hit _) =>
        L1' = L1 ∧ L2' = L2 ∧ ram_fp' = ram_fp ∧ L2_stats' = L2_stats
    | Some (Miss v) =>
        (∀ sj j, (sj, j) ≠ (Z.to_nat (addr_set L1 address), v) →
                 line_at L1' sj j = line_at L1 sj j)
        ∧ match lookup_addr L2 address with
          | Some (Hit _) => L2' = L2
          | Some (Miss w) =>
              ∀ sj j, (sj, j) ≠ (Z.to_nat (addr_set L2 address), w) →
                      line_at L2' sj j = line_at L2 sj j
          | None => False
          end
    | None => False
    end.
Proof.
  intros Hacc.
  apply access_load_inv in Hacc as (t1 & s1 & o1 & r1 & He1 & Hf1 & Hrest).
  destruct (lookup_addr_of_parts _ _ _ _ _ _ He1 Hf1) as (-> & -> & ->).
  destruct r1 as [i|v].
  - destruct Hrest as (_ & -> & -> & -> & -> & _). done.
  - destruct Hrest as (t2 & s2 & o2 & r2 & c1m & fp2 & res2 & vline
                       & _ & He2 & Hf2 & Hr2 & _ & _ & Hfill1 & _).
    destruct (lookup_addr_of_parts _ _ _ _ _ _ He2 Hf2) as (-> & -> & ->).
    destruct (fill_line_ram _ _ _ _ _ _ _ _ Hfill1) as [Hb1 Hw1].
    apply fill_line_at in Hfill1 as (old1 & blk1 & _ & _ & _ & Hfr1).
    destruct r2 as [k|w].
    + destruct Hr2 as (_ & -> & -> & _). done.
    + destruct Hr2 as (wline & _ & _ & Hfill2 & _).
      destruct (fill_line_ram _ _ _ _ _ _ _ _ Hfill2) as [Hb2 Hw2].
      apply fill_line_at in Hfill2 as (old2 & blk2 & _ & _ & _ & Hfr2).
      split; [congruence|]. split; [congruence|]. done.
Qed.

Lemma access_load_frame_witness :
  ∃ L1' L2' L1_stats' L2_stats' ram_fp' result',
    access_load L1_small L2_small 16 stats0 stats0 ram64_fp res0
      = Some (L1', L2', L1_stats', L2_stats', ram_fp', result')
    ∧ fbytes ram_fp' = fbytes ram64_fp ∧ fwrites ram_fp' = fwrites ram64_fp
    ∧ match lookup_addr L1_small 16 with
      | Some (Hit _) =>
          L1' = L1_small ∧ L2' = L2_small ∧ ram_fp' = ram64_fp
          ∧ L2_stats' = stats0
      | Some (Miss v) =>
          (∀ sj j, (sj, j) ≠ (Z.to_nat (addr_set L1_small 16), v) →
                   line_at L1' sj j = line_at L1_small sj j)
          ∧ match lookup_addr L2_small 16 with
            | Some (Hit _) => L2' = L2_small
            | Some (Miss w) =>
                ∀ sj j, (sj, j) ≠ (Z.to_nat (addr_set L2_small 16), w) →
                        line_at L2' sj j = line_at L2_small sj j
            | None => False
            end
      | None => False
      end.
Proof.
  do 6 eexists. split; [vm_compute; reflexivity|].
  eapply (access_load_frame L1_small L2_small 16 stats0 stats0 ram64_fp res0).
  vm_compute. reflexivity.
Defined.

(** ** The bookkeeping of a cache *)

Lemma meta_put_line_same c si i old new :
  get_line c si i = Some old → meta_line new = meta_line old →
  meta (put_line c si i new) = meta c.
Proof.
  intros Hold Hm. apply get_line_Some in Hold as (set & Hset & Hl).
  unfold meta, put_line. cbn [Cache.sets Cache.s Cache.E Cache.b Cache.S
    Cache.B Cache.fifo_time]. f_equal.
  apply list_eq. intros k. rewrite !list_lookup_fmap.
  destruct (decide (k = Z.to_nat si)) as [->|Hk].
  - rewrite list_lookup_alter_eq, Hset. cbn. f_equal.
    rewrite list_fmap_insert, Hm. apply list_insert_id.
    by rewrite list_lookup_fmap, Hl.
  - by rewrite list_lookup_alter_ne.
Qed.

Lemma write_line_meta c si i off d n c' :
  write_line c si i off d n = Some c' → meta c' = meta c.
Proof.
  intros Hw. apply write_line_inv in Hw as (old & blk & Hold & _ & ->).
  by apply (meta_put_line_same c si i old).
Qed.

Lemma find_line_loop_meta n : ∀ ls ls' t i oldest oc,
  meta_line <$> ls = meta_line <$> ls' →
  find_line_loop n ls t i oldest oc = find_line_loop n ls' t i oldest oc.
Proof.
  induction n as [|n IH]; intros ls ls' t i oldest oc Hm; [done|].
  cbn [find_line_loop].
  assert (meta_line <$> ls !! i = meta_line <$> ls' !! i) as Hi
    by (by rewrite <- !list_lookup_fmap, Hm).
  destruct (ls !! i) as [l|], (ls' !! i) as [l'|]; try done. cbn in Hi |- *.
  injection Hi as Hv Ht Hc. rewrite Hv, Ht, Hc.
  rewrite !(IH ls ls') by done. done.
Qed.

Lemma find_line_meta c c' si t :
  meta c = meta c' → find_line c si t = find_line c' si t.
Proof.
  unfold meta. intros [= Hsets _ HE _ _ _ _]. unfold find_line.
  assert ((λ set, meta_line <$> lines set) <$> Cache.sets c !! Z.to_nat si
          = (λ set, meta_line <$> lines set) <$> Cache.sets c' !! Z.to_nat si)
    as Hs by (by rewrite <- !list_lookup_fmap, Hsets).
  destruct (Cache.sets c !! Z.to_nat si) as [set|],
           (Cache.sets c' !! Z.to_nat si) as [set'|]; try done.
  cbn in Hs |- *. injection Hs as Hl.
  assert (meta_line <$> lines set !! 0%nat = meta_line <$> lines set' !! 0%nat)
    as H0 by (by rewrite <- !list_lookup_fmap, Hl).
  destruct (lines set !! 0%nat) as [l0|], (lines set' !! 0%nat) as [l0'|];
    try done.
  cbn in H0 |- *. injection H0 as _ _ Hc. rewrite Hc, HE.
  by apply find_line_loop_meta.
Qed.

Lemma lookup_addr_meta c c' a :
  meta c = meta c' → lookup_addr c a = lookup_addr c' a.
Proof.
  intros Hm. unfold lookup_addr, addr_set, addr_tag.
  rewrite (find_line_meta c c') by done.
  unfold meta in Hm. by injection Hm as _ -> _ -> _ _ _.
Qed.

Lemma put_line_same c si i old :
  get_line c si i = Some old → put_line c si i old = c.
Proof.
  intros Hold. apply get_line_Some in Hold as (set & Hset & Hl).
  destruct c as [sets s E b S B ft]. unfold put_line. cbn in *. f_equal.
  apply list_eq. intros k.
  destruct (decide (k = Z.to_nat si)) as [->|Hk].
  - rewrite list_lookup_alter_eq, Hset. cbn. f_equal.
    rewrite list_insert_id by done. by destruct set.
  - by rewrite list_lookup_alter_ne.
Qed.

(** X9.  A STORE never changes the bookkeeping of L1: every valid bit, tag
    and fifo_counter and the FIFO clock are as before, so that every later
    lookup in L1 gives what it would have given before the store.  On an L1
    hit the block of the hit line receives the data bytes at the block
    offset and nothing else of L1 changes; on an L1 miss L1 is unchanged.
    In L2 one line changes at most, the line that is hit or filled. *)
Theorem access_store_frame
    L1 L2 address L1_stats L2_stats ram_fp o result
    L1' L2' L1_stats' L2_stats' ram_fp' result' :
  access_store L1 L2 address L1_stats L2_stats ram_fp o result
    = Some (L1', L2', L1_stats', L2_stats', ram_fp', result') →
  meta L1' = meta L1
  ∧ (∀ a, lookup_addr L1' a = lookup_addr L1 a)
  ∧ match lookup_addr L1 address with
    | Some (Hit i) =>
        ∃ old,
          line_at L1 (Z.to_nat (addr_set L1 address)) i = Some old
          ∧ line_at L1' (Z.to_nat (addr_set L1 address)) i
            = Some (mkLine (valid old) (tag old) (fifo_counter old)
                      (list_inserts
                         (Z.to_nat (Z.land address (wrap32 (Cache.B L1 - 1))))
                         (take (num_bytes_of (data o)) (decode_pairs (data o)))
                         (block old)))
          ∧ ∀ sj j, (sj, j) ≠ (Z.to_nat (addr_set L1 address), i) →
                    line_at L1' sj j = line_at L1 sj j
    | Some (Miss _) => L1' = L1
    | None => False
    end
  ∧ ∃ w, (lookup_addr L2 address = Some (Hit w)
          ∨ lookup_addr L2 address = Some (Miss w))
         ∧ ∀ sj j, (sj, j) ≠ (Z.to_nat (addr_set L2 address), w) →
                   line_at L2' sj j = line_at L2 sj j.
Proof.
  intros Hacc. apply access_store_inv in Hacc. cbv zeta in Hacc.
  destruct Hacc as (t1 & s1 & o1 & r1 & He1 & Hf1 & Hn & Hrest).
  destruct (lookup_addr_of_parts _ _ _ _ _ _ He1 Hf1) as (Hl1 & -> & ->).
  assert (∀ L2 c2 fp d n res L2' c2' fp' res',
            store_l2 L2 address c2 fp d n res = Some (L2', c2', fp', res') →
            ∃ w, (lookup_addr L2 address = Some (Hit w)
                  ∨ lookup_addr L2 address = Some (Miss w))
                 ∧ ∀ sj j, (sj, j) ≠ (Z.to_nat (addr_set L2 address), w) →
                           line_at L2' sj j = line_at L2 sj j) as Hl2.
  { clear. intros L2 c2 fp d n res L2' c2' fp' res' Hs.
    apply store_l2_inv in Hs as (t2 & s2 & o2 & r2 & He2 & Hf2 & Hr2).
    destruct (lookup_addr_of_parts _ _ _ _ _ _ He2 Hf2) as (Hl2 & -> & ->).
    destruct r2 as [k|w].
    - destruct Hr2 as (_ & Hw & _). exists k. split; [by left|].
      by apply write_line_at in Hw as (old & _ & _ & _ & _ & Hfr).
    - destruct Hr2 as (vline & L2f & _ & _ & Hfill & Hw & _).
      exists w. split; [by right|]. intros sj j Hne.
      apply fill_line_at in Hfill as (old1 & blk1 & _ & _ & _ & Hfr1).
      apply write_line_at in Hw as (old2 & _ & _ & _ & _ & Hfr2).
      rewrite Hfr2 by done. by apply Hfr1. }
  rewrite Hl1. destruct r1 as [i|v].
  - destruct Hrest as (fp1 & res1 & _ & Hw & Hs2 & _).
    pose proof (write_line_meta _ _ _ _ _ _ _ Hw) as Hmeta.
    split; [done|]. split; [intros a; by apply lookup_addr_meta|].
    split; [|by eapply Hl2].
    apply write_line_at in Hw as (old & Hold & _ & _ & Hnew & Hfr).
    by exists old.
  - destruct Hrest as (fp1 & _ & -> & _ & Hs2).
    split; [done|]. split; [done|]. split; [done|]. by eapply Hl2.
Qed.

Lemma access_store_frame_witness :
  ∃ L1' L2' L1_stats' L2_stats' ram_fp' result',
    access_store L1_small L2_small 18 stats0 stats0 ram64_fp o_store res0
      = Some (L1', L2', L1_stats', L2_stats', ram_fp', result')
    ∧ meta L1' = meta L1_small
    ∧ (∀ a, lookup_addr L1' a = lookup_addr L1_small a)
    ∧ match lookup_addr L1_small 18 with
      | Some (Hit i) =>
          ∃ old,
            line_at L1_small (Z.to_nat (addr_set L1_small 18)) i = Some old
            ∧ line_at L1' (Z.to_nat (addr_set L1_small 18)) i
              = Some (mkLine (valid old) (tag old) (fifo_counter old)
                        (list_inserts
                           (Z.to_nat (Z.land 18 (wrap32 (Cache.B L1_small - 1))))
                           (take (num_bytes_of (data o_store))
                                 (decode_pairs (data o_store)))
                           (block old)))
            ∧ ∀ sj j, (sj, j) ≠ (Z.to_nat (addr_set L1_small 18), i) →
                      line_at L1' sj j = line_at L1_small sj j
      | Some (Miss _) => L1' = L1_small
      | None => False
      end
    ∧ ∃ w, (lookup_addr L2_small 18 = Some (Hit w)
            ∨ lookup_addr L2_small 18 = Some (Miss w))
           ∧ ∀ sj j, (sj, j) ≠ (Z.to_nat (addr_set L2_small 18), w) →
                     line_at L2' sj j = line_at L2_small sj j.
Proof.
  do 6 eexists. split; [vm_compute; reflexivity|].
  eapply (access_store_frame L1_small L2_small 18 stats0 stats0 ram64_fp
            o_store res0).
  vm_compute. reflexivity.
Defined.

(** ** Lookups that follow an access *)

Lemma fill_line_then_lookup c v fp a c' fp' :
  shape c → lookup_addr c a = Some (Miss v) →
  fill_line c (addr_set c a) v (addr_tag c a) fp a = Some (c', fp') →
  ∃ k, lookup_addr c' a = Some (Hit k).
Proof.
  intros Hsh Hm Hfill. unfold lookup_addr.
  destruct (same_geom_addr _ _ a (fill_line_geom _ _ _ _ _ _ _ _ Hfill))
    as [-> ->].
  by apply (fill_line_then_hit _ _ _ _ _ _ _ _ Hsh Hm Hfill).
Qed.

Lemma access_load_then_lookup L1 L2 a c1 c2 fp res L1' L2' c1' c2' fp' res' :
  shape L1 → shape L2 →
  access_load L1 L2 a c1 c2 fp res = Some (L1', L2', c1', c2', fp', res') →
  (∃ k, lookup_addr L1' a = Some (Hit k))
  ∧ (∀ v, lookup_addr L1 a = Some (Miss v) →
          ∃ k, lookup_addr L2' a = Some (Hit k)).
Proof.
  intros Hsh1 Hsh2 Hacc.
  apply access_load_inv in Hacc as (t1 & s1 & o1 & r1 & He1 & Hf1 & Hrest).
  destruct (lookup_addr_of_parts _ _ _ _ _ _ He1 Hf1) as (Hl1 & -> & ->).
  destruct r1 as [i|v].
  - destruct Hrest as (_ & -> & _). split; [by exists i|]. congruence.
  - destruct Hrest as (t2 & s2 & o2 & r2 & c1m & fp2 & res2 & vline
                       & _ & He2 & Hf2 & Hr2 & _ & _ & Hfill1 & _).
    destruct (lookup_addr_of_parts _ _ _ _ _ _ He2 Hf2) as (Hl2 & -> & ->).
    split; [exact (fill_line_then_lookup _ _ _ _ _ _ Hsh1 Hl1 Hfill1)|].
    intros v0 _.
    destruct r2 as [k|w].
    + destruct Hr2 as (_ & -> & _). by exists k.
    + destruct Hr2 as (wline & _ & _ & Hfill2 & _).
      exact (fill_line_then_lookup _ _ _ _ _ _ Hsh2 Hl2 Hfill2).
Qed.

Lemma store_l2_then_lookup L2 a c2 fp d n res L2' c2' fp' res' :
  shape L2 →
  store_l2 L2 a c2 fp d n res = Some (L2', c2', fp', res') →
  ∃ k, lookup_addr L2' a = Some (Hit k).
Proof.
  intros Hsh Hs.
  apply store_l2_inv in Hs as (t2 & s2 & o2 & r2 & He2 & Hf2 & Hr2).
  destruct (lookup_addr_of_parts _ _ _ _ _ _ He2 Hf2) as (Hl2 & -> & ->).
  destruct r2 as [k|w].
  - destruct Hr2 as (_ & Hw & _). exists k.
    by rewrite (lookup_addr_meta _ _ a (write_line_meta _ _ _ _ _ _ _ Hw)).
  - destruct Hr2 as (vline & L2f & _ & _ & Hfill & Hw & _).
    destruct (fill_line_then_lookup _ _ _ _ _ _ Hsh Hl2 Hfill) as [k Hk].
    exists k.
    by rewrite (lookup_addr_meta _ _ a (write_line_meta _ _ _ _ _ _ _ Hw)).
Qed.

(** X10.  What a LOAD brings in is found again: right after a LOAD of an
    address, the lookup of any address of the same L1 block hits L1, and
    when the LOAD missed L1 the lookup of its address hits L2. *)
Theorem load_then_hit
    L1 L2 address L1_stats L2_stats ram_fp result
    L1' L2' L1_stats' L2_stats' ram_fp' result' address' :
  shape L1 → shape L2 → geom_ok L1 →
  0 ≤ address < 2 ^ 32 → 0 ≤ address' < 2 ^ 32 →
  address' / Cache.B L1 = address / Cache.B L1 →
  access_load L1 L2 address L1_stats L2_stats ram_fp result
    = Some (L1', L2', L1_stats', L2_stats', ram_fp', result') →
  (∃ k, lookup_addr L1' address' = Some (Hit k))
  ∧ (∀ v, lookup_addr L1 address = Some (Miss v) →
          ∃ k, lookup_addr L2' address = Some (Hit k)).
Proof.
  intros Hsh1 Hsh2 Hg Ha Ha' Hblk Hacc.
  destruct (access_load_then_lookup _ _ _ _ _ _ _ _ _ _ _ _ _ Hsh1 Hsh2 Hacc)
    as [[k Hk] HL2].
  split; [|done]. exists k. rewrite <- Hk. unfold lookup_addr.
  destruct (access_load_geom _ _ _ _ _ _ _ _ _ _ _ _ _ Hacc) as [Hg1 _].
  pose proof (geom_ok_same _ _ Hg Hg1) as Hg'.
  assert (block_start_of address' (Cache.B L1')
          = block_start_of address (Cache.B L1')) as Hbs.
  { destruct Hg1 as (_ & _ & _ & _ & HB). rewrite HB.
    destruct Hg as (? & ? & ? & HB1). rewrite HB1 in Hblk |- *.
    rewrite !block_start_pow2 by lia. by rewrite Hblk. }
  by destruct (same_block_same_tag_set L1' address address' Hg' Ha Ha' Hbs)
    as [-> ->].
Qed.

Lemma load_then_hit_witness :
  ∃ L1' L2' L1_stats' L2_stats' ram_fp' result',
    access_load L1_small L2_small 16 stats0 stats0 ram64_fp res0
      = Some (L1', L2', L1_stats', L2_stats', ram_fp', result')
    ∧ (∃ k, lookup_addr L1' 31 = Some (Hit k))
    ∧ (∀ v, lookup_addr L1_small 16 = Some (Miss v) →
            ∃ k, lookup_addr L2' 16 = Some (Hit k)).
Proof.
  do 6 eexists. split; [vm_compute; reflexivity|].
  eapply (load_then_hit L1_small L2_small 16 stats0 stats0 ram64_fp res0);
    [apply sets_ok_shape, create_cache_sets_ok
    |apply sets_ok_shape, create_cache_sets_ok
    |repeat split; vm_compute; congruence
    |lia|lia|reflexivity|vm_compute; reflexivity].
Defined.

(** X11.  No write allocate, seen from the next access: when a STORE misses
    L1, a LOAD of the same address right after it misses L1 again and hits
    L2, which the store has filled; the load leaves L2 as it is. *)
Theorem store_miss_then_load
    L1 L2 address L1_stats L2_stats ram_fp o result
    L1' L2' L1_stats' L2_stats' ram_fp' result'
    L1'' L2'' L1_stats'' L2_stats'' ram_fp'' result0 result'' v :
  shape L2 →
  lookup_addr L1 address = Some (Miss v) →
  access_store L1 L2 address L1_stats L2_stats ram_fp o result
    = Some (L1', L2', L1_stats', L2_stats', ram_fp', result') →
  access_load L1' L2' address L1_stats' L2_stats' ram_fp' result0
    = Some (L1'', L2'', L1_stats'', L2_stats'', ram_fp'', result'') →
  l1_miss result'' = 1 ∧ l2_hit result'' = 1 ∧ L2'' = L2'
  ∧ miss L1_stats'' = miss L1_stats + 2
  ∧ hit L2_stats'' = hit L2_stats' + 1 ∧ miss L2_stats'' = miss L2_stats'.
Proof.
  intros Hsh2 Hl1 Hst Hld.
  apply access_store_inv in Hst. cbv zeta in Hst.
  destruct Hst as (t1 & s1 & o1 & r1 & He1 & Hf1 & Hn & Hrest).
  destruct (lookup_addr_of_parts _ _ _ _ _ _ He1 Hf1) as (Hl1' & -> & ->).
  rewrite Hl1 in Hl1'. injection Hl1' as <-.
  destruct Hrest as (fp1 & Hm1 & -> & _ & Hs2).
  apply incr_miss_Some in Hm1 as ->.
  destruct (store_l2_then_lookup _ _ _ _ _ _ _ _ _ _ _ Hsh2 Hs2) as [k Hk].
  apply access_load_inv in Hld as (t1' & s1' & o1' & r1 & He1' & Hf1' & Hrest).
  destruct (lookup_addr_of_parts _ _ _ _ _ _ He1' Hf1') as (Hl1' & -> & ->).
  rewrite Hl1 in Hl1'. injection Hl1' as <-.
  destruct Hrest as (t2 & s2 & o2 & r2 & c1m & fp2 & res2 & vline
                     & Hm & He2 & Hf2 & Hr2 & _ & Hev & _ & ->).
  destruct (lookup_addr_of_parts _ _ _ _ _ _ He2 Hf2) as (Hl2 & -> & ->).
  rewrite Hk in Hl2. injection Hl2 as <-.
  destruct Hr2 as (Hh & -> & _ & ->).
  apply incr_miss_Some in Hm as ->. apply incr_hit_Some in Hh as ->.
  split; [done|]. split; [done|]. split; [done|].
  split; [|done].
  destruct (valid vline); [apply incr_evict_Some in Hev as ->|subst];
    cbn; lia.
Qed.

Lemma store_miss_then_load_witness :
  ∃ L1' L2' L1_stats' L2_stats' ram_fp' result'
    L1'' L2'' L1_stats'' L2_stats'' ram_fp'' result'',
    lookup_addr L1_small 18 = Some (Miss 0%nat)
    ∧ access_store L1_small L2_small 18 stats0 stats0 ram64_fp o_store res0
      = Some (L1', L2', L1_stats', L2_stats', ram_fp', result')
    ∧ access_load L1' L2' 18 L1_stats' L2_stats' ram_fp' res0
      = Some (L1'', L2'', L1_stats'', L2_stats'', ram_fp'', result'')
    ∧ l1_miss result'' = 1 ∧ l2_hit result'' = 1 ∧ L2'' = L2'
    ∧ miss L1_stats'' = miss stats0 + 2
    ∧ hit L2_stats'' = hit L2_stats' + 1 ∧ miss L2_stats'' = miss L2_stats'.
Proof.
  do 12 eexists. split; [vm_compute; reflexivity|].
  split; [vm_compute; reflexivity|]. split; [vm_compute; reflexivity|].
  eapply (store_miss_then_load L1_small L2_small 18 stats0 stats0 ram64_fp
            o_store res0) with (result0 := res0);
    [apply sets_ok_shape, create_cache_sets_ok
    |vm_compute; reflexivity|vm_compute; reflexivity|vm_compute; reflexivity].
Defined.

(** ** Edges of the input *)

Lemma read_block_past_end fp a blk B :
  (length (fbytes fp) ≤ Z.to_nat (block_start_of a B))%nat →
  ∃ fp', read_block_from_ram fp a blk B = Some (blk, fp').
Proof.
  intros Hlen. unfold read_block_from_ram, fread. cbn [fseek fpos fbytes].
  rewrite drop_ge by done. rewrite take_nil. cbn [length].
  rewrite decide_True by lia. rewrite drop_0. by eexists.
Qed.

(** X12.  A LOAD of an address whose block starts at or behind the end of
    RAM.dat still completes, and it marks the victim line valid with the tag
    of the address although no byte was read: the block of the line holds
    what it held before (after [create_cache], what [malloc] left there). *)
Theorem access_load_past_end
    L1 L2 address L1_stats L2_stats ram_fp result
    L1' L2' L1_stats' L2_stats' ram_fp' result' v :
  lookup_addr L1 address = Some (Miss v) →
  (length (fbytes ram_fp)
   ≤ Z.to_nat (block_start_of address (Cache.B L1)))%nat →
  access_load L1 L2 address L1_stats L2_stats ram_fp result
    = Some (L1', L2', L1_stats', L2_stats', ram_fp', result') →
  ∃ old,
    line_at L1 (Z.to_nat (addr_set L1 address)) v = Some old
    ∧ line_at L1' (Z.to_nat (addr_set L1 address)) v
      = Some (mkLine true (addr_tag L1 address) (Cache.fifo_time L1)
                     (block old)).
Proof.
  intros Hl1 Hlen Hacc.
  apply access_load_inv in Hacc as (t1 & s1 & o1 & r1 & He1 & Hf1 & Hrest).
  destruct (lookup_addr_of_parts _ _ _ _ _ _ He1 Hf1) as (Hl1' & -> & ->).
  rewrite Hl1 in Hl1'. injection Hl1' as <-.
  destruct Hrest as (t2 & s2 & o2 & r2 & c1m & fp2 & res2 & vline
                     & _ & _ & _ & Hr2 & _ & _ & Hfill1 & _).
  assert (fbytes fp2 = fbytes ram_fp) as Hfp2.
  { destruct r2 as [k|w].
    - by destruct Hr2 as (_ & _ & -> & _).
    - destruct Hr2 as (wline & _ & _ & Hfill2 & _).
      by destruct (fill_line_ram _ _ _ _ _ _ _ _ Hfill2). }
  apply fill_line_at in Hfill1 as (old & blk & Hold & Hr & Hnew & _).
  destruct (read_block_past_end fp2 address (block old) (Cache.B L1))
    as [fp3 Hr3]; [by rewrite Hfp2|].
  rewrite Hr3 in Hr. injection Hr as <- _. by exists old.
Qed.

Lemma access_load_past_end_witness :
  ∃ L1' L2' L1_stats' L2_stats' ram_fp' result' old,
    lookup_addr L1_small 80 = Some (Miss 0%nat)
    ∧ access_load L1_small L2_small 80 stats0 stats0 ram64_fp res0
      = Some (L1', L2', L1_stats', L2_stats', ram_fp', result')
    ∧ line_at L1_small (Z.to_nat (addr_set L1_small 80)) 0 = Some old
    ∧ line_at L1' (Z.to_nat (addr_set L1_small 80)) 0
      = Some (mkLine true (addr_tag L1_small 80) (Cache.fifo_time L1_small)
                     (block old)).
Proof.
  do 6 eexists.
  assert (access_load L1_small L2_small 80 stats0 stats0 ram64_fp res0
          = Some (_, _, _, _, _, _)) as Hacc by (vm_compute; reflexivity).
  destruct (access_load_past_end L1_small L2_small 80 stats0 stats0 ram64_fp
              res0 _ _ _ _ _ _ 0%nat ltac:(vm_compute; reflexivity)
              ltac:(vm_compute; lia) Hacc) as (old & Hold & Hnew).
  exists old. split; [vm_compute; reflexivity|]. split; [exact Hacc|].
  split; [exact Hold|exact Hnew].
Defined.

(** X13.  A STORE that carries no data byte (an empty data field, or a
    single hex digit) is still counted, still sets wrote_to_ram and still
    issues its one write to the file; it changes nothing in L1 and no byte
    that the file already had, and where the file covers the block the
    content of the file is as before. *)
Theorem access_store_no_data
    L1 L2 address L1_stats L2_stats ram_fp o result
    L1' L2' L1_stats' L2_stats' ram_fp' result' :
  num_bytes_of (data o) = 0%nat →
  0 ≤ address < 2 ^ 32 →
  access_store L1 L2 address L1_stats L2_stats ram_fp o result
    = Some (L1', L2', L1_stats', L2_stats', ram_fp', result') →
  L1' = L1
  ∧ hit L1_stats' + miss L1_stats' = hit L1_stats + miss L1_stats + 1
  ∧ fwrites ram_fp' = S (fwrites ram_fp)
  ∧ wrote_to_ram result' = 1
  ∧ (∀ i, (i < length (fbytes ram_fp))%nat →
          fbytes ram_fp' !! i = fbytes ram_fp !! i)
  ∧ (block_in_ram address (Cache.B L1) (length (fbytes ram_fp)) →
     fbytes ram_fp' = fbytes ram_fp).
Proof.
  intros Hn Ha Hacc. apply access_store_inv in Hacc. cbv zeta in Hacc.
  rewrite Hn in Hacc.
  destruct Hacc as (t1 & s1 & o1 & r1 & He1 & Hf1 & _ & Hrest).
  destruct (lookup_addr_of_parts _ _ _ _ _ _ He1 Hf1) as (_ & -> & ->).
  assert (∀ fp fp' B,
            write_block_to_ram fp address (decode_pairs (data o)) 0 B
              = Some fp' →
            fwrites fp' = S (fwrites fp)
            ∧ (∀ i, (i < length (fbytes fp))%nat →
                    fbytes fp' !! i = fbytes fp !! i)
            ∧ (block_in_ram address B (length (fbytes fp)) →
               fbytes fp' = fbytes fp)) as Hwr.
  { intros fp fp' B Hw.
    pose proof (write_block_to_ram_inv _ _ _ _ _ _ Hw) as Hinv.
    cbv zeta in Hinv. destruct Hinv as (_ & _ & _ & Hfw & _).
    assert (∀ i, (i < length (fbytes fp))%nat →
                 fbytes fp' !! i = fbytes fp !! i) as Hsame.
    { intros i Hi. rewrite (write_block_to_ram_lookup _ _ _ _ _ _ i Ha Hw).
      repeat case_decide; try done; lia. }
    split; [done|]. split; [done|]. intros Hram.
    pose proof (write_block_to_ram_length _ _ _ _ _ _ Ha Hw Hram) as Hlen.
    apply list_eq. intros i.
    destruct (decide (i < length (fbytes fp))%nat) as [Hi|Hi];
      [by apply Hsame|].
    rewrite !(proj2 (lookup_ge_None _ _)); [done|lia|lia]. }
  destruct r1 as [i|v].
  - destruct Hrest as (fp1 & res1 & Hh & Hw & Hs2 & Hwb & ->).
    apply incr_hit_Some in Hh as ->.
    destruct (store_l2_frame _ _ _ _ _ _ _ _ _ _ _ Hs2) as (Hb & Hfw & _).
    assert (L1' = L1) as HL1.
    { apply write_line_inv in Hw as (old & blk & Hold & Hm & ->).
      apply memcpy_inv in Hm as (_ & _ & ->). cbn [take list_inserts].
      etrans; [|exact (put_line_same L1 (addr_set L1 address) i old Hold)].
      f_equal. by destruct old. }
    subst L1'.
    destruct (Hwr _ _ _ Hwb) as (Hfw' & Hsame & Heq).
    split; [done|]. split; [cbn; lia|]. split; [congruence|].
    split; [done|]. rewrite Hb in Hsame, Heq. done.
  - destruct Hrest as (fp1 & Hm & -> & Hwb & Hs2).
    apply incr_miss_Some in Hm as ->.
    destruct (store_l2_frame _ _ _ _ _ _ _ _ _ _ _ Hs2)
      as (Hb & Hfw & Hwr' & _).
    destruct (Hwr _ _ _ Hwb) as (Hfw' & Hsame & Heq).
    split; [done|]. split; [cbn; lia|]. split; [congruence|].
    split; [by rewrite Hwr'|]. rewrite Hb. done.
Qed.

Lemma access_store_no_data_witness :
  ∃ L1' L2' L1_stats' L2_stats' ram_fp' result',
    access_store L1_small L2_small 18 stats0 stats0 ram64_fp o_empty res0
      = Some (L1', L2', L1_stats', L2_stats', ram_fp', result')
    ∧ L1' = L1_small
    ∧ hit L1_stats' + miss L1_stats' = hit stats0 + miss stats0 + 1
    ∧ fwrites ram_fp' = S (fwrites ram64_fp)
    ∧ wrote_to_ram result' = 1
    ∧ (∀ i, (i < length (fbytes ram64_fp))%nat →
            fbytes ram_fp' !! i = fbytes ram64_fp !! i)
    ∧ (block_in_ram 18 (Cache.B L1_small) (length (fbytes ram64_fp)) →
       fbytes ram_fp' = fbytes ram64_fp).
Proof.
  do 6 eexists. split; [vm_compute; reflexivity|].
  eapply (access_store_no_data L1_small L2_small 18 stats0 stats0 ram64_fp
            o_empty res0);
    [reflexivity|lia|vm_compute; reflexivity].
Defined.

(** ** The books of a cache *)

Lemma incr_Some_lt p q : incr p = Some q → q = p + 1 ∧ p < INT_MAX.
Proof. unfold incr. case_decide; [|done]. by intros [= <-]. Qed.

Lemma sum_list_with_insert {A} (f : A → nat) (l : list A) i x old :
  l !! i = Some old →
  (sum_list_with f (<[i:=x]> l) + f old = sum_list_with f l + f x)%nat.
Proof.
  revert i. induction l as [|y l IH]; intros [|i] Hi; try done; simpl in *.
  - injection Hi as ->. lia.
  - specialize (IH i Hi). unfold insert in *. lia.
Qed.

Lemma sum_list_with_alter {A} (f : A → nat) (g : A → A) (l : list A) i old :
  l !! i = Some old →
  (sum_list_with f (alter g i l) + f old = sum_list_with f l + f (g old))%nat.
Proof.
  revert i. induction l as [|y l IH]; intros [|i] Hi; try done; simpl in *.
  - injection Hi as ->. lia.
  - specialize (IH i Hi). unfold alter in *. lia.
Qed.

Lemma valid_lines_put_line c si i old new :
  line_at c (Z.to_nat si) i = Some old →
  valid_lines (put_line c si i new) + (if valid old then 1 else 0)
  = valid_lines c + (if valid new then 1 else 0).
Proof.
  unfold line_at. intros Hl.
  destruct (Cache.sets c !! Z.to_nat si) as [set|] eqn:Hset; [|done].
  cbn in Hl. unfold valid_lines, put_line. cbn [Cache.sets].
  pose proof (sum_list_with_alter (λ set, count_valid (lines set))
                (λ set, mkSet (<[i := new]> (lines set)))
                (Cache.sets c) (Z.to_nat si) set Hset) as Ha.
  cbn [lines] in Ha.
  pose proof (sum_list_with_insert (λ l, if valid l then 1%nat else 0%nat)
                (lines set) i new old Hl) as Hi.
  unfold count_valid in *. destruct (valid old), (valid new); lia.
Qed.

Lemma count_valid_le ls : (count_valid ls ≤ length ls)%nat.
Proof.
  unfold count_valid. induction ls as [|l ls IH]; cbn; [done|].
  destruct (valid l); lia.
Qed.

Lemma valid_lines_bound c :
  shape c → 0 ≤ Cache.E c →
  0 ≤ valid_lines c ≤ Z.of_nat (length (Cache.sets c)) * Cache.E c.
Proof.
  intros Hsh HE. unfold valid_lines. split; [lia|].
  assert (∀ sets : list CacheSet,
            (∀ si set, sets !! si = Some set →
                       length (lines set) = Z.to_nat (Cache.E c)) →
            Z.of_nat (sum_list_with (λ set, count_valid (lines set)) sets)
            ≤ Z.of_nat (length sets) * Cache.E c) as Hgen.
  { clear Hsh. induction sets as [|set sets IH]; intros Hall; cbn; [lia|].
    pose proof (Hall 0%nat set eq_refl) as H0.
    pose proof (count_valid_le (lines set)).
    assert (∀ si set, sets !! si = Some set →
                      length (lines set) = Z.to_nat (Cache.E c)) as Hall'
      by (intros si s' Hs'; exact (Hall (S si) s' Hs')).
    specialize (IH Hall'). lia. }
  by apply Hgen.
Qed.

Lemma fifo_ok_put_same c si i old new :
  fifo_ok c → line_at c (Z.to_nat si) i = Some old →
  valid new = valid old → fifo_counter new = fifo_counter old →
  fifo_ok (put_line c si i new).
Proof.
  intros (Ht & Hlt & Hinj) Hold Hv Hc.
  assert (∀ sj j l, line_at (put_line c si i new) sj j = Some l →
            ∃ l0, line_at c sj j = Some l0 ∧ valid l0 = valid l
                  ∧ fifo_counter l0 = fifo_counter l) as Hback.
  { intros sj j l. rewrite line_at_put_line. case_decide as Hd.
    - destruct Hd as [-> ->]. rewrite Hold. cbn. intros [= <-]. by exists old.
    - intros Hl. by exists l. }
  split; [done|]. split.
  - intros sj j l Hl Hvl. destruct (Hback _ _ _ Hl) as (l0 & Hl0 & Hv0 & Hc0).
    rewrite <- Hc0. apply (Hlt sj j l0 Hl0). congruence.
  - intros sj j l sk k l' Hl Hl' Hvl Hvl' Hfc.
    destruct (Hback _ _ _ Hl) as (l0 & Hl0 & Hv0 & Hc0).
    destruct (Hback _ _ _ Hl') as (l0' & Hl0' & Hv0' & Hc0').
    apply (Hinj sj j l0 sk k l0' Hl0 Hl0'); congruence.
Qed.

Lemma fifo_ok_fill c si v old t blk :
  fifo_ok c → Cache.fifo_time c + 1 < 2 ^ 32 →
  line_at c (Z.to_nat si) v = Some old →
  fifo_ok (with_fifo_time
             (put_line c si v (mkLine true t (Cache.fifo_time c) blk))
             (wrap32 (Cache.fifo_time c + 1))).
Proof.
  intros (Ht & Hlt & Hinj) Hno Hold.
  set (new := mkLine true t (Cache.fifo_time c) blk).
  assert (∀ sj j l,
            line_at (with_fifo_time (put_line c si v new)
                       (wrap32 (Cache.fifo_time c + 1))) sj j = Some l →
            (sj = Z.to_nat si ∧ j = v ∧ l = new)
            ∨ ((sj, j) ≠ (Z.to_nat si, v) ∧ line_at c sj j = Some l)) as Hback.
  { intros sj j l. rewrite line_at_with_fifo_time, line_at_put_line.
    case_decide as Hd.
    - destruct Hd as [-> ->]. rewrite Hold. cbn. intros [= <-]. by left.
    - intros Hl. right. split; [|done]. intros [= -> ->]. by apply Hd. }
  unfold fifo_ok. cbn [with_fifo_time Cache.fifo_time].
  rewrite wrap32_small by lia. split; [lia|]. split.
  - intros sj j l Hl Hv.
    destruct (Hback _ _ _ Hl) as [(-> & -> & ->)|[_ Hl0]].
    + cbn. lia.
    + specialize (Hlt _ _ _ Hl0 Hv). lia.
  - intros sj j l sk k l' Hl Hl' Hv Hv' Hfc.
    destruct (Hback _ _ _ Hl) as [(-> & -> & ->)|[_ Hl0]];
      destruct (Hback _ _ _ Hl') as [(-> & -> & ->)|[_ Hl0']].
    + done.
    + specialize (Hlt _ _ _ Hl0' Hv'). cbn in Hfc. lia.
    + specialize (Hlt _ _ _ Hl0 Hv). cbn in Hfc. lia.
    + by apply (Hinj sj j l sk k l').
Qed.

Lemma tally_hit n k c cnt cnt' :
  tally n k c cnt → incr_hit cnt = Some cnt' → tally (n + 1) k c cnt'.
Proof.
  intros (Hf & Hn & Hh & Hm & Hk & Hmax & Hv & He) Hi.
  apply incr_hit_Some in Hi as ->. split; [done|]. cbn. repeat split; lia.
Qed.

(** A miss that fills no line: the STORE that misses L1. *)
Lemma tally_miss_no_fill n k c cnt cnt' :
  tally n k c cnt → incr_miss cnt = Some cnt' → tally (n + 1) (k + 1) c cnt'.
Proof.
  intros (Hf & Hn & Hh & Hm & Hk & Hmax & Hv & He) Hi.
  unfold incr_miss in Hi. apply bind_Some in Hi as (m & Hi & [= <-]).
  apply incr_Some_lt in Hi as [-> Hlt]. split; [done|]. cbn.
  repeat split; lia.
Qed.

(** A miss that fills the victim, with an eviction where the victim was
    valid. *)
Lemma tally_miss_fill n k c cnt cm cnt' si v t fp a c' fp' vline :
  tally n k c cnt →
  incr_miss cnt = Some cm →
  get_line c si v = Some vline →
  (if valid vline then incr_evict cm = Some cnt' else cnt' = cm) →
  fill_line c si v t fp a = Some (c', fp') →
  tally (n + 1) k c' cnt'
  ∧ Cache.fifo_time c' = Cache.fifo_time c + 1.
Proof.
  intros (Hf & Hn & Hh & Hm & Hk & Hmax & Hv & He) Hi Hvl Hev Hfill.
  unfold incr_miss in Hi. apply bind_Some in Hi as (m & Hi & [= <-]).
  apply incr_Some_lt in Hi as [-> Hlt].
  assert (INT_MAX < 2 ^ 32) as Hint by (by vm_compute).
  pose proof Hf as (Hft & _).
  apply fill_line_inv in Hfill as (old & blk & Hold & _ & ->).
  rewrite Hvl in Hold. injection Hold as <-.
  change (get_line c si v) with (line_at c (Z.to_nat si) v) in Hvl.
  pose proof (fifo_ok_fill c si v vline t blk Hf ltac:(lia) Hvl) as Hf'.
  pose proof (valid_lines_put_line c si v vline
                (mkLine true t (Cache.fifo_time c) blk) Hvl) as Hcount.
  cbn [valid] in Hcount.
  assert (Cache.fifo_time
            (with_fifo_time
               (put_line c si v (mkLine true t (Cache.fifo_time c) blk))
               (wrap32 (Cache.fifo_time c + 1)))
          = Cache.fifo_time c + 1) as Hft'.
  { cbn. apply wrap32_small. lia. }
  assert (valid_lines
            (with_fifo_time
               (put_line c si v (mkLine true t (Cache.fifo_time c) blk))
               (wrap32 (Cache.fifo_time c + 1)))
          = valid_lines (put_line c si v (mkLine true t (Cache.fifo_time c) blk)))
    as Hvl' by done.
  split; [|done]. split; [done|]. rewrite Hft', Hvl'.
  destruct (valid vline).
  - unfold incr_evict in Hev. apply bind_Some in Hev as (e & Hev & [= <-]).
    apply incr_Some_lt in Hev as [-> _]. cbn in *. repeat split; lia.
  - subst cnt'. cbn in *. repeat split; lia.
Qed.

Lemma tally_write_line n k c cnt si i off d m c' :
  tally n k c cnt → write_line c si i off d m = Some c' → tally n k c' cnt.
Proof.
  intros (Hf & Hrest) Hw.
  apply write_line_inv in Hw as (old & blk & Hold & _ & ->).
  change (get_line c si i) with (line_at c (Z.to_nat si) i) in Hold.
  pose proof (valid_lines_put_line c si i old
                (mkLine (valid old) (tag old) (fifo_counter old) blk) Hold)
    as Hcount.
  cbn [valid] in Hcount.
  split; [by apply (fifo_ok_put_same c si i old)|].
  cbn [put_line Cache.fifo_time] in *.
  assert (valid_lines
            (put_line c si i
               (mkLine (valid old) (tag old) (fifo_counter old) blk))
          = valid_lines c) as -> by (destruct (valid old); lia).
  done.
Qed.

Lemma l2_miss_tally n k c cnt cnt' si v t fp a c' fp' vline :
  tally n k c cnt →
  get_line c si v = Some vline →
  l2_miss_stats cnt cnt' (valid vline) →
  fill_line c si v t fp a = Some (c', fp') →
  tally (n + 1) k c' cnt'.
Proof.
  intros Ht Hvl (cm & Hm & Hev) Hfill.
  by destruct (tally_miss_fill _ _ _ _ _ _ _ _ _ _ _ _ _ _ Ht Hm Hvl Hev Hfill).
Qed.

Lemma store_l2_tally n k L2 a c2 fp d m res L2' c2' fp' res' :
  tally n k L2 c2 →
  store_l2 L2 a c2 fp d m res = Some (L2', c2', fp', res') →
  tally (n + 1) k L2' c2'.
Proof.
  intros Ht Hs.
  apply store_l2_inv in Hs as (t2 & s2 & o2 & r2 & _ & _ & Hr2).
  destruct r2 as [i|v].
  - destruct Hr2 as (Hh & Hw & _).
    apply (tally_write_line _ _ _ _ _ _ _ _ _ _ (tally_hit _ _ _ _ _ Ht Hh) Hw).
  - destruct Hr2 as (vline & L2f & Hvl & Hst & Hfill & Hw & _).
    apply (tally_write_line _ _ _ _ _ _ _ _ _ _
             (l2_miss_tally _ _ _ _ _ _ _ _ _ _ _ _ _ Ht Hvl Hst Hfill) Hw).
Qed.

Lemma access_load_tally n1 k1 n2 k2
    L1 L2 a c1 c2 fp res L1' L2' c1' c2' fp' res' :
  tally n1 k1 L1 c1 → tally n2 k2 L2 c2 →
  access_load L1 L2 a c1 c2 fp res = Some (L1', L2', c1', c2', fp', res') →
  ∃ d, (d = 0 ∨ d = 1)
       ∧ tally (n1 + 1) k1 L1' c1' ∧ tally (n2 + d) k2 L2' c2'
       ∧ Cache.fifo_time L1' = Cache.fifo_time L1 + d.
Proof.
  intros Ht1 Ht2 Hacc.
  apply access_load_inv in Hacc as (t1 & s1 & o1 & r1 & _ & _ & Hrest).
  destruct r1 as [i|v].
  - destruct Hrest as (Hh & -> & -> & -> & _). exists 0.
    split; [by left|]. split; [by apply (tally_hit _ _ _ _ _ Ht1 Hh)|].
    split; [by rewrite Z.add_0_r|lia].
  - destruct Hrest as (t2 & s2 & o2 & r2 & c1m & fp2 & res2 & vline
                       & Hm & _ & _ & Hr2 & Hvl & Hev & Hfill1 & _).
    exists 1. split; [by right|].
    destruct (tally_miss_fill _ _ _ _ _ _ _ _ _ _ _ _ _ _ Ht1 Hm Hvl Hev Hfill1)
      as [Ht1' Hft].
    split; [done|]. split; [|done].
    destruct r2 as [k|w].
    + destruct Hr2 as (Hh & -> & _). by apply (tally_hit _ _ _ _ _ Ht2 Hh).
    + destruct Hr2 as (wline & Hwl & Hst & Hfill2 & _).
      by apply (l2_miss_tally _ _ _ _ _ _ _ _ _ _ _ _ _ Ht2 Hwl Hst Hfill2).
Qed.

Lemma access_store_tally n1 k1 n2 k2
    L1 L2 a c1 c2 fp o res L1' L2' c1' c2' fp' res' :
  tally n1 k1 L1 c1 → tally n2 k2 L2 c2 →
  access_store L1 L2 a c1 c2 fp o res = Some (L1', L2', c1', c2', fp', res') →
  ∃ e, (e = 0 ∨ e = 1)
       ∧ tally (n1 + 1) (k1 + e) L1' c1' ∧ tally (n2 + 1) k2 L2' c2'
       ∧ Cache.fifo_time L1' = Cache.fifo_time L1.
Proof.
  intros Ht1 Ht2 Hacc. apply access_store_inv in Hacc. cbv zeta in Hacc.
  destruct Hacc as (t1 & s1 & o1 & r1 & _ & _ & _ & Hrest).
  destruct r1 as [i|v].
  - destruct Hrest as (fp1 & res1 & Hh & Hw & Hs2 & _).
    exists 0. split; [by left|]. rewrite Z.add_0_r. split.
    { apply (tally_write_line _ _ _ _ _ _ _ _ _ _
               (tally_hit _ _ _ _ _ Ht1 Hh) Hw). }
    split; [by apply (store_l2_tally _ _ _ _ _ _ _ _ _ _ _ _ _ Ht2 Hs2)|].
    apply write_line_inv in Hw as (old & blk & _ & _ & ->). done.
  - destruct Hrest as (fp1 & Hm & -> & _ & Hs2).
    exists 1. split; [by right|].
    split; [by apply (tally_miss_no_fill _ _ _ _ _ Ht1 Hm)|].
    split; [by apply (store_l2_tally _ _ _ _ _ _ _ _ _ _ _ _ _ Ht2 Hs2)|done].
Qed.

(** ** The books over a run *)

Lemma tally_eq n n' k k' c cnt :
  n = n' → k = k' → tally n k c cnt → tally n' k' c cnt.
Proof. by intros -> ->. Qed.

Lemma count_op_cons k o ops :
  count_op k (o :: ops)
  = (if decide (op o = k) then 1 else 0) + count_op k ops.
Proof.
  unfold count_op. rewrite filter_cons. case_decide; cbn [length]; lia.
Qed.

Lemma count_op_nil k : count_op k [] = 0.
Proof. done. Qed.

Lemma step_tally nL nS nM nI st o st' lr sr :
  sim_tally nL nS nM nI st → step st o = Some (st', lr, sr) →
  sim_tally (nL + count_op LOAD [o]) (nS + count_op STORE [o])
            (nM + count_op MODIFY [o]) (nI + count_op INST [o]) st'.
Proof.
  intros (kD & HkD & HtD & HtI & Ht2) Hst. apply step_inv in Hst.
  rewrite !count_op_cons, !count_op_nil.
  destruct (op o) eqn:Hop; cbn [decide]; repeat case_decide; try done.
  - destruct Hst as (l1 & l2 & c1 & c2 & fp & Hacc & -> & _).
    destruct (access_load_tally _ _ _ _ _ _ _ _ _ _ _ _ _ _ _ _ _ HtD Ht2 Hacc)
      as (d & Hd & HtD' & Ht2' & Hft).
    exists kD. cbn [L1D L1I L2 L1D_stats L1I_stats L2_stats].
    split; [lia|]. split; [eapply tally_eq; [| |exact HtD']; lia|].
    split; [eapply tally_eq; [| |exact HtI]; lia|].
    eapply tally_eq; [| |exact Ht2']; lia.
  - destruct Hst as (l1 & l2 & c1 & c2 & fp & Hacc & -> & _).
    destruct (access_store_tally _ _ _ _ _ _ _ _ _ _ _ _ _ _ _ _ _ _
                HtD Ht2 Hacc) as (e & He & HtD' & Ht2' & Hft).
    exists (kD + e). cbn [L1D L1I L2 L1D_stats L1I_stats L2_stats].
    split; [lia|]. split; [eapply tally_eq; [| |exact HtD']; lia|].
    split; [eapply tally_eq; [| |exact HtI]; lia|].
    eapply tally_eq; [| |exact Ht2']; lia.
  - destruct Hst as (l1 & l2 & c1 & c2 & fp & Hacc & ->).
    apply access_modify_inv in Hacc
      as (l1' & l2' & c1' & c2' & fp' & Hld & Hstore).
    destruct (access_load_tally _ _ _ _ _ _ _ _ _ _ _ _ _ _ _ _ _ HtD Ht2 Hld)
      as (d & Hd & HtD' & Ht2' & Hft).
    destruct (access_store_tally _ _ _ _ _ _ _ _ _ _ _ _ _ _ _ _ _ _
                HtD' Ht2' Hstore) as (e & He & HtD'' & Ht2'' & Hft').
    exists (kD + e). cbn [L1D L1I L2 L1D_stats L1I_stats L2_stats].
    split; [lia|]. split; [eapply tally_eq; [| |exact HtD'']; lia|].
    split; [eapply tally_eq; [| |exact HtI]; lia|].
    eapply tally_eq; [| |exact Ht2'']; lia.
  - destruct Hst as (l1 & l2 & c1 & c2 & fp & Hacc & -> & _).
    destruct (access_load_tally _ _ _ _ _ _ _ _ _ _ _ _ _ _ _ _ _ HtI Ht2 Hacc)
      as (d & Hd & HtI' & Ht2' & Hft).
    exists kD. cbn [L1D L1I L2 L1D_stats L1I_stats L2_stats].
    split; [lia|]. split; [eapply tally_eq; [| |exact HtD]; lia|].
    split; [eapply tally_eq; [| |exact HtI']; lia|].
    eapply tally_eq; [| |exact Ht2']; lia.
Qed.

Lemma run_tally ops : ∀ nL nS nM nI st st',
  sim_tally nL nS nM nI st → run st ops = Some st' →
  sim_tally (nL + count_op LOAD ops) (nS + count_op STORE ops)
            (nM + count_op MODIFY ops) (nI + count_op INST ops) st'.
Proof.
  induction ops as [|o ops IH]; intros nL nS nM nI st st' Ht Hrun.
  - injection Hrun as <-. rewrite !count_op_nil, !Z.add_0_r. done.
  - cbn [run] in Hrun. apply bind_Some in Hrun as ([[st1 lr] sr] & Hst & Hrun).
    pose proof (step_tally _ _ _ _ _ _ _ _ _ Ht Hst) as Ht1.
    specialize (IH _ _ _ _ _ _ Ht1 Hrun).
    rewrite !(count_op_cons _ o ops).
    rewrite !count_op_cons, !count_op_nil, !Z.add_0_r in IH.
    by rewrite !Z.add_assoc.
Qed.

Lemma sum_list_with_zero {A} (f : A → nat) (l : list A) :
  (∀ i x, l !! i = Some x → f x = 0%nat) → sum_list_with f l = 0%nat.
Proof.
  induction l as [|y l IH]; intros Hall; [done|]. simpl.
  rewrite (Hall 0%nat y eq_refl). rewrite IH; [done|].
  intros i x Hx. exact (Hall (S i) x Hx).
Qed.

Lemma cold_valid_lines c : cold c → valid_lines c = 0.
Proof.
  intros Hcold. unfold valid_lines. rewrite sum_list_with_zero; [done|].
  intros si set Hset. unfold count_valid. apply sum_list_with_zero.
  intros i l Hl. by rewrite (Hcold _ _ _ _ Hset Hl).
Qed.

Lemma create_cache_tally junk s E b :
  tally 0 0 (create_cache_with junk s E b) (mkCnt 0 0 0).
Proof.
  pose proof (create_cache_cold junk s E b) as Hcold.
  split.
  { split; [done|]. split.
    - intros sj j l Hl Hv. unfold line_at in Hl.
      apply bind_Some in Hl as (set & Hset & Hl).
      by rewrite (Hcold _ _ _ _ Hset Hl) in Hv.
    - intros sj j l sk k l' Hl _ Hv. unfold line_at in Hl.
      apply bind_Some in Hl as (set & Hset & Hl).
      by rewrite (Hcold _ _ _ _ Hset Hl) in Hv. }
  rewrite (cold_valid_lines _ Hcold). cbn. repeat split; try lia.
  by vm_compute.
Qed.

Lemma main_init_tally junk p ram st :
  main_init junk p ram = Some st → sim_tally 0 0 0 0 st.
Proof.
  unfold main_init. destruct (params_rejected p); [done|]. intros [= <-].
  exists 0. cbn [L1D L1I L2 L1D_stats L1I_stats L2_stats].
  split; [lia|]. split; [apply create_cache_tally|].
  split; apply create_cache_tally.
Qed.

Lemma run_from_main_tally junk p ram ops st0 st :
  main_init junk p ram = Some st0 → run st0 ops = Some st →
  sim_tally (count_op LOAD ops) (count_op STORE ops)
            (count_op MODIFY ops) (count_op INST ops) st.
Proof.
  intros Hinit Hrun.
  exact (run_tally ops 0 0 0 0 st0 st (main_init_tally _ _ _ _ Hinit) Hrun).
Qed.

(** X14.  The statistics that [main] prints add up.  After any trace that
    the loop completes, L1D has counted one hit or one miss for every LOAD
    and STORE and two for every MODIFY, L1I one for every INST; every L1
    miss is followed by one L2 access, as is every L1 hit of a store, so the
    L2 accesses lie between the L1 misses and the L1 misses plus the number
    of STOREs and MODIFYs; and no cache has more evictions than misses. *)
Theorem statistics_add_up junk p ram ops st0 st :
  main_init junk p ram = Some st0 →
  run st0 ops = Some st →
  hit (L1D_stats st) + miss (L1D_stats st)
    = count_op LOAD ops + count_op STORE ops + 2 * count_op MODIFY ops
  ∧ hit (L1I_stats st) + miss (L1I_stats st) = count_op INST ops
  ∧ miss (L1I_stats st) + miss (L1D_stats st)
    ≤ hit (L2_stats st) + miss (L2_stats st)
    ≤ miss (L1I_stats st) + miss (L1D_stats st)
      + count_op STORE ops + count_op MODIFY ops
  ∧ 0 ≤ evict (L1D_stats st) ≤ miss (L1D_stats st)
  ∧ 0 ≤ evict (L1I_stats st) ≤ miss (L1I_stats st)
  ∧ 0 ≤ evict (L2_stats st) ≤ miss (L2_stats st)
  ∧ 0 ≤ hit (L1D_stats st) ∧ 0 ≤ hit (L1I_stats st) ∧ 0 ≤ hit (L2_stats st).
Proof.
  intros Hinit Hrun.
  destruct (run_from_main_tally _ _ _ _ _ _ Hinit Hrun)
    as (kD & HkD & HtD & HtI & Ht2).
  destruct HtD as (_ & HnD & HhD & HmD & _ & _ & HvD & HeD).
  destruct HtI as (_ & HnI & HhI & HmI & _ & _ & HvI & HeI).
  destruct Ht2 as (_ & Hn2 & Hh2 & Hm2 & _ & _ & Hv2 & He2).
  assert (0 ≤ valid_lines (L1D st)) by (unfold valid_lines; lia).
  assert (0 ≤ valid_lines (L1I st)) by (unfold valid_lines; lia).
  assert (0 ≤ valid_lines (L2 st)) by (unfold valid_lines; lia).
  repeat split; lia.
Qed.

Lemma statistics_add_up_witness :
  ∃ st0 st,
    main_init zeroed p_small ram256 = Some st0
    ∧ run st0 trace_mixed = Some st
    ∧ hit (L1D_stats st) + miss (L1D_stats st)
      = count_op LOAD trace_mixed + count_op STORE trace_mixed
        + 2 * count_op MODIFY trace_mixed
    ∧ hit (L1I_stats st) + miss (L1I_stats st) = count_op INST trace_mixed
    ∧ miss (L1I_stats st) + miss (L1D_stats st)
      ≤ hit (L2_stats st) + miss (L2_stats st)
      ≤ miss (L1I_stats st) + miss (L1D_stats st)
        + count_op STORE trace_mixed + count_op MODIFY trace_mixed
    ∧ 0 ≤ evict (L1D_stats st) ≤ miss (L1D_stats st)
    ∧ 0 ≤ evict (L1I_stats st) ≤ miss (L1I_stats st)
    ∧ 0 ≤ evict (L2_stats st) ≤ miss (L2_stats st)
    ∧ 0 ≤ hit (L1D_stats st) ∧ 0 ≤ hit (L1I_stats st)
    ∧ 0 ≤ hit (L2_stats st).
Proof.
  do 2 eexists. split; [reflexivity|]. split; [vm_compute; reflexivity|].
  eapply (statistics_add_up zeroed p_small ram256 trace_mixed);
    [reflexivity|vm_compute; reflexivity].
Defined.

(** X15.  Misses, evictions and occupancy agree.  After any trace that the
    loop completes, the number of valid lines of L1I and of L2 is the
    number of misses minus the number of evictions of that cache (every
    miss fills a line, and it evicts exactly when it takes a valid one); in
    L1D the misses of stores fill nothing, so its valid lines are at most
    misses minus evictions.  The valid lines never exceed the lines of the
    cache, so the evictions of L1I and L2 are at least the misses minus the
    capacity. *)
Theorem occupancy_is_misses_minus_evictions junk p ram ops st0 st :
  main_init junk p ram = Some st0 →
  run st0 ops = Some st →
  valid_lines (L1I st) = miss (L1I_stats st) - evict (L1I_stats st)
  ∧ valid_lines (L2 st) = miss (L2_stats st) - evict (L2_stats st)
  ∧ miss (L1D_stats st) - evict (L1D_stats st)
      - (count_op STORE ops + count_op MODIFY ops)
    ≤ valid_lines (L1D st)
    ≤ miss (L1D_stats st) - evict (L1D_stats st)
  ∧ ∀ c, c = L1D st ∨ c = L1I st ∨ c = L2 st →
         0 ≤ valid_lines c
           ≤ Z.of_nat (length (Cache.sets c) * Z.to_nat (Cache.E c)).
Proof.
  intros Hinit Hrun.
  destruct (run_from_main_tally _ _ _ _ _ _ Hinit Hrun)
    as (kD & HkD & HtD & HtI & Ht2).
  destruct HtD as (_ & HnD & HhD & HmD & _ & _ & HvD & HeD).
  destruct HtI as (_ & HnI & HhI & HmI & _ & _ & HvI & HeI).
  destruct Ht2 as (_ & Hn2 & Hh2 & Hm2 & _ & _ & Hv2 & He2).
  split; [lia|]. split; [lia|]. split; [lia|].
  pose proof (run_sim_ok ops st0 st (main_init_sim_ok _ _ _ _ Hinit) Hrun)
    as (HokD & HokI & Hok2).
  assert (∀ c, sets_ok c →
            0 ≤ valid_lines c
              ≤ Z.of_nat (length (Cache.sets c) * Z.to_nat (Cache.E c)))
    as Hbound.
  { intros c Hok. unfold valid_lines. split; [lia|].
    apply inj_le. generalize (sets_ok_shape c Hok). unfold shape.
    generalize (Cache.sets c). intros sets.
    induction sets as [|set sets IH]; intros Hall; simpl; [lia|].
    pose proof (Hall 0%nat set eq_refl) as H0.
    pose proof (count_valid_le (lines set)).
    assert (∀ si set, sets !! si = Some set →
                      length (lines set) = Z.to_nat (Cache.E c)) as Hall'
      by (intros si s' Hs'; exact (Hall (S si) s' Hs')).
    specialize (IH Hall'). lia. }
  intros c [->|[->| ->]]; by apply Hbound.
Qed.

Lemma occupancy_is_misses_minus_evictions_witness :
  ∃ st0 st,
    main_init zeroed p_small ram256 = Some st0
    ∧ run st0 trace_mixed = Some st
    ∧ valid_lines (L1I st) = miss (L1I_stats st) - evict (L1I_stats st)
    ∧ valid_lines (L2 st) = miss (L2_stats st) - evict (L2_stats st)
    ∧ miss (L1D_stats st) - evict (L1D_stats st)
        - (count_op STORE trace_mixed + count_op MODIFY trace_mixed)
      ≤ valid_lines (L1D st)
      ≤ miss (L1D_stats st) - evict (L1D_stats st)
    ∧ ∀ c, c = L1D st ∨ c = L1I st ∨ c = L2 st →
           0 ≤ valid_lines c
             ≤ Z.of_nat (length (Cache.sets c) * Z.to_nat (Cache.E c)).
Proof.
  do 2 eexists. split; [reflexivity|]. split; [vm_compute; reflexivity|].
  eapply (occupancy_is_misses_minus_evictions zeroed p_small ram256 trace_mixed);
    [reflexivity|vm_compute; reflexivity].
Defined.

(** X16.  The replacement is first in, first out.  In every state that a
    run reaches, the FIFO clock of a cache is the number of lines it has
    filled and has not wrapped around (for L1I and L2 it equals the miss
    count), the fifo_counter of every valid line is below the clock, and no
    two valid lines of a cache carry the same fifo_counter.  So when a
    lookup misses in a set that is full, the victim is the one line that
    was filled before all the others of the set. *)
Theorem victim_is_first_in junk p ram ops st0 st :
  main_init junk p ram = Some st0 →
  run st0 ops = Some st →
  Cache.fifo_time (L1I st) = miss (L1I_stats st)
  ∧ Cache.fifo_time (L2 st) = miss (L2_stats st)
  ∧ ∀ c, c = L1D st ∨ c = L1I st ∨ c = L2 st →
      0 ≤ Cache.fifo_time c ≤ INT_MAX
      ∧ (∀ sj j l, line_at c sj j = Some l → valid l = true →
                   0 ≤ fifo_counter l < Cache.fifo_time c)
      ∧ (∀ sj j l sk k l',
           line_at c sj j = Some l → line_at c sk k = Some l' →
           valid l = true → valid l' = true →
           fifo_counter l = fifo_counter l' → sj = sk ∧ j = k)
      ∧ (∀ a v set,
           lookup_addr c a = Some (Miss v) →
           Cache.sets c !! Z.to_nat (addr_set c a) = Some set →
           all_valid (lines set) →
           ∃ l, lines set !! v = Some l
                ∧ ∀ j lj, j ≠ v → lines set !! j = Some lj →
                          fifo_counter l < fifo_counter lj).
Proof.
  intros Hinit Hrun.
  destruct (run_from_main_tally _ _ _ _ _ _ Hinit Hrun)
    as (kD & HkD & HtD & HtI & Ht2).
  pose proof (run_sim_ok ops st0 st (main_init_sim_ok _ _ _ _ Hinit) Hrun)
    as (HokD & HokI & Hok2).
  split; [destruct HtI as (_ & _ & _ & ? & _); lia|].
  split; [destruct Ht2 as (_ & _ & _ & ? & _); lia|].
  assert (∀ c n k cnt, sets_ok c → tally n k c cnt →
      0 ≤ Cache.fifo_time c ≤ INT_MAX
      ∧ (∀ sj j l, line_at c sj j = Some l → valid l = true →
                   0 ≤ fifo_counter l < Cache.fifo_time c)
      ∧ (∀ sj j l sk k l',
           line_at c sj j = Some l → line_at c sk k = Some l' →
           valid l = true → valid l' = true →
           fifo_counter l = fifo_counter l' → sj = sk ∧ j = k)
      ∧ (∀ a v set,
           lookup_addr c a = Some (Miss v) →
           Cache.sets c !! Z.to_nat (addr_set c a) = Some set →
           all_valid (lines set) →
           ∃ l, lines set !! v = Some l
                ∧ ∀ j lj, j ≠ v → lines set !! j = Some lj →
                          fifo_counter l < fifo_counter lj)) as Hgen.
  { intros c n k cnt Hok ((Hft & Hlt & Hinj) & _ & _ & Hm & Hk & Hmax & _).
    split; [lia|]. split; [done|]. split; [done|].
    intros a v set Hmiss Hset Hall.
    destruct (find_line_Some_resolves c _ _ _ (sets_ok_shape c Hok) Hmiss)
      as (set' & Hset' & Hres & _).
    rewrite Hset in Hset'. injection Hset' as <-.
    destruct Hres as [[[(l & Hl & Hv) _] _]|(_ & _ & l & Hl & Hle & _)].
    { by rewrite (Hall v l Hl) in Hv. }
    exists l. split; [done|]. intros j lj Hj Hlj.
    specialize (Hle j lj Hlj).
    destruct (decide (fifo_counter l = fifo_counter lj)) as [Heq|Hne]; [|lia].
    exfalso. apply Hj.
    assert (line_at c (Z.to_nat (addr_set c a)) v = Some l) as Hlv
      by (unfold line_at; by rewrite Hset).
    assert (line_at c (Z.to_nat (addr_set c a)) j = Some lj) as Hlj'
      by (unfold line_at; by rewrite Hset).
    by destruct (Hinj _ _ _ _ _ _ Hlv Hlj' (Hall v l Hl) (Hall j lj Hlj) Heq). }
  intros c [->|[->| ->]]; eapply Hgen; eauto.
Qed.

Lemma victim_is_first_in_witness :
  ∃ st0 st,
    main_init zeroed p_small ram256 = Some st0
    ∧ run st0 trace_mixed = Some st
    ∧ Cache.fifo_time (L1I st) = miss (L1I_stats st)
    ∧ Cache.fifo_time (L2 st) = miss (L2_stats st)
    ∧ ∀ c, c = L1D st ∨ c = L1I st ∨ c = L2 st →
        0 ≤ Cache.fifo_time c ≤ INT_MAX
        ∧ (∀ sj j l, line_at c sj j = Some l → valid l = true →
                     0 ≤ fifo_counter l < Cache.fifo_time c)
        ∧ (∀ sj j l sk k l',
             line_at c sj j = Some l → line_at c sk k = Some l' →
             valid l = true → valid l' = true →
             fifo_counter l = fifo_counter l' → sj = sk ∧ j = k)
        ∧ (∀ a v set,
             lookup_addr c a = Some (Miss v) →
             Cache.sets c !! Z.to_nat (addr_set c a) = Some set →
             all_valid (lines set) →
             ∃ l, lines set !! v = Some l
                  ∧ ∀ j lj, j ≠ v → lines set !! j = Some lj →
                            fifo_counter l < fifo_counter lj).
Proof.
  do 2 eexists. split; [reflexivity|]. split; [vm_compute; reflexivity|].
  eapply (victim_is_first_in zeroed p_small ram256 trace_mixed);
    [reflexivity|vm_compute; reflexivity].
Defined.

(** ** The routines that keep statistics only *)

Lemma meta_geom c c' :
  meta c = meta c' →
  Cache.s c = Cache.s c' ∧ Cache.b c = Cache.b c'
  ∧ Cache.B c = Cache.B c' ∧ Cache.fifo_time c = Cache.fifo_time c'.
Proof. unfold meta. by intros [= _ -> _ -> _ -> ->]. Qed.

Lemma meta_put_line c c' si i l l' :
  meta c = meta c' → meta_line l = meta_line l' →
  meta (put_line c si i l) = meta (put_line c' si i l').
Proof.
  unfold meta, put_line. cbn [Cache.sets Cache.s Cache.E Cache.b Cache.S
    Cache.B Cache.fifo_time]. intros [= Hsets -> -> -> -> -> ->] Hl.
  f_equal.
  rewrite !(list_fmap_alter (λ set, meta_line <$> lines set) _
              (λ ms, <[i := meta_line l]> ms)).
  - by rewrite Hsets, Hl.
  - apply Forall_forall. intros set _. cbn. by rewrite list_fmap_insert, Hl.
  - apply Forall_forall. intros set _. cbn. by rewrite list_fmap_insert.
Qed.

Lemma meta_with_fifo_time c c' t :
  meta c = meta c' → meta (with_fifo_time c t) = meta (with_fifo_time c' t).
Proof.
  unfold meta, with_fifo_time. cbn [Cache.sets Cache.s Cache.E Cache.b Cache.S
    Cache.B Cache.fifo_time]. by intros [= -> -> -> -> -> -> _].
Qed.

Lemma get_line_meta c c' si i l :
  meta c = meta c' → get_line c si i = Some l →
  ∃ l', get_line c' si i = Some l' ∧ meta_line l' = meta_line l.
Proof.
  unfold meta. intros [= Hsets _ _ _ _ _ _] Hl.
  apply get_line_Some in Hl as (set & Hset & Hl).
  assert ((λ set, meta_line <$> lines set) <$> Cache.sets c' !! Z.to_nat si
          = Some (meta_line <$> lines set)) as Hs'.
  { by rewrite <- list_lookup_fmap, <- Hsets, list_lookup_fmap, Hset. }
  apply fmap_Some in Hs' as (set' & Hset' & Hm).
  assert (meta_line <$> lines set' !! i = Some (meta_line l)) as Hl'.
  { by rewrite <- list_lookup_fmap, <- Hm, list_lookup_fmap, Hl. }
  apply fmap_Some in Hl' as (l' & Hl' & Hml).
  exists l'. split; [|done]. apply get_line_Some. by exists set'.
Qed.

(** Filling a line and claiming it leave the same bookkeeping. *)
Lemma fill_mark_meta c cw si v t fp a c' fp' :
  meta c = meta cw →
  fill_line c si v t fp a = Some (c', fp') →
  ∃ cw', mark_line cw si v t = Some cw' ∧ meta c' = meta cw'.
Proof.
  intros Hm Hfill. apply fill_line_inv in Hfill as (old & blk & Hold & _ & ->).
  destruct (get_line_meta _ _ _ _ _ Hm Hold) as (oldw & Holdw & _).
  unfold mark_line. rewrite Holdw. cbn. eexists. split; [done|].
  destruct (meta_geom _ _ Hm) as (_ & _ & _ & <-).
  by apply meta_with_fifo_time, meta_put_line.
Qed.

Lemma fill_fill_meta c cw si v t fp a c' fp' fpw aw cw' fpw' :
  meta c = meta cw →
  fill_line c si v t fp a = Some (c', fp') →
  fill_line cw si v t fpw aw = Some (cw', fpw') →
  meta c' = meta cw'.
Proof.
  intros Hm Hfill Hfillw.
  apply fill_line_inv in Hfill as (old & blk & _ & _ & ->).
  apply fill_line_inv in Hfillw as (oldw & blkw & _ & _ & ->).
  destruct (meta_geom _ _ Hm) as (_ & _ & _ & <-).
  by apply meta_with_fifo_time, meta_put_line.
Qed.

Lemma mark_line_blocks c si v t c' sj j :
  mark_line c si v t = Some c' →
  block <$> line_at c' sj j = block <$> line_at c sj j.
Proof.
  unfold mark_line. intros Hm. apply bind_Some in Hm as (old & Hold & [= <-]).
  rewrite line_at_with_fifo_time, line_at_put_line. case_decide as Hd; [|done].
  destruct Hd as [-> ->].
  change (get_line c si v) with (line_at c (Z.to_nat si) v) in Hold.
  by rewrite Hold.
Qed.

Lemma access_load_sim L1 L2 L1w L2w a c1 c2 fp res ram
    L1' L2' c1' c2' fp' res' :
  meta L1 = meta L1w → meta L2 = meta L2w →
  access_load L1 L2 a c1 c2 fp res = Some (L1', L2', c1', c2', fp', res') →
  ∃ L1w' L2w',
    access_load_without_ram L1w L2w a c1 c2 ram = Some (L1w', L2w', c1', c2')
    ∧ meta L1' = meta L1w' ∧ meta L2' = meta L2w'
    ∧ (∀ sj j, block <$> line_at L1w' sj j = block <$> line_at L1w sj j)
    ∧ (∀ sj j, block <$> line_at L2w' sj j = block <$> line_at L2w sj j).
Proof.
  intros Hm1 Hm2 Hacc.
  apply access_load_inv in Hacc as (t1 & s1 & o1 & r1 & He1 & Hf1 & Hrest).
  destruct (meta_geom _ _ Hm1) as (Hs1 & Hb1 & _).
  destruct (meta_geom _ _ Hm2) as (Hs2 & Hb2 & _).
  unfold access_load_without_ram. rewrite <- Hs1, <- Hb1, He1.
  rewrite <- (find_line_meta L1 L1w) by done. rewrite Hf1. step_bind.
  destruct r1 as [i|v].
  - destruct Hrest as (Hh & -> & -> & -> & _). rewrite Hh. step_bind.
    by exists L1w, L2w.
  - destruct Hrest as (t2 & s2 & o2 & r2 & c1m & fp2 & res2 & vline
                       & Hm & He2 & Hf2 & Hr2 & Hvl & Hev & Hfill1 & _).
    rewrite Hm. step_bind. rewrite <- Hs2, <- Hb2, He2.
    rewrite <- (find_line_meta L2 L2w) by done. rewrite Hf2. step_bind.
    destruct (get_line_meta _ _ _ _ _ Hm1 Hvl) as (vlinew & Hvlw & Hmv).
    destruct (fill_mark_meta _ _ _ _ _ _ _ _ _ Hm1 Hfill1)
      as (L1w' & Hmark1 & Hm1').
    assert (valid vlinew = valid vline) as Hvv
      by (by injection Hmv as -> _ _).
    assert ((if valid vlinew then incr_evict c1m else Some c1m) = Some c1')
      as Hev'.
    { rewrite Hvv. destruct (valid vline); [done|by subst]. }
    destruct r2 as [k|w].
    + destruct Hr2 as (Hh & -> & _). rewrite Hh. step_bind.
      rewrite Hvlw. step_bind. rewrite Hev'. step_bind. rewrite Hmark1. step_bind.
      exists L1w', L2w. split; [done|]. split; [done|]. split; [done|].
      split; [|done]. intros sj j. by eapply mark_line_blocks.
    + destruct Hr2 as (wline & Hwl & (cm & Hcm & Hev2) & Hfill2 & _).
      rewrite Hcm. step_bind.
      destruct (get_line_meta _ _ _ _ _ Hm2 Hwl) as (wlinew & Hwlw & Hmw).
      destruct (fill_mark_meta _ _ _ _ _ _ _ _ _ Hm2 Hfill2)
        as (L2w' & Hmark2 & Hm2').
      assert (valid wlinew = valid wline) as Hww
        by (by injection Hmw as -> _ _).
      rewrite Hwlw. step_bind. rewrite Hww.
      assert ((if valid wline then incr_evict cm else Some cm) = Some c2')
        as -> by (destruct (valid wline); [done|by subst]).
      step_bind. rewrite Hmark2. step_bind. rewrite Hvlw. step_bind. rewrite Hev'. step_bind.
      rewrite Hmark1. step_bind.
      exists L1w', L2w'. split; [done|]. split; [done|]. split; [done|].
      split; intros sj j; by eapply mark_line_blocks.
Qed.

Lemma cache_logic_access_load L1 L2 a c1 c2 ram :
  CacheLogic.access_load L1 L2 a c1 c2
  = access_load_without_ram L1 L2 a c1 c2 ram.
Proof. done. Qed.

(** X17.  The statistics-only load agrees with the load that [main] calls.
    Whenever [access_load] completes, [access_load_without_ram] (and the
    [access_load] of cache_logic.c, which has the same statements) completes
    on the same caches and statistics, returns the same six statistics and
    leaves the same bookkeeping in both caches: the same valid bits, tags,
    fifo counters and FIFO clocks.  It touches no block. *)
Theorem access_load_without_ram_agrees
    L1 L2 address L1_stats L2_stats ram_fp result ram
    L1' L2' L1_stats' L2_stats' ram_fp' result' :
  access_load L1 L2 address L1_stats L2_stats ram_fp result
    = Some (L1', L2', L1_stats', L2_stats', ram_fp', result') →
  ∃ L1w L2w,
    access_load_without_ram L1 L2 address L1_stats L2_stats ram
      = Some (L1w, L2w, L1_stats', L2_stats')
    ∧ CacheLogic.access_load L1 L2 address L1_stats L2_stats
      = Some (L1w, L2w, L1_stats', L2_stats')
    ∧ meta L1w = meta L1' ∧ meta L2w = meta L2'
    ∧ (∀ sj j, block <$> line_at L1w sj j = block <$> line_at L1 sj j)
    ∧ (∀ sj j, block <$> line_at L2w sj j = block <$> line_at L2 sj j).
Proof.
  intros Hacc.
  destruct (access_load_sim L1 L2 L1 L2 _ _ _ _ _ ram _ _ _ _ _ _
              eq_refl eq_refl Hacc) as (L1w & L2w & Hw & Hm1 & Hm2 & Hb1 & Hb2).
  exists L1w, L2w. split; [done|].
  split; [by rewrite (cache_logic_access_load _ _ _ _ _ ram)|]. done.
Qed.

Lemma access_load_without_ram_agrees_witness :
  ∃ L1' L2' L1_stats' L2_stats' ram_fp' result' L1w L2w,
    access_load L1_small L2_small 16 stats0 stats0 ram64_fp res0
      = Some (L1', L2', L1_stats', L2_stats', ram_fp', result')
    ∧ access_load_without_ram L1_small L2_small 16 stats0 stats0 ram64_fp
      = Some (L1w, L2w, L1_stats', L2_stats')
    ∧ CacheLogic.access_load L1_small L2_small 16 stats0 stats0
      = Some (L1w, L2w, L1_stats', L2_stats')
    ∧ meta L1w = meta L1' ∧ meta L2w = meta L2'
    ∧ (∀ sj j, block <$> line_at L1w sj j = block <$> line_at L1_small sj j)
    ∧ (∀ sj j, block <$> line_at L2w sj j = block <$> line_at L2_small sj j).
Proof.
  do 6 eexists.
  assert (access_load L1_small L2_small 16 stats0 stats0 ram64_fp res0
          = Some (_, _, _, _, _, _)) as Hacc by (vm_compute; reflexivity).
  destruct (access_load_without_ram_agrees L1_small L2_small 16 stats0 stats0
              ram64_fp res0 ram64_fp _ _ _ _ _ _ Hacc)
    as (L1w & L2w & Hrest).
  exists L1w, L2w. split; [exact Hacc|exact Hrest].
Defined.

Lemma store_l2_sim L2 L2w a c2 fp d n res resw L2' c2' fp' res' :
  meta L2 = meta L2w → res_core resw = res_core res →
  store_l2 L2 a c2 fp d n res = Some (L2', c2', fp', res') →
  ∃ L2w' resw',
    store_l2_without_ram L2w a c2 resw = Some (L2w', c2', resw')
    ∧ meta L2' = meta L2w' ∧ res_core resw' = res_core res'.
Proof.
  intros Hm2 Hcore Hs.
  apply store_l2_inv in Hs as (t2 & s2 & o2 & r2 & He2 & Hf2 & Hr2).
  destruct (meta_geom _ _ Hm2) as (Hs2 & Hb2 & _).
  unfold store_l2_without_ram. rewrite <- Hs2, <- Hb2, He2.
  rewrite <- (find_line_meta L2 L2w) by done. rewrite Hf2. step_bind.
  unfold res_core in Hcore. injection Hcore as H1 H2 H3 H4 H5 H6 H7 H8 H9.
  destruct r2 as [k|w].
  - destruct Hr2 as (Hh & Hw & _ & ->). rewrite Hh. step_bind.
    eexists _, _. split; [done|].
    split; [by rewrite (write_line_meta _ _ _ _ _ _ _ Hw)|].
    unfold res_core. cbn. congruence.
  - destruct Hr2 as (vline & L2f & Hvl & (cm & Hcm & Hev) & Hfill & Hw & ->).
    rewrite Hcm. step_bind.
    destruct (get_line_meta _ _ _ _ _ Hm2 Hvl) as (vlinew & Hvlw & Hmv).
    destruct (fill_mark_meta _ _ _ _ _ _ _ _ _ Hm2 Hfill)
      as (L2w' & Hmark & Hm2').
    assert (valid vlinew = valid vline) as Hvv
      by (by injection Hmv as -> _ _).
    rewrite Hvlw. step_bind. rewrite Hvv.
    rewrite (write_line_meta _ _ _ _ _ _ _ Hw).
    destruct (valid vline).
    + rewrite Hev. step_bind. rewrite Hmark. step_bind.
      eexists _, _. split; [done|]. split; [done|].
      unfold res_core. cbn. congruence.
    + subst c2'. step_bind. rewrite Hmark. step_bind.
      eexists _, _. split; [done|]. split; [done|].
      unfold res_core. cbn. congruence.
Qed.

Lemma access_store_sim L1 L2 L1w L2w a c1 c2 fp o res
    L1' L2' c1' c2' fp' res' :
  meta L1 = meta L1w → meta L2 = meta L2w →
  access_store L1 L2 a c1 c2 fp o res = Some (L1', L2', c1', c2', fp', res') →
  ∃ L2w' resw,
    access_store_without_ram L1w L2w a c1 c2 res
      = Some (L1w, L2w', c1', c2', resw)
    ∧ meta L1' = meta L1w ∧ meta L2' = meta L2w'
    ∧ res_core resw = res_core res'.
Proof.
  intros Hm1 Hm2 Hacc. apply access_store_inv in Hacc. cbv zeta in Hacc.
  destruct Hacc as (t1 & s1 & o1 & r1 & He1 & Hf1 & _ & Hrest).
  destruct (meta_geom _ _ Hm1) as (Hs1 & Hb1 & _).
  unfold access_store_without_ram. rewrite <- Hs1, <- Hb1, He1.
  rewrite <- (find_line_meta L1 L1w) by done. rewrite Hf1. step_bind.
  destruct r1 as [i|v].
  - destruct Hrest as (fp1 & res1 & Hh & Hw & Hs2 & _ & ->).
    rewrite Hh. step_bind.
    destruct (store_l2_sim _ _ _ _ _ _ _ _
                (with_l1_hit (with_set_l1 res s1) 1) _ _ _ _ Hm2 eq_refl Hs2)
      as (L2w' & resw' & Hsw & Hm2' & Hcore).
    rewrite Hsw. step_bind. exists L2w', resw'. split; [done|].
    split; [by rewrite (write_line_meta _ _ _ _ _ _ _ Hw)|].
    split; [done|]. by rewrite Hcore.
  - destruct Hrest as (fp1 & Hm & -> & _ & Hs2).
    rewrite Hm. step_bind.
    destruct (store_l2_sim _ _ _ _ _ _ _
                (with_wrote_to_ram (with_l1_miss (with_set_l1 res s1) 1) 1)
                (with_l1_miss (with_set_l1 res s1) 1) _ _ _ _ Hm2 eq_refl Hs2)
      as (L2w' & resw' & Hsw & Hm2' & Hcore).
    rewrite Hsw. step_bind. exists L2w', resw'. split; [done|].
    split; [done|]. split; [done|]. done.
Qed.

(** X18.  The statistics-only store agrees with the store that [main]
    calls.  Whenever [access_store] completes, [access_store_without_ram]
    completes on the same caches and statistics, returns the same six
    statistics, does not touch L1, leaves the same bookkeeping in L2, and
    fills the hit, miss, eviction and set fields of the record alike (it
    does not set placed_in_l2 nor wrote_to_ram). *)
Theorem access_store_without_ram_agrees
    L1 L2 address L1_stats L2_stats ram_fp o result
    L1' L2' L1_stats' L2_stats' ram_fp' result' :
  access_store L1 L2 address L1_stats L2_stats ram_fp o result
    = Some (L1', L2', L1_stats', L2_stats', ram_fp', result') →
  ∃ L2w resw,
    access_store_without_ram L1 L2 address L1_stats L2_stats result
      = Some (L1, L2w, L1_stats', L2_stats', resw)
    ∧ meta L1' = meta L1 ∧ meta L2' = meta L2w
    ∧ l1_hit resw = l1_hit result' ∧ l1_miss resw = l1_miss result'
    ∧ l2_hit resw = l2_hit result' ∧ l2_miss resw = l2_miss result'
    ∧ l2_evict resw = l2_evict result'
    ∧ set_l1 resw = set_l1 result' ∧ set_l2 resw = set_l2 result'.
Proof.
  intros Hacc.
  destruct (access_store_sim L1 L2 L1 L2 _ _ _ _ _ _ _ _ _ _ _ _
              eq_refl eq_refl Hacc) as (L2w & resw & Hw & Hm1 & Hm2 & Hcore).
  exists L2w, resw. split; [done|]. split; [done|]. split; [done|].
  unfold res_core in Hcore. injection Hcore as H1 H2 H3 H4 H5 H6 H7 H8 H9.
  done.
Qed.

Lemma access_store_without_ram_agrees_witness :
  ∃ L1' L2' L1_stats' L2_stats' ram_fp' result' L2w resw,
    access_store L1_small L2_small 18 stats0 stats0 ram64_fp o_store res0
      = Some (L1', L2', L1_stats', L2_stats', ram_fp', result')
    ∧ access_store_without_ram L1_small L2_small 18 stats0 stats0 res0
      = Some (L1_small, L2w, L1_stats', L2_stats', resw)
    ∧ meta L1' = meta L1_small ∧ meta L2' = meta L2w
    ∧ l1_hit resw = l1_hit result' ∧ l1_miss resw = l1_miss result'
    ∧ l2_hit resw = l2_hit result' ∧ l2_miss resw = l2_miss result'
    ∧ l2_evict resw = l2_evict result'
    ∧ set_l1 resw = set_l1 result' ∧ set_l2 resw = set_l2 result'.
Proof.
  do 6 eexists.
  assert (access_store L1_small L2_small 18 stats0 stats0 ram64_fp o_store
            res0 = Some (_, _, _, _, _, _)) as Hacc
    by (vm_compute; reflexivity).
  destruct (access_store_without_ram_agrees L1_small L2_small 18 stats0 stats0
              ram64_fp o_store res0 _ _ _ _ _ _ Hacc)
    as (L2w & resw & Hrest).
  exists L2w, resw. split; [exact Hacc|exact Hrest].
Defined.

(** ** Statistics are a matter of addresses *)

Lemma get_line_meta_eq c c' si i l l' :
  meta c = meta c' → get_line c si i = Some l → get_line c' si i = Some l' →
  valid l' = valid l.
Proof.
  intros Hm Hl Hl'. destruct (get_line_meta _ _ _ _ _ Hm Hl) as (l0 & Hl0 & Hml).
  rewrite Hl' in Hl0. injection Hl0 as <-. by injection Hml as -> _ _.
Qed.

Lemma l2_miss_stats_det c c' c'' e :
  l2_miss_stats c c' e → l2_miss_stats c c'' e → c' = c''.
Proof.
  intros (cm & Hm & He) (cm' & Hm' & He'). rewrite Hm in Hm'.
  injection Hm' as <-. destruct e; congruence.
Qed.

Lemma parts_meta c c' a t si off t' si' off' :
  meta c = meta c' →
  extract_address_parts a (Cache.s c) (Cache.b c) = (t, si, off) →
  extract_address_parts a (Cache.s c') (Cache.b c') = (t', si', off') →
  t' = t ∧ si' = si ∧ off' = off.
Proof.
  intros Hm He He'. destruct (meta_geom _ _ Hm) as (Hs & Hb & _).
  rewrite <- Hs, <- Hb, He in He'. by injection He' as -> -> ->.
Qed.

Lemma access_load_det L1 L2 L1b L2b a c1 c2 fp fpb res
    L1' L2' c1' c2' fp' res' L1b' L2b' c1b' c2b' fpb' resb' :
  meta L1 = meta L1b → meta L2 = meta L2b →
  access_load L1 L2 a c1 c2 fp res = Some (L1', L2', c1', c2', fp', res') →
  access_load L1b L2b a c1 c2 fpb res
    = Some (L1b', L2b', c1b', c2b', fpb', resb') →
  meta L1' = meta L1b' ∧ meta L2' = meta L2b' ∧ c1' = c1b' ∧ c2' = c2b'
  ∧ res' = resb'.
Proof.
  intros Hm1 Hm2 HA HB.
  apply access_load_inv in HA as (t1 & s1 & o1 & r1 & He1 & Hf1 & HA).
  apply access_load_inv in HB as (t1b & s1b & o1b & r1b & He1b & Hf1b & HB).
  destruct (parts_meta _ _ _ _ _ _ _ _ _ Hm1 He1 He1b) as (-> & -> & ->).
  rewrite <- (find_line_meta L1 L1b) in Hf1b by done.
  rewrite Hf1 in Hf1b. injection Hf1b as <-.
  destruct r1 as [i|v].
  - destruct HA as (Hh & -> & -> & -> & _ & ->).
    destruct HB as (Hhb & -> & -> & -> & _ & ->).
    rewrite Hh in Hhb. injection Hhb as <-. done.
  - destruct HA as (t2 & s2 & o2 & r2 & c1m & fp2 & res2 & vline
                    & Hm & He2 & Hf2 & Hr2 & Hvl & Hev & Hfill1 & ->).
    destruct HB as (t2b & s2b & o2b & r2b & c1mb & fp2b & res2b & vlineb
                    & Hmb & He2b & Hf2b & Hr2b & Hvlb & Hevb & Hfill1b & ->).
    rewrite Hm in Hmb. injection Hmb as <-.
    destruct (parts_meta _ _ _ _ _ _ _ _ _ Hm2 He2 He2b) as (-> & -> & ->).
    rewrite <- (find_line_meta L2 L2b) in Hf2b by done.
    rewrite Hf2 in Hf2b. injection Hf2b as <-.
    rewrite (get_line_meta_eq _ _ _ _ _ _ Hm1 Hvl Hvlb) in Hevb.
    assert (c1' = c1b') as <-
      by (destruct (valid vline); congruence).
    pose proof (fill_fill_meta _ _ _ _ _ _ _ _ _ _ _ _ _ Hm1 Hfill1 Hfill1b)
      as Hm1'.
    destruct r2 as [k|w].
    + destruct Hr2 as (Hh & -> & _ & ->).
      destruct Hr2b as (Hhb & -> & _ & ->).
      rewrite Hh in Hhb. injection Hhb as <-. done.
    + destruct Hr2 as (wline & Hwl & Hst & Hfill2 & ->).
      destruct Hr2b as (wlineb & Hwlb & Hstb & Hfill2b & ->).
      rewrite (get_line_meta_eq _ _ _ _ _ _ Hm2 Hwl Hwlb) in Hstb |- *.
      rewrite (l2_miss_stats_det _ _ _ _ Hst Hstb).
      pose proof (fill_fill_meta _ _ _ _ _ _ _ _ _ _ _ _ _ Hm2 Hfill2 Hfill2b).
      done.
Qed.

Lemma store_l2_det L2 L2b a c2 fp fpb d db n nb res
    L2' c2' fp' res' L2b' c2b' fpb' resb' :
  meta L2 = meta L2b →
  store_l2 L2 a c2 fp d n res = Some (L2', c2', fp', res') →
  store_l2 L2b a c2 fpb db nb res = Some (L2b', c2b', fpb', resb') →
  meta L2' = meta L2b' ∧ c2' = c2b' ∧ res' = resb'.
Proof.
  intros Hm2 HA HB.
  apply store_l2_inv in HA as (t2 & s2 & o2 & r2 & He2 & Hf2 & HA).
  apply store_l2_inv in HB as (t2b & s2b & o2b & r2b & He2b & Hf2b & HB).
  destruct (parts_meta _ _ _ _ _ _ _ _ _ Hm2 He2 He2b) as (-> & -> & ->).
  rewrite <- (find_line_meta L2 L2b) in Hf2b by done.
  rewrite Hf2 in Hf2b. injection Hf2b as <-.
  destruct r2 as [k|w].
  - destruct HA as (Hh & Hw & _ & ->). destruct HB as (Hhb & Hwb & _ & ->).
    rewrite Hh in Hhb. injection Hhb as <-.
    rewrite (write_line_meta _ _ _ _ _ _ _ Hw).
    rewrite (write_line_meta _ _ _ _ _ _ _ Hwb). done.
  - destruct HA as (vline & L2f & Hvl & Hst & Hfill & Hw & ->).
    destruct HB as (vlineb & L2fb & Hvlb & Hstb & Hfillb & Hwb & ->).
    rewrite (get_line_meta_eq _ _ _ _ _ _ Hm2 Hvl Hvlb) in Hstb |- *.
    rewrite (l2_miss_stats_det _ _ _ _ Hst Hstb).
    rewrite (write_line_meta _ _ _ _ _ _ _ Hw).
    rewrite (write_line_meta _ _ _ _ _ _ _ Hwb).
    pose proof (fill_fill_meta _ _ _ _ _ _ _ _ _ _ _ _ _ Hm2 Hfill Hfillb).
    done.
Qed.

Lemma access_store_det L1 L2 L1b L2b a c1 c2 fp fpb o ob res
    L1' L2' c1' c2' fp' res' L1b' L2b' c1b' c2b' fpb' resb' :
  meta L1 = meta L1b → meta L2 = meta L2b →
  access_store L1 L2 a c1 c2 fp o res = Some (L1', L2', c1', c2', fp', res') →
  access_store L1b L2b a c1 c2 fpb ob res
    = Some (L1b', L2b', c1b', c2b', fpb', resb') →
  meta L1' = meta L1b' ∧ meta L2' = meta L2b' ∧ c1' = c1b' ∧ c2' = c2b'
  ∧ res' = resb'.
Proof.
  intros Hm1 Hm2 HA HB.
  apply access_store_inv in HA. cbv zeta in HA.
  destruct HA as (t1 & s1 & o1 & r1 & He1 & Hf1 & _ & HA).
  apply access_store_inv in HB. cbv zeta in HB.
  destruct HB as (t1b & s1b & o1b & r1b & He1b & Hf1b & _ & HB).
  destruct (parts_meta _ _ _ _ _ _ _ _ _ Hm1 He1 He1b) as (-> & -> & ->).
  rewrite <- (find_line_meta L1 L1b) in Hf1b by done.
  rewrite Hf1 in Hf1b. injection Hf1b as <-.
  destruct r1 as [i|v].
  - destruct HA as (fp1 & res1 & Hh & Hw & Hs2 & _ & ->).
    destruct HB as (fp1b & res1b & Hhb & Hwb & Hs2b & _ & ->).
    rewrite Hh in Hhb. injection Hhb as <-.
    rewrite (write_line_meta _ _ _ _ _ _ _ Hw).
    rewrite (write_line_meta _ _ _ _ _ _ _ Hwb).
    destruct (store_l2_det _ _ _ _ _ _ _ _ _ _ _ _ _ _ _ _ _ _ _ Hm2 Hs2 Hs2b)
      as (? & ? & ->).
    done.
  - destruct HA as (fp1 & Hm & -> & _ & Hs2).
    destruct HB as (fp1b & Hmb & -> & _ & Hs2b).
    rewrite Hm in Hmb. injection Hmb as <-.
    destruct (store_l2_det _ _ _ _ _ _ _ _ _ _ _ _ _ _ _ _ _ _ _ Hm2 Hs2 Hs2b)
      as (? & ? & ->).
    done.
Qed.

Lemma step_det st stb o ob st' lr sr stb' lrb srb :
  same_books st stb → same_access o ob →
  step st o = Some (st', lr, sr) → step stb ob = Some (stb', lrb, srb) →
  same_books st' stb' ∧ lr = lrb ∧ sr = srb.
Proof.
  intros (HmD & HmI & Hm2 & HcD & HcI & Hc2) [Hop Haddr] HA HB.
  apply step_inv in HA. apply step_inv in HB.
  rewrite <- Hop, <- Haddr, <- HcD, <- HcI, <- Hc2 in HB.
  destruct (op o).
  - destruct HA as (l1 & l2 & c1 & c2 & fp & HA & -> & ->).
    destruct HB as (l1b & l2b & c1b & c2b & fpb & HB & -> & ->).
    destruct (access_load_det _ _ _ _ _ _ _ _ _ _ _ _ _ _ _ _ _ _ _ _ _ _
                HmD Hm2 HA HB) as (? & ? & ? & ? & ?).
    by repeat split.
  - destruct HA as (l1 & l2 & c1 & c2 & fp & HA & -> & ->).
    destruct HB as (l1b & l2b & c1b & c2b & fpb & HB & -> & ->).
    destruct (access_store_det _ _ _ _ _ _ _ _ _ _ _ _ _ _ _ _ _ _ _ _ _ _ _ _
                HmD Hm2 HA HB) as (? & ? & ? & ? & ?).
    by repeat split.
  - destruct HA as (l1 & l2 & c1 & c2 & fp & HA & ->).
    destruct HB as (l1b & l2b & c1b & c2b & fpb & HB & ->).
    apply access_modify_inv in HA as (m1 & m2 & d1 & d2 & mfp & HAl & HAs).
    apply access_modify_inv in HB as (m1b & m2b & d1b & d2b & mfpb & HBl & HBs).
    destruct (access_load_det _ _ _ _ _ _ _ _ _ _ _ _ _ _ _ _ _ _ _ _ _ _
                HmD Hm2 HAl HBl) as (Hm1' & Hm2' & <- & <- & ?).
    destruct (access_store_det _ _ _ _ _ _ _ _ _ _ _ _ _ _ _ _ _ _ _ _ _ _ _ _
                Hm1' Hm2' HAs HBs) as (? & ? & ? & ? & ?).
    by repeat split.
  - destruct HA as (l1 & l2 & c1 & c2 & fp & HA & -> & ->).
    destruct HB as (l1b & l2b & c1b & c2b & fpb & HB & -> & ->).
    destruct (access_load_det _ _ _ _ _ _ _ _ _ _ _ _ _ _ _ _ _ _ _ _ _ _
                HmI Hm2 HA HB) as (? & ? & ? & ? & ?).
    by repeat split.
Qed.

Lemma run_det ops : ∀ opsb st stb st' stb',
  same_books st stb → Forall2 same_access ops opsb →
  run st ops = Some st' → run stb opsb = Some stb' →
  same_books st' stb' ∧ run_log st ops = run_log stb opsb.
Proof.
  induction ops as [|o ops IH]; intros opsb st stb st' stb' Hb Hops HA HB.
  - apply Forall2_nil_inv_l in Hops as ->. cbn in HA, HB.
    injection HA as <-. injection HB as <-. done.
  - apply Forall2_cons_inv_l in Hops as (ob & opsb' & Hsame & Hops & ->).
    cbn [run] in HA, HB.
    apply bind_Some in HA as ([[st1 lr] sr] & HsA & HA).
    apply bind_Some in HB as ([[st1b lrb] srb] & HsB & HB).
    destruct (step_det _ _ _ _ _ _ _ _ _ _ Hb Hsame HsA HsB)
      as (Hb1 & <- & <-).
    destruct (IH _ _ _ _ _ Hb1 Hops HA HB) as [Hb' Hlog].
    split; [done|]. cbn [run_log]. rewrite HsA, HsB. step_bind.
    by rewrite Hlog.
Qed.

Lemma create_cache_meta junk junk' s E b :
  meta (create_cache_with junk s E b) = meta (create_cache_with junk' s E b).
Proof.
  unfold meta, create_cache_with. cbn [Cache.sets Cache.s Cache.E Cache.b
    Cache.S Cache.B Cache.fifo_time]. f_equal.
  rewrite <- !list_fmap_compose. apply list_fmap_ext. intros i si _.
  cbn [compose lines]. by rewrite <- !list_fmap_compose.
Qed.

(** X19.  The statistics depend on the kinds and addresses of the operations
    only.  Two runs of [main] with the same cache parameters, on traces
    whose operations agree in kind and address, end with the same nine
    statistics, the same valid bits, tags, fifo counters and FIFO clocks in
    the three caches, and produce the same per-operation records, whatever
    RAM.dat holds, whatever [malloc] left in the blocks, and whatever the
    size and data fields of the operations are, as long as both runs
    complete. *)
Theorem statistics_depend_on_addresses
    junk junk' p ram ram' ops ops' st0 st0' st st' :
  main_init junk p ram = Some st0 →
  main_init junk' p ram' = Some st0' →
  Forall2 same_access ops ops' →
  run st0 ops = Some st →
  run st0' ops' = Some st' →
  L1D_stats st = L1D_stats st' ∧ L1I_stats st = L1I_stats st'
  ∧ L2_stats st = L2_stats st'
  ∧ meta (L1D st) = meta (L1D st') ∧ meta (L1I st) = meta (L1I st')
  ∧ meta (L2 st) = meta (L2 st')
  ∧ run_log st0 ops = run_log st0' ops'.
Proof.
  intros Hinit Hinit' Hops Hrun Hrun'.
  assert (same_books st0 st0') as Hb0.
  { unfold main_init in Hinit, Hinit'.
    destruct (params_rejected p); [done|].
    injection Hinit as <-. injection Hinit' as <-.
    unfold same_books. cbn [L1D L1I L2 L1D_stats L1I_stats L2_stats].
    split; [apply create_cache_meta|]. split; [apply create_cache_meta|].
    split; [apply create_cache_meta|]. done. }
  destruct (run_det _ _ _ _ _ _ Hb0 Hops Hrun Hrun')
    as ((HmD & HmI & Hm2 & HcD & HcI & Hc2) & Hlog).
  done.
Qed.

Lemma statistics_depend_on_addresses_witness :
  ∃ st0 st0' st st',
    main_init zeroed p_small ram256 = Some st0
    ∧ main_init junk_ramp p_small ram64 = Some st0'
    ∧ Forall2 same_access trace_mixed trace_mixed_other
    ∧ run st0 trace_mixed = Some st
    ∧ run st0' trace_mixed_other = Some st'
    ∧ L1D_stats st = L1D_stats st' ∧ L1I_stats st = L1I_stats st'
    ∧ L2_stats st = L2_stats st'
    ∧ meta (L1D st) = meta (L1D st') ∧ meta (L1I st) = meta (L1I st')
    ∧ meta (L2 st) = meta (L2 st')
    ∧ run_log st0 trace_mixed = run_log st0' trace_mixed_other.
Proof.
  assert (Forall2 same_access trace_mixed trace_mixed_other) as Hops
    by (repeat constructor).
  do 4 eexists. split; [reflexivity|]. split; [reflexivity|].
  split; [exact Hops|].
  split; [vm_compute; reflexivity|]. split; [vm_compute; reflexivity|].
  eapply (statistics_depend_on_addresses zeroed junk_ramp p_small ram256 ram64
            trace_mixed trace_mixed_other);
    [reflexivity|reflexivity|exact Hops
    |vm_compute; reflexivity|vm_compute; reflexivity].
Defined.

(** ** What the log says *)

Lemma access_load_record L1 L2 a c1 c2 fp L1' L2' c1' c2' fp' res' :
  access_load L1 L2 a c1 c2 fp res0 = Some (L1', L2', c1', c2', fp', res') →
  ∃ r1, lookup_addr L1 a = Some r1
    ∧ match r1 with
      | Hit _ =>
          L1' = L1 ∧ L2' = L2
          ∧ truthy (l1_hit res') = true
          ∧ truthy (l2_hit res') = false ∧ truthy (l2_miss res') = false
          ∧ truthy (placed_in_l1 res') = false
          ∧ truthy (placed_in_l2 res') = false
      | Miss _ =>
          ∃ r2, lookup_addr L2 a = Some r2
            ∧ truthy (l1_hit res') = false ∧ truthy (l1_miss res') = true
            ∧ truthy (placed_in_l1 res') = true
            ∧ match r2 with
              | Hit _ => truthy (l2_hit res') = true
              | Miss _ => truthy (l2_hit res') = false
                          ∧ truthy (l2_miss res') = true
              end
      end.
Proof.
  intros Hacc.
  apply access_load_inv in Hacc as (t1 & s1 & o1 & r1 & He1 & Hf1 & Hrest).
  destruct (lookup_addr_of_parts _ _ _ _ _ _ He1 Hf1) as (Hl1 & -> & ->).
  exists r1. split; [done|]. destruct r1 as [i|v].
  - by destruct Hrest as (_ & -> & -> & _ & _ & ->).
  - destruct Hrest as (t2 & s2 & o2 & r2 & c1m & fp2 & res2 & vline
                       & _ & He2 & Hf2 & Hr2 & _ & _ & _ & ->).
    destruct (lookup_addr_of_parts _ _ _ _ _ _ He2 Hf2) as (Hl2 & -> & ->).
    exists r2. split; [done|]. destruct r2 as [k|w].
    + by destruct Hr2 as (_ & _ & _ & ->).
    + destruct Hr2 as (wline & _ & _ & _ & ->). by destruct (valid wline).
Qed.

Lemma access_store_record L1 L2 a c1 c2 fp o L1' L2' c1' c2' fp' res' :
  access_store L1 L2 a c1 c2 fp o res0
    = Some (L1', L2', c1', c2', fp', res') →
  ∃ r1 r2, lookup_addr L1 a = Some r1 ∧ lookup_addr L2 a = Some r2
    ∧ truthy (wrote_to_ram res') = true
    ∧ match r1 with
      | Hit _ => truthy (l1_hit res') = true
      | Miss _ => truthy (l1_hit res') = false ∧ truthy (l1_miss res') = true
      end
    ∧ match r2 with
      | Hit _ => truthy (l2_hit res') = true
      | Miss _ => truthy (l2_hit res') = false ∧ truthy (l2_miss res') = true
      end.
Proof.
  intros Hacc. apply access_store_inv in Hacc. cbv zeta in Hacc.
  destruct Hacc as (t1 & s1 & o1 & r1 & He1 & Hf1 & _ & Hrest).
  destruct (lookup_addr_of_parts _ _ _ _ _ _ He1 Hf1) as (Hl1 & -> & ->).
  exists r1.
  assert (∀ fp res L2' c2' fp' res1,
            store_l2 L2 a c2 fp (decode_pairs (data o))
              (num_bytes_of (data o)) res = Some (L2', c2', fp', res1) →
            ∃ r2, lookup_addr L2 a = Some r2
              ∧ wrote_to_ram res1 = wrote_to_ram res
              ∧ l1_hit res1 = l1_hit res ∧ l1_miss res1 = l1_miss res
              ∧ match r2 with
                | Hit _ => truthy (l2_hit res1) = true
                | Miss _ => l2_hit res1 = l2_hit res
                            ∧ truthy (l2_miss res1) = true
                end) as Hl2.
  { clear. intros fp res L2' c2' fp' res1 Hs.
    apply store_l2_inv in Hs as (t2 & s2 & o2 & r2 & He2 & Hf2 & Hr2).
    destruct (lookup_addr_of_parts _ _ _ _ _ _ He2 Hf2) as (Hl2 & -> & ->).
    exists r2. split; [done|]. destruct r2 as [k|w].
    - by destruct Hr2 as (_ & _ & _ & ->).
    - destruct Hr2 as (vline & L2f & _ & _ & _ & _ & ->).
      by destruct (valid vline). }
  destruct r1 as [i|v].
  - destruct Hrest as (fp1 & res1 & _ & _ & Hs2 & _ & ->).
    destruct (Hl2 _ _ _ _ _ _ Hs2) as (r2 & Hr2 & Hw & Hh & Hm & Hm2).
    exists r2. split; [done|]. split; [done|]. split; [done|].
    cbn in *. split; [by rewrite Hh|].
    destruct r2; [done|]. destruct Hm2 as [-> ?]. done.
  - destruct Hrest as (fp1 & _ & _ & _ & Hs2).
    destruct (Hl2 _ _ _ _ _ _ Hs2) as (r2 & Hr2 & Hw & Hh & Hm & Hm2).
    exists r2. split; [done|]. split; [done|]. cbn in *.
    split; [by rewrite Hw|]. split; [by rewrite Hh, Hm|].
    destruct r2; [done|]. destruct Hm2 as [-> ?]. done.
Qed.

(** X20.  The three strings that [main] logs for an operation are a
    function of the two lookups made before it.  A load (LOAD or INST) logs
    the L1 result alone on an L1 hit; on an L1 miss it logs the L2 result
    and "Place in L1D" (or "Place in L1I"): "Place in L2" is never logged,
    even when L2 was filled.  A STORE logs "Store in L1D, L2, RAM" when both
    lookups hit, "Store in L2, RAM" when only L2 hits, and "Store in RAM"
    whenever L2 misses, also when L1 hit and both caches were written.  A
    MODIFY logs the results of its load and the action of its store, which
    is never "Store in L2, RAM" because the load has placed the block in
    L1. *)
Theorem log_strings_table junk p ram ops st0 st o st' load_res store_res :
  main_init junk p ram = Some st0 →
  run st0 ops = Some st →
  step st o = Some (st', load_res, store_res) →
  ∃ r1, lookup_addr (l1_of (op o) st) (address o) = Some r1
    ∧ match op o, r1 with
      | LOAD, Hit _ =>
          log_strings o load_res store_res = ("L1D hit", "", "")%string
      | INST, Hit _ =>
          log_strings o load_res store_res = ("L1I hit", "", "")%string
      | LOAD, Miss _ =>
          ∃ r2, lookup_addr (L2 st) (address o) = Some r2
            ∧ log_strings o load_res store_res
              = ("L1D miss",
                 match r2 with Hit _ => "L2 hit" | Miss _ => "L2 miss" end,
                 "Place in L1D")%string
      | INST, Miss _ =>
          ∃ r2, lookup_addr (L2 st) (address o) = Some r2
            ∧ log_strings o load_res store_res
              = ("L1I miss",
                 match r2 with Hit _ => "L2 hit" | Miss _ => "L2 miss" end,
                 "Place in L1I")%string
      | STORE, _ =>
          ∃ r2, lookup_addr (L2 st) (address o) = Some r2
            ∧ log_strings o load_res store_res
              = (match r1 with Hit _ => "L1D hit" | Miss _ => "L1D miss" end,
                 match r2 with Hit _ => "L2 hit" | Miss _ => "L2 miss" end,
                 match r1, r2 with
                 | Hit _, Hit _ => "Store in L1D, L2, RAM"
                 | Miss _, Hit _ => "Store in L2, RAM"
                 | _, Miss _ => "Store in RAM"
                 end)%string
      | MODIFY, Hit _ =>
          ∃ r2, lookup_addr (L2 st) (address o) = Some r2
            ∧ log_strings o load_res store_res
              = ("L1D hit", "",
                 match r2 with
                 | Hit _ => "Store in L1D, L2, RAM"
                 | Miss _ => "Store in RAM"
                 end)%string
      | MODIFY, Miss _ =>
          ∃ r2, lookup_addr (L2 st) (address o) = Some r2
            ∧ log_strings o load_res store_res
              = ("L1D miss",
                 match r2 with Hit _ => "L2 hit" | Miss _ => "L2 miss" end,
                 "Store in L1D, L2, RAM")%string
      end.
Proof.
  intros Hinit Hrun Hst.
  pose proof (run_sim_ok ops st0 st (main_init_sim_ok _ _ _ _ Hinit) Hrun)
    as (HokD & HokI & Hok2).
  apply step_inv in Hst. unfold log_strings.
  destruct (op o) eqn:Hop; cbn [l1_of].
  - destruct Hst as (l1 & l2 & c1 & c2 & fp & Hacc & _ & ->).
    apply access_load_record in Hacc as (r1 & Hr1 & Hrec).
    exists r1. split; [done|]. destruct r1 as [i|v].
    + destruct Hrec as (_ & _ & -> & -> & -> & -> & ->). done.
    + destruct Hrec as (r2 & Hr2 & -> & -> & -> & Hrec2).
      exists r2. split; [done|].
      destruct r2; [by rewrite Hrec2|]. by destruct Hrec2 as [-> ->].
  - destruct Hst as (l1 & l2 & c1 & c2 & fp & Hacc & _ & ->).
    apply access_store_record in Hacc as (r1 & r2 & Hr1 & Hr2 & -> & H1 & H2).
    exists r1. split; [done|]. exists r2. split; [done|].
    destruct r1, r2; repeat match goal with
      | H : _ ∧ _ |- _ => destruct H as [-> ->]
      | H : truthy _ = _ |- _ => rewrite H
      end; done.
  - destruct Hst as (l1 & l2 & c1 & c2 & fp & Hacc & _).
    apply access_modify_inv in Hacc
      as (l1' & l2' & c1' & c2' & fp' & Hld & Hstore).
    pose proof (access_load_then_lookup _ _ _ _ _ _ _ _ _ _ _ _ _
                  (sets_ok_shape _ HokD) (sets_ok_shape _ Hok2) Hld)
      as [[k1 Hk1] HL2].
    apply access_load_record in Hld as (r1 & Hr1 & Hrec).
    apply access_store_record in Hstore
      as (q1 & q2 & Hq1 & Hq2 & -> & H1 & H2).
    rewrite Hk1 in Hq1. injection Hq1 as <-. rewrite H1. cbn [andb].
    exists r1. split; [done|]. destruct r1 as [i|v].
    + destruct Hrec as (-> & -> & -> & -> & -> & _).
      exists q2. split; [done|].
      destruct q2; [by rewrite H2|]. by destruct H2 as [-> _].
    + destruct Hrec as (r2 & Hr2 & -> & -> & _ & Hrec2).
      exists r2. split; [done|].
      destruct (HL2 v Hr1) as [k2 Hk2]. rewrite Hk2 in Hq2.
      injection Hq2 as <-. rewrite H2.
      destruct r2; [by rewrite Hrec2|]. by destruct Hrec2 as [-> ->].
  - destruct Hst as (l1 & l2 & c1 & c2 & fp & Hacc & _ & ->).
    apply access_load_record in Hacc as (r1 & Hr1 & Hrec).
    exists r1. split; [done|]. destruct r1 as [i|v].
    + destruct Hrec as (_ & _ & -> & -> & -> & -> & ->). done.
    + destruct Hrec as (r2 & Hr2 & -> & -> & -> & Hrec2).
      exists r2. split; [done|].
      destruct r2; [by rewrite Hrec2|]. by destruct Hrec2 as [-> ->].
Qed.

Lemma log_strings_table_witness :
  ∃ st0 st st' load_res store_res,
    main_init zeroed p_small ram256 = Some st0
    ∧ run st0 trace_mixed = Some st
    ∧ step st o_store = Some (st', load_res, store_res)
    ∧ ∃ r1, lookup_addr (L1D st) 18 = Some r1
        ∧ ∃ r2, lookup_addr (L2 st) 18 = Some r2
            ∧ log_strings o_store load_res store_res
              = (match r1 with Hit _ => "L1D hit" | Miss _ => "L1D miss" end,
                 match r2 with Hit _ => "L2 hit" | Miss _ => "L2 miss" end,
                 match r1, r2 with
                 | Hit _, Hit _ => "Store in L1D, L2, RAM"
                 | Miss _, Hit _ => "Store in L2, RAM"
                 | _, Miss _ => "Store in RAM"
                 end)%string.
Proof.
  do 5 eexists. split; [reflexivity|]. split; [vm_compute; reflexivity|].
  split; [vm_compute; reflexivity|].
  eapply (log_strings_table zeroed p_small ram256 trace_mixed _ _ o_store);
    [reflexivity|vm_compute; reflexivity|vm_compute; reflexivity].
Defined.

(** ** The dump *)

(** The loop over the bytes of a block reads them in order. *)
Lemma mapM_lookup_seq {A B} (f : A → B) (l : list A) n : ∀ i,
  (i + n ≤ length l)%nat →
  mapM (λ k, f <$> l !! k) (seq i n) = Some (f <$> take n (drop i l)).
Proof.
  induction n as [|n IH]; intros i Hi; [done|].
  cbn [seq mapM].
  destruct (lookup_lt_is_Some_2 l i ltac:(lia)) as [x Hx].
  rewrite Hx. cbn. rewrite IH by lia. cbn.
  by rewrite (drop_S l x i Hx).
Qed.

(** ** Runs that stay inside every buffer *)

Lemma step_same_geom st o st' lr sr :
  step st o = Some (st', lr, sr) →
  same_geom (L1D st) (L1D st') ∧ same_geom (L1I st) (L1I st')
  ∧ same_geom (L2 st) (L2 st').
Proof.
  intros Hst. apply step_inv in Hst. destruct (op o).
  - destruct Hst as (l1 & l2 & c1 & c2 & fp & Hacc & -> & _).
    destruct (access_load_geom _ _ _ _ _ _ _ _ _ _ _ _ _ Hacc).
    split; [done|]. split; [apply same_geom_refl|done].
  - destruct Hst as (l1 & l2 & c1 & c2 & fp & Hacc & -> & _).
    destruct (access_store_geom _ _ _ _ _ _ _ _ _ _ _ _ _ _ Hacc).
    split; [done|]. split; [apply same_geom_refl|done].
  - destruct Hst as (l1 & l2 & c1 & c2 & fp & Hacc & ->).
    apply access_modify_inv in Hacc
      as (l1' & l2' & c1' & c2' & fp' & Hld & Hstore).
    destruct (access_load_geom _ _ _ _ _ _ _ _ _ _ _ _ _ Hld).
    destruct (access_store_geom _ _ _ _ _ _ _ _ _ _ _ _ _ _ Hstore).
    split; [by eapply same_geom_trans|].
    split; [apply same_geom_refl|by eapply same_geom_trans].
  - destruct Hst as (l1 & l2 & c1 & c2 & fp & Hacc & -> & _).
    destruct (access_load_geom _ _ _ _ _ _ _ _ _ _ _ _ _ Hacc).
    split; [apply same_geom_refl|]. done.
Qed.

Lemma run_same_geom ops : ∀ st st',
  run st ops = Some st' →
  same_geom (L1D st) (L1D st') ∧ same_geom (L1I st) (L1I st')
  ∧ same_geom (L2 st) (L2 st').
Proof.
  induction ops as [|o ops IH]; intros st st' Hrun.
  - injection Hrun as <-. repeat split.
  - cbn [run] in Hrun. apply bind_Some in Hrun as ([[st1 lr] sr] & Hst & Hrun).
    destruct (step_same_geom _ _ _ _ _ Hst) as (H1 & H2 & H3).
    destruct (IH _ _ Hrun) as (H1' & H2' & H3').
    split; [by eapply same_geom_trans|].
    split; by eapply same_geom_trans.
Qed.

Lemma run_ready ops : ∀ k B1 B2 st,
  sim_ready k B1 B2 st → 2 * Z.of_nat (length ops) ≤ k →
  Forall (op_fits B1 B2) ops →
  ∃ st', run st ops = Some st' ∧ sim_wf st'.
Proof.
  induction ops as [|o ops IH]; intros k B1 B2 st Hr Hk Hops; cbn [run].
  - exists st. split; [done|]. by destruct Hr.
  - apply Forall_cons in Hops as [Ho Hops]. cbn [length] in Hk.
    destruct (step_defined k B1 B2 st o Hr ltac:(lia) Ho)
      as (st1 & lr & sr & -> & Hr1).
    step_bind. apply (IH (k - 2) B1 B2 st1 Hr1); [lia|done].
Qed.

Lemma run_log_defined ops : ∀ st st',
  run st ops = Some st' →
  ∃ log, run_log st ops = Some log ∧ length log = length ops.
Proof.
  induction ops as [|o ops IH]; intros st st' Hrun; cbn [run run_log] in *.
  - by exists [].
  - apply bind_Some in Hrun as ([[st1 lr] sr] & Hst & Hrun).
    rewrite Hst. step_bind. destruct (IH _ _ Hrun) as (log & -> & Hlen).
    step_bind. eexists. split; [done|]. cbn [length]. by rewrite Hlen.
Qed.

Lemma print_cache_defined c :
  cache_wf c → Z.to_nat (Cache.S c) = length (Cache.sets c) →
  ∃ text, print_cache_to_file c = Some text.
Proof.
  intros (Hg & Hbl & Hok & HE & Hlen) HS. unfold print_cache_to_file.
  assert (is_Some (mapM (print_set c) (seq 0 (Z.to_nat (Cache.S c)))))
    as [sets ->]; [|by eexists].
  apply mapM_is_Some, Forall_forall. intros i Hi.
  apply elem_of_seq in Hi. cbn [compose]. unfold print_set.
  destruct (lookup_lt_is_Some_2 (Cache.sets c) i ltac:(lia)) as [set Hset].
  rewrite Hset. step_bind.
  assert (is_Some (mapM (λ j, line ← lines set !! j; print_line c j line)
                        (seq 0 (Z.to_nat (Cache.E c)))))
    as [ls ->]; [|by eexists].
  apply mapM_is_Some, Forall_forall. intros j Hj.
  apply elem_of_seq in Hj. cbn [compose].
  destruct (Hok _ _ Hset) as (Hlines & _).
  destruct (lookup_lt_is_Some_2 (lines set) j ltac:(lia)) as [line Hline].
  rewrite Hline. step_bind. unfold print_line.
  destruct (valid line); [|by eexists]. unfold print_block.
  rewrite (mapM_lookup_seq fmt_02x (block line)); [by eexists|].
  rewrite (Hbl _ _ _ _ Hset Hline). lia.
Qed.

(** X22.  [main] stays inside every array and buffer from the first
    operation to the last dump.  For a geometry with s + b < 32 and at least
    one line per set in both levels, and a trace of fewer than 2^30
    operations whose stores carry at most 32 bytes that stay inside the L1
    and the L2 block of their address, with L1 blocks of at most 64 bytes:
    the replay completes on any RAM image, every operation yields its
    record, no statistic overflows, and the three dumps of
    [print_cache_to_file] are written. *)
Theorem replay_and_dumps_complete junk p ram ops st0 :
  main_init junk p ram = Some st0 →
  L1s p + L1b p < 32 → L2s p + L2b p < 32 → 1 ≤ L1E p → 1 ≤ L2E p →
  Forall (op_fits (2 ^ L1b p) (2 ^ L2b p)) ops →
  2 * Z.of_nat (length ops) ≤ INT_MAX →
  ∃ st log d1 di d2,
    run st0 ops = Some st
    ∧ run_log st0 ops = Some log ∧ length log = length ops
    ∧ print_cache_to_file (L1D st) = Some d1
    ∧ print_cache_to_file (L1I st) = Some di
    ∧ print_cache_to_file (L2 st) = Some d2.
Proof.
  intros Hinit H1 H2 HE1 HE2 Hops Hlen. unfold main_init in Hinit.
  destruct (params_rejected p) eqn:Hp; [done|]. injection Hinit as <-.
  apply params_accepted_nonneg in Hp as (? & ? & ? & ?).
  destruct (run_ready ops INT_MAX (2 ^ L1b p) (2 ^ L2b p)
              (mkSim (create_cache_with (junk 0%nat) (L1s p) (L1E p) (L1b p))
                     (create_cache_with (junk 1%nat) (L1s p) (L1E p) (L1b p))
                     (create_cache_with (junk 2%nat) (L2s p) (L2E p) (L2b p))
                     (mkCnt 0 0 0) (mkCnt 0 0 0) (mkCnt 0 0 0)
                     (mkFILE ram 0 0)))
    as (st & Hrun & HwD & HwI & Hw2); [|done|done|].
  { apply sim_ready_intro; try (by apply create_cache_wf);
      try (repeat split; cbn; lia);
      cbn [create_cache_with Cache.B]; apply shiftl_1_wrap; lia. }
  destruct (run_log_defined _ _ _ Hrun) as (log & Hlog & Hll).
  destruct (run_same_geom _ _ _ Hrun) as (HgD & HgI & Hg2).
  cbn [L1D L1I L2] in HgD, HgI, Hg2.
  assert (∀ c j s E b, same_geom (create_cache_with j s E b) c →
            0 ≤ s < 32 → cache_wf c →
            Z.to_nat (Cache.S c) = length (Cache.sets c)) as HS.
  { intros c j s E b (Hs & _ & _ & HS & _) Hs32 (_ & _ & _ & _ & Hl).
    rewrite Hl, HS, Hs. cbn [create_cache_with Cache.S Cache.s].
    by rewrite shiftl_1_wrap. }
  destruct (print_cache_defined _ HwD (HS _ _ _ _ _ HgD ltac:(lia) HwD))
    as [d1 Hd1].
  destruct (print_cache_defined _ HwI (HS _ _ _ _ _ HgI ltac:(lia) HwI))
    as [di Hdi].
  destruct (print_cache_defined _ Hw2 (HS _ _ _ _ _ Hg2 ltac:(lia) Hw2))
    as [d2 Hd2].
  by exists st, log, d1, di, d2.
Qed.

Lemma replay_and_dumps_complete_witness :
  ∃ st0 st log d1 di d2,
    main_init zeroed p_small ram256 = Some st0
    ∧ Forall (op_fits (2 ^ L1b p_small) (2 ^ L2b p_small)) trace_mixed
    ∧ run st0 trace_mixed = Some st
    ∧ run_log st0 trace_mixed = Some log ∧ length log = length trace_mixed
    ∧ print_cache_to_file (L1D st) = Some d1
    ∧ print_cache_to_file (L1I st) = Some di
    ∧ print_cache_to_file (L2 st) = Some d2.
Proof.
  assert (Forall (op_fits (2 ^ L1b p_small) (2 ^ L2b p_small)) trace_mixed)
    as Hops.
  { repeat constructor; vm_compute; try (intros [?|?]); try discriminate;
      repeat split; try discriminate; lia. }
  eexists.
  destruct (replay_and_dumps_complete zeroed p_small ram256 trace_mixed _
              eq_refl ltac:(vm_compute; reflexivity)
              ltac:(vm_compute; reflexivity) ltac:(vm_compute; discriminate)
              ltac:(vm_compute; discriminate) Hops
              ltac:(vm_compute; discriminate))
    as (st & log & d1 & di & d2 & Hrest).
  exists st, log, d1, di, d2. split; [reflexivity|]. split; [exact Hops|].
  exact Hrest.
Defined.

(** ** The two halves of a MODIFY *)

Lemma access_load_counts L1 L2 a c1 c2 fp res L1' L2' c1' c2' fp' res' :
  access_load L1 L2 a c1 c2 fp res = Some (L1', L2', c1', c2', fp', res') →
  hit c1' + miss c1' = hit c1 + miss c1 + 1
  ∧ hit c1 ≤ hit c1' ∧ miss c1 ≤ miss c1' ≤ miss c1 + 1.
Proof.
  intros Hacc.
  apply access_load_inv in Hacc as (t1 & s1 & o1 & r1 & _ & _ & Hrest).
  destruct r1 as [i|v].
  - destruct Hrest as (Hh & _). apply incr_hit_Some in Hh as ->. cbn. lia.
  - destruct Hrest as (t2 & s2 & o2 & r2 & c1m & fp2 & res2 & vline
                       & Hm & _ & _ & _ & _ & Hev & _).
    apply incr_miss_Some in Hm as ->.
    destruct (valid vline); [apply incr_evict_Some in Hev as ->|subst];
      cbn; lia.
Qed.

(** X23.  The store half of a MODIFY always hits L1.  Whatever the caches
    hold, the load half leaves the block in L1, so the store half counts an
    L1 hit: a MODIFY adds two to the L1D accesses, at most one of them a
    miss, and when its load half missed L1 its store half hits L2 as
    well. *)
Theorem modify_store_hits_L1
    L1 L2 address L1_stats L2_stats ram_fp o load_res0 store_res0
    L1'' L2'' L1_stats'' L2_stats'' ram_fp'' load_res store_res :
  shape L1 → shape L2 →
  access_modify L1 L2 address L1_stats L2_stats ram_fp o load_res0 store_res0
    = Some (L1'', L2'', L1_stats'', L2_stats'', ram_fp'', load_res,
            store_res) →
  l1_hit store_res = 1 ∧ l1_miss store_res = 0
  ∧ hit L1_stats'' + miss L1_stats''
    = hit L1_stats + miss L1_stats + 2
  ∧ hit L1_stats + 1 ≤ hit L1_stats''
  ∧ miss L1_stats'' ≤ miss L1_stats + 1
  ∧ (l1_miss load_res = 1 → l2_hit store_res = 1 ∧ l2_miss store_res = 0).
Proof.
  intros Hsh1 Hsh2 Hmod.
  apply access_modify_inv in Hmod
    as (L1' & L2' & c1' & c2' & fp' & Hld & Hst).
  destruct (access_load_then_lookup _ _ _ _ _ _ _ _ _ _ _ _ _ Hsh1 Hsh2 Hld)
    as [[k Hk] HL2].
  destruct (access_load_counts _ _ _ _ _ _ _ _ _ _ _ _ _ Hld) as (Hsum & Hh & Hm).
  assert (l1_miss load_res = 1 → ∃ v, lookup_addr L1 address = Some (Miss v))
    as Hmissed.
  { intros Hlm.
    apply access_load_inv in Hld as (t1 & s1 & o1 & r1 & He1 & Hf1 & Hrest).
    destruct (lookup_addr_of_parts _ _ _ _ _ _ He1 Hf1) as (Hl1 & _).
    destruct r1 as [i|v]; [|by exists v].
    destruct Hrest as (_ & _ & _ & _ & _ & ->). done. }
  apply access_store_inv in Hst. cbv zeta in Hst.
  destruct Hst as (t1 & s1 & o1 & r1 & He1 & Hf1 & _ & Hrest).
  destruct (lookup_addr_of_parts _ _ _ _ _ _ He1 Hf1) as (Hl1 & -> & ->).
  rewrite Hk in Hl1. injection Hl1 as <-.
  destruct Hrest as (fp1 & res1 & Hhit & _ & Hs2 & _ & ->).
  apply incr_hit_Some in Hhit as ->.
  destruct (store_l2_frame _ _ _ _ _ _ _ _ _ _ _ Hs2)
    as (_ & _ & _ & Hr1 & Hr2 & _).
  cbn [l1_hit l1_miss with_wrote_to_ram hit miss].
  split; [by rewrite Hr1|]. split; [by rewrite Hr2|].
  split; [lia|]. split; [lia|]. split; [lia|].
  intros Hlm. destruct (Hmissed Hlm) as [v Hv].
  destruct (HL2 v Hv) as [k2 Hk2].
  apply store_l2_inv in Hs2 as (t2 & s2 & o2 & r2 & He2 & Hf2 & Hr).
  destruct (lookup_addr_of_parts _ _ _ _ _ _ He2 Hf2) as (Hl2 & _).
  rewrite Hk2 in Hl2. injection Hl2 as <-.
  destruct Hr as (_ & _ & _ & ->). done.
Qed.

Lemma modify_store_hits_L1_witness :
  ∃ L1'' L2'' L1_stats'' L2_stats'' ram_fp'' load_res store_res,
    access_modify L1_small L2_small 32 stats0 stats0 ram64_fp o_modify
      res0 res0
      = Some (L1'', L2'', L1_stats'', L2_stats'', ram_fp'', load_res,
              store_res)
    ∧ l1_hit store_res = 1 ∧ l1_miss store_res = 0
    ∧ hit L1_stats'' + miss L1_stats'' = hit stats0 + miss stats0 + 2
    ∧ hit stats0 + 1 ≤ hit L1_stats''
    ∧ miss L1_stats'' ≤ miss stats0 + 1
    ∧ (l1_miss load_res = 1 → l2_hit store_res = 1 ∧ l2_miss store_res = 0).
Proof.
  do 7 eexists. split; [vm_compute; reflexivity|].
  eapply (modify_store_hits_L1 L1_small L2_small 32 stats0 stats0 ram64_fp
            o_modify res0 res0);
    [apply sets_ok_shape, create_cache_sets_ok
    |apply sets_ok_shape, create_cache_sets_ok
    |vm_compute; reflexivity].
Defined.

(** ** Stores that pass the end of a block *)

Lemma write_line_past_end c si i a d n :
  geom_ok c → blocks_ok c → 0 ≤ a < 2 ^ 32 →
  Cache.B c < offset_in_block a (Cache.B c) + Z.of_nat n →
  write_line c si i (Z.land a (wrap32 (Cache.B c - 1))) d n = None.
Proof.
  intros Hg Hbl Ha Hpast.
  destruct (write_line c si i _ d n) as [c'|] eqn:Hw; [|done]. exfalso.
  pose proof (write_line_range _ _ _ _ _ _ _ Hg Hbl Ha Hw).
  rewrite offset_in_block_eq in Hpast by done. lia.
Qed.

(** X24.  The block buffers of the lines are written without a bounds
    check.  A STORE whose bytes pass the end of the L2 block of its address
    copies them past the end of the block buffer of the L2 line, whatever
    the lookups give; one whose bytes pass the end of the L1 block does so
    in L1 whenever it hits L1. *)
Theorem store_past_block_end
    L1 L2 address L1_stats L2_stats ram_fp o result :
  0 ≤ address < 2 ^ 32 →
  geom_ok L1 → blocks_ok L1 → geom_ok L2 → blocks_ok L2 →
  (Cache.B L2 < offset_in_block address (Cache.B L2)
                + Z.of_nat (num_bytes_of (data o)) →
   access_store L1 L2 address L1_stats L2_stats ram_fp o result = None)
  ∧ (Cache.B L1 < offset_in_block address (Cache.B L1)
                  + Z.of_nat (num_bytes_of (data o)) →
     ∀ i, lookup_addr L1 address = Some (Hit i) →
          access_store L1 L2 address L1_stats L2_stats ram_fp o result = None).
Proof.
  intros Ha Hg1 Hbl1 Hg Hbl. split.
  - intros Hpast.
    destruct (access_store L1 L2 address L1_stats L2_stats ram_fp o result)
      as [[[[[[L1' L2'] c1'] c2'] fp'] res']|] eqn:Hacc; [|done]. exfalso.
    apply access_store_inv in Hacc. cbv zeta in Hacc.
    destruct Hacc as (t1 & s1 & o1 & r1 & _ & _ & _ & Hrest).
    assert (∀ fq resq cq L2q cq' fq' resq',
              store_l2 L2 address cq fq (decode_pairs (data o))
                (num_bytes_of (data o)) resq = Some (L2q, cq', fq', resq') →
              False) as Hno.
    { clear Hrest. intros fq resq cq L2q cq' fq' resq' Hs.
      apply store_l2_inv in Hs as (t2 & s2 & o2 & r2 & _ & _ & Hr2).
      destruct r2 as [k|w].
      - destruct Hr2 as (_ & Hw & _).
        by rewrite write_line_past_end in Hw.
      - destruct Hr2 as (vline & L2f & _ & _ & Hfill & Hw & _).
        pose proof (fill_line_geom _ _ _ _ _ _ _ _ Hfill) as Hsame.
        pose proof (geom_ok_same _ _ Hg Hsame) as Hgf.
        pose proof (fill_line_blocks_ok _ _ _ _ _ _ _ _ Hbl Hfill) as Hbf.
        destruct Hsame as (_ & _ & _ & _ & HB). rewrite <- HB in Hw, Hpast.
        by rewrite write_line_past_end in Hw. }
    destruct r1 as [i|v].
    + destruct Hrest as (fp1 & res1 & _ & _ & Hs2 & _). by eapply Hno.
    + destruct Hrest as (fp1 & _ & _ & _ & Hs2). by eapply Hno.
  - intros Hpast i Hhit.
    destruct (access_store L1 L2 address L1_stats L2_stats ram_fp o result)
      as [[[[[[L1' L2'] c1'] c2'] fp'] res']|] eqn:Hacc; [|done]. exfalso.
    apply access_store_inv in Hacc. cbv zeta in Hacc.
    destruct Hacc as (t1 & s1 & o1 & r1 & He1 & Hf1 & _ & Hrest).
    destruct (lookup_addr_of_parts _ _ _ _ _ _ He1 Hf1) as (Hl1 & _).
    rewrite Hhit in Hl1. injection Hl1 as <-.
    destruct Hrest as (fp1 & res1 & _ & Hw & _).
    by rewrite write_line_past_end in Hw.
Qed.

Lemma store_past_block_end_witness :
  (Cache.B L2_tiny < offset_in_block 18 (Cache.B L2_tiny)
                     + Z.of_nat (num_bytes_of (data o_store)) →
   access_store L1_small L2_tiny 18 stats0 stats0 ram64_fp o_store res0 = None)
  ∧ (Cache.B L1_small < offset_in_block 18 (Cache.B L1_small)
                        + Z.of_nat (num_bytes_of (data o_store)) →
     ∀ i, lookup_addr L1_small 18 = Some (Hit i) →
          access_store L1_small L2_tiny 18 stats0 stats0 ram64_fp o_store res0
          = None).
Proof.
  apply (store_past_block_end L1_small L2_tiny 18 stats0 stats0 ram64_fp
           o_store res0);
    [lia
    |apply (create_cache_coh (uniform 0) 1 2 4 []); lia
    |apply (create_cache_coh (uniform 0) 1 2 4 []); lia
    |apply (create_cache_coh (uniform 0) 2 2 0 []); lia
    |apply (create_cache_coh (uniform 0) 2 2 0 []); lia].
Defined.

(** Both cases occur: S 12, 2, aabb with 1-byte L2 blocks, and
    S 1c, 8, f1f2f3f4f5f6f7f8 on the 16-byte L1 block that L 10, 1 has
    brought in, with 64-byte L2 blocks. *)
Example store_past_block_end_cases :
  (Cache.B L2_tiny < offset_in_block 18 (Cache.B L2_tiny)
                     + Z.of_nat (num_bytes_of (data o_store))
   ∧ access_store L1_small L2_tiny 18 stats0 stats0 ram64_fp o_store res0
     = None)
  ∧ (Cache.B L1_loaded < offset_in_block 28 (Cache.B L1_loaded)
                         + Z.of_nat (num_bytes_of (data o_cross28))
     ∧ offset_in_block 28 (Cache.B L2_64)
       + Z.of_nat (num_bytes_of (data o_cross28)) ≤ Cache.B L2_64
     ∧ lookup_addr L1_loaded 28 = Some (Hit 0%nat)
     ∧ access_store L1_loaded L2_64 28 stats0 stats0 ram64_fp o_cross28 res0
       = None).
Proof. repeat split; by vm_compute. Qed.

(** ** Lines are never invalidated *)

Lemma keeps_valid_refl c : keeps_valid c c.
Proof. intros sj j l Hl Hv. by exists l. Qed.

Lemma keeps_valid_trans c1 c2 c3 :
  keeps_valid c1 c2 → keeps_valid c2 c3 → keeps_valid c1 c3.
Proof.
  intros H12 H23 sj j l Hl Hv. destruct (H12 _ _ _ Hl Hv) as (l' & Hl' & Hv').
  by apply (H23 _ _ l').
Qed.

Lemma fill_line_keeps_valid c si v t fp a c' fp' :
  fill_line c si v t fp a = Some (c', fp') → keeps_valid c c'.
Proof.
  intros Hfill sj j l Hl Hv.
  apply fill_line_at in Hfill as (old & blk & Hold & _ & Hnew & Hfr).
  destruct (decide ((sj, j) = (Z.to_nat si, v))) as [[= -> ->]|Hne].
  - eexists. by split.
  - exists l. by rewrite Hfr.
Qed.

Lemma write_line_keeps_valid c si i off d n c' :
  write_line c si i off d n = Some c' → keeps_valid c c'.
Proof.
  intros Hw sj j l Hl Hv.
  apply write_line_at in Hw as (old & Hold & _ & _ & Hnew & Hfr).
  destruct (decide ((sj, j) = (Z.to_nat si, i))) as [[= -> ->]|Hne].
  - rewrite Hold in Hl. injection Hl as ->. eexists. by split.
  - exists l. by rewrite Hfr.
Qed.

Lemma store_l2_keeps_valid L2 a c2 fp d n res L2' c2' fp' res' :
  store_l2 L2 a c2 fp d n res = Some (L2', c2', fp', res') →
  keeps_valid L2 L2'.
Proof.
  intros Hs. apply store_l2_inv in Hs as (t2 & s2 & o2 & r2 & _ & _ & Hr2).
  destruct r2 as [k|w].
  - destruct Hr2 as (_ & Hw & _). by eapply write_line_keeps_valid.
  - destruct Hr2 as (vline & L2f & _ & _ & Hfill & Hw & _).
    eapply keeps_valid_trans; [by eapply fill_line_keeps_valid|].
    by eapply write_line_keeps_valid.
Qed.

Lemma access_load_keeps_valid L1 L2 a c1 c2 fp res L1' L2' c1' c2' fp' res' :
  access_load L1 L2 a c1 c2 fp res = Some (L1', L2', c1', c2', fp', res') →
  keeps_valid L1 L1' ∧ keeps_valid L2 L2'.
Proof.
  intros Hacc.
  apply access_load_inv in Hacc as (t1 & s1 & o1 & r1 & _ & _ & Hrest).
  destruct r1 as [i|v].
  - destruct Hrest as (_ & -> & -> & _). split; apply keeps_valid_refl.
  - destruct Hrest as (t2 & s2 & o2 & r2 & c1m & fp2 & res2 & vline
                       & _ & _ & _ & Hr2 & _ & _ & Hfill1 & _).
    split; [by eapply fill_line_keeps_valid|].
    destruct r2 as [k|w].
    + destruct Hr2 as (_ & -> & _). apply keeps_valid_refl.
    + destruct Hr2 as (wline & _ & _ & Hfill2 & _).
      by eapply fill_line_keeps_valid.
Qed.

Lemma access_store_keeps_valid
    L1 L2 a c1 c2 fp o res L1' L2' c1' c2' fp' res' :
  access_store L1 L2 a c1 c2 fp o res = Some (L1', L2', c1', c2', fp', res') →
  keeps_valid L1 L1' ∧ keeps_valid L2 L2'.
Proof.
  intros Hacc. apply access_store_inv in Hacc. cbv zeta in Hacc.
  destruct Hacc as (t1 & s1 & o1 & r1 & _ & _ & _ & Hrest).
  destruct r1 as [i|v].
  - destruct Hrest as (fp1 & res1 & _ & Hw & Hs2 & _).
    split; [by eapply write_line_keeps_valid|by eapply store_l2_keeps_valid].
  - destruct Hrest as (fp1 & _ & -> & _ & Hs2).
    split; [apply keeps_valid_refl|by eapply store_l2_keeps_valid].
Qed.

Lemma step_keeps_valid st o st' lr sr :
  step st o = Some (st', lr, sr) →
  keeps_valid (L1D st) (L1D st') ∧ keeps_valid (L1I st) (L1I st')
  ∧ keeps_valid (L2 st) (L2 st').
Proof.
  intros Hst. apply step_inv in Hst. destruct (op o).
  - destruct Hst as (l1 & l2 & c1 & c2 & fp & Hacc & -> & _).
    destruct (access_load_keeps_valid _ _ _ _ _ _ _ _ _ _ _ _ _ Hacc).
    split; [done|]. split; [apply keeps_valid_refl|done].
  - destruct Hst as (l1 & l2 & c1 & c2 & fp & Hacc & -> & _).
    destruct (access_store_keeps_valid _ _ _ _ _ _ _ _ _ _ _ _ _ _ Hacc).
    split; [done|]. split; [apply keeps_valid_refl|done].
  - destruct Hst as (l1 & l2 & c1 & c2 & fp & Hacc & ->).
    apply access_modify_inv in Hacc
      as (l1' & l2' & c1' & c2' & fp' & Hld & Hstore).
    destruct (access_load_keeps_valid _ _ _ _ _ _ _ _ _ _ _ _ _ Hld).
    destruct (access_store_keeps_valid _ _ _ _ _ _ _ _ _ _ _ _ _ _ Hstore).
    split; [by eapply keeps_valid_trans|].
    split; [apply keeps_valid_refl|by eapply keeps_valid_trans].
  - destruct Hst as (l1 & l2 & c1 & c2 & fp & Hacc & -> & _).
    destruct (access_load_keeps_valid _ _ _ _ _ _ _ _ _ _ _ _ _ Hacc).
    split; [apply keeps_valid_refl|]. done.
Qed.

(** X25.  The simulator never invalidates a line.  Over any sequence of
    operations that the loop completes, a line of L1D, L1I or L2 that is
    valid stays valid (its tag and block may be replaced), so the number of
    valid lines of a cache never decreases. *)
Theorem lines_stay_valid ops : ∀ st st',
  run st ops = Some st' →
  keeps_valid (L1D st) (L1D st') ∧ keeps_valid (L1I st) (L1I st')
  ∧ keeps_valid (L2 st) (L2 st').
Proof.
  induction ops as [|o ops IH]; intros st st' Hrun.
  - injection Hrun as <-. repeat split; apply keeps_valid_refl.
  - cbn [run] in Hrun. apply bind_Some in Hrun as ([[st1 lr] sr] & Hst & Hrun).
    destruct (step_keeps_valid _ _ _ _ _ Hst) as (H1 & H2 & H3).
    destruct (IH _ _ Hrun) as (H1' & H2' & H3').
    split; [by eapply keeps_valid_trans|].
    split; by eapply keeps_valid_trans.
Qed.

Lemma lines_stay_valid_witness :
  ∃ st' l,
    run st_warm trace_evict = Some st'
    ∧ line_at (L1D st_warm) 1 0 = Some l ∧ valid l = true ∧ tag l = 0
    ∧ (keeps_valid (L1D st_warm) (L1D st')
       ∧ keeps_valid (L1I st_warm) (L1I st')
       ∧ keeps_valid (L2 st_warm) (L2 st'))
    ∧ ∃ l', line_at (L1D st') 1 0 = Some l' ∧ valid l' = true ∧ tag l' = 2.
Proof.
  do 2 eexists. split; [vm_compute; reflexivity|].
  split; [vm_compute; reflexivity|]. split; [reflexivity|].
  split; [reflexivity|].
  split.
  - eapply (lines_stay_valid trace_evict st_warm). vm_compute. reflexivity.
  - eexists. split; [vm_compute; reflexivity|]. split; reflexivity.
Defined.

(** ** The two L1 caches do not see each other *)

Lemma access_load_L1_det L1 L2 L1b L2b a c1 c2 c2b fp fpb res resb
    L1' L2' c1' c2' fp' res' L1b' L2b' c1b' c2b' fpb' resb' :
  meta L1 = meta L1b →
  access_load L1 L2 a c1 c2 fp res = Some (L1', L2', c1', c2', fp', res') →
  access_load L1b L2b a c1 c2b fpb resb
    = Some (L1b', L2b', c1b', c2b', fpb', resb') →
  meta L1' = meta L1b' ∧ c1' = c1b'.
Proof.
  intros Hm1 HA HB.
  apply access_load_inv in HA as (t1 & s1 & o1 & r1 & He1 & Hf1 & HA).
  apply access_load_inv in HB as (t1b & s1b & o1b & r1b & He1b & Hf1b & HB).
  destruct (parts_meta _ _ _ _ _ _ _ _ _ Hm1 He1 He1b) as (-> & -> & ->).
  rewrite <- (find_line_meta L1 L1b) in Hf1b by done.
  rewrite Hf1 in Hf1b. injection Hf1b as <-.
  destruct r1 as [i|v].
  - destruct HA as (Hh & -> & _). destruct HB as (Hhb & -> & _).
    rewrite Hh in Hhb. injection Hhb as <-. done.
  - destruct HA as (t2 & s2 & o2 & r2 & c1m & fp2 & res2 & vline
                    & Hm & _ & _ & _ & Hvl & Hev & Hfill1 & _).
    destruct HB as (t2b & s2b & o2b & r2b & c1mb & fp2b & res2b & vlineb
                    & Hmb & _ & _ & _ & Hvlb & Hevb & Hfill1b & _).
    rewrite Hm in Hmb. injection Hmb as <-.
    rewrite (get_line_meta_eq _ _ _ _ _ _ Hm1 Hvl Hvlb) in Hevb.
    split; [by eapply fill_fill_meta|].
    destruct (valid vline); congruence.
Qed.

Lemma access_store_L1_det L1 L2 L1b L2b a c1 c2 c2b fp fpb o ob res resb
    L1' L2' c1' c2' fp' res' L1b' L2b' c1b' c2b' fpb' resb' :
  meta L1 = meta L1b →
  access_store L1 L2 a c1 c2 fp o res = Some (L1', L2', c1', c2', fp', res') →
  access_store L1b L2b a c1 c2b fpb ob resb
    = Some (L1b', L2b', c1b', c2b', fpb', resb') →
  meta L1' = meta L1b' ∧ c1' = c1b'.
Proof.
  intros Hm1 HA HB.
  apply access_store_inv in HA. cbv zeta in HA.
  destruct HA as (t1 & s1 & o1 & r1 & He1 & Hf1 & _ & HA).
  apply access_store_inv in HB. cbv zeta in HB.
  destruct HB as (t1b & s1b & o1b & r1b & He1b & Hf1b & _ & HB).
  destruct (parts_meta _ _ _ _ _ _ _ _ _ Hm1 He1 He1b) as (-> & -> & ->).
  rewrite <- (find_line_meta L1 L1b) in Hf1b by done.
  rewrite Hf1 in Hf1b. injection Hf1b as <-.
  destruct r1 as [i|v].
  - destruct HA as (fp1 & res1 & Hh & Hw & _).
    destruct HB as (fp1b & res1b & Hhb & Hwb & _).
    rewrite Hh in Hhb. injection Hhb as <-.
    rewrite (write_line_meta _ _ _ _ _ _ _ Hw).
    by rewrite (write_line_meta _ _ _ _ _ _ _ Hwb).
  - destruct HA as (fp1 & Hm & -> & _). destruct HB as (fp1b & Hmb & -> & _).
    rewrite Hm in Hmb. by injection Hmb as <-.
Qed.

Lemma step_L1D_det st stb o ob st' lr sr stb' lrb srb :
  meta (L1D st) = meta (L1D stb) → L1D_stats st = L1D_stats stb →
  same_access o ob →
  step st o = Some (st', lr, sr) → step stb ob = Some (stb', lrb, srb) →
  meta (L1D st') = meta (L1D stb') ∧ L1D_stats st' = L1D_stats stb'.
Proof.
  intros Hm Hc [Hop Haddr] HA HB.
  apply step_inv in HA. apply step_inv in HB.
  rewrite <- Hop, <- Haddr, <- Hc in HB. destruct (op o).
  - destruct HA as (l1 & l2 & c1 & c2 & fp & HA & -> & _).
    destruct HB as (l1b & l2b & c1b & c2b & fpb & HB & -> & _).
    exact (access_load_L1_det _ _ _ _ _ _ _ _ _ _ _ _ _ _ _ _ _ _ _ _ _ _ _ _
             Hm HA HB).
  - destruct HA as (l1 & l2 & c1 & c2 & fp & HA & -> & _).
    destruct HB as (l1b & l2b & c1b & c2b & fpb & HB & -> & _).
    exact (access_store_L1_det _ _ _ _ _ _ _ _ _ _ _ _ _ _ _ _ _ _ _ _ _ _ _ _
             _ _ Hm HA HB).
  - destruct HA as (l1 & l2 & c1 & c2 & fp & HA & ->).
    destruct HB as (l1b & l2b & c1b & c2b & fpb & HB & ->).
    apply access_modify_inv in HA as (m1 & m2 & d1 & d2 & mfp & HAl & HAs).
    apply access_modify_inv in HB as (m1b & m2b & d1b & d2b & mfpb & HBl & HBs).
    destruct (access_load_L1_det _ _ _ _ _ _ _ _ _ _ _ _ _ _ _ _ _ _ _ _ _ _
                _ _ Hm HAl HBl) as (Hm' & <-).
    exact (access_store_L1_det _ _ _ _ _ _ _ _ _ _ _ _ _ _ _ _ _ _ _ _ _ _ _ _
             _ _ Hm' HAs HBs).
  - destruct HA as (l1 & l2 & c1 & c2 & fp & HA & -> & _).
    destruct HB as (l1b & l2b & c1b & c2b & fpb & HB & -> & _). done.
Qed.

Lemma step_L1I_det st stb o ob st' lr sr stb' lrb srb :
  meta (L1I st) = meta (L1I stb) → L1I_stats st = L1I_stats stb →
  same_access o ob →
  step st o = Some (st', lr, sr) → step stb ob = Some (stb', lrb, srb) →
  meta (L1I st') = meta (L1I stb') ∧ L1I_stats st' = L1I_stats stb'.
Proof.
  intros Hm Hc [Hop Haddr] HA HB.
  apply step_inv in HA. apply step_inv in HB.
  rewrite <- Hop, <- Haddr, <- Hc in HB. destruct (op o).
  - destruct HA as (l1 & l2 & c1 & c2 & fp & HA & -> & _).
    destruct HB as (l1b & l2b & c1b & c2b & fpb & HB & -> & _). done.
  - destruct HA as (l1 & l2 & c1 & c2 & fp & HA & -> & _).
    destruct HB as (l1b & l2b & c1b & c2b & fpb & HB & -> & _). done.
  - destruct HA as (l1 & l2 & c1 & c2 & fp & HA & ->).
    destruct HB as (l1b & l2b & c1b & c2b & fpb & HB & ->). done.
  - destruct HA as (l1 & l2 & c1 & c2 & fp & HA & -> & _).
    destruct HB as (l1b & l2b & c1b & c2b & fpb & HB & -> & _).
    exact (access_load_L1_det _ _ _ _ _ _ _ _ _ _ _ _ _ _ _ _ _ _ _ _ _ _ _ _
             Hm HA HB).
Qed.

Lemma step_keeps_L1D st o st' lr sr :
  op o = INST → step st o = Some (st', lr, sr) →
  L1D st' = L1D st ∧ L1D_stats st' = L1D_stats st.
Proof.
  intros Hop Hst. apply step_inv in Hst. rewrite Hop in Hst.
  by destruct Hst as (l1 & l2 & c1 & c2 & fp & _ & -> & _).
Qed.

Lemma step_keeps_L1I st o st' lr sr :
  op o ≠ INST → step st o = Some (st', lr, sr) →
  L1I st' = L1I st ∧ L1I_stats st' = L1I_stats st.
Proof.
  intros Hop Hst. apply step_inv in Hst. destruct (op o); [| | |done].
  - by destruct Hst as (l1 & l2 & c1 & c2 & fp & _ & -> & _).
  - by destruct Hst as (l1 & l2 & c1 & c2 & fp & _ & -> & _).
  - by destruct Hst as (l1 & l2 & c1 & c2 & fp & _ & ->).
Qed.

Lemma same_access_refl o : same_access o o.
Proof. done. Qed.

Lemma run_L1D_det ops : ∀ st stb st' stb',
  meta (L1D st) = meta (L1D stb) → L1D_stats st = L1D_stats stb →
  run st ops = Some st' →
  run stb (filter (λ o, op o ≠ INST) ops) = Some stb' →
  meta (L1D st') = meta (L1D stb') ∧ L1D_stats st' = L1D_stats stb'.
Proof.
  induction ops as [|o ops IH]; intros st stb st' stb' Hm Hc HA HB.
  - cbn in HA, HB. injection HA as <-. by injection HB as <-.
  - cbn [run] in HA. apply bind_Some in HA as ([[st1 lr] sr] & HsA & HA).
    rewrite filter_cons in HB. case_decide as Hop.
    + cbn [run] in HB. apply bind_Some in HB as ([[st1b lrb] srb] & HsB & HB).
      destruct (step_L1D_det _ _ _ _ _ _ _ _ _ _ Hm Hc (same_access_refl o)
                  HsA HsB) as [Hm1 Hc1].
      exact (IH _ _ _ _ Hm1 Hc1 HA HB).
    + assert (op o = INST) as Hinst by (by destruct (op o); try done;
                                         exfalso; apply Hop).
      destruct (step_keeps_L1D _ _ _ _ _ Hinst HsA) as [HL Hs].
      apply (IH st1 stb _ _); [by rewrite HL|by rewrite Hs|done|done].
Qed.

Lemma run_L1I_det ops : ∀ st stb st' stb',
  meta (L1I st) = meta (L1I stb) → L1I_stats st = L1I_stats stb →
  run st ops = Some st' →
  run stb (filter (λ o, op o = INST) ops) = Some stb' →
  meta (L1I st') = meta (L1I stb') ∧ L1I_stats st' = L1I_stats stb'.
Proof.
  induction ops as [|o ops IH]; intros st stb st' stb' Hm Hc HA HB.
  - cbn in HA, HB. injection HA as <-. by injection HB as <-.
  - cbn [run] in HA. apply bind_Some in HA as ([[st1 lr] sr] & HsA & HA).
    rewrite filter_cons in HB. case_decide as Hop.
    + cbn [run] in HB. apply bind_Some in HB as ([[st1b lrb] srb] & HsB & HB).
      destruct (step_L1I_det _ _ _ _ _ _ _ _ _ _ Hm Hc (same_access_refl o)
                  HsA HsB) as [Hm1 Hc1].
      exact (IH _ _ _ _ Hm1 Hc1 HA HB).
    + destruct (step_keeps_L1I _ _ _ _ _ Hop HsA) as [HL Hs].
      apply (IH st1 stb _ _); [by rewrite HL|by rewrite Hs|done|done].
Qed.

(** X26.  The data cache and the instruction cache do not influence each
    other, although they share L2.  The hits, misses and evictions of L1D
    and the lines it holds at the end of a trace are those of the trace
    without its INST operations; the statistics and lines of L1I are those
    of the INST operations alone.  (Each run is assumed to complete; the RAM
    images and the uninitialised blocks may differ.) *)
Theorem split_L1_independent
    junk junkd junki p ram ramd rami ops st0 st0d st0i st std sti :
  main_init junk p ram = Some st0 →
  main_init junkd p ramd = Some st0d →
  main_init junki p rami = Some st0i →
  run st0 ops = Some st →
  run st0d (filter (λ o, op o ≠ INST) ops) = Some std →
  run st0i (filter (λ o, op o = INST) ops) = Some sti →
  L1D_stats st = L1D_stats std ∧ meta (L1D st) = meta (L1D std)
  ∧ L1I_stats st = L1I_stats sti ∧ meta (L1I st) = meta (L1I sti).
Proof.
  intros Hinit Hinitd Hiniti Hrun Hrund Hruni.
  unfold main_init in Hinit, Hinitd, Hiniti.
  destruct (params_rejected p); [done|].
  injection Hinit as <-. injection Hinitd as <-. injection Hiniti as <-.
  pose proof (λ Hm Hc, run_L1D_det ops _ _ _ _ Hm Hc Hrun Hrund) as HD.
  pose proof (λ Hm Hc, run_L1I_det ops _ _ _ _ Hm Hc Hrun Hruni) as HI.
  cbn [L1D L1I L1D_stats L1I_stats] in HD, HI.
  destruct (HD (create_cache_meta _ _ _ _ _) eq_refl) as [HmD HcD].
  destruct (HI (create_cache_meta _ _ _ _ _) eq_refl) as [HmI HcI].
  done.
Qed.

Lemma split_L1_independent_witness :
  ∃ st0 st0d st0i st std sti,
    main_init zeroed p_small ram256 = Some st0
    ∧ main_init junk_ramp p_small ram64 = Some st0d
    ∧ main_init (λ _, uniform 2) p_small ram64 = Some st0i
    ∧ run st0 trace_mixed = Some st
    ∧ run st0d (filter (λ o, op o ≠ INST) trace_mixed) = Some std
    ∧ run st0i (filter (λ o, op o = INST) trace_mixed) = Some sti
    ∧ L1D_stats st = L1D_stats std ∧ meta (L1D st) = meta (L1D std)
    ∧ L1I_stats st = L1I_stats sti ∧ meta (L1I st) = meta (L1I sti).
Proof.
  do 6 eexists. split; [reflexivity|]. split; [reflexivity|].
  split; [reflexivity|]. split; [vm_compute; reflexivity|].
  split; [vm_compute; reflexivity|]. split; [vm_compute; reflexivity|].
  eapply (split_L1_independent zeroed junk_ramp (λ _, uniform 2) p_small ram256 ram64 ram64 trace_mixed);
    [reflexivity|reflexivity|reflexivity
    |vm_compute; reflexivity|vm_compute; reflexivity|vm_compute; reflexivity].
Defined.

(** ** The dumps and uninitialised memory *)

Lemma same_view_meta c c' : same_view c c' → meta c = meta c'.
Proof. by intros [? _]. Qed.

Lemma fill_line_same_view c cb si v t fp fpb a c' fp' cb' fpb' :
  same_view c cb → blocks_ok c → blocks_ok cb →
  fbytes fp = fbytes fpb →
  block_in_ram a (Cache.B c) (length (fbytes fp)) →
  fill_line c si v t fp a = Some (c', fp') →
  fill_line cb si v t fpb a = Some (cb', fpb') →
  same_view c' cb' ∧ fbytes fp' = fbytes fp ∧ fbytes fpb' = fbytes fpb.
Proof.
  intros [Hm Hblk] Hbl Hblb Hbytes Hram HA HB.
  pose proof (fill_fill_meta _ _ _ _ _ _ _ _ _ _ _ _ _ Hm HA HB) as Hm'.
  destruct (fill_line_ram _ _ _ _ _ _ _ _ HA) as [HbA _].
  destruct (fill_line_ram _ _ _ _ _ _ _ _ HB) as [HbB _].
  destruct (meta_geom _ _ Hm) as (_ & _ & HB12 & _).
  apply fill_line_at in HA as (old & blk & Hold & Hr & Hnew & Hfr).
  apply fill_line_at in HB as (oldb & blkb & Holdb & Hrb & Hnewb & Hfrb).
  assert (blk = blkb) as <-.
  { unfold line_at in Hold, Holdb.
    apply bind_Some in Hold as (set & Hset & Hl).
    apply bind_Some in Holdb as (setb & Hsetb & Hlb).
    apply read_block_from_ram_inv in Hr as (_ & _ & _ & Hb).
    apply read_block_from_ram_inv in Hrb as (_ & _ & _ & Hbb).
    rewrite (Hb Hram (Hbl _ _ _ _ Hset Hl)).
    rewrite Hbb; [by rewrite <- HB12, Hbytes| |].
    - by rewrite <- HB12, <- Hbytes.
    - by rewrite (Hblb _ _ _ _ Hsetb Hlb). }
  split; [|done]. split; [done|].
  intros sj j l l' Hl Hl' Hv.
  destruct (decide ((sj, j) = (Z.to_nat si, v))) as [[= -> ->]|Hne].
  - rewrite Hnew in Hl. rewrite Hnewb in Hl'.
    injection Hl as <-. by injection Hl' as <-.
  - rewrite Hfr in Hl by done. rewrite Hfrb in Hl' by done.
    by apply (Hblk sj j).
Qed.

Lemma write_line_same_view c cb si i off d n c' cb' :
  same_view c cb →
  (∀ old, line_at c (Z.to_nat si) i = Some old → valid old = true) →
  write_line c si i off d n = Some c' →
  write_line cb si i off d n = Some cb' →
  same_view c' cb'.
Proof.
  intros [Hm Hblk] Hvalid HA HB. split.
  { rewrite (write_line_meta _ _ _ _ _ _ _ HA).
    by rewrite (write_line_meta _ _ _ _ _ _ _ HB). }
  apply write_line_at in HA as (old & Hold & _ & _ & Hnew & Hfr).
  apply write_line_at in HB as (oldb & Holdb & _ & _ & Hnewb & Hfrb).
  intros sj j l l' Hl Hl' Hv.
  destruct (decide ((sj, j) = (Z.to_nat si, i))) as [[= -> ->]|Hne].
  - rewrite Hnew in Hl. rewrite Hnewb in Hl'.
    injection Hl as <-. injection Hl' as <-. cbn.
    by rewrite (Hblk _ _ _ _ Hold Holdb (Hvalid _ Hold)).
  - rewrite Hfr in Hl by done. rewrite Hfrb in Hl' by done.
    by apply (Hblk sj j).
Qed.

Lemma write_block_to_ram_bytes_det fp fpb a d n B fp' fpb' :
  fbytes fp = fbytes fpb →
  write_block_to_ram fp a d n B = Some fp' →
  write_block_to_ram fpb a d n B = Some fpb' →
  fbytes fp' = fbytes fpb'.
Proof.
  intros Hbytes HA HB.
  pose proof (write_block_to_ram_inv _ _ _ _ _ _ HA) as HiA.
  pose proof (write_block_to_ram_inv _ _ _ _ _ _ HB) as HiB.
  cbv zeta in HiA, HiB.
  destruct HiA as (_ & _ & _ & _ & _ & HlA).
  destruct HiB as (_ & _ & _ & _ & _ & HlB).
  apply list_eq. intros k. by rewrite HlA, HlB, Hbytes.
Qed.

Lemma store_l2_same_view L2 L2b a c2 fp fpb d n res
    L2' c2' fp' res' L2b' c2b' fpb' resb' :
  same_view L2 L2b → cache_wf L2 → cache_wf L2b →
  fbytes fp = fbytes fpb →
  block_in_ram a (Cache.B L2) (length (fbytes fp)) →
  store_l2 L2 a c2 fp d n res = Some (L2', c2', fp', res') →
  store_l2 L2b a c2 fpb d n res = Some (L2b', c2b', fpb', resb') →
  same_view L2' L2b' ∧ c2' = c2b' ∧ res' = resb'
  ∧ fbytes fp' = fbytes fp ∧ fbytes fpb' = fbytes fpb.
Proof.
  intros Hv (Hg & Hbl & Hok & _) (Hgb & Hblb & Hokb & _) Hbytes Hram HA HB.
  pose proof (same_view_meta _ _ Hv) as Hm.
  destruct (store_l2_det _ _ _ _ _ _ _ _ _ _ _ _ _ _ _ _ _ _ _ Hm HA HB)
    as (_ & Hc & Hr).
  destruct (store_l2_frame _ _ _ _ _ _ _ _ _ _ _ HA) as (HbA & _).
  destruct (store_l2_frame _ _ _ _ _ _ _ _ _ _ _ HB) as (HbB & _).
  split; [|done].
  apply store_l2_inv in HA as (t2 & s2 & o2 & r2 & He2 & Hf2 & HA).
  apply store_l2_inv in HB as (t2b & s2b & o2b & r2b & He2b & Hf2b & HB).
  destruct (parts_meta _ _ _ _ _ _ _ _ _ Hm He2 He2b) as (-> & -> & ->).
  rewrite <- (find_line_meta L2 L2b) in Hf2b by done.
  rewrite Hf2 in Hf2b. injection Hf2b as <-.
  destruct (meta_geom _ _ Hm) as (_ & _ & HB12 & _).
  destruct r2 as [k|w].
  - destruct HA as (_ & Hw & _). destruct HB as (_ & Hwb & _).
    rewrite <- HB12 in Hwb.
    eapply write_line_same_view; [exact Hv| |exact Hw|exact Hwb].
    intros old Hold.
    destruct (hit_line _ _ _ _ (sets_ok_shape _ Hok) Hf2) as (old' & Ho' & ? & _).
    change (get_line L2 s2 k) with (line_at L2 (Z.to_nat s2) k) in Ho'.
    rewrite Hold in Ho'. by injection Ho' as ->.
  - destruct HA as (vline & L2f & _ & _ & Hfill & Hw & _).
    destruct HB as (vlineb & L2fb & _ & _ & Hfillb & Hwb & _).
    destruct (fill_line_same_view _ _ _ _ _ _ _ _ _ _ _ _ Hv Hbl Hblb Hbytes
                Hram Hfill Hfillb) as (Hvf & _).
    rewrite <- HB12 in Hwb.
    eapply write_line_same_view; [exact Hvf| |exact Hw|exact Hwb].
    intros old Hold.
    destruct (fill_line_new_line _ _ _ _ _ _ _ _ Hfill) as (new & Hn & ? & _).
    change (get_line L2f s2 w) with (line_at L2f (Z.to_nat s2) w) in Hn.
    rewrite Hold in Hn. by injection Hn as ->.
Qed.

Lemma access_load_same_view L1 L2 L1b L2b a c1 c2 fp fpb res
    L1' L2' c1' c2' fp' res' L1b' L2b' c1b' c2b' fpb' resb' :
  same_view L1 L1b → same_view L2 L2b →
  cache_wf L1 → cache_wf L1b → cache_wf L2 → cache_wf L2b →
  fbytes fp = fbytes fpb →
  block_in_ram a (Cache.B L1) (length (fbytes fp)) →
  block_in_ram a (Cache.B L2) (length (fbytes fp)) →
  access_load L1 L2 a c1 c2 fp res = Some (L1', L2', c1', c2', fp', res') →
  access_load L1b L2b a c1 c2 fpb res
    = Some (L1b', L2b', c1b', c2b', fpb', resb') →
  same_view L1' L1b' ∧ same_view L2' L2b' ∧ c1' = c1b' ∧ c2' = c2b'
  ∧ res' = resb' ∧ fbytes fp' = fbytes fp ∧ fbytes fpb' = fbytes fpb.
Proof.
  intros Hv1 Hv2 (_ & Hbl1 & _) (_ & Hbl1b & _) (_ & Hbl2 & _) (_ & Hbl2b & _)
    Hbytes Hram1 Hram2 HA HB.
  pose proof (same_view_meta _ _ Hv1) as Hm1.
  pose proof (same_view_meta _ _ Hv2) as Hm2.
  destruct (access_load_det _ _ _ _ _ _ _ _ _ _ _ _ _ _ _ _ _ _ _ _ _ _
              Hm1 Hm2 HA HB) as (_ & _ & Hc1 & Hc2 & Hres).
  apply access_load_inv in HA as (t1 & s1 & o1 & r1 & He1 & Hf1 & HA).
  apply access_load_inv in HB as (t1b & s1b & o1b & r1b & He1b & Hf1b & HB).
  destruct (parts_meta _ _ _ _ _ _ _ _ _ Hm1 He1 He1b) as (-> & -> & ->).
  rewrite <- (find_line_meta L1 L1b) in Hf1b by done.
  rewrite Hf1 in Hf1b. injection Hf1b as <-.
  destruct r1 as [i|v].
  - destruct HA as (_ & -> & -> & _ & -> & _).
    destruct HB as (_ & -> & -> & _ & -> & _). done.
  - destruct HA as (t2 & s2 & o2 & r2 & c1m & fp2 & res2 & vline
                    & _ & He2 & Hf2 & Hr2 & _ & _ & Hfill1 & _).
    destruct HB as (t2b & s2b & o2b & r2b & c1mb & fp2b & res2b & vlineb
                    & _ & He2b & Hf2b & Hr2b & _ & _ & Hfill1b & _).
    destruct (parts_meta _ _ _ _ _ _ _ _ _ Hm2 He2 He2b) as (-> & -> & ->).
    rewrite <- (find_line_meta L2 L2b) in Hf2b by done.
    rewrite Hf2 in Hf2b. injection Hf2b as <-.
    assert (same_view L2' L2b' ∧ fbytes fp2 = fbytes fp
            ∧ fbytes fp2b = fbytes fpb) as (Hv2' & Hb2 & Hb2b).
    { destruct r2 as [k|w].
      - destruct Hr2 as (_ & -> & -> & _). by destruct Hr2b as (_ & -> & -> & _).
      - destruct Hr2 as (wline & _ & _ & Hfill2 & _).
        destruct Hr2b as (wlineb & _ & _ & Hfill2b & _).
        exact (fill_line_same_view _ _ _ _ _ _ _ _ _ _ _ _ Hv2 Hbl2 Hbl2b
                 Hbytes Hram2 Hfill2 Hfill2b). }
    assert (fbytes fp2 = fbytes fp2b) as Hb22 by congruence.
    assert (block_in_ram a (Cache.B L1) (length (fbytes fp2))) as Hram1'
      by (by rewrite Hb2).
    destruct (fill_line_same_view _ _ _ _ _ _ _ _ _ _ _ _ Hv1 Hbl1 Hbl1b
                Hb22 Hram1' Hfill1 Hfill1b) as (Hv1' & Hb1 & Hb1b).
    split; [done|]. split; [done|]. split; [done|]. split; [done|].
    split; [done|]. split; congruence.
Qed.

Lemma access_store_same_view L1 L2 L1b L2b a c1 c2 fp fpb o res
    L1' L2' c1' c2' fp' res' L1b' L2b' c1b' c2b' fpb' resb' :
  same_view L1 L1b → same_view L2 L2b →
  cache_wf L1 → cache_wf L1b → cache_wf L2 → cache_wf L2b →
  fbytes fp = fbytes fpb → 0 ≤ a < 2 ^ 32 →
  block_in_ram a (Cache.B L1) (length (fbytes fp)) →
  block_in_ram a (Cache.B L2) (length (fbytes fp)) →
  access_store L1 L2 a c1 c2 fp o res = Some (L1', L2', c1', c2', fp', res') →
  access_store L1b L2b a c1 c2 fpb o res
    = Some (L1b', L2b', c1b', c2b', fpb', resb') →
  same_view L1' L1b' ∧ same_view L2' L2b' ∧ c1' = c1b' ∧ c2' = c2b'
  ∧ res' = resb' ∧ fbytes fp' = fbytes fpb'
  ∧ length (fbytes fp') = length (fbytes fp).
Proof.
  intros Hv1 Hv2 Hw1 Hw1b Hw2 Hw2b Hbytes Ha Hram1 Hram2 HA HB.
  pose proof (same_view_meta _ _ Hv1) as Hm1.
  pose proof (same_view_meta _ _ Hv2) as Hm2.
  destruct (access_store_det _ _ _ _ _ _ _ _ _ _ _ _ _ _ _ _ _ _ _ _ _ _ _ _
              Hm1 Hm2 HA HB) as (_ & _ & Hc1 & Hc2 & Hres).
  destruct (meta_geom _ _ Hm1) as (_ & _ & HB1 & _).
  apply access_store_inv in HA. cbv zeta in HA.
  destruct HA as (t1 & s1 & o1 & r1 & He1 & Hf1 & _ & HA).
  apply access_store_inv in HB. cbv zeta in HB.
  destruct HB as (t1b & s1b & o1b & r1b & He1b & Hf1b & _ & HB).
  destruct (parts_meta _ _ _ _ _ _ _ _ _ Hm1 He1 He1b) as (-> & -> & ->).
  rewrite <- (find_line_meta L1 L1b) in Hf1b by done.
  rewrite Hf1 in Hf1b. injection Hf1b as <-.
  destruct r1 as [i|v].
  - destruct HA as (fp1 & res1 & _ & Hw & Hs2 & Hwb & _).
    destruct HB as (fp1b & res1b & _ & Hwb' & Hs2b & Hwbb & _).
    destruct (store_l2_same_view _ _ _ _ _ _ _ _ _ _ _ _ _ _ _ _ _
                Hv2 Hw2 Hw2b Hbytes Hram2 Hs2 Hs2b)
      as (Hv2' & _ & _ & Hb1 & Hb1b).
    rewrite (write_line_B _ _ _ _ _ _ _ Hw) in Hwb.
    rewrite (write_line_B _ _ _ _ _ _ _ Hwb'), <- HB1 in Hwbb.
    rewrite <- HB1 in Hwb'.
    split.
    { eapply write_line_same_view; [exact Hv1| |exact Hw|exact Hwb'].
      intros old Hold. destruct Hw1 as (_ & _ & Hok & _).
      destruct (hit_line _ _ _ _ (sets_ok_shape _ Hok) Hf1)
        as (old' & Ho' & ? & _).
      change (get_line L1 s1 i) with (line_at L1 (Z.to_nat s1) i) in Ho'.
      rewrite Hold in Ho'. by injection Ho' as ->. }
    split; [done|]. split; [done|]. split; [done|]. split; [done|].
    split.
    + assert (fbytes fp1 = fbytes fp1b) as Hb11 by congruence.
      exact (write_block_to_ram_bytes_det _ _ _ _ _ _ _ _ Hb11 Hwb Hwbb).
    + rewrite (write_block_to_ram_length _ _ _ _ _ _ Ha Hwb)
        by (by rewrite Hb1).
      by rewrite Hb1.
  - destruct HA as (fp1 & _ & -> & Hwb & Hs2).
    destruct HB as (fp1b & _ & -> & Hwbb & Hs2b).
    rewrite <- HB1 in Hwbb.
    pose proof (write_block_to_ram_bytes_det _ _ _ _ _ _ _ _ Hbytes Hwb Hwbb)
      as Hb1.
    pose proof (write_block_to_ram_length _ _ _ _ _ _ Ha Hwb Hram1) as Hlen.
    assert (block_in_ram a (Cache.B L2) (length (fbytes fp1))) as Hram2'
      by (by rewrite Hlen).
    destruct (store_l2_same_view _ _ _ _ _ _ _ _ _ _ _ _ _ _ _ _ _
                Hv2 Hw2 Hw2b Hb1 Hram2' Hs2 Hs2b)
      as (Hv2' & _ & _ & Hb2 & Hb2b).
    split; [done|]. split; [done|]. split; [done|]. split; [done|].
    split; [done|]. split; congruence.
Qed.

Lemma access_load_pair B1 B2 N L1 L2 L1b L2b a c1 c2 fp fpb res
    L1' L2' c1' c2' fp' res' L1b' L2b' c1b' c2b' fpb' resb' :
  pair_shown B1 B2 N L1 L2 L1b L2b fp fpb →
  block_in_ram a B1 N → block_in_ram a B2 N →
  access_load L1 L2 a c1 c2 fp res = Some (L1', L2', c1', c2', fp', res') →
  access_load L1b L2b a c1 c2 fpb res
    = Some (L1b', L2b', c1b', c2b', fpb', resb') →
  pair_shown B1 B2 N L1' L2' L1b' L2b' fp' fpb'
  ∧ c1' = c1b' ∧ c2' = c2b' ∧ res' = resb'.
Proof.
  intros (Hv1 & Hv2 & Hbytes & Hlen & Hw1 & Hw1b & Hw2 & Hw2b & <- & <-)
    Hram1 Hram2 HA HB.
  rewrite <- Hlen in Hram1, Hram2.
  destruct (access_load_same_view _ _ _ _ _ _ _ _ _ _ _ _ _ _ _ _ _ _ _ _ _ _
              Hv1 Hv2 Hw1 Hw1b Hw2 Hw2b Hbytes Hram1 Hram2 HA HB)
    as (Hv1' & Hv2' & Hc1 & Hc2 & Hres & Hb & Hbb).
  destruct (access_load_wf _ _ _ _ _ _ _ _ _ _ _ _ _ Hw1 Hw2 HA).
  destruct (access_load_wf _ _ _ _ _ _ _ _ _ _ _ _ _ Hw1b Hw2b HB).
  destruct (access_load_geom _ _ _ _ _ _ _ _ _ _ _ _ _ HA)
    as [(_ & _ & _ & _ & HB1) (_ & _ & _ & _ & HB2)].
  split; [|done]. repeat (split; [done || congruence|]). done.
Qed.

Lemma access_store_pair B1 B2 N L1 L2 L1b L2b a c1 c2 fp fpb o res
    L1' L2' c1' c2' fp' res' L1b' L2b' c1b' c2b' fpb' resb' :
  pair_shown B1 B2 N L1 L2 L1b L2b fp fpb →
  0 ≤ a < 2 ^ 32 → block_in_ram a B1 N → block_in_ram a B2 N →
  access_store L1 L2 a c1 c2 fp o res = Some (L1', L2', c1', c2', fp', res') →
  access_store L1b L2b a c1 c2 fpb o res
    = Some (L1b', L2b', c1b', c2b', fpb', resb') →
  pair_shown B1 B2 N L1' L2' L1b' L2b' fp' fpb'
  ∧ c1' = c1b' ∧ c2' = c2b' ∧ res' = resb'.
Proof.
  intros (Hv1 & Hv2 & Hbytes & Hlen & Hw1 & Hw1b & Hw2 & Hw2b & <- & <-)
    Ha Hram1 Hram2 HA HB.
  rewrite <- Hlen in Hram1, Hram2.
  destruct (access_store_same_view _ _ _ _ _ _ _ _ _ _ _ _ _ _ _ _ _ _ _ _ _
              _ _ Hv1 Hv2 Hw1 Hw1b Hw2 Hw2b Hbytes Ha Hram1 Hram2 HA HB)
    as (Hv1' & Hv2' & Hc1 & Hc2 & Hres & Hb & Hl).
  destruct (access_store_wf _ _ _ _ _ _ _ _ _ _ _ _ _ _ Hw1 Hw2 HA).
  destruct (access_store_wf _ _ _ _ _ _ _ _ _ _ _ _ _ _ Hw1b Hw2b HB).
  destruct (access_store_geom _ _ _ _ _ _ _ _ _ _ _ _ _ _ HA)
    as [(_ & _ & _ & _ & HB1) (_ & _ & _ & _ & HB2)].
  split; [|done]. repeat (split; [done || congruence|]). done.
Qed.

(** The other L1 cache is untouched by an access: it goes with the new L2
    and the new stream. *)
Lemma pair_shown_other B1 B2 N L1 L2 L1b L2b fp fpb K Kb L2o L2bo fpo fpbo :
  pair_shown B1 B2 N L1 L2 L1b L2b fp fpb →
  pair_shown B1 B2 N K L2o Kb L2bo fpo fpbo →
  pair_shown B1 B2 N K L2 Kb L2b fp fpb.
Proof.
  intros (_ & ? & ? & ? & _ & _ & ? & ? & _ & ?)
         (? & _ & _ & _ & ? & ? & _ & _ & ? & _).
  do 9 (split; [assumption|]). assumption.
Qed.

Lemma step_same_shown B1 B2 N st stb o st' lr sr stb' lrb srb :
  same_shown B1 B2 N st stb → op_covered B1 B2 N o →
  step st o = Some (st', lr, sr) → step stb o = Some (stb', lrb, srb) →
  same_shown B1 B2 N st' stb' ∧ lr = lrb ∧ sr = srb.
Proof.
  intros (HD & HI & HcD & HcI & Hc2) (Ha & Hr1 & Hr2) HA HB.
  apply step_inv in HA. apply step_inv in HB.
  rewrite <- HcD, <- HcI, <- Hc2 in HB.
  destruct (op o).
  - destruct HA as (l1 & l2 & c1 & c2 & fp & HA & -> & ->).
    destruct HB as (l1b & l2b & c1b & c2b & fpb & HB & -> & ->).
    destruct (access_load_pair _ _ _ _ _ _ _ _ _ _ _ _ _ _ _ _ _ _ _ _ _ _ _ _
                _ HD Hr1 Hr2 HA HB) as (HD' & ? & ? & ?).
    split; [|done]. split; [done|].
    split; [exact (pair_shown_other _ _ _ _ _ _ _ _ _ _ _ _ _ _ _ HD' HI)|].
    done.
  - destruct HA as (l1 & l2 & c1 & c2 & fp & HA & -> & ->).
    destruct HB as (l1b & l2b & c1b & c2b & fpb & HB & -> & ->).
    destruct (access_store_pair _ _ _ _ _ _ _ _ _ _ _ _ _ _ _ _ _ _ _ _ _ _ _
                _ _ _ HD Ha Hr1 Hr2 HA HB) as (HD' & ? & ? & ?).
    split; [|done]. split; [done|].
    split; [exact (pair_shown_other _ _ _ _ _ _ _ _ _ _ _ _ _ _ _ HD' HI)|].
    done.
  - destruct HA as (l1 & l2 & c1 & c2 & fp & HA & ->).
    destruct HB as (l1b & l2b & c1b & c2b & fpb & HB & ->).
    apply access_modify_inv in HA as (l1m & l2m & c1m & c2m & fpm & HlA & HsA).
    apply access_modify_inv in HB
      as (l1mb & l2mb & c1mb & c2mb & fpmb & HlB & HsB).
    destruct (access_load_pair _ _ _ _ _ _ _ _ _ _ _ _ _ _ _ _ _ _ _ _ _ _ _ _
                _ HD Hr1 Hr2 HlA HlB) as (HDm & <- & <- & Hlr).
    destruct (access_store_pair _ _ _ _ _ _ _ _ _ _ _ _ _ _ _ _ _ _ _ _ _ _ _
                _ _ _ HDm Ha Hr1 Hr2 HsA HsB) as (HD' & ? & ? & ?).
    split; [|done]. split; [done|].
    split; [exact (pair_shown_other _ _ _ _ _ _ _ _ _ _ _ _ _ _ _ HD' HI)|].
    done.
  - destruct HA as (l1 & l2 & c1 & c2 & fp & HA & -> & ->).
    destruct HB as (l1b & l2b & c1b & c2b & fpb & HB & -> & ->).
    destruct (access_load_pair _ _ _ _ _ _ _ _ _ _ _ _ _ _ _ _ _ _ _ _ _ _ _ _
                _ HI Hr1 Hr2 HA HB) as (HI' & ? & ? & ?).
    split; [|done].
    split; [exact (pair_shown_other _ _ _ _ _ _ _ _ _ _ _ _ _ _ _ HI' HD)|].
    done.
Qed.

Lemma run_same_shown B1 B2 N ops : ∀ st stb st' stb',
  same_shown B1 B2 N st stb → Forall (op_covered B1 B2 N) ops →
  run st ops = Some st' → run stb ops = Some stb' →
  same_shown B1 B2 N st' stb' ∧ run_log st ops = run_log stb ops.
Proof.
  induction ops as [|o ops IH]; intros st stb st' stb' Hs Hops HA HB.
  - cbn in HA, HB. injection HA as <-. by injection HB as <-.
  - apply Forall_cons in Hops as [Ho Hops]. cbn [run] in HA, HB.
    apply bind_Some in HA as ([[st1 lr] sr] & HsA & HA).
    apply bind_Some in HB as ([[st1b lrb] srb] & HsB & HB).
    destruct (step_same_shown _ _ _ _ _ _ _ _ _ _ _ _ Hs Ho HsA HsB)
      as (Hs1 & <- & <-).
    destruct (IH _ _ _ _ Hs1 Hops HA HB) as [Hs' Hlog].
    split; [done|]. cbn [run_log]. rewrite HsA, HsB. cbn.
    by rewrite Hlog.
Qed.

Lemma mapM_ext_in {A B} (f g : A → option B) (l : list A) :
  (∀ x, x ∈ l → f x = g x) → mapM f l = mapM g l.
Proof.
  induction l as [|x l IH]; intros Hfg; [done|]. cbn [mapM].
  rewrite (Hfg x) by left. rewrite IH; [done|].
  intros y Hy. apply Hfg. by right.
Qed.

(** The dump reads valid lines only: caches that differ in the blocks of
    invalid lines have the same dump. *)
Lemma print_cache_same_view c c' :
  same_view c c' → print_cache_to_file c = print_cache_to_file c'.
Proof.
  intros [Hm Hblk]. pose proof Hm as Hm'. unfold meta in Hm'.
  injection Hm' as Hsets _ HE _ HS HB _.
  unfold print_cache_to_file. rewrite <- HS.
  rewrite (mapM_ext_in (print_set c) (print_set c')); [done|].
  intros i _. unfold print_set.
  assert ((λ set, meta_line <$> lines set) <$> Cache.sets c !! i
          = (λ set, meta_line <$> lines set) <$> Cache.sets c' !! i)
    as Hs by (by rewrite <- !list_lookup_fmap, Hsets).
  destruct (Cache.sets c !! i) as [set|] eqn:Hset,
           (Cache.sets c' !! i) as [set'|] eqn:Hset'; try done.
  cbn in Hs. injection Hs as Hls. step_bind. rewrite <- HE.
  rewrite (mapM_ext_in (λ j, line ← lines set !! j; print_line c j line)
             (λ j, line ← lines set' !! j; print_line c' j line)); [done|].
  intros j _.
  assert (meta_line <$> lines set !! j = meta_line <$> lines set' !! j)
    as Hl by (by rewrite <- !list_lookup_fmap, Hls).
  destruct (lines set !! j) as [l|] eqn:Hlj,
           (lines set' !! j) as [l'|] eqn:Hlj'; try done.
  cbn in Hl. injection Hl as Hv Ht Hf. step_bind. unfold print_line.
  rewrite <- Hv, <- Ht, <- Hf. destruct (valid l) eqn:Hvl; [|done].
  unfold print_block. rewrite <- HB.
  assert (block l = block l') as <-; [|done].
  apply (Hblk i j); [| |done]; unfold line_at.
  - by rewrite Hset; cbn; rewrite Hlj.
  - by rewrite Hset'; cbn; rewrite Hlj'.
Qed.

Lemma create_cache_same_view junk junk' s E b :
  same_view (create_cache_with junk s E b) (create_cache_with junk' s E b).
Proof.
  split; [apply create_cache_meta|].
  intros sj j l l' Hl _ Hv. unfold line_at in Hl.
  apply bind_Some in Hl as (set & Hset & Hl).
  by rewrite (create_cache_cold junk s E b _ _ _ _ Hset Hl) in Hv.
Qed.

(** X27.  What [malloc] left in the blocks never reaches an output.  Two
    runs of [main] with the same parameters, RAM.dat and trace, which differ
    only in the content of the uninitialised blocks of the new caches, and
    in which RAM.dat covers the L1 and the L2 block of every address, give
    the same per-operation records, the same nine statistics, the same
    final RAM.dat and the same three dumps of [print_cache_to_file]. *)
Theorem dumps_ignore_uninitialised_blocks junk junk' p ram ops st0 st0' st st' :
  main_init junk p ram = Some st0 → main_init junk' p ram = Some st0' →
  L1s p + L1b p < 32 → L2s p + L2b p < 32 → 1 ≤ L1E p → 1 ≤ L2E p →
  Forall (op_covered (2 ^ L1b p) (2 ^ L2b p) (length ram)) ops →
  run st0 ops = Some st → run st0' ops = Some st' →
  run_log st0 ops = run_log st0' ops
  ∧ L1D_stats st = L1D_stats st' ∧ L1I_stats st = L1I_stats st'
  ∧ L2_stats st = L2_stats st'
  ∧ fbytes (ram_fp st) = fbytes (ram_fp st')
  ∧ print_cache_to_file (L1D st) = print_cache_to_file (L1D st')
  ∧ print_cache_to_file (L1I st) = print_cache_to_file (L1I st')
  ∧ print_cache_to_file (L2 st) = print_cache_to_file (L2 st').
Proof.
  intros Hinit Hinit' H1 H2 HE1 HE2 Hops Hrun Hrun'.
  unfold main_init in Hinit, Hinit'.
  destruct (params_rejected p) eqn:Hp; [done|].
  injection Hinit as <-. injection Hinit' as <-.
  apply params_accepted_nonneg in Hp as (? & ? & ? & ?).
  assert (∀ n, pair_shown (2 ^ L1b p) (2 ^ L2b p) (length ram)
            (create_cache_with (junk n) (L1s p) (L1E p) (L1b p))
            (create_cache_with (junk 2%nat) (L2s p) (L2E p) (L2b p))
            (create_cache_with (junk' n) (L1s p) (L1E p) (L1b p))
            (create_cache_with (junk' 2%nat) (L2s p) (L2E p) (L2b p))
            (mkFILE ram 0 0) (mkFILE ram 0 0)) as Hpair.
  { intros n. split; [apply create_cache_same_view|].
    split; [apply create_cache_same_view|].
    split; [done|]. split; [done|].
    do 4 (split; [by apply create_cache_wf|]).
    cbn [create_cache_with Cache.B]. split; apply shiftl_1_wrap; lia. }
  pose proof (λ Hs, run_same_shown _ _ _ ops _ _ _ _ Hs Hops Hrun Hrun')
    as Hsim.
  destruct Hsim as [(HD & HI & HcD & HcI & Hc2) Hlog].
  { split; [exact (Hpair 0%nat)|]. split; [exact (Hpair 1%nat)|]. done. }
  destruct HD as (HvD & Hv2 & Hb & _). destruct HI as (HvI & _).
  split; [done|]. split; [done|]. split; [done|]. split; [done|].
  split; [done|].
  split; [by apply print_cache_same_view|].
  split; by apply print_cache_same_view.
Qed.

Lemma dumps_ignore_uninitialised_blocks_witness :
  ∃ st0 st0' st st',
    main_init zeroed p_small ram256 = Some st0
    ∧ main_init junk_ramp p_small ram256 = Some st0'
    ∧ run st0 trace_mixed = Some st ∧ run st0' trace_mixed = Some st'
    ∧ run_log st0 trace_mixed = run_log st0' trace_mixed
    ∧ L1D_stats st = L1D_stats st' ∧ L1I_stats st = L1I_stats st'
    ∧ L2_stats st = L2_stats st'
    ∧ fbytes (ram_fp st) = fbytes (ram_fp st')
    ∧ print_cache_to_file (L1D st) = print_cache_to_file (L1D st')
    ∧ print_cache_to_file (L1I st) = print_cache_to_file (L1I st')
    ∧ print_cache_to_file (L2 st) = print_cache_to_file (L2 st').
Proof.
  do 4 eexists. split; [reflexivity|]. split; [reflexivity|].
  split; [vm_compute; reflexivity|]. split; [vm_compute; reflexivity|].
  eapply (dumps_ignore_uninitialised_blocks zeroed junk_ramp p_small ram256 trace_mixed);
    [reflexivity|reflexivity|cbn; lia|cbn; lia|cbn; lia|cbn; lia|
    |vm_compute; reflexivity|vm_compute; reflexivity].
  repeat (apply Forall_cons; split;
          [unfold op_covered, block_in_ram; vm_compute;
           repeat split; first [done | lia]|]).
  apply Forall_nil_2.
Defined.
